(* ===== verification/_CoqProject ===== *)
-Q . S2P
Prelude.v
Dict.v
Values.v
Regex.v
Backtrack.v
Matcher.v
Rows.v
Pivot.v
Heap.v
Space.v
Lazy.v
HeapLazy.v
Schema.v
HeapSchema.v
Unpivot.v
HeapUnpivot.v
Machine.v
Typing.v
Scenarios.v
