(* ===== verification/Prelude.v ===== *)
(** * Verification of the dataflows [unpivot] processor

    Program: [src/dataflows/processors/unpivot.py], a streaming wide-to-long
    ("unpivot") transformation over a package of tables.  The Python module
    has three functions:

    - [match_fields(field_name_re, expected)] (lines 7-10): the predicate
      "the field's name fully matches the pattern" (or its negation);
    - [unpivot_rows(rows, fields_to_unpivot, fields_to_keep, extra_value)]
      (lines 13-20): a generator that turns every input row into one output
      row per resolved pivot field;
    - [unpivot(unpivot_fields, extra_keys, extra_value, resources)]
      (lines 23-77), whose inner generator [func(package)] first rewrites the
      schema of every selected table (lines 27-64), then yields the package
      descriptor (line 66), then yields one row stream per table (lines
      68-75).

    ** How the development is laid out

    - [Prelude] (this file): Python exceptions as values ([error]), the
      error monad [result] with its notation (scope [result_scope]),
      left-to-right list traversals that stop at the first exception
      ([mapM], [filterM], [foldM]), generator traces ([gen]: the finite
      sequence of values a generator yields, ended by exhaustion or by a
      raised exception), the tactics and the hint database [unpivot].
    - [Dict]: Python's insertion-ordered [dict] with string keys as an
      association list ([dict_get], [dict_set], [dict_keys]), its
      well-formedness invariant (keys are pairwise distinct), the
      order-insensitive equivalence [dict_equiv] with its [Proper]
      instances, and the refinement to stdpp's [gmap].
    - [Values]: the Python values the processor handles ([value]: None,
      bool, int, str, list, dict), subscripting and [dict.get] on them with
      the exceptions Python raises, [copy.deepcopy].
    - [Regex]: what the processor needs of Python's [re] module, as the
      interface [RegexEngine] ([re_compile], [re_fullmatch], [re_sub]) with
      the laws [RegexLiteral] for patterns without metacharacters, and an
      engine for literal patterns that satisfies them.
    - [Backtrack]: a second engine, for the patterns unpivot
      specifications are written with: a parser ([bt_compile]), a
      backtracking matcher with numbered groups ([match_re],
      [bt_fullmatch]) and [re.sub] with replacement templates ([bt_sub]),
      modelled from the documented behaviour of Python 3.7 and later; the
      language of a pattern ([matches]) as the reference for the matcher.
    - [Matcher]: [match_fields], and the resource matcher
      ([ResourceMatcher], modelled from the specification: its code is in
      [dataflows/helpers], outside [src/]).
    - [Rows]: the row expander [unpivot_rows] with [make_row] (the loop
      body, lines 16-20).
    - [Lazy]: the generator object of [unpivot_rows]: its suspended frame
      ([frame]: the row source, the current row, the pivot fields left for
      it) and [next], one resumption up to the next [yield]; the theorems
      that it delivers the trace of [Rows] and reads its source one row at
      a time.
    - [Schema]: the schema resolver: [resolve_keys_step] (lines 52-58),
      [pivot_field] (lines 49-59), [resolve_spec] (lines 39-59),
      [resolve_resource] and [resolve_resources] (lines 29-64),
      [schema_pass] (lines 27-64), with the two locals that survive the
      loop as the record [resolver_state].
    - [Unpivot]: [row_pass] (lines 68-75), [func] and [unpivot], the
      composition of the two passes, with the end-to-end theorems and the
      scenarios on literal column names.
    - [Machine]: the processor at run time.  [func_next] is one resumption
      of the generator of [func] ([func_first]: lines 27-66, [func_table]:
      one turn of the loop of lines 68-75); a [rowgen] is the generator
      object line 72 creates, with the arguments of the call; a [machine]
      holds the frame of [func], the row generators it has yielded and the
      history of what the consumer observed; [step] is the next-state
      relation of a consumer that pulls on any generator that has not
      finished, [run] the consumer's loop for a given schedule of pulls.
    - [Typing]: the invariant [Values.value_wf] (every dictionary has each
      key once) followed through the schema pass, the row expander and the
      observations of the machine.
    - [Pivot]: the way back, as a reference: [pivot_rows] rebuilds the wide
      rows from the long rows; the round-trip theorem.
    - [Heap]: lines 13-20 once more, on a store of mutable objects:
      references ([ref]) and objects ([object]), computations that read
      and write the store and may raise ([heapM]), assignment in place
      ([setitem_h]), [copy.deepcopy] ([deepcopy_h]), and on them
      [make_row_h], [expand_row_h], [unpivot_rows_h]; [reify] reads the
      value a reference stands for and is the abstraction function of the
      refinement to [Rows].
    - [Space]: the recursion depth and the number of objects of line 16,
      measured on the value that is copied ([value_height],
      [value_nodes]).
    - [HeapLazy]: the generator object of [unpivot_rows] on the object
      store ([next_h]) and a consumer that pulls rows and, between the
      pulls, writes to the store ([system], [step_h]); the simulation by
      [Lazy.next].
    - [HeapSchema]: lines 28-64 once more, on the object store:
      [match_fields_h] (lines 7-10), [resolve_keys_step_h] (lines 52-58),
      [pivot_field_h], [resolve_spec_h] (lines 39-59), [table_fields_h]
      (lines 30-37), [install_fields_h] (lines 61-64),
      [resolve_resource_h] and [schema_pass_h]; [selected_rows_h] (lines
      72-75) is the call of the row expander with the locals the pass
      left; [rename_value_column_h] is a consumer that assigns to the
      descriptor it was given.  The file carries the calculus of
      footprints ([reach], [within], [tree], [pres], [hsimP]) the proofs
      are written in.
    - [HeapUnpivot]: [func] on the object store: [row_pass_h] (lines
      68-75), [func_h] (lines 25-75) and [unpivot_h], with the package as
      a reference to its descriptor and the rows of the sources as
      references ([package_wrapper_h]); the refinement to [Unpivot.func].
    - [Scenarios]: the scenario and the regex template law of the
      specification, run with the backtracking engine.

    The components meet at two interfaces.  The processor is written and
    proved against the class [RegexEngine]; the class [RegexLiteral]
    states the laws the theorems on literal column names need, and both
    engines discharge them.  The schema resolver promises the row
    expander pivot fields that satisfy [pivot_ok] (a name and a key
    mapping) and rows are required to satisfy [row_ok] (every kept field is
    present): the theorems of [Rows] and [Lazy] assume exactly that, and
    [schema_pass_total] and [resolve_resource_schema] establish it.

    ** Correspondence of state and effects

    Python values are modelled structurally: a [dict] is the list of its
    items in insertion order, so that iteration order, [d[k] = v] on an
    existing key (the position is kept) and on a new key (appended) are as
    in Python.  An exception is a value of [error]; code that may raise
    returns [result].  A generator is modelled by its trace [gen]: what it
    yields, in order, and how it ends; the generator object of [Lazy]
    shows that the trace is produced on demand, and [Machine] does the
    same for [func] and for the system of all the generators: its state is
    the frames that are alive, its steps are the calls of [next] the
    consumer makes, in any order.  In-place mutation of the
    package descriptor becomes state passing: [schema_pass] returns the
    rewritten descriptor together with the two locals that survive the
    loop, [unpivot_fields_without_regex] and [fields_to_keep] (the latter
    [None] while the Python local is unbound).

    Structural values cannot tell one dictionary that is referred to twice
    from two equal dictionaries, so on them [copy.deepcopy] (line 16) does
    nothing.  [Heap] therefore models the row expander a second time, on
    the object store: the store is the list of the objects created so far,
    an address is a position in it, a new object goes to the end, and
    [new_row[field] = x] replaces the object at the address of [new_row].
    A reference stands for a value ([repr]) when [reify] reads that value
    from the store; the store is [closed] when no object holds an address
    that is not in use.

    [HeapSchema] does the same for the first loop.  There the code
    assigns to objects that exist: line 58 to the field object it found
    in the schema, lines 62-63 to the working list, line 64 to the schema
    object.  [schema_pass_h] runs in the store and returns the two locals
    as references ([resolver_state_h]); the descriptor is read back from
    the store the pass leaves.  The footprint [reach n h r] lists the
    addresses that are read when [r] is read to depth [n]; [tree] says
    that no address is listed twice, which is what makes an assignment
    inside the descriptor visible at one place only; [pres P h0 h] says
    that [h] is closed, has the objects of [h0] and differs from [h0] at
    addresses of [P] only.  Every procedure of the pass is specified by
    [hsimP]: it agrees with its counterpart of [Schema] on the values the
    references stand for, and it writes inside the footprint of the
    descriptor only.

    ** What the theorems show

    - Row expander: row count, order of the output, the keys and the values
      of every output row, propagation of upstream failures, the exact
      point at which a missing field raises [KeyError].
    - Schema resolver: each specification partitions the current field
      list; a field consumed by an earlier specification is not seen by a
      later one; the new schema is kept fields, extra keys, extra value;
      tables that are not selected or have no schema are unchanged; the
      resolved keys have the key names of the specification.
    - Generator object: [next] refines the trace in every state; a consumer
      that drains it collects the trace; a closed generator stays closed;
      to deliver [k] rows it reads no more source rows than those rows are
      built from (no read-ahead), so a failure further down the source is
      not observed early.
    - Composition: the descriptor is yielded before any row stream,
      tables keep their order, unselected tables pass through; for one
      selected table, [func] yields the rewritten descriptor and the
      reference expansion of the rows.
    - Shared locals: the pivot fields recorded by the first loop accumulate
      over the tables and [fields_to_keep] is that of the last table with a
      schema; what this does to a package with two selected tables, to a
      selected table without a schema and to a specification without keys
      is stated as theorems on concrete packages.
    - Regular expressions: [bt_fullmatch] accepts exactly the strings of
      the language of the pattern; the backtracking engine obeys the laws
      of [RegexLiteral]; with it, the scenario of the specification gives
      the rows the specification lists when the key template is written
      [\1], the template [$1] of the specification is copied as it is, and
      a pattern that matches the empty string has its template substituted
      twice.
    - Running system ([Machine]): an invariant of the reachable states,
      proved by induction on the steps, says that what the consumer has
      observed of a generator, followed by what that generator has still to
      deliver, is its part of the trace of [func], whatever the
      interleaving of the pulls ([machine_refines]); the descriptor made by
      the schema pass is the first observation and precedes every row
      ([descriptor_before_rows]); pulls on different generators commute, so
      the tables do not interfere at run time ([pulls_commute], with
      [same_view] as the equivalence of states and [Proper] instances for
      [pull] and [run]); the pulls terminate within [pull_bound]
      ([pulls_terminate]); from every reachable state the consumer can
      reach a state where every generator has finished, and in every such
      state it has observed the whole trace ([everything_delivered]).
    - Well-formedness ([Typing]): the schema pass maps well-formed
      descriptors to well-formed descriptors and pivot fields, and every row
      the consumer gets is a well-formed dictionary.
    - Round trip ([Pivot]): when the wide rows have exactly the kept and the
      pivoted columns, they are recovered from the long rows, up to the
      order of the columns.
    - Object store ([Heap]): the loop body on the store agrees with
      [make_row] on the values its inputs stand for, exception for
      exception ([make_row_h_refines]), and so does the generator, whose
      rows are read in the final store: no row changes after it was
      yielded, and the rows are pairwise distinct objects
      ([unpivot_rows_h_refines]); the loop body writes to no object that
      existed and returns a new one, on every input and in every store,
      well formed or not ([make_row_h_fresh]); it gives the same
      rows in every later store in which the objects that existed are as
      they were, whatever was done to the rows already handed out
      ([make_row_h_later]); [copy.deepcopy] gives a new value that shares
      no object with the original ([deepcopy_h_copies]).  The proofs use a
      relational calculus ([hsim], with the rules [hsim_bind],
      [hsim_ret]) for the agreement with the value model and two unary
      ones: [grows] for computations that only create objects and [keeps]
      for computations that write to none of the objects below a mark.
    - Generator and consumer on the store ([HeapLazy]): a pull is matched
      by [Lazy.next] on the values the frame stands for and a change of
      the store by no step, so the invariant [inv_h] of the reachable
      states gives [consumer_reads_trace]: a consumer that writes to the
      rows it was given between its pulls still reads the rows of the
      value model, each at the time it gets it.  What is assumed of the
      changes is in the rule [step_write]: the store stays closed and the
      objects that existed when the generator was created are not written
      to.
    - Schema resolver on the store ([HeapSchema]): for a descriptor that
      is a tree and a configuration that the descriptor does not reach,
      the pass in place raises what [Schema.schema_pass] returns as an
      exception, or the descriptor reference reads, afterwards, as the
      descriptor [Schema.schema_pass] returns, and the pivoted field
      objects as the pivot fields it records ([schema_pass_h_refines]);
      exception or not, the pass writes inside the descriptor only and
      the configuration reads as before ([schema_pass_h_frame]); every
      rewritten schema ends with the objects of [extra_keys] and with the
      object [extra_value] themselves, so the schemas of all selected
      tables and the configuration share them ([extra_value_shared]); a
      consumer that renames the value column in the descriptor it was
      given thereby renames [extra_value['name']], which line 19 reads
      for every row made afterwards ([value_column_rename],
      [renamed_rows]); and the rows made on lines 72-75 from the field
      objects the pass changed in place are the rows of the value model
      ([selected_rows_h_refines]).
    - Processor on the store ([HeapUnpivot]): what [func_h] yields
      reads, in the store it leaves, as what [Unpivot.func] yields, and
      it ends the same way: the descriptor that was changed in place, the
      rows of the selected tables, the other tables as they were; no
      object outside the descriptor is written to ([func_h_refines]).
      Under its hypotheses, what is proved of [Unpivot.func] carries
      over to the processor with its assignments in place.
    - Space ([Space]): one output row creates as many objects as the key
      mapping of its pivot field has dictionaries and lists, whatever
      the width of the row, and the loop body raises [RecursionError]
      exactly when the key mapping is nested deeper than the recursion
      depth that is left ([make_row_h_space], [deepcopy_h_bounds]).
    - Dictionaries: assignment refines the insertion of a finite map and
      keeps Python's insertion order.

    The main theorems that have hypotheses are applied to the data of the
    [sales] scenario (the [ex_] definitions) by a lemma named after them
    with the suffix [_witness], which shows that the hypotheses can be
    met.

    ** Bounds, fuel

    The definitions that model the code recurse structurally (on lists,
    traces and values) and use no fuel.  The only fuel is in [Lazy.drain],
    the consumer's loop around [next]: [drain_unpivot_rows] shows that
    (input rows) x (pivot fields) + 1 calls are enough, because every call
    but the last returns a row of the trace.  Traces are finite: an endless
    row source is outside the model.  The steps of [Machine] need no fuel:
    [weight] (the number of pulls the generators that are alive, and those
    still to be created, can answer) decreases with every step, and
    [pull_bound] bounds it for the initial state by 2 plus, for every table,
    2 plus (rows) x (pivot fields); on the package of the examples the
    bound is reached.  In [Heap], [deepcopy_h] recurses on [depth], the
    recursion depth Python has left, and raises [RecursionError] when the
    value is nested deeper; [reify] reads a value to depth [n].  The
    theorems assume that the inputs can be read to depth [n + 1] and that
    [n <= depth]: then the key mapping, which is inside the pivot field,
    can be read to depth [n] and is copied without [RecursionError];
    [Space] makes the bound exact: the depth needed is [value_height] of
    the key mapping.  In [HeapSchema] the inputs (the descriptor and the
    configuration) are read to depth [n]; a pivoted field, which gets a
    new key mapping around values of the configuration, is read to depth
    [n + 2], a table to depth [n + 3] and the descriptor after the pass
    to depth [n + 5], one level for each dictionary or list between the
    descriptor and a field; the recursion depth [depth] of
    [copy.deepcopy] has to be at least [n + 1], the depth to which a
    resolved key mapping is read.  The store itself is unbounded.  In
    [Backtrack], which models a
    library and not the source file, the parser runs on fuel 4 n + 4 for a
    pattern of n characters (every call consumes a character or enters one
    of three mutually recursive functions), the template parser on fuel n,
    the loop of [re.sub] on fuel 2 n + 2 (every turn consumes a character
    or follows an empty match), and a repetition iterates at most once per
    character left, since an iteration has to consume one.

    ** Not modelled

    Of Python's [re]: anchors, counted and lazy repetition, look-around,
    back-references inside patterns, named groups, flags and characters
    beyond 8 bits (the engines refuse such patterns with [ReError]);
    input/output and the pipeline around the processor; values
    other than None, bool, int, str, list and dict (the processor never
    inspects cell values); the state of the caller's descriptor after an
    exception was raised half-way through the schema pass (on the store,
    [schema_pass_h_frame] bounds where it was written to, not what was
    written); in [HeapSchema], package descriptors in which an object is
    reached twice or that reach the configuration: the theorems assume a
    tree, as a descriptor loaded from JSON is; in [HeapUnpivot], a
    consumer that takes the rows of the tables in another order than the
    tables come (on values [Machine] covers every order, and on the
    store the row expander writes to no object that existed); consumers
    that write to the descriptor other than [rename_value_column_h]; the
    memo table of [copy.deepcopy], which keeps the
    sharing inside the copied value and copies cyclic values: [deepcopy_h]
    copies a value as a tree; a row source that creates its rows while the
    generator runs, in the theorem on [unpivot_rows_h] (the theorems on
    the loop body hold in any closed store); [close], [send]
    and [throw] on the generators.  Where Python
    would accept a sequence in place of a mapping (or raise a different
    exception class for an ill-shaped descriptor) the model raises
    [TypeError] or [AttributeError]; every theorem that depends on it says
    so in its hypotheses. *)

From stdpp Require Import base list strings.

(** ** Python exceptions *)

Inductive error : Type :=
| KeyError (key : string)
| TypeError
| AttributeError
| ReError
| UnboundLocalError (name : string)
| RecursionError
| IndexError.

#[export] Instance error_eq_dec : EqDecision error.
Proof. solve_decision. Defined.

(** ** The error monad *)

Inductive result (A : Type) : Type :=
| Ok (a : A)
| Err (e : error).

Arguments Ok {A} a.
Arguments Err {A} e.

#[export] Instance result_eq_dec `{EqDecision A} : EqDecision (result A).
Proof. solve_decision. Defined.

Definition rbind {A B} (m : result A) (f : A -> result B) : result B :=
  match m with
  | Ok a => f a
  | Err e => Err e
  end.

Definition rmap {A B} (f : A -> B) (m : result A) : result B :=
  match m with
  | Ok a => Ok (f a)
  | Err e => Err e
  end.

Definition is_ok {A} (m : result A) : bool :=
  match m with
  | Ok _ => true
  | Err _ => false
  end.

Definition of_option {A} (e : error) (o : option A) : result A :=
  match o with
  | Some a => Ok a
  | None => Err e
  end.

Declare Scope result_scope.
Delimit Scope result_scope with result.
Bind Scope result_scope with result.

Notation "x <- c1 ;; c2" := (rbind c1 (fun x => c2))
  (at level 100, c1 at next level, right associativity) : result_scope.

Open Scope result_scope.

(** ** Traversals that stop at the first exception *)

Fixpoint mapM {A B} (f : A -> result B) (l : list A) : result (list B) :=
  match l with
  | [] => Ok []
  | x :: l' => y <- f x ;; ys <- mapM f l' ;; Ok (y :: ys)
  end.

Fixpoint filterM {A} (f : A -> result bool) (l : list A) : result (list A) :=
  match l with
  | [] => Ok []
  | x :: l' =>
      b <- f x ;; ys <- filterM f l' ;; Ok (if b : bool then x :: ys else ys)
  end.

Fixpoint foldM {A S} (f : S -> A -> result S) (s : S) (l : list A) : result S :=
  match l with
  | [] => Ok s
  | x :: l' => s' <- f s x ;; foldM f s' l'
  end.

(** ** Generator traces *)

Inductive gen (A : Type) : Type :=
| Stop
| Yield (a : A) (g : gen A)
| Raise (e : error).

Arguments Stop {A}.
Arguments Yield {A} a g.
Arguments Raise {A} e.

Fixpoint gen_app {A} (g1 g2 : gen A) : gen A :=
  match g1 with
  | Stop => g2
  | Yield a g => Yield a (gen_app g g2)
  | Raise e => Raise e
  end.

Fixpoint gen_items {A} (g : gen A) : list A :=
  match g with
  | Yield a g' => a :: gen_items g'
  | _ => []
  end.

Fixpoint gen_end {A} (g : gen A) : option error :=
  match g with
  | Stop => None
  | Yield _ g' => gen_end g'
  | Raise e => Some e
  end.

Fixpoint gen_of_list {A} (l : list A) : gen A :=
  match l with
  | [] => Stop
  | a :: l' => Yield a (gen_of_list l')
  end.

Fixpoint gen_close {A} (l : list A) (o : option error) : gen A :=
  match l with
  | [] => match o with None => Stop | Some e => Raise e end
  | a :: l' => Yield a (gen_close l' o)
  end.

Fixpoint gen_of_results {A} (l : list (result A)) : gen A :=
  match l with
  | [] => Stop
  | Ok a :: l' => Yield a (gen_of_results l')
  | Err e :: _ => Raise e
  end.

Fixpoint gen_map {A B} (f : A -> B) (g : gen A) : gen B :=
  match g with
  | Stop => Stop
  | Yield a g' => Yield (f a) (gen_map f g')
  | Raise e => Raise e
  end.

(** ** Tactics and hints *)

Create HintDb unpivot discriminated.
Create Rewrite HintDb unpivot.

Ltac invert H := inversion H; subst; clear H.

Ltac case_result :=
  match goal with
  | |- context [rbind ?m _] =>
      let E := fresh "E" in destruct m eqn:E; simpl
  | H : context [rbind ?m _] |- _ =>
      let E := fresh "E" in destruct m eqn:E; simpl in H
  end.

Ltac rsimpl := repeat (simplify_eq /=; try case_result).

(** Closes a decidable goal on concrete data by evaluation. *)
Ltac by_compute := apply (bool_decide_unpack _); vm_compute; exact I.

(** ** Lemmas on [result] *)

Lemma rbind_ok {A B} (m : result A) (f : A -> result B) b :
  rbind m f = Ok b <-> exists a, m = Ok a /\ f a = Ok b.
Proof.
  destruct m; simpl; split; try done.
  - eauto.
  - intros (? & ? & ?); by simplify_eq.
  - by intros (? & ? & ?).
Qed.

Lemma rbind_err {A B} (m : result A) (f : A -> result B) e :
  rbind m f = Err e <-> m = Err e \/ exists a, m = Ok a /\ f a = Err e.
Proof.
  destruct m; simpl; split; eauto.
  - intros [? | (? & ? & ?)]; by simplify_eq.
  - intros ?; by simplify_eq; left.
  - intros [? | (? & ? & ?)]; by simplify_eq.
Qed.

(** Splits a successful sequence of binds [H : (x <- c ;; k) = Ok b] into
    the results of its steps. *)
Ltac inv_bind H :=
  repeat (let x := fresh "x" in let E := fresh "E" in
          apply rbind_ok in H as (x & E & H)).

Lemma rbind_assoc {A B C} (m : result A) (f : A -> result B) (g : B -> result C) :
  rbind (rbind m f) g = rbind m (fun a => rbind (f a) g).
Proof. by destruct m. Qed.

Lemma rbind_ret {A} (m : result A) : rbind m Ok = m.
Proof. by destruct m. Qed.

Lemma is_ok_true {A} (m : result A) : is_ok m = true <-> exists a, m = Ok a.
Proof. destruct m; simpl; split; eauto; try done. by intros [? ?]. Qed.

(** ** Lemmas on the traversals *)

Lemma mapM_ok_Forall2 {A B} (f : A -> result B) l ys :
  mapM f l = Ok ys <-> Forall2 (fun x y => f x = Ok y) l ys.
Proof.
  revert ys; induction l as [|x l IH]; intros ys; simpl.
  - split; [intros; simplify_eq; constructor | by inversion 1].
  - split.
    + intros H. rsimpl. constructor; [done | by apply IH].
    + inversion 1 as [|? y ? ys' Hx Hl]; subst. rewrite Hx; simpl.
      apply IH in Hl. by rewrite Hl.
Qed.

Lemma mapM_ok_length {A B} (f : A -> result B) l ys :
  mapM f l = Ok ys -> length ys = length l.
Proof. intros H%mapM_ok_Forall2. symmetry. by eapply Forall2_length. Qed.

Lemma mapM_total {A B} (f : A -> result B) (g : A -> B) l :
  Forall (fun x => f x = Ok (g x)) l -> mapM f l = Ok (map g l).
Proof. induction 1 as [|x l Hx _ IH]; simpl; [done | by rewrite Hx, IH]. Qed.

Lemma mapM_app {A B} (f : A -> result B) l1 l2 :
  mapM f (l1 ++ l2) =
  (ys1 <- mapM f l1 ;; ys2 <- mapM f l2 ;; Ok (ys1 ++ ys2)).
Proof.
  induction l1 as [|x l1 IH]; simpl.
  - by destruct (mapM f l2).
  - destruct (f x); simpl; [|done]. rewrite IH.
    destruct (mapM f l1); simpl; [|done]. by destruct (mapM f l2).
Qed.

Lemma filterM_total {A} (f : A -> result bool) (p : A -> bool) l :
  Forall (fun x => f x = Ok (p x)) l -> filterM f l = Ok (List.filter p l).
Proof.
  induction 1 as [|x l Hx _ IH]; simpl; [done |].
  rewrite Hx, IH; simpl. by destruct (p x).
Qed.

Lemma filterM_ok_total {A} (f : A -> result bool) l ys :
  filterM f l = Ok ys -> Forall (fun x => is_ok (f x) = true) l.
Proof.
  revert ys; induction l as [|x l IH]; intros ys H; simpl in *; [constructor|].
  rsimpl. constructor; [by rewrite E | eauto].
Qed.

(** What holds of the elements goes through the traversals, and what
    every turn of a loop preserves holds after the loop. *)
Lemma mapM_ok_Forall {A B} (f : A -> result B) (P : A -> Prop) (Q : B -> Prop) l ys :
  (forall x y, P x -> f x = Ok y -> Q y) ->
  Forall P l -> mapM f l = Ok ys -> Forall Q ys.
Proof.
  intros Hf Hl H%mapM_ok_Forall2.
  induction H as [|x y l ys Hxy _ IH]; [done|].
  apply Forall_cons in Hl as [Hx Hl]. constructor; eauto.
Qed.

Lemma filterM_ok_Forall {A} (f : A -> result bool) (P : A -> Prop) l ys :
  Forall P l -> filterM f l = Ok ys -> Forall P ys.
Proof.
  intros Hl. revert ys. induction Hl as [|x l Hx _ IH]; intros ys H; simpl in H;
    [by simplify_eq|].
  destruct (f x) as [[]|]; simpl in H; [| |done];
    destruct (filterM f l) as [ys'|]; simpl in H; simplify_eq; auto.
Qed.

Lemma foldM_ok_invariant {A S} (f : S -> A -> result S) (I : S -> Prop) s l s' :
  (forall s x s', x ∈ l -> I s -> f s x = Ok s' -> I s') ->
  I s -> foldM f s l = Ok s' -> I s'.
Proof.
  revert s. induction l as [|x l IH]; intros s Hf Hs H; simpl in H;
    [by simplify_eq|].
  destruct (f s x) as [s1|] eqn:Hx; simpl in H; [|done].
  apply (IH s1); [|by apply (Hf s x); [left|..]|done].
  intros s2 y s3 Hy. apply Hf. by right.
Qed.

Lemma foldM_app {A S} (f : S -> A -> result S) s l1 l2 :
  foldM f s (l1 ++ l2) = (s' <- foldM f s l1 ;; foldM f s' l2).
Proof.
  revert s; induction l1 as [|x l1 IH]; intros s; simpl; [done |].
  destruct (f s x); simpl; [apply IH | done].
Qed.

(** ** Lemmas on lists *)

Lemma forallb_Forall {A} (f : A -> bool) l :
  forallb f l = true <-> Forall (fun x => f x = true) l.
Proof.
  induction l as [|x l IH]; simpl; [by split|].
  rewrite andb_true_iff, Forall_cons, IH. done.
Qed.

(** Replacing one element of a list changes a sum over it by the
    difference of the two summands. *)
Lemma sum_list_insert {A} (w : A -> nat) l i x y :
  l !! i = Some x ->
  sum_list_with w (<[i:=y]> l) + w x = sum_list_with w l + w y.
Proof.
  revert i. induction l as [|a l IH]; intros [|i] Hi; simplify_eq/=; [lia|].
  specialize (IH i Hi). lia.
Qed.

(** A list that ends with an element, cut in two: the element is the end
    of the second part, or the second part is empty. *)
Lemma app_snoc_inv {A} (l l1 l2 : list A) x :
  l ++ [x] = l1 ++ l2 ->
  (l2 = [] /\ l1 = l ++ [x]) \/ (exists l2', l2 = l2' ++ [x] /\ l = l1 ++ l2').
Proof.
  destruct l2 as [|y l2 _] using rev_ind; [rewrite app_nil_r; eauto|].
  rewrite app_assoc. intros [-> ->]%app_inj_tail. eauto.
Qed.

(** ** Lemmas on traces *)

Lemma gen_app_Stop_r {A} (g : gen A) : gen_app g Stop = g.
Proof. induction g; simpl; congruence. Qed.

Lemma gen_app_assoc {A} (g1 g2 g3 : gen A) :
  gen_app (gen_app g1 g2) g3 = gen_app g1 (gen_app g2 g3).
Proof. induction g1; simpl; congruence. Qed.

Lemma gen_close_eta {A} (g : gen A) : gen_close (gen_items g) (gen_end g) = g.
Proof. induction g; simpl; congruence. Qed.

Lemma gen_items_close {A} (l : list A) o : gen_items (gen_close l o) = l.
Proof. induction l; simpl; [by destruct o | congruence]. Qed.

Lemma gen_end_close {A} (l : list A) o : gen_end (gen_close l o) = o.
Proof. induction l; simpl; [by destruct o | congruence]. Qed.

Lemma gen_of_list_close {A} (l : list A) : gen_of_list l = gen_close l None.
Proof. induction l; simpl; congruence. Qed.

Lemma gen_items_of_list {A} (l : list A) : gen_items (gen_of_list l) = l.
Proof. by rewrite gen_of_list_close, gen_items_close. Qed.

Lemma gen_end_of_list {A} (l : list A) : gen_end (gen_of_list l) = None.
Proof. by rewrite gen_of_list_close, gen_end_close. Qed.

Lemma gen_items_app {A} (g1 g2 : gen A) :
  gen_items (gen_app g1 g2) =
  gen_items g1 ++ match gen_end g1 with Some _ => [] | None => gen_items g2 end.
Proof.
  induction g1; simpl; [done | by f_equal | done].
Qed.

Lemma gen_end_app {A} (g1 g2 : gen A) :
  gen_end (gen_app g1 g2) =
  match gen_end g1 with Some e => Some e | None => gen_end g2 end.
Proof. induction g1; simpl; congruence. Qed.

Lemma gen_app_of_list {A} (l1 l2 : list A) :
  gen_app (gen_of_list l1) (gen_of_list l2) = gen_of_list (l1 ++ l2).
Proof. induction l1; simpl; congruence. Qed.

Lemma gen_close_app {A} (l1 l2 : list A) o :
  gen_close (l1 ++ l2) o = gen_app (gen_of_list l1) (gen_close l2 o).
Proof. induction l1; simpl; congruence. Qed.

Lemma gen_app_close_Some {A} (l : list A) e (g : gen A) :
  gen_app (gen_close l (Some e)) g = gen_close l (Some e).
Proof. induction l; simpl; congruence. Qed.

Lemma gen_app_close_None {A} (l : list A) (g : gen A) :
  gen_app (gen_close l None) g = gen_app (gen_of_list l) g.
Proof. by rewrite gen_of_list_close. Qed.

Lemma gen_items_map {A B} (f : A -> B) (g : gen A) :
  gen_items (gen_map f g) = f <$> gen_items g.
Proof. induction g as [|a g IH|e]; simpl; [done | by rewrite IH | done]. Qed.

Lemma gen_end_map {A B} (f : A -> B) (g : gen A) :
  gen_end (gen_map f g) = gen_end g.
Proof. induction g; simpl; congruence. Qed.

Lemma gen_app_snoc {A} (l : list A) x (g : gen A) :
  gen_app (gen_of_list (l ++ [x])) g = gen_app (gen_of_list l) (Yield x g).
Proof. induction l; simpl; congruence. Qed.

Lemma gen_of_results_app_err {A B} (f : A -> result B) l1 x l2 ys e :
  mapM f l1 = Ok ys -> f x = Err e ->
  gen_of_results (map f (l1 ++ x :: l2)) = gen_close ys (Some e).
Proof.
  revert ys; induction l1 as [|y l1 IH]; intros ys H Hx; simpl in *.
  - simplify_eq. by rewrite Hx.
  - destruct (f y); simpl in *; [|done].
    destruct (mapM f l1); simpl in *; [|done]. simplify_eq. simpl.
    f_equal. by apply IH.
Qed.

Lemma gen_of_results_ok {A B} (f : A -> result B) l ys :
  mapM f l = Ok ys -> gen_of_results (map f l) = gen_of_list ys.
Proof.
  revert ys; induction l as [|x l IH]; intros ys H; simpl in *; rsimpl; [done|].
  f_equal; eauto.
Qed.

#[export] Hint Rewrite @gen_app_Stop_r @gen_app_assoc @gen_items_close
  @gen_end_close @gen_items_of_list @gen_end_of_list @gen_items_app
  @gen_end_app @gen_app_of_list : unpivot.
#[export] Hint Rewrite @rbind_assoc @rbind_ret : unpivot.
