(* ===== verification/Dict.v ===== *)
(** * Python dictionaries with string keys

    A [dict] is the list of its items in insertion order.  [dict_get] is
    [d.get(k)] (as an option), [dict_set] is [d[k] = v]: an existing key
    keeps its position and takes the new value, a new key is appended.
    [dict_wf] is the invariant of a real Python dict (no key twice), kept
    by every operation.  [dict_to_map] forgets the order; it is the
    abstract specification the ordered operations refine.  [dict_equiv]
    is Python's [==] on dicts with equal values: same lookups, any order. *)

From stdpp Require Import base list strings gmap.
From S2P Require Import Prelude.

Abbreviation dict V := (list (string * V)).

Section dict_ops.
Context {V : Type}.

Fixpoint dict_get (k : string) (d : dict V) : option V :=
  match d with
  | [] => None
  | (k', v) :: d' => if decide (k = k') then Some v else dict_get k d'
  end.

Fixpoint dict_set (k : string) (v : V) (d : dict V) : dict V :=
  match d with
  | [] => [(k, v)]
  | (k', v') :: d' =>
      if decide (k = k') then (k', v) :: d' else (k', v') :: dict_set k v d'
  end.

Definition dict_keys (d : dict V) : list string := d.*1.

Definition dict_has (k : string) (d : dict V) : bool :=
  bool_decide (k ∈ dict_keys d).

Definition dict_wf (d : dict V) : Prop := NoDup (dict_keys d).

Definition dict_set_all (items : dict V) (d : dict V) : dict V :=
  foldl (fun acc kv => dict_set kv.1 kv.2 acc) d items.

Definition dict_to_map (d : dict V) : gmap string V := list_to_map d.

Definition dict_equiv (d1 d2 : dict V) : Prop :=
  forall k, dict_get k d1 = dict_get k d2.

(** Two dictionaries with the same keys in the same order and related
    values. *)
Definition dict_rel {W} (R : V -> W -> Prop) (d : dict V) (e : dict W) : Prop :=
  Forall2 (fun a b => a.1 = b.1 /\ R a.2 b.2) d e.

(** ** Lookup after assignment *)

Lemma dict_get_set_eq k v d : dict_get k (dict_set k v d) = Some v.
Proof.
  induction d as [|[k' v'] d IH]; simpl; repeat case_decide; simpl;
    repeat case_decide; congruence.
Qed.

Lemma dict_get_set_ne k k' v d :
  k <> k' -> dict_get k' (dict_set k v d) = dict_get k' d.
Proof.
  intros Hne. induction d as [|[k0 v0] d IH]; simpl; repeat case_decide;
    simpl; repeat case_decide; congruence.
Qed.

Lemma dict_get_set k k' v d :
  dict_get k' (dict_set k v d) =
  if decide (k = k') then Some v else dict_get k' d.
Proof.
  case_decide; [subst; apply dict_get_set_eq | by apply dict_get_set_ne].
Qed.

(** ** Keys *)

Lemma dict_get_None k d : dict_get k d = None <-> k ∉ dict_keys d.
Proof.
  unfold dict_keys. induction d as [|[k' v'] d IH]; simpl.
  - split; [intros _; apply not_elem_of_nil | done].
  - rewrite not_elem_of_cons. case_decide; [|tauto].
    split; [done | tauto].
Qed.

Lemma dict_get_is_Some k d : is_Some (dict_get k d) <-> k ∈ dict_keys d.
Proof.
  rewrite <- not_eq_None_Some, dict_get_None.
  destruct (decide (k ∈ dict_keys d)); tauto.
Qed.

Lemma dict_get_Some_elem k v d : dict_get k d = Some v -> (k, v) ∈ d.
Proof.
  induction d as [|[k' v'] d IH]; simpl; [done|].
  case_decide; intros; simplify_eq; [left | right; auto].
Qed.

Lemma dict_elem_get k v d : dict_wf d -> (k, v) ∈ d -> dict_get k d = Some v.
Proof.
  unfold dict_wf, dict_keys.
  induction d as [|[k' v'] d IH]; simpl; [by intros _ ?%elem_of_nil|].
  intros [Hk Hd]%NoDup_cons [?|Hin]%elem_of_cons; simplify_eq.
  - by rewrite decide_True.
  - case_decide; [subst | auto].
    destruct Hk. by apply (list_elem_of_fmap_2 fst) in Hin.
Qed.

Lemma dict_has_true k d : dict_has k d = true <-> k ∈ dict_keys d.
Proof. unfold dict_has. apply bool_decide_eq_true. Qed.

Lemma dict_keys_set_in k v d :
  k ∈ dict_keys d -> dict_keys (dict_set k v d) = dict_keys d.
Proof.
  unfold dict_keys. induction d as [|[k' v'] d IH]; simpl.
  - by intros ?%elem_of_nil.
  - intros Hin. case_decide; simpl; [done|]. f_equal. apply IH.
    apply elem_of_cons in Hin as [?|?]; [congruence | done].
Qed.

Lemma dict_keys_set_notin k v d :
  k ∉ dict_keys d -> dict_keys (dict_set k v d) = dict_keys d ++ [k].
Proof.
  unfold dict_keys. induction d as [|[k' v'] d IH]; simpl; [done|].
  intros [Hne Hnin]%not_elem_of_cons. rewrite decide_False by done.
  simpl. f_equal. by apply IH.
Qed.

Lemma dict_keys_set k v d :
  dict_keys (dict_set k v d) =
  if dict_has k d then dict_keys d else dict_keys d ++ [k].
Proof.
  unfold dict_has. case_bool_decide;
    [by apply dict_keys_set_in | by apply dict_keys_set_notin].
Qed.

Lemma dict_keys_set_elem k k' v d :
  k' ∈ dict_keys (dict_set k v d) <-> k' = k \/ k' ∈ dict_keys d.
Proof.
  rewrite dict_keys_set. unfold dict_has. case_bool_decide.
  - split; [tauto | intros [->|]; done].
  - rewrite elem_of_app, list_elem_of_singleton. tauto.
Qed.

Lemma dict_length_set k v d :
  length (dict_set k v d) =
  if dict_has k d then length d else S (length d).
Proof.
  rewrite <- !(length_fmap fst). fold (dict_keys (dict_set k v d)).
  rewrite dict_keys_set. fold (dict_keys d).
  destruct (dict_has k d); [done|]. rewrite length_app; simpl. lia.
Qed.

(** ** The invariant *)

Lemma dict_wf_nil : dict_wf [].
Proof. constructor. Qed.

Lemma dict_set_wf k v d : dict_wf d -> dict_wf (dict_set k v d).
Proof.
  unfold dict_wf. intros Hd. rewrite dict_keys_set. unfold dict_has.
  case_bool_decide; [done|].
  apply NoDup_app. split; [done|]. split; [|apply NoDup_singleton].
  intros x Hx ->%list_elem_of_singleton. done.
Qed.

Lemma dict_set_all_wf items d : dict_wf d -> dict_wf (dict_set_all items d).
Proof.
  unfold dict_set_all. revert d.
  induction items as [|[k v] items IH]; intros d Hd; simpl; [done|].
  apply IH. by apply dict_set_wf.
Qed.

(** ** Assignment and concatenation *)

Lemma dict_set_app_l k v d1 d2 :
  k ∈ dict_keys d1 -> dict_set k v (d1 ++ d2) = dict_set k v d1 ++ d2.
Proof.
  unfold dict_keys. induction d1 as [|[k' v'] d1 IH]; simpl.
  - by intros ?%elem_of_nil.
  - intros Hin. case_decide; simpl; [done|]. f_equal. apply IH.
    apply elem_of_cons in Hin as [?|?]; [congruence | done].
Qed.

Lemma dict_set_app_r k v d1 d2 :
  k ∉ dict_keys d1 -> dict_set k v (d1 ++ d2) = d1 ++ dict_set k v d2.
Proof.
  unfold dict_keys. induction d1 as [|[k' v'] d1 IH]; simpl; [done|].
  intros [Hne Hnin]%not_elem_of_cons. rewrite decide_False by done.
  simpl. f_equal. by apply IH.
Qed.

Lemma dict_set_fresh k v d : k ∉ dict_keys d -> dict_set k v d = d ++ [(k, v)].
Proof.
  intros Hk. rewrite <- (app_nil_r d) at 1. by rewrite dict_set_app_r.
Qed.

Lemma dict_set_set k v v' d : dict_set k v' (dict_set k v d) = dict_set k v' d.
Proof.
  induction d as [|[k0 v0] d IH]; simpl; repeat case_decide; simpl;
    repeat case_decide; congruence.
Qed.

Lemma dict_set_all_fresh items d :
  dict_wf (d ++ items) -> dict_set_all items d = d ++ items.
Proof.
  unfold dict_set_all, dict_wf, dict_keys. revert d.
  induction items as [|[k v] items IH]; intros d Hd; simpl.
  - by rewrite app_nil_r.
  - rewrite dict_set_fresh.
    + rewrite IH; rewrite <- app_assoc; done.
    + rewrite fmap_app in Hd. apply NoDup_app in Hd as (_ & Hd & _).
      intros Hin. apply (Hd _ Hin). simpl. left.
Qed.

(** ** Assigning a list of items in order *)

Lemma dict_set_all_cons k v items d :
  dict_set_all ((k, v) :: items) d = dict_set_all items (dict_set k v d).
Proof. done. Qed.

Lemma dict_set_all_app items1 items2 d :
  dict_set_all (items1 ++ items2) d =
  dict_set_all items2 (dict_set_all items1 d).
Proof. unfold dict_set_all. apply foldl_app. Qed.

Lemma dict_keys_set_all_elem k items d :
  k ∈ dict_keys (dict_set_all items d) <-> k ∈ items.*1 \/ k ∈ dict_keys d.
Proof.
  revert d. induction items as [|[k' v'] items IH]; intros d.
  - simpl. rewrite elem_of_nil. tauto.
  - rewrite dict_set_all_cons, IH, dict_keys_set_elem. simpl.
    rewrite elem_of_cons. tauto.
Qed.

Lemma dict_keys_map_pair (g : string -> V) fs :
  dict_keys (map (fun f => (f, g f)) fs) = fs.
Proof.
  unfold dict_keys. induction fs as [|f fs IH]; [done|]. cbn. by f_equal.
Qed.

Lemma dict_keys_app (d1 d2 : dict V) :
  dict_keys (d1 ++ d2) = dict_keys d1 ++ dict_keys d2.
Proof. apply fmap_app. Qed.

Lemma dict_get_set_all_map (g : string -> V) fs d k :
  dict_get k (dict_set_all (map (fun f => (f, g f)) fs) d) =
  if bool_decide (k ∈ fs) then Some (g k) else dict_get k d.
Proof.
  revert d. induction fs as [|f fs IH]; intros d.
  - by rewrite bool_decide_eq_false_2 by apply not_elem_of_nil.
  - simpl map. rewrite dict_set_all_cons, IH, dict_get_set.
    destruct (decide (k ∈ fs)) as [Hin|Hnin].
    + rewrite !bool_decide_eq_true_2; [done | by right | done].
    + rewrite (bool_decide_eq_false_2 _ Hnin).
      destruct (decide (f = k)) as [->|Hne].
      * rewrite bool_decide_eq_true_2; [done | left].
      * rewrite bool_decide_eq_false_2; [done|].
        intros [?|?]%elem_of_cons; congruence.
Qed.

Lemma dict_get_set_all_notin k items d :
  k ∉ items.*1 -> dict_get k (dict_set_all items d) = dict_get k d.
Proof.
  revert d. induction items as [|[k' v'] items IH]; intros d; [done|].
  rewrite fmap_cons. intros [Hne Hnin]%not_elem_of_cons.
  rewrite dict_set_all_cons, IH, dict_get_set_ne; done.
Qed.

(** ** Refinement to finite maps *)

Lemma dict_to_map_lookup (d : dict V) k : dict_to_map d !! k = dict_get k d.
Proof.
  unfold dict_to_map. induction d as [|[k' v'] d IH]; simpl; [done|].
  case_decide; subst; [by rewrite lookup_insert_eq|].
  by rewrite lookup_insert_ne.
Qed.

Lemma dict_to_map_set k v (d : dict V) :
  dict_to_map (dict_set k v d) = <[k:=v]> (dict_to_map d).
Proof.
  apply map_eq. intros k'. rewrite dict_to_map_lookup, dict_get_set.
  case_decide; subst; [by rewrite lookup_insert_eq|].
  by rewrite lookup_insert_ne, dict_to_map_lookup.
Qed.

Lemma dict_to_map_dom (d : dict V) :
  dom (dict_to_map d) = list_to_set (dict_keys d).
Proof.
  apply set_eq. intros k.
  rewrite elem_of_dom, dict_to_map_lookup, dict_get_is_Some.
  by rewrite elem_of_list_to_set.
Qed.

Lemma dict_equiv_to_map d1 d2 :
  dict_equiv d1 d2 <-> dict_to_map d1 = dict_to_map d2.
Proof.
  unfold dict_equiv. split.
  - intros H. apply map_eq. intros k. by rewrite !dict_to_map_lookup.
  - intros H k. by rewrite <- !dict_to_map_lookup, H.
Qed.

(** ** The equivalence *)

#[export] Instance dict_equiv_equivalence : Equivalence dict_equiv.
Proof.
  split; unfold dict_equiv.
  - done.
  - intros ?? H k. by rewrite H.
  - intros ??? H1 H2 k. by rewrite H1, H2.
Qed.

#[export] Instance dict_get_proper k : Proper (dict_equiv ==> eq) (dict_get k).
Proof. intros ?? H. apply H. Qed.

#[export] Instance dict_set_proper k v :
  Proper (dict_equiv ==> dict_equiv) (dict_set k v).
Proof. intros d1 d2 H k'. rewrite !dict_get_set. by rewrite (H k'). Qed.

#[export] Instance dict_has_proper k : Proper (dict_equiv ==> eq) (dict_has k).
Proof.
  intros d1 d2 H. unfold dict_has.
  apply bool_decide_ext. by rewrite <- !dict_get_is_Some, (H k).
Qed.

Lemma dict_set_comm k1 k2 v1 v2 d :
  k1 <> k2 ->
  dict_equiv (dict_set k1 v1 (dict_set k2 v2 d))
             (dict_set k2 v2 (dict_set k1 v1 d)).
Proof.
  intros Hne k. rewrite !dict_get_set. repeat case_decide; congruence.
Qed.

(** The assignment [d[k] = v] on the association list is the
    insertion of a finite map, and it keeps the insertion order of a Python
    dictionary: as a map the result is [<[k:=v]>] of the map of [d]; a key
    that is present keeps its position, a new key goes to the end; and a
    dictionary without a repeated key stays so. *)
Theorem dict_set_refines k v (d : dict V) :
  dict_to_map (dict_set k v d) = <[k:=v]> (dict_to_map d) /\
  dict_keys (dict_set k v d) =
    (if dict_has k d then dict_keys d else dict_keys d ++ [k]) /\
  (dict_wf d -> dict_wf (dict_set k v d)).
Proof.
  split; [apply dict_to_map_set|]. split; [apply dict_keys_set | apply dict_set_wf].
Qed.

End dict_ops.

(** ** Related dictionaries *)

Section dict_rel.
Context {V W : Type} (R R' : V -> W -> Prop).

Lemma dict_rel_keys d e :
  dict_rel R d e -> dict_keys d = dict_keys e.
Proof.
  unfold dict_keys. induction 1 as [|[k x] [k' y] d e [Hk _] _ IH]; [done|].
  simpl in Hk. rewrite !fmap_cons, IH. simpl. by rewrite Hk.
Qed.

Lemma dict_rel_get_Some k d e x :
  dict_rel R d e -> dict_get k d = Some x ->
  exists y, dict_get k e = Some y /\ R x y.
Proof.
  induction 1 as [|[k1 x1] [k2 y2] d e [? ?] _ IH]; simpl in *; [done|].
  subst. case_decide; intros; simplify_eq; eauto.
Qed.

Lemma dict_rel_get_None k d e :
  dict_rel R d e -> dict_get k d = None -> dict_get k e = None.
Proof.
  intros H. rewrite !dict_get_None. by rewrite (dict_rel_keys d e).
Qed.

Lemma dict_rel_set k x y d e :
  dict_rel R d e -> R x y -> dict_rel R (dict_set k x d) (dict_set k y e).
Proof.
  intros H Hxy. induction H as [|[k1 x1] [k2 y2] d e [? ?] Hde IH]; simpl in *.
  - by repeat constructor.
  - subst. case_decide; by repeat constructor.
Qed.

Lemma dict_rel_impl d e :
  dict_rel R d e -> Forall (fun kv => forall y, R kv.2 y -> R' kv.2 y) d ->
  dict_rel R' d e.
Proof.
  induction 1 as [|a b d e [? ?] _ IH]; intros Himp; [constructor|].
  apply Forall_cons in Himp as [Ha Hd].
  constructor; [split; [done | by apply Ha] | by apply IH].
Qed.

End dict_rel.

#[export] Hint Rewrite @dict_get_set_eq @dict_to_map_lookup @dict_to_map_set
  @dict_set_set : unpivot.
#[export] Hint Resolve dict_wf_nil dict_set_wf dict_set_all_wf : unpivot.
