(* ===== verification/Values.v ===== *)
(** * Python values

    The values that occur in descriptors, configuration and rows: [None],
    booleans, integers, strings, lists and dictionaries with string keys
    (JSON data).  The operations are the ones the processor applies to
    them, with the exception Python raises when the value has the wrong
    shape: [getitem] is [v[k]], [get] is [v.get(k, default)], [setitem] is
    [v[k] = x], [deepcopy] is [copy.deepcopy(v)]. *)

From stdpp Require Import base list strings.
From S2P Require Import Prelude Dict.

Unset Elimination Schemes.

Inductive value : Type :=
| VNone
| VBool (b : bool)
| VInt (z : Z)
| VStr (s : string)
| VList (l : list value)
| VDict (d : list (string * value)).

Set Elimination Schemes.

(** Induction with the hypotheses for the elements of a list and for the
    values of a dictionary. *)
Definition value_ind (P : value -> Prop)
  (fnone : P VNone)
  (fbool : forall b, P (VBool b))
  (fint : forall z, P (VInt z))
  (fstr : forall s, P (VStr s))
  (flist : forall l, Forall P l -> P (VList l))
  (fdict : forall d, Forall (fun kv => P kv.2) d -> P (VDict d)) :
  forall v, P v :=
  fix F (v : value) : P v :=
    match v with
    | VNone => fnone
    | VBool b => fbool b
    | VInt z => fint z
    | VStr s => fstr s
    | VList l =>
        flist l ((fix G (l : list value) : Forall P l :=
                    match l with
                    | [] => @List.Forall_nil _ P
                    | x :: l' => @List.Forall_cons _ P x l' (F x) (G l')
                    end) l)
    | VDict d =>
        fdict d ((fix G (d : list (string * value)) :
                    Forall (fun kv => P kv.2) d :=
                    match d with
                    | [] => @List.Forall_nil _ (fun kv => P kv.2)
                    | kv :: d' => @List.Forall_cons _ (fun kv => P kv.2) kv d' (F kv.2) (G d')
                    end) d)
    end.

Fixpoint value_eqb (v w : value) : bool :=
  match v, w with
  | VNone, VNone => true
  | VBool a, VBool b => bool_decide (a = b)
  | VInt a, VInt b => bool_decide (a = b)
  | VStr a, VStr b => bool_decide (a = b)
  | VList l, VList m =>
      (fix go (l m : list value) : bool :=
         match l, m with
         | [], [] => true
         | x :: l', y :: m' => value_eqb x y && go l' m'
         | _, _ => false
         end) l m
  | VDict d, VDict e =>
      (fix go (d e : list (string * value)) : bool :=
         match d, e with
         | [], [] => true
         | (k, x) :: d', (k', y) :: e' =>
             bool_decide (k = k') && value_eqb x y && go d' e'
         | _, _ => false
         end) d e
  | _, _ => false
  end.

(** ** Operations *)

Definition getitem (v : value) (k : string) : result value :=
  match v with
  | VDict d => of_option (KeyError k) (dict_get k d)
  | _ => Err TypeError
  end.

(** The bound method [v.get]: looking it up raises [AttributeError] on a
    value that is not a dictionary, before the arguments of the call are
    evaluated. *)
Definition get_method (v : value) : result (string -> value -> value) :=
  match v with
  | VDict d => Ok (fun k dflt => default dflt (dict_get k d))
  | _ => Err AttributeError
  end.

Definition get (v : value) (k : string) (dflt : value) : result value :=
  row_get <- get_method v ;; Ok (row_get k dflt).

Definition setitem (v : value) (k : string) (x : value) : result value :=
  match v with
  | VDict d => Ok (VDict (dict_set k x d))
  | _ => Err TypeError
  end.

Definition as_str (v : value) : result string :=
  match v with
  | VStr s => Ok s
  | _ => Err TypeError
  end.

Definition as_list (v : value) : result (list value) :=
  match v with
  | VList l => Ok l
  | _ => Err TypeError
  end.

Definition as_dict (v : value) : result (dict value) :=
  match v with
  | VDict d => Ok d
  | _ => Err TypeError
  end.

Definition is_none (v : value) : bool :=
  match v with
  | VNone => true
  | _ => false
  end.

Fixpoint deepcopy (v : value) : value :=
  match v with
  | VList l => VList (map deepcopy l)
  | VDict d => VDict (map (fun kv => (kv.1, deepcopy kv.2)) d)
  | _ => v
  end.

(** Every dictionary inside the value has pairwise distinct keys. *)
Fixpoint value_wf (v : value) : bool :=
  match v with
  | VList l => forallb value_wf l
  | VDict d =>
      bool_decide (NoDup d.*1) && forallb (fun kv => value_wf kv.2) d
  | _ => true
  end.

(** ** Decidable equality *)

Lemma value_eqb_eq v w : value_eqb v w = true <-> v = w.
Proof.
  revert w. induction v as [| | | |l IH|d IH] using value_ind;
    intros [| | | |m|e]; simpl;
    try (split; [done | congruence]);
    try (rewrite bool_decide_eq_true; split; congruence).
  - enough (H : forall m, (fix go (l m : list value) : bool :=
                 match l, m with
                 | [], [] => true
                 | x :: l', y :: m' => value_eqb x y && go l' m'
                 | _, _ => false
                 end) l m = true <-> l = m)
      by (rewrite H; split; congruence).
    clear m. induction IH as [|x l Hx _ IHl]; intros [|y m];
      try (split; [done | congruence]).
    rewrite andb_true_iff, Hx, (IHl m).
    split; [by intros [-> ->] | by intros; simplify_eq].
  - enough (H : forall e, (fix go (d e : list (string * value)) : bool :=
                 match d, e with
                 | [], [] => true
                 | (k, x) :: d', (k', y) :: e' =>
                     bool_decide (k = k') && value_eqb x y && go d' e'
                 | _, _ => false
                 end) d e = true <-> d = e)
      by (rewrite H; split; congruence).
    clear e. induction IH as [|[k x] d Hx _ IHd]; intros [|[k' y] e];
      try (split; [done | congruence]).
    rewrite !andb_true_iff, bool_decide_eq_true. simpl in Hx.
    rewrite Hx, (IHd e).
    split; [by intros [[-> ->] ->] | by intros; simplify_eq].
Qed.

#[export] Instance value_eq_dec : EqDecision value.
Proof.
  intros v w. destruct (value_eqb v w) eqn:E.
  - left. by apply value_eqb_eq.
  - right. intros H%value_eqb_eq. congruence.
Defined.

(** ** [deepcopy] returns an equal value *)

Lemma deepcopy_id v : deepcopy v = v.
Proof.
  induction v as [| | | |l IH|d IH] using value_ind; simpl; try done; f_equal.
  - induction IH as [|x l Hx _ IHl]; simpl; congruence.
  - induction IH as [|[k x] d Hx _ IHd]; simpl in *; congruence.
Qed.

Arguments deepcopy : simpl never.

(** ** Subscripting *)

Lemma getitem_ok v k x :
  getitem v k = Ok x <-> exists d, v = VDict d /\ dict_get k d = Some x.
Proof.
  destruct v; simpl; try (split; [done | by intros (? & ? & ?)]).
  split.
  - destruct (dict_get k d) eqn:E; simpl; intros; simplify_eq; eauto.
  - intros (? & ? & H); simplify_eq. by rewrite H.
Qed.

Lemma getitem_KeyError d k : dict_get k d = None -> getitem (VDict d) k = Err (KeyError k).
Proof. intros H; simpl. by rewrite H. Qed.

Lemma getitem_setitem v k x v' :
  setitem v k x = Ok v' -> getitem v' k = Ok x.
Proof.
  destruct v; simpl; intros; simplify_eq. simpl. by rewrite dict_get_set_eq.
Qed.

Lemma getitem_setitem_ne v k k' x v' :
  k <> k' -> setitem v k x = Ok v' -> getitem v' k' = getitem v k'.
Proof.
  destruct v; simpl; intros; simplify_eq. simpl. by rewrite dict_get_set_ne.
Qed.

Lemma get_getitem v k x dflt : getitem v k = Ok x -> get v k dflt = Ok x.
Proof. intros (d & -> & H)%getitem_ok. unfold get. simpl. by rewrite H. Qed.

Lemma setitem_wf v k x v' :
  value_wf v = true -> value_wf x = true -> setitem v k x = Ok v' ->
  value_wf v' = true.
Proof.
  destruct v; simpl; intros Hv Hx ?; simplify_eq. simpl.
  apply andb_true_iff in Hv as [Hnd Hall]. apply andb_true_iff. split.
  - apply bool_decide_eq_true. apply bool_decide_eq_true in Hnd.
    by apply (dict_set_wf k x d).
  - clear Hnd. induction d as [|[k' y] d IH]; simpl in *.
    + by rewrite Hx.
    + apply andb_true_iff in Hall as [Hy Hd].
      case_decide; simpl; rewrite ?Hx, ?Hy, ?Hd; simpl; auto.
Qed.

Lemma setitem_dict v k x v' : setitem v k x = Ok v' -> exists d, v' = VDict d.
Proof. destruct v; simpl; intros; simplify_eq. eauto. Qed.

Lemma dict_get_value_wf k d x :
  value_wf (VDict d) = true -> dict_get k d = Some x -> value_wf x = true.
Proof.
  simpl. intros [_ Hall]%andb_true_iff Hx%dict_get_Some_elem.
  rewrite forallb_Forall, Forall_forall in Hall. by apply (Hall (k, x)).
Qed.

Lemma getitem_wf v k x :
  value_wf v = true -> getitem v k = Ok x -> value_wf x = true.
Proof. intros Hv (d & -> & Hx)%getitem_ok. by eapply dict_get_value_wf. Qed.

Lemma get_method_wf v row_get k dflt :
  value_wf v = true -> value_wf dflt = true -> get_method v = Ok row_get ->
  value_wf (row_get k dflt) = true.
Proof.
  destruct v; simpl; intros Hv Hd ?; simplify_eq.
  destruct (dict_get k d) eqn:Hk; simpl; [by eapply dict_get_value_wf | done].
Qed.

Lemma get_wf v k dflt x :
  value_wf v = true -> value_wf dflt = true -> get v k dflt = Ok x ->
  value_wf x = true.
Proof.
  intros Hv Hd H. unfold get in H. apply rbind_ok in H as (row_get & Hget & H).
  simplify_eq. by apply (get_method_wf v).
Qed.

Lemma as_list_wf v l :
  value_wf v = true -> as_list v = Ok l -> Forall (fun x => value_wf x = true) l.
Proof.
  destruct v; simpl; intros Hv ?; simplify_eq. by apply forallb_Forall.
Qed.

Lemma value_wf_list l :
  value_wf (VList l) = true <-> Forall (fun x => value_wf x = true) l.
Proof.
  apply forallb_Forall.
Qed.

#[export] Hint Rewrite deepcopy_id : unpivot.
