(* ===== verification/Regex.v ===== *)
(** * The regular-expression interface

    The processor calls three functions of Python's [re] module:
    [re.compile(p)], [compiled.fullmatch(s)] and [re.sub(p, repl, s)].
    [RegexEngine] is that interface; the processor is modelled and proved
    against it.  [RegexLiteral] states what every engine faithful to
    Python does on patterns and replacement templates without
    metacharacters, which is all that the theorems on literal column names
    need.  [literal_engine] is an engine for that fragment: it refuses
    ([ReError]) the patterns and templates it does not cover, and agrees
    with Python on the others. *)

From Stdlib Require Import Ascii.
From stdpp Require Import base list strings.
From S2P Require Import Prelude.

Class RegexEngine : Type := {
  pattern : Type;
  re_compile : string -> result pattern;
  re_fullmatch : pattern -> string -> bool;
  re_sub : pattern -> string -> string -> result string
}.

(** Characters with a meaning in a pattern, and in a replacement template. *)
Definition metachars : list ascii :=
  String.list_ascii_of_string ".^$*+?{}[]\|()".

Definition plain (p : string) : bool :=
  forallb (fun c => bool_decide (c ∉ metachars)) (String.list_ascii_of_string p).

Definition plain_template (t : string) : bool :=
  forallb (fun c => bool_decide (c <> "\"%char)) (String.list_ascii_of_string t).

Class RegexLiteral (E : RegexEngine) : Prop := {
  compile_plain p : plain p = true -> is_ok (re_compile p) = true;
  fullmatch_plain p re s :
    plain p = true -> re_compile p = Ok re ->
    re_fullmatch re s = bool_decide (s = p);
  sub_plain p re t :
    plain p = true -> plain_template t = true -> re_compile p = Ok re ->
    re_sub re t p = Ok t
}.

(** ** The literal engine *)

Fixpoint is_prefix (p s : string) : bool :=
  match p, s with
  | EmptyString, _ => true
  | String a p', String b s' => bool_decide (a = b) && is_prefix p' s'
  | String _ _, EmptyString => false
  end.

(** [sub_literal p t skip s]: the rest [s] of the subject with every
    occurrence of [p] found from left to right replaced by [t]; [skip]
    characters of [s] belong to the occurrence just replaced.  The empty
    pattern matches before every character and at the end. *)
Fixpoint sub_literal (p t : string) (skip : nat) (s : string) : string :=
  match s with
  | EmptyString => if bool_decide (p = "") then t else ""
  | String c s' =>
      match skip with
      | S k => sub_literal p t k s'
      | O =>
          if bool_decide (p = "") then t +:+ String c (sub_literal p t 0 s')
          else if is_prefix p s then t +:+ sub_literal p t (String.length p - 1) s'
          else String c (sub_literal p t 0 s')
      end
  end.

Definition literal_compile (p : string) : result string :=
  if plain p then Ok p else Err ReError.

Definition literal_fullmatch (p s : string) : bool := bool_decide (s = p).

Definition literal_sub (p t s : string) : result string :=
  if plain_template t then Ok (sub_literal p t 0 s) else Err ReError.

#[export] Instance literal_engine : RegexEngine := {|
  pattern := string;
  re_compile := literal_compile;
  re_fullmatch := literal_fullmatch;
  re_sub := literal_sub
|}.

(** ** The literal engine satisfies the laws *)

Lemma is_prefix_refl p : is_prefix p p = true.
Proof. induction p; simpl; [done|]. by rewrite bool_decide_eq_true_2. Qed.

Lemma is_prefix_app p s : is_prefix p (p +:+ s) = true.
Proof. induction p; simpl; [done|]. by rewrite bool_decide_eq_true_2. Qed.

Lemma append_nil_r s : s +:+ "" = s.
Proof. induction s as [|c s IH]; [done|]. change (String c (s +:+ "") = String c s). by rewrite IH. Qed.

Lemma sub_literal_skip_all p t s :
  p <> "" -> sub_literal p t (String.length s) s = "".
Proof.
  intros Hp. induction s; simpl; [by rewrite bool_decide_eq_false_2 | done].
Qed.

Lemma sub_literal_self p t : p <> "" -> sub_literal p t 0 p = t.
Proof.
  intros Hp. destruct p as [|c p]; [done|]. cbn [sub_literal].
  rewrite bool_decide_eq_false_2 by done. rewrite is_prefix_refl.
  cbn [String.length]. rewrite Nat.sub_succ, Nat.sub_0_r.
  by rewrite sub_literal_skip_all, append_nil_r.
Qed.

Lemma sub_literal_empty t : sub_literal "" t 0 "" = t.
Proof. done. Qed.

#[export] Instance literal_engine_laws : RegexLiteral literal_engine.
Proof.
  split; simpl; unfold literal_compile, literal_fullmatch, literal_sub.
  - intros p ->. done.
  - intros p re s -> ?. by simplify_eq.
  - intros p re t -> -> ?. simplify_eq. f_equal.
    destruct (decide (re = "")) as [->|]; [done | by apply sub_literal_self].
Qed.
