(* ===== verification/Backtrack.v ===== *)
(** * A backtracking regular-expression engine

    An engine for the part of Python's [re] that unpivot specifications
    use: literals, [.], the classes [\d \w \s] and their negations, sets
    [[a-z0-9_]] and [[^...]], groups, alternation and the greedy
    quantifiers [* + ?]; replacement templates with [\1]..[\99] and
    [\g<n>].  It follows Python (3.7 and later) on that fragment:
    leftmost match, greedy quantifiers with backtracking, numbered capture
    groups, [fullmatch] against the whole string, [re.sub] replacing every
    non-overlapping match found from left to right, an empty match
    included when it does not sit where the previous empty match was.
    Strings are strings of 8-bit characters.  Patterns and templates
    outside the fragment (anchors, counted and lazy repetition, look-around,
    back-references in patterns, named groups) are refused with [ReError]:
    the theorems are about patterns the engine compiles. *)

From Stdlib Require Import Ascii.
From stdpp Require Import base list strings.
From S2P Require Import Prelude Regex.

(** ** Syntax *)

Inductive cset : Type :=
| CAny
| CLit (c : ascii)
| CRange (lo hi : ascii)
| CDigit
| CWord
| CSpace
| CNot (s : cset)
| COr (s1 s2 : cset)
| CNone.

Inductive regex : Type :=
| REps
| RSet (s : cset)
| RSeq (r1 r2 : regex)
| RAlt (r1 r2 : regex)
| RStar (r : regex)
| RGroup (n : nat) (r : regex).

(** A compiled pattern: the expression and the number of its groups. *)
Record compiled : Type := {
  re_expr : regex;
  re_groups : nat
}.

(** An item of a replacement template. *)
Inductive titem : Type :=
| TLit (c : ascii)
| TGroup (n : nat).

(** ** Characters *)

Definition in_range (lo hi c : ascii) : bool :=
  (N_of_ascii lo <=? N_of_ascii c)%N && (N_of_ascii c <=? N_of_ascii hi)%N.

Definition is_digit (c : ascii) : bool := in_range "0" "9" c.

Definition is_word (c : ascii) : bool :=
  in_range "a" "z" c || in_range "A" "Z" c || is_digit c || bool_decide (c = "_"%char).

(** Space, tab, newline, vertical tab, form feed, carriage return. *)
Definition is_space (c : ascii) : bool :=
  bool_decide (c = " "%char) || in_range "009" "013" c.

Definition is_letter (c : ascii) : bool :=
  in_range "a" "z" c || in_range "A" "Z" c.

Definition digit_val (c : ascii) : nat := N.to_nat (N_of_ascii c - 48).

Fixpoint cset_mem (s : cset) (c : ascii) : bool :=
  match s with
  | CAny => negb (bool_decide (c = "010"%char))
  | CLit a => bool_decide (c = a)
  | CRange lo hi => in_range lo hi c
  | CDigit => is_digit c
  | CWord => is_word c
  | CSpace => is_space c
  | CNot s' => negb (cset_mem s' c)
  | COr s1 s2 => cset_mem s1 c || cset_mem s2 c
  | CNone => false
  end.

(** ** Parsing a pattern *)

(** The class of an escape [\c] that stands for a set of characters, inside
    or outside of [[...]]; [ReError] for the escapes of letters and digits
    the fragment has not. *)
Definition escape_set (c : ascii) : result cset :=
  if bool_decide (c = "d"%char) then Ok CDigit
  else if bool_decide (c = "D"%char) then Ok (CNot CDigit)
  else if bool_decide (c = "w"%char) then Ok CWord
  else if bool_decide (c = "W"%char) then Ok (CNot CWord)
  else if bool_decide (c = "s"%char) then Ok CSpace
  else if bool_decide (c = "S"%char) then Ok (CNot CSpace)
  else if bool_decide (c = "n"%char) then Ok (CLit "010")
  else if bool_decide (c = "t"%char) then Ok (CLit "009")
  else if is_letter c || is_digit c then Err ReError
  else Ok (CLit c).

(** The items of a set up to the closing bracket. *)
Fixpoint parse_set_items (s : list ascii) : result (cset * list ascii) :=
  match s with
  | [] => Err ReError
  | "]"%char :: rest => Ok (CNone, rest)
  | "\"%char :: c :: rest =>
      cs <- escape_set c ;;
      p <- parse_set_items rest ;;
      Ok (COr cs p.1, p.2)
  | "\"%char :: [] => Err ReError
  | lo :: "-"%char :: "]"%char :: rest => Ok (COr (CLit lo) (CLit "-"), rest)
  | _ :: "-"%char :: "\"%char :: _ => Err ReError
  | lo :: "-"%char :: hi :: rest =>
      if (N_of_ascii hi <? N_of_ascii lo)%N then Err ReError else
      p <- parse_set_items rest ;;
      Ok (COr (CRange lo hi) p.1, p.2)
  | c :: rest =>
      p <- parse_set_items rest ;;
      Ok (COr (CLit c) p.1, p.2)
  end.

(** After the opening bracket: an optional [^], and a closing bracket in
    first position is a literal. *)
Definition parse_set (s : list ascii) : result (cset * list ascii) :=
  let neg := match s with "^"%char :: _ => true | _ => false end in
  let s := if neg then tail s else s in
  p <- match s with
       | "]"%char :: rest =>
           p <- parse_set_items rest ;; Ok (COr (CLit "]") p.1, p.2)
       | _ => parse_set_items s
       end ;;
  Ok (if neg then CNot p.1 else p.1, p.2).

(** The quantifiers that follow an atom.  A second quantifier is an error
    ([**]) or a lazy or possessive quantifier, outside the fragment. *)
Definition parse_quantifier (r : regex) (s : list ascii) : result (regex * list ascii) :=
  let quantified (r' : regex) (rest : list ascii) :=
    match rest with
    | c :: _ =>
        if bool_decide (c ∈ ["*"; "+"; "?"; "{"]%char) then Err ReError
        else Ok (r', rest)
    | [] => Ok (r', rest)
    end in
  match s with
  | "*"%char :: rest => quantified (RStar r) rest
  | "+"%char :: rest => quantified (RSeq r (RStar r)) rest
  | "?"%char :: rest => quantified (RAlt r REps) rest
  | "{"%char :: rest => Err ReError
  | _ => Ok (r, s)
  end.

(** Alternatives, sequences and atoms, by recursive descent; [n] is the
    number of groups opened so far, and the result carries the rest of the
    input and the new count. *)
Fixpoint parse_alt (fuel : nat) (s : list ascii) (n : nat) :
    result (regex * list ascii * nat) :=
  match fuel with
  | O => Err ReError
  | S fuel' =>
      p <- parse_seq fuel' s n ;;
      match p.1.2 with
      | "|"%char :: rest =>
          q <- parse_alt fuel' rest p.2 ;;
          Ok (RAlt p.1.1 q.1.1, q.1.2, q.2)
      | _ => Ok p
      end
  end
with parse_seq (fuel : nat) (s : list ascii) (n : nat) :
    result (regex * list ascii * nat) :=
  match fuel with
  | O => Err ReError
  | S fuel' =>
      match s with
      | [] => Ok (REps, s, n)
      | "|"%char :: _ => Ok (REps, s, n)
      | ")"%char :: _ => Ok (REps, s, n)
      | _ =>
          a <- parse_atom fuel' s n ;;
          q <- parse_quantifier a.1.1 a.1.2 ;;
          p <- parse_seq fuel' q.2 a.2 ;;
          Ok (RSeq q.1 p.1.1, p.1.2, p.2)
      end
  end
with parse_atom (fuel : nat) (s : list ascii) (n : nat) :
    result (regex * list ascii * nat) :=
  match fuel with
  | O => Err ReError
  | S fuel' =>
      match s with
      | [] => Err ReError
      | "("%char :: "?"%char :: _ => Err ReError
      | "("%char :: rest =>
          p <- parse_alt fuel' rest (S n) ;;
          match p.1.2 with
          | ")"%char :: rest' => Ok (RGroup (S n) p.1.1, rest', p.2)
          | _ => Err ReError
          end
      | "["%char :: rest => p <- parse_set rest ;; Ok (RSet p.1, p.2, n)
      | "."%char :: rest => Ok (RSet CAny, rest, n)
      | "\"%char :: c :: rest => cs <- escape_set c ;; Ok (RSet cs, rest, n)
      | c :: rest =>
          if bool_decide (c ∈ ["*"; "+"; "?"; "{"; "}"; "^"; "$"; "\"]%char)
          then Err ReError
          else Ok (RSet (CLit c), rest, n)
      end
  end.

(** [re.compile]. *)
Definition bt_compile (p : string) : result compiled :=
  let s := String.list_ascii_of_string p in
  r <- parse_alt (4 * length s + 4) s 0 ;;
  match r.1.2 with
  | [] => Ok {| re_expr := r.1.1; re_groups := r.2 |}
  | _ => Err ReError
  end.

(** ** Matching *)

(** The text of the groups matched so far, the latest first. *)
Definition caps : Type := list (nat * list ascii).

Fixpoint cap_get (n : nat) (c : caps) : option (list ascii) :=
  match c with
  | [] => None
  | (m, v) :: c' => if decide (n = m) then Some v else cap_get n c'
  end.

(** A greedy repetition of [step]: one more iteration first, which has to
    consume a character, and the continuation when that fails. *)
Fixpoint star_loop {A}
    (step : list ascii -> caps -> (list ascii -> caps -> option A) -> option A)
    (k : list ascii -> caps -> option A) (fuel : nat) (s : list ascii) (c : caps) :
    option A :=
  match fuel with
  | O => k s c
  | S fuel' =>
      match step s c
              (fun s' c' =>
                 if decide (length s' < length s) then star_loop step k fuel' s' c'
                 else None) with
      | Some x => Some x
      | None => k s c
      end
  end.

(** [match_re r s c k]: the first way, in the order of a backtracking
    matcher (left alternative first, longest repetition first), to match
    [r] at the front of [s] so that the continuation [k] accepts what
    follows. *)
Fixpoint match_re {A} (r : regex) (s : list ascii) (c : caps)
    (k : list ascii -> caps -> option A) {struct r} : option A :=
  match r with
  | REps => k s c
  | RSet cs =>
      match s with
      | a :: s' => if cset_mem cs a then k s' c else None
      | [] => None
      end
  | RSeq r1 r2 => match_re r1 s c (fun s' c' => match_re r2 s' c' k)
  | RAlt r1 r2 =>
      match match_re r1 s c k with
      | Some x => Some x
      | None => match_re r2 s c k
      end
  | RGroup n r' =>
      match_re r' s c
        (fun s' c' => k s' ((n, take (length s - length s') s) :: c'))
  | RStar r' => star_loop (match_re r') k (length s) s c
  end.

(** The strings a pattern matches: the reference for the matcher. *)
Inductive matches : regex -> list ascii -> Prop :=
| matches_eps : matches REps []
| matches_set cs a : cset_mem cs a = true -> matches (RSet cs) [a]
| matches_seq r1 r2 s1 s2 :
    matches r1 s1 -> matches r2 s2 -> matches (RSeq r1 r2) (s1 ++ s2)
| matches_alt_l r1 r2 s : matches r1 s -> matches (RAlt r1 r2) s
| matches_alt_r r1 r2 s : matches r2 s -> matches (RAlt r1 r2) s
| matches_star_nil r : matches (RStar r) []
| matches_star_cons r s1 s2 :
    matches r s1 -> matches (RStar r) s2 -> matches (RStar r) (s1 ++ s2)
| matches_group n r s : matches r s -> matches (RGroup n r) s.

(** The expression of a pattern without metacharacters. *)
Fixpoint lit (p : list ascii) : regex :=
  match p with
  | [] => REps
  | a :: p' => RSeq (RSet (CLit a)) (lit p')
  end.

(** [Pattern.fullmatch]: a match that ends at the end of the string. *)
Definition bt_fullmatch (p : compiled) (s : string) : bool :=
  match match_re (re_expr p) (String.list_ascii_of_string s) []
          (fun s' c => match s' with [] => Some c | _ => None end) with
  | Some _ => true
  | None => false
  end.

(** A match at the front of [s]: what follows it and the groups.  With
    [must_advance] an empty match is not accepted. *)
Definition match_here (r : regex) (must_advance : bool) (s : list ascii) :
    option (list ascii * caps) :=
  match_re r s []
    (fun s' c =>
       if must_advance && bool_decide (length s' = length s) then None
       else Some (s', c)).

(** ** Replacement *)

Fixpoint parse_number (s : list ascii) (acc : nat) : option (nat * list ascii) :=
  match s with
  | ">"%char :: rest => Some (acc, rest)
  | c :: rest => if is_digit c then parse_number rest (10 * acc + digit_val c) else None
  | [] => None
  end.

(** The template of [re.sub]: [\1] and [\g<1>] are groups ([\g<0>] is the
    whole match), [\\] is a backslash, an unknown escape of a letter is an
    error and any other escape is left alone.  A reference to a group the
    pattern has not is an error. *)
Fixpoint parse_template (fuel groups : nat) (t : list ascii) : result (list titem) :=
  match fuel with
  | O => Ok []
  | S fuel' =>
      let group (n : nat) (rest : list ascii) :=
        if decide (n <= groups)
        then l <- parse_template fuel' groups rest ;; Ok (TGroup n :: l)
        else Err ReError in
      match t with
      | [] => Ok []
      | "\"%char :: "g"%char :: "<"%char :: rest =>
          match parse_number rest 0 with
          | Some (n, rest') =>
              match rest with
              | ">"%char :: _ => Err ReError
              | _ => group n rest'
              end
          | None => Err ReError
          end
      | "\"%char :: "\"%char :: rest =>
          l <- parse_template fuel' groups rest ;; Ok (TLit "\" :: l)
      | "\"%char :: "n"%char :: rest =>
          l <- parse_template fuel' groups rest ;; Ok (TLit "010" :: l)
      | "\"%char :: "t"%char :: rest =>
          l <- parse_template fuel' groups rest ;; Ok (TLit "009" :: l)
      | "\"%char :: c :: rest =>
          if is_letter c || bool_decide (c = "0"%char) then Err ReError
          else if is_digit c then
            match rest with
            | d :: rest' =>
                if is_digit d then
                  match rest' with
                  | e :: _ =>
                      if is_digit e then Err ReError
                      else group (10 * digit_val c + digit_val d) rest'
                  | [] => group (10 * digit_val c + digit_val d) rest'
                  end
                else group (digit_val c) rest
            | [] => group (digit_val c) rest
            end
          else l <- parse_template fuel' groups rest ;; Ok (TLit "\" :: TLit c :: l)
      | "\"%char :: [] => Err ReError
      | c :: rest => l <- parse_template fuel' groups rest ;; Ok (TLit c :: l)
      end
  end.

(** The replacement for one match; a group that took no part in the match
    gives the empty string. *)
Fixpoint expand (t : list titem) (c : caps) : list ascii :=
  match t with
  | [] => []
  | TLit a :: t' => a :: expand t' c
  | TGroup n :: t' => default [] (cap_get n c) ++ expand t' c
  end.

(** The loop of [re.sub] on what is left of the string: replace the match
    at the front if there is one, else copy a character; after an empty
    match the next match at the same place has to be longer. *)
Fixpoint sub_from (fuel : nat) (r : regex) (t : list titem) (must_advance : bool)
    (s : list ascii) : list ascii :=
  match fuel with
  | O => s
  | S fuel' =>
      match match_here r must_advance s with
      | Some (rest, c) =>
          expand t ((0, take (length s - length rest) s) :: c) ++
          sub_from fuel' r t (bool_decide (length rest = length s)) rest
      | None =>
          match s with
          | [] => []
          | a :: s' => a :: sub_from fuel' r t false s'
          end
      end
  end.

(** [re.sub(pattern, template, s)]. *)
Definition bt_sub (p : compiled) (template s : string) : result string :=
  let t := String.list_ascii_of_string template in
  let l := String.list_ascii_of_string s in
  items <- parse_template (length t) (re_groups p) t ;;
  Ok (String.string_of_list_ascii
        (sub_from (2 * length l + 2) (re_expr p) items false l)).

#[export] Instance backtrack_engine : RegexEngine | 10 := {|
  pattern := compiled;
  re_compile := bt_compile;
  re_fullmatch := bt_fullmatch;
  re_sub := bt_sub
|}.

(** ** Reference definitions for the matcher *)

(** A continuation whose verdict does not depend on the groups. *)
Definition indep {A} (k : list ascii -> caps -> option A) : Prop :=
  forall s c c', is_Some (k s c) -> is_Some (k s c').

(** [s] splits into a string that [r] matches and a rest that [k] accepts. *)
Definition accepts {A} (r : regex) (k : list ascii -> caps -> option A)
    (s : list ascii) (c : caps) : Prop :=
  exists s1 s2, s = s1 ++ s2 /\ matches r s1 /\ is_Some (k s2 c).

(** The continuation of [fullmatch]. *)
Definition at_end (s : list ascii) (c : caps) : option caps :=
  match s with
  | [] => Some c
  | _ => None
  end.

(** ** The matcher decides the language of the pattern *)

Lemma is_Some_orelse {A} (a b : option A) :
  is_Some (match a with Some x => Some x | None => b end) <-> is_Some a \/ is_Some b.
Proof.
  destruct a; simpl; [by split; eauto|].
  split; [by right | by intros [[]%is_Some_None|]].
Qed.

Lemma accepts_indep {A} r (k : list ascii -> caps -> option A) s c c' :
  indep k -> accepts r k s c -> accepts r k s c'.
Proof. intros Hk (s1 & s2 & ? & ? & ?). exists s1, s2. eauto. Qed.

Lemma matches_star_inv r s :
  matches (RStar r) s ->
  s = [] \/ exists a b, s = a ++ b /\ a <> [] /\ matches r a /\ matches (RStar r) b.
Proof.
  intros H. remember (RStar r) as r0 eqn:Hr.
  induction H as [| | | | | |r' s1 s2 H1 _ H2 IH|]; simplify_eq; [by left|].
  destruct s1 as [|a s1]; [by apply IH|].
  right. by exists (a :: s1), s2.
Qed.

Section star.
Context {A : Type} (r : regex)
  (step : list ascii -> caps -> (list ascii -> caps -> option A) -> option A)
  (Hstep : forall s c k, indep k -> is_Some (step s c k) <-> accepts r k s c).

Lemma star_loop_spec fuel s c k :
  indep k -> length s <= fuel ->
  is_Some (star_loop step k fuel s c) <-> accepts (RStar r) k s c.
Proof.
  revert s c. induction fuel as [|fuel IH]; intros s c Hk Hlen.
  { destruct s; [|simpl in Hlen; lia]. simpl. split.
    - intros H. exists [], []. split; [done|]. split; [constructor | done].
    - intros (s1 & s2 & Heq & _ & H). symmetry in Heq.
      by apply app_eq_nil in Heq as [-> ->]. }
  simpl. rewrite is_Some_orelse.
  set (kk := fun s' c' => if decide (length s' < length s)
                          then star_loop step k fuel s' c' else None).
  assert (Hkk : indep kk).
  { intros s' c1 c2. unfold kk. case_decide; [|done].
    rewrite !IH by (done || lia). by apply accepts_indep. }
  rewrite (Hstep s c kk Hkk). split.
  - intros [(s1 & s2 & -> & H1 & H2)|H].
    + unfold kk in H2. case_decide; [|by apply is_Some_None in H2].
      apply IH in H2 as (s3 & s4 & -> & H3 & H4); [|done|lia].
      exists (s1 ++ s3), s4. rewrite <- app_assoc. split; [done|].
      split; [by constructor | done].
    + exists [], s. split; [done|]. split; [constructor | done].
  - intros (s1 & s2 & -> & H1 & H2).
    apply matches_star_inv in H1 as [->|(a & b & -> & Ha & H1 & H3)]; [by right|].
    left. exists a, (b ++ s2). rewrite <- app_assoc. split; [done|]. split; [done|].
    assert (length (b ++ s2) < length ((a ++ b) ++ s2))
      by (rewrite <- app_assoc, (length_app a); destruct a; [done | simpl; lia]).
    unfold kk. rewrite decide_True by done.
    apply IH; [done | lia | by exists b, s2].
Qed.

End star.

Lemma accepts_eps {A} (k : list ascii -> caps -> option A) s c :
  accepts REps k s c <-> is_Some (k s c).
Proof.
  split.
  - intros (s1 & s2 & -> & H1 & H2). by invert H1.
  - intros H. exists [], s. split; [done|]. split; [constructor | done].
Qed.

Lemma accepts_set {A} (k : list ascii -> caps -> option A) cs s c :
  accepts (RSet cs) k s c <->
  exists a s', s = a :: s' /\ cset_mem cs a = true /\ is_Some (k s' c).
Proof.
  split.
  - intros (s1 & s2 & -> & H1 & H2). invert H1. by exists a, s2.
  - intros (a & s' & -> & Ha & H). exists [a], s'. split; [done|].
    split; [by constructor | done].
Qed.

Lemma accepts_seq {A} (k : list ascii -> caps -> option A) r1 r2 s c :
  accepts (RSeq r1 r2) k s c <->
  exists s1 s2, s = s1 ++ s2 /\ matches r1 s1 /\ accepts r2 k s2 c.
Proof.
  split.
  - intros (s12 & s3 & -> & H12 & H3). invert H12.
    exists s1, (s2 ++ s3). rewrite <- app_assoc. split; [done|]. split; [done|].
    by exists s2, s3.
  - intros (s1 & s23 & -> & H1 & s2 & s3 & -> & H2 & H3).
    exists (s1 ++ s2), s3. rewrite <- app_assoc. split; [done|].
    split; [by constructor | done].
Qed.

Lemma accepts_alt {A} (k : list ascii -> caps -> option A) r1 r2 s c :
  accepts (RAlt r1 r2) k s c <-> accepts r1 k s c \/ accepts r2 k s c.
Proof.
  split.
  - intros (s1 & s2 & -> & H1 & H2). invert H1; [left | right]; by exists s1, s2.
  - intros [(s1 & s2 & -> & H1 & H2)|(s1 & s2 & -> & H1 & H2)]; exists s1, s2;
      (split; [done|]; split; [|done]); by constructor.
Qed.

Lemma accepts_group {A} (k : list ascii -> caps -> option A) n r s c :
  accepts (RGroup n r) k s c <-> accepts r k s c.
Proof.
  split; intros (s1 & s2 & -> & H1 & H2); exists s1, s2;
    (split; [done|]; split; [|done]); [by invert H1 | by constructor].
Qed.

(** The matcher finds a match exactly when there is one: for a
    continuation whose verdict does not depend on the groups, [match_re]
    succeeds if and only if the input splits into a string of the language
    of the pattern and a rest the continuation accepts. *)
Lemma match_re_spec {A} r s c (k : list ascii -> caps -> option A) :
  indep k -> is_Some (match_re r s c k) <-> accepts r k s c.
Proof.
  revert s c k. induction r as [|cs|r1 IH1 r2 IH2|r1 IH1 r2 IH2|r IH|n r IH];
    intros s c k Hk; simpl.
  - by rewrite accepts_eps.
  - rewrite accepts_set. destruct s as [|a s]; [|destruct (cset_mem cs a) eqn:Ha].
    + split; [by intros []%is_Some_None | by intros (? & ? & ? & _)].
    + split; [by exists a, s | by intros (? & ? & ? & _ & ?); simplify_eq].
    + split; [by intros []%is_Some_None|].
      intros (? & ? & ? & ? & _); simplify_eq. congruence.
  - rewrite accepts_seq, IH1.
    + split; intros (s1 & s2 & -> & H1 & H2); exists s1, s2;
        (split; [done|]; split; [done|]); by apply (IH2 s2 c k Hk).
    + intros s' c1 c2. rewrite !IH2 by done. by apply accepts_indep.
  - by rewrite is_Some_orelse, accepts_alt, IH1, IH2.
  - by apply (star_loop_spec r (match_re r) IH).
  - rewrite accepts_group, IH.
    + split; intros (s1 & s2 & -> & H1 & H2); exists s1, s2;
        (split; [done|]; split; [done|]); by eapply Hk.
    + intros s' c1 c2. apply Hk.
Qed.

Lemma indep_at_end : indep at_end.
Proof. by intros [|a s] c c'. Qed.

Lemma accepts_at_end r s c : accepts r at_end s c <-> matches r s.
Proof.
  split.
  - intros (s1 & [|a s2] & -> & H1 & H2); [by rewrite app_nil_r|].
    by apply is_Some_None in H2.
  - intros H. exists s, []. by rewrite app_nil_r.
Qed.

Lemma fullmatch_matches r s :
  is_Some (match_re r s [] at_end) <-> matches r s.
Proof. by rewrite match_re_spec, accepts_at_end by apply indep_at_end. Qed.

(** [fullmatch] decides the language of the pattern.  The
    backtracking matcher, with its order of alternatives, its greedy
    repetitions and its groups, accepts a string exactly when the whole
    string is in the language of the compiled expression. *)
Theorem bt_fullmatch_correct p s :
  bt_fullmatch p s = true <-> matches (re_expr p) (String.list_ascii_of_string s).
Proof.
  rewrite <- fullmatch_matches. unfold bt_fullmatch. fold at_end.
  destruct (match_re _ _ _ _); split; try done; by intros []%is_Some_None.
Qed.

(** ** Patterns without metacharacters *)

Lemma matches_lit p s : matches (lit p) s <-> s = p.
Proof.
  revert s. induction p as [|a p IH]; intros s; simpl.
  - split; [by intros H; invert H | intros ->; constructor].
  - split.
    + intros H. invert H.
      match goal with H : matches (RSet _) _ |- _ => invert H end.
      match goal with H : matches (lit _) _ |- _ => apply IH in H as -> end.
      match goal with H : cset_mem _ _ = true |- _ =>
        by apply bool_decide_eq_true in H as -> end.
    + intros ->. apply (matches_seq _ _ [a]); [|by apply IH].
      constructor. simpl. by apply bool_decide_eq_true.
Qed.

Lemma match_re_lit {A} p rest c (k : list ascii -> caps -> option A) :
  match_re (lit p) (p ++ rest) c k = k rest c.
Proof.
  revert c. induction p as [|a p IH]; intros c; simpl; [done|].
  by rewrite bool_decide_eq_true_2.
Qed.

Lemma match_re_lit_nil {A} p c (k : list ascii -> caps -> option A) :
  p <> [] -> match_re (lit p) [] c k = None.
Proof. by destruct p. Qed.

(** A case analysis on a character that a hypothesis restricts: the 256
    characters, those the hypothesis excludes dismissed by computation. *)
Ltac case_char c H :=
  destruct c as [[] [] [] [] [] [] [] []];
  try (vm_compute in H; discriminate H); try reflexivity.

Lemma parse_seq_plain_step fuel c rest n :
  bool_decide (c ∉ metachars) = true ->
  parse_seq (S (S fuel)) (c :: rest) n =
  (q <- parse_quantifier (RSet (CLit c)) rest ;;
   p <- parse_seq (S fuel) q.2 n ;;
   Ok (RSeq q.1 p.1.1, p.1.2, p.2)).
Proof. intros H. case_char c H. Qed.

Lemma parse_quantifier_plain r c rest :
  bool_decide (c ∉ metachars) = true ->
  parse_quantifier r (c :: rest) = Ok (r, c :: rest).
Proof. intros H. case_char c H. Qed.

Lemma parse_seq_plain s fuel n :
  forallb (fun c => bool_decide (c ∉ metachars)) s = true ->
  length s < fuel ->
  parse_seq fuel s n = Ok (lit s, [], n).
Proof.
  revert fuel. induction s as [|c s IH]; intros fuel Hs Hfuel.
  { destruct fuel; [lia | done]. }
  simpl in Hs, Hfuel. apply andb_true_iff in Hs as [Hc Hs].
  destruct fuel as [|[|fuel]]; [lia..|].
  rewrite parse_seq_plain_step by done.
  assert (Hq : parse_quantifier (RSet (CLit c)) s = Ok (RSet (CLit c), s)).
  { destruct s as [|c' s]; [done|]. simpl in Hs.
    apply andb_true_iff in Hs as [Hc' _]. by apply parse_quantifier_plain. }
  rewrite Hq. cbn [rbind fst snd]. by rewrite IH by (done || lia).
Qed.

Lemma bt_compile_plain p :
  plain p = true ->
  bt_compile p = Ok {| re_expr := lit (String.list_ascii_of_string p); re_groups := 0 |}.
Proof.
  intros Hp. unfold bt_compile, plain in *.
  replace (4 * length (String.list_ascii_of_string p) + 4)
    with (S (4 * length (String.list_ascii_of_string p) + 3)) by lia.
  cbn [parse_alt]. by rewrite parse_seq_plain by (done || lia).
Qed.

Lemma parse_template_plain_step fuel groups c t :
  bool_decide (c <> "\"%char) = true ->
  parse_template (S fuel) groups (c :: t) =
  (l <- parse_template fuel groups t ;; Ok (TLit c :: l)).
Proof. intros H. case_char c H. Qed.

Lemma parse_template_plain fuel groups t :
  forallb (fun c => bool_decide (c <> "\"%char)) t = true ->
  length t <= fuel ->
  parse_template fuel groups t = Ok (map TLit t).
Proof.
  revert fuel. induction t as [|c t IH]; intros fuel Ht Hfuel.
  { by destruct fuel. }
  simpl in Ht, Hfuel. apply andb_true_iff in Ht as [Hc Ht].
  destruct fuel as [|fuel]; [lia|].
  rewrite parse_template_plain_step by done. by rewrite IH by (done || lia).
Qed.

Lemma expand_lit t c : expand (map TLit t) c = t.
Proof. induction t as [|a t IH]; simpl; congruence. Qed.

Lemma sub_from_lit fuel p t :
  sub_from (S (S fuel)) (lit p) (map TLit t) false p = t.
Proof.
  cbn [sub_from]. unfold match_here at 1.
  rewrite <- (app_nil_r p) at 2. rewrite match_re_lit. cbn [andb].
  rewrite expand_lit. unfold match_here.
  destruct p as [|a p]; simpl; by rewrite app_nil_r.
Qed.

(** When the first match found at the front of a non-empty name is the
    whole name and the pattern does not match the empty string, [re.sub]
    gives the template expanded once, with the groups of that match. *)
Lemma sub_from_whole fuel r t s c :
  s <> [] -> match_here r false s = Some ([], c) -> match_here r false [] = None ->
  sub_from (S (S fuel)) r t false s = expand t ((0, s) :: c).
Proof.
  intros Hs Hm Hnil. cbn [sub_from]. rewrite Hm. cbn [length].
  rewrite bool_decide_eq_false_2 by (by destruct s).
  rewrite Hnil, app_nil_r, Nat.sub_0_r. by rewrite firstn_all.
Qed.

Lemma list_ascii_of_string_inj s1 s2 :
  String.list_ascii_of_string s1 = String.list_ascii_of_string s2 -> s1 = s2.
Proof.
  intros H. rewrite <- (String.string_of_list_ascii_of_string s1), H.
  apply String.string_of_list_ascii_of_string.
Qed.

#[export] Instance backtrack_engine_laws : RegexLiteral backtrack_engine.
Proof.
  split; simpl.
  - intros p Hp. by rewrite bt_compile_plain.
  - intros p re s Hp Hre. rewrite bt_compile_plain in Hre by done. simplify_eq.
    apply eq_true_iff_eq. rewrite bt_fullmatch_correct, bool_decide_eq_true.
    simpl. rewrite matches_lit. split; [apply list_ascii_of_string_inj | by intros ->].
  - intros p re t Hp Ht Hre. rewrite bt_compile_plain in Hre by done. simplify_eq.
    unfold bt_sub, plain_template in *. cbn [re_groups].
    rewrite parse_template_plain by done. cbn [rbind re_expr].
    replace (2 * length (String.list_ascii_of_string p) + 2)
      with (S (S (2 * length (String.list_ascii_of_string p)))) by lia.
    by rewrite sub_from_lit, String.string_of_list_ascii_of_string.
Qed.
