(* ===== verification/Matcher.v ===== *)
(** * Field and table matching

    [match_fields] is the predicate of lines 7-10 of [unpivot.py]: the
    field's name fully matches the compiled pattern, or, with
    [expected = false], it does not.  [ResourceMatcher] and [matcher_match]
    model the collaborator of [dataflows.helpers.resource_matcher] from its
    contract: built from a selector (nothing, a name pattern, a list of
    names) and the package, it answers whether a table name is selected.
    The last theorem instantiates the interface with the engine of
    [Backtrack]: which fields are selected is a matter of the language of
    the pattern. *)

From Stdlib Require Import Ascii.
From stdpp Require Import base list strings.
From S2P Require Import Prelude Dict Values Regex Backtrack.

Section matcher.
Context `{E : RegexEngine}.

(** [field['name']], which the processor always uses as a string. *)
Definition field_name (field : value) : result string :=
  n <- getitem field "name" ;; as_str n.

Definition match_fields (field_name_re : pattern) (expected : bool)
    (field : value) : result bool :=
  n <- field_name field ;;
  Ok (Bool.eqb (re_fullmatch field_name_re n) expected).

(** ** The resource matcher *)

Inductive selector : Type :=
| SelAll
| SelPattern (p : string)
| SelNames (names : list string).

Inductive matcher : Type :=
| MatchAll
| MatchRe (re : pattern)
| MatchNames (names : list string).

Definition ResourceMatcher (resources : selector) (pkg : value) : result matcher :=
  match resources with
  | SelAll => Ok MatchAll
  | SelPattern p => re <- re_compile p ;; Ok (MatchRe re)
  | SelNames names => Ok (MatchNames names)
  end.

Definition matcher_match (m : matcher) (name : string) : bool :=
  match m with
  | MatchAll => true
  | MatchRe re => re_fullmatch re name
  | MatchNames names => bool_decide (name ∈ names)
  end.

(** ** [match_fields] *)

Lemma field_name_ok field n :
  field_name field = Ok n <->
  exists d, field = VDict d /\ dict_get "name" d = Some (VStr n).
Proof.
  unfold field_name. rewrite rbind_ok. split.
  - intros (x & (d & -> & Hd)%getitem_ok & Hx). destruct x; simplify_eq/=. eauto.
  - intros (d & -> & Hd). exists (VStr n). simpl. by rewrite Hd.
Qed.

Lemma match_fields_ok re expected field b :
  match_fields re expected field = Ok b <->
  exists n, field_name field = Ok n /\
            b = Bool.eqb (re_fullmatch re n) expected.
Proof.
  unfold match_fields. rewrite rbind_ok. split.
  - intros (n & ? & ?). simplify_eq. eauto.
  - intros (n & ? & ->). eauto.
Qed.

Lemma match_fields_err re expected field e :
  match_fields re expected field = Err e <-> field_name field = Err e.
Proof.
  unfold match_fields. destruct (field_name field); simpl; split; congruence.
Qed.

Lemma match_fields_negb re expected field :
  match_fields re (negb expected) field =
  rmap negb (match_fields re expected field).
Proof.
  unfold match_fields. destruct (field_name field) as [n|]; simpl; [|done].
  f_equal. by destruct (re_fullmatch re n), expected.
Qed.

End matcher.

(** ** Field selection with the backtracking engine *)

(** C31: field selection decides the language of the pattern.  With
    the backtracking engine, [match_fields] selects a field exactly when
    its whole name is a string of the language of the compiled pattern
    (and, with [expected = false], exactly when it is not): the order of
    the alternatives, the greedy repetitions and the groups of the matcher
    do not change which fields are pivoted. *)
Theorem match_fields_language re expected fd n :
  dict_get "name" fd = Some (VStr n) ->
  exists b,
    match_fields (E := backtrack_engine) re expected (VDict fd) =
      Ok (Bool.eqb b expected) /\
    (b = true <-> matches (re_expr re) (String.list_ascii_of_string n)).
Proof.
  intros Hn. exists (bt_fullmatch re n). split; [|apply bt_fullmatch_correct].
  unfold match_fields, field_name. simpl. by rewrite Hn.
Qed.

Lemma match_fields_language_witness :
  exists b,
    match_fields (E := backtrack_engine)
      {| re_expr := RSeq (RSet (CLit "q"%char)) (RGroup 1 (RSet CDigit)); re_groups := 1 |}
      false (VDict [("name", VStr "q1"); ("type", VStr "integer")]) =
      Ok (Bool.eqb b false) /\
    (b = true <->
     matches (RSeq (RSet (CLit "q"%char)) (RGroup 1 (RSet CDigit)))
             (String.list_ascii_of_string "q1")).
Proof.
  apply (match_fields_language
           {| re_expr := RSeq (RSet (CLit "q"%char)) (RGroup 1 (RSet CDigit)); re_groups := 1 |}
           false [("name", VStr "q1"); ("type", VStr "integer")] "q1").
  reflexivity.
Defined.
