(* ===== verification/Rows.v ===== *)
(** * The row expander

    [unpivot_rows] (lines 13-20 of [unpivot.py]) is a generator: for every
    row of its input and every resolved pivot field it yields one new row.
    [make_row] is the body of the inner loop (lines 16-19), [expand_row]
    the inner loop on one row, [unpivot_rows] the generator's trace.  The
    input is itself a trace, so an exception raised by the row source after
    some rows is part of the input and its propagation is part of the
    model. *)

From stdpp Require Import base list strings gmap.
From S2P Require Import Prelude Dict Values.

(** Lines 17-18: [for field in fields_to_keep: new_row[field] = row[field]]. *)
Definition copy_kept (row : value) (fields_to_keep : list string)
    (new_row : value) : result value :=
  foldM (fun new_row field => x <- getitem row field ;; setitem new_row field x)
        new_row fields_to_keep.

(** Lines 16-19: the row built for one input row and one pivot field. *)
Definition make_row (row unpivot_field : value) (fields_to_keep : list string)
    (extra_value : value) : result value :=
  keys <- getitem unpivot_field "keys" ;;
  new_row <- copy_kept row fields_to_keep (deepcopy keys) ;;
  row_get <- get_method row ;;
  pivot_name <- getitem unpivot_field "name" ;;
  pivot_name <- as_str pivot_name ;;
  let x := row_get pivot_name VNone in
  value_name <- getitem extra_value "name" ;;
  value_name <- as_str value_name ;;
  setitem new_row value_name x.

(** Lines 15-20: the inner loop on one row; it stops at the first exception. *)
Definition expand_row (row : value) (fields_to_unpivot : list value)
    (fields_to_keep : list string) (extra_value : value) : gen value :=
  gen_of_results
    (map (fun unpivot_field => make_row row unpivot_field fields_to_keep extra_value)
         fields_to_unpivot).

(** Lines 13-20. *)
Fixpoint unpivot_rows (rows : gen value) (fields_to_unpivot : list value)
    (fields_to_keep : list string) (extra_value : value) : gen value :=
  match rows with
  | Stop => Stop
  | Raise e => Raise e
  | Yield row rows' =>
      gen_app (expand_row row fields_to_unpivot fields_to_keep extra_value)
              (unpivot_rows rows' fields_to_unpivot fields_to_keep extra_value)
  end.

(** ** Reference definitions *)

(** What [make_row] computes when nothing is missing: the keys, then the
    kept fields assigned in order, then the value column. *)
Definition row_spec (r keys : dict value) (pivot_name value_name : string)
    (fields_to_keep : list string) : dict value :=
  dict_set value_name (default VNone (dict_get pivot_name r))
    (dict_set_all
       (map (fun f => (f, default VNone (dict_get f r))) fields_to_keep) keys).

(** A resolved pivot field as the schema resolver leaves it. *)
Definition pivot_ok (unpivot_field : value) : Prop :=
  exists d n keys, unpivot_field = VDict d /\
    dict_get "name" d = Some (VStr n) /\ dict_get "keys" d = Some (VDict keys).

Definition pivot_okb (unpivot_field : value) : bool :=
  match unpivot_field with
  | VDict d =>
      match dict_get "name" d, dict_get "keys" d with
      | Some (VStr _), Some (VDict _) => true
      | _, _ => false
      end
  | _ => false
  end.

(** A row that has every kept field. *)
Definition row_ok (fields_to_keep : list string) (row : value) : Prop :=
  exists r, row = VDict r /\ Forall (fun f => f ∈ dict_keys r) fields_to_keep.

Definition row_okb (fields_to_keep : list string) (row : value) : bool :=
  match row with
  | VDict r => forallb (fun f => dict_has f r) fields_to_keep
  | _ => false
  end.

(** The row of [row_spec] for a row and a resolved pivot field given as
    values; [VNone] where they are not of the expected shape. *)
Definition new_row (fields_to_keep : list string) (value_name : string)
    (row unpivot_field : value) : value :=
  match row, unpivot_field with
  | VDict r, VDict d =>
      match dict_get "name" d, dict_get "keys" d with
      | Some (VStr n), Some (VDict keys) =>
          VDict (row_spec r keys n value_name fields_to_keep)
      | _, _ => VNone
      end
  | _, _ => VNone
  end.

(** The reference for the whole expansion: row by row, pivot field by
    pivot field. *)
Definition expand_spec (fields_to_unpivot : list value)
    (fields_to_keep : list string) (value_name : string)
    (rows : list value) : list value :=
  flat_map (fun row => map (new_row fields_to_keep value_name row) fields_to_unpivot)
           rows.

(** ** Example data: the [sales] table of the specification

    One wide row with the columns [region], [q1], [q2], [q3], the three
    resolved pivot fields and the value column [amount]. *)

Definition ex_row : value :=
  VDict [("region", VStr "east"); ("q1", VInt 10); ("q2", VInt 20);
         ("q3", VInt 30)].

Definition ex_row_west : value :=
  VDict [("region", VStr "west"); ("q1", VInt 1); ("q3", VInt 3)].

Definition ex_pivot (name quarter : string) : value :=
  VDict [("name", VStr name); ("keys", VDict [("quarter", VStr quarter)])].

Definition ex_pivots : list value :=
  [ex_pivot "q1" "1"; ex_pivot "q2" "2"; ex_pivot "q3" "3"].

Definition ex_amount : value := VDict [("name", VStr "amount")].

(** ** Shapes *)

Lemma pivot_okb_spec uf : pivot_okb uf = true <-> pivot_ok uf.
Proof.
  unfold pivot_ok. split.
  - destruct uf as [| | | | |d]; simpl; try done.
    destruct (dict_get "name" d) as [[]|] eqn:?; try done.
    destruct (dict_get "keys" d) as [[]|] eqn:?; try done. eauto 6.
  - intros (d & n & keys & -> & Hn & Hk). simpl. by rewrite Hn, Hk.
Qed.

Lemma row_okb_spec ftk row : row_okb ftk row = true <-> row_ok ftk row.
Proof.
  unfold row_ok. split.
  - destruct row as [| | | | |r]; simpl; try done. intros H. exists r.
    split; [done|]. apply Forall_forall. intros f Hf.
    rewrite forallb_forall in H. apply dict_has_true, H.
    by apply list_elem_of_In.
  - intros (r & -> & H). simpl. apply forallb_forall. intros f Hf.
    rewrite Forall_forall in H. apply dict_has_true, H.
    by apply list_elem_of_In.
Qed.

(** ** The loop over the kept fields *)

Lemma copy_kept_ok r ftk d :
  Forall (fun f => f ∈ dict_keys r) ftk ->
  copy_kept (VDict r) ftk (VDict d) =
  Ok (VDict (dict_set_all
               (map (fun f => (f, default VNone (dict_get f r))) ftk) d)).
Proof.
  unfold copy_kept. intros H. revert d.
  induction H as [|f ftk Hf _ IH]; intros d; simpl; [done|].
  apply dict_get_is_Some in Hf as [x Hx]. rewrite Hx. simpl. apply IH.
Qed.

Lemma copy_kept_KeyError r pre f post d :
  Forall (fun f => f ∈ dict_keys r) pre -> f ∉ dict_keys r ->
  copy_kept (VDict r) (pre ++ f :: post) (VDict d) = Err (KeyError f).
Proof.
  unfold copy_kept. intros Hpre Hf. rewrite foldM_app.
  fold (copy_kept (VDict r) pre (VDict d)). rewrite copy_kept_ok by done.
  simpl. apply dict_get_None in Hf. by rewrite Hf.
Qed.

Lemma copy_kept_not_subscriptable row f ftk acc :
  (forall r, row <> VDict r) -> copy_kept row (f :: ftk) acc = Err TypeError.
Proof. intros H. destruct row; try done. by destruct (H d). Qed.

(** ** One output row *)

Lemma make_row_ok ftk vn row uf ev :
  row_ok ftk row -> pivot_ok uf -> getitem ev "name" = Ok (VStr vn) ->
  make_row row uf ftk ev = Ok (new_row ftk vn row uf).
Proof.
  intros (r & -> & Hr) (d & n & keys & -> & Hn & Hk) Hev.
  unfold make_row, new_row. simpl. rewrite Hn, Hk. simpl.
  rewrite deepcopy_id, copy_kept_ok by done. simpl. by rewrite Hev.
Qed.

Lemma make_row_KeyError r pre f post uf ev :
  pivot_ok uf -> Forall (fun f => f ∈ dict_keys r) pre -> f ∉ dict_keys r ->
  make_row (VDict r) uf (pre ++ f :: post) ev = Err (KeyError f).
Proof.
  intros (d & n & keys & -> & Hn & Hk) Hpre Hf.
  unfold make_row. simpl. rewrite Hk. simpl.
  by rewrite deepcopy_id, (copy_kept_KeyError r pre f post) by done.
Qed.

Lemma make_row_no_keys d ftk row ev :
  dict_get "keys" d = None ->
  make_row row (VDict d) ftk ev = Err (KeyError "keys").
Proof. intros H. unfold make_row. simpl. by rewrite H. Qed.

Lemma expand_row_ok ftk vn row ufs ev :
  row_ok ftk row -> Forall pivot_ok ufs -> getitem ev "name" = Ok (VStr vn) ->
  expand_row row ufs ftk ev = gen_of_list (map (new_row ftk vn row) ufs).
Proof.
  intros Hrow Hufs Hev. unfold expand_row. apply gen_of_results_ok.
  apply mapM_total. eapply Forall_impl; [done|].
  intros uf Huf. by apply make_row_ok.
Qed.

Lemma expand_row_length row ufs ftk ev :
  length (gen_items (expand_row row ufs ftk ev)) <= length ufs.
Proof.
  unfold expand_row. induction ufs as [|uf ufs IH]; simpl; [done|].
  destruct (make_row row uf ftk ev); simpl; lia.
Qed.

#[export] Instance pivot_ok_dec uf : Decision (pivot_ok uf).
Proof.
  refine (cast_if (decide (pivot_okb uf = true))); by rewrite <- pivot_okb_spec.
Defined.

#[export] Instance row_ok_dec ftk row : Decision (row_ok ftk row).
Proof.
  refine (cast_if (decide (row_okb ftk row = true))); by rewrite <- row_okb_spec.
Defined.

(** ** The generator *)

Lemma expand_spec_length ufs ftk vn rows :
  length (expand_spec ufs ftk vn rows) = length rows * length ufs.
Proof.
  unfold expand_spec. induction rows as [|row l IH]; simpl; [done|].
  by rewrite length_app, length_map, IH.
Qed.

Lemma expand_spec_app ufs ftk vn rows1 rows2 :
  expand_spec ufs ftk vn (rows1 ++ rows2) =
  expand_spec ufs ftk vn rows1 ++ expand_spec ufs ftk vn rows2.
Proof. unfold expand_spec. by rewrite flat_map_app. Qed.

Lemma unpivot_rows_gen_app rows1 rows2 ufs ftk ev :
  unpivot_rows (gen_app rows1 rows2) ufs ftk ev =
  gen_app (unpivot_rows rows1 ufs ftk ev) (unpivot_rows rows2 ufs ftk ev).
Proof.
  induction rows1 as [|row rows1 IH|e]; simpl; [done | | done].
  by rewrite IH, gen_app_assoc.
Qed.

Lemma unpivot_rows_length_le rows ufs ftk ev :
  length (gen_items (unpivot_rows rows ufs ftk ev)) <=
  length (gen_items rows) * length ufs.
Proof.
  induction rows as [|row rows IH|e]; simpl; [done | | done].
  rewrite gen_items_app, length_app.
  pose proof (expand_row_length row ufs ftk ev).
  destruct (gen_end _); simpl; lia.
Qed.

Lemma unpivot_rows_expand ftk vn rows ufs ev :
  getitem ev "name" = Ok (VStr vn) ->
  Forall pivot_ok ufs ->
  Forall (row_ok ftk) (gen_items rows) ->
  unpivot_rows rows ufs ftk ev =
  gen_close (expand_spec ufs ftk vn (gen_items rows)) (gen_end rows).
Proof.
  intros Hev Hufs. induction rows as [|row rows IH|e]; simpl; intros Hrows;
    [done | | done].
  apply Forall_cons in Hrows as [Hrow Hrows].
  rewrite (expand_row_ok ftk vn), IH by done.
  unfold expand_spec. simpl. by rewrite gen_close_app.
Qed.

(** C1: on a row source whose rows all carry the kept fields, with
    resolved pivot fields of the right shape, [unpivot_rows] yields exactly
    the rows of the reference expansion (input rows in order, and for each
    of them one row per pivot field in the order of the list), and it ends
    the way the row source ends: exhausted, or with the exception the
    source raised. *)
Theorem unpivot_rows_correct ftk vn rows ufs ev :
  getitem ev "name" = Ok (VStr vn) ->
  Forall pivot_ok ufs ->
  Forall (row_ok ftk) (gen_items rows) ->
  unpivot_rows rows ufs ftk ev =
  gen_close (expand_spec ufs ftk vn (gen_items rows)) (gen_end rows).
Proof. apply unpivot_rows_expand. Qed.

(** C24: row count law.  Under the same hypotheses the number of rows
    yielded is the number of input rows times the number of resolved pivot
    fields. *)
Theorem unpivot_rows_count ftk vn rows ufs ev :
  getitem ev "name" = Ok (VStr vn) ->
  Forall pivot_ok ufs ->
  Forall (row_ok ftk) (gen_items rows) ->
  length (gen_items (unpivot_rows rows ufs ftk ev)) =
  length (gen_items rows) * length ufs.
Proof.
  intros Hev Hufs Hrows.
  by rewrite (unpivot_rows_expand ftk vn), gen_items_close, expand_spec_length.
Qed.

(** Whatever the input, the generator never yields more than
    (input rows) x (pivot fields) rows. *)
Theorem unpivot_rows_count_le rows ufs ftk ev :
  length (gen_items (unpivot_rows rows ufs ftk ev)) <=
  length (gen_items rows) * length ufs.
Proof. apply unpivot_rows_length_le. Qed.

(** The expansion is row by row: the output for a source that is
    one source followed by another is the output for the first followed by
    the output for the second (nothing is carried from one row to the
    next, and nothing of the second part is produced once the first part
    raised). *)
Theorem unpivot_rows_app rows1 rows2 ufs ftk ev :
  unpivot_rows (gen_app rows1 rows2) ufs ftk ev =
  gen_app (unpivot_rows rows1 ufs ftk ev) (unpivot_rows rows2 ufs ftk ev).
Proof. apply unpivot_rows_gen_app. Qed.

(** A failure of the row source is never masked: when the source
    ends with an exception, so does the output. *)
Theorem unpivot_rows_upstream_failure rows ufs ftk ev e :
  gen_end rows = Some e ->
  exists e', gen_end (unpivot_rows rows ufs ftk ev) = Some e'.
Proof.
  induction rows as [|row rows IH|e0]; simpl; [done | | eauto].
  intros H. rewrite gen_end_app. destruct (gen_end (expand_row _ _ _ _)); eauto.
Qed.

(** C38: a row that lacks a kept field raises [KeyError] for the first
    such field, after the complete expansion of the rows before it and
    before any row is produced from the faulty one. *)
Theorem unpivot_rows_KeyError vn good r rest pre f post uf ufs ev :
  getitem ev "name" = Ok (VStr vn) ->
  Forall pivot_ok (uf :: ufs) ->
  Forall (row_ok (pre ++ f :: post)) good ->
  Forall (fun f => f ∈ dict_keys r) pre -> f ∉ dict_keys r ->
  unpivot_rows (gen_app (gen_of_list good) (Yield (VDict r) rest))
               (uf :: ufs) (pre ++ f :: post) ev =
  gen_close (expand_spec (uf :: ufs) (pre ++ f :: post) vn good)
            (Some (KeyError f)).
Proof.
  intros Hev Hufs Hgood Hpre Hf. rewrite unpivot_rows_gen_app.
  rewrite (unpivot_rows_expand (pre ++ f :: post) vn)
    by (by rewrite ?gen_items_of_list).
  rewrite gen_items_of_list, gen_end_of_list, gen_app_close_None.
  rewrite <- (app_nil_r (expand_spec _ _ _ good)) at 2.
  rewrite gen_close_app. f_equal. simpl. unfold expand_row. simpl.
  apply Forall_cons in Hufs as [Huf _].
  by rewrite (make_row_KeyError r pre f post).
Qed.

(** With no resolved pivot field every input row is consumed and
    none is produced; the end of the source is kept. *)
Theorem unpivot_rows_no_pivot rows ftk ev :
  unpivot_rows rows [] ftk ev = gen_close [] (gen_end rows).
Proof. induction rows as [|row rows IH|e]; simpl; [done | by rewrite IH | done]. Qed.

(** ** The reference row *)

(** ** Well-formed values in, well-formed rows out *)

Lemma copy_kept_wf row ftk acc r :
  value_wf row = true -> value_wf acc = true -> copy_kept row ftk acc = Ok r ->
  value_wf r = true.
Proof.
  unfold copy_kept. intros Hrow. revert acc.
  induction ftk as [|f ftk IH]; intros acc Hacc H; simpl in H; [by simplify_eq|].
  apply rbind_ok in H as (acc' & Hstep & H). inv_bind Hstep.
  apply (IH acc'); [|done].
  eapply setitem_wf; [| |exact Hstep]; [done | by apply (getitem_wf row f)].
Qed.

Lemma make_row_wf row uf ftk ev r :
  value_wf row = true -> value_wf uf = true -> make_row row uf ftk ev = Ok r ->
  value_wf r = true /\ exists d, r = VDict d.
Proof.
  intros Hrow Huf H. unfold make_row in H. inv_bind H.
  split; [|by eapply setitem_dict]. eapply setitem_wf; [| |exact H].
  - eapply copy_kept_wf; [exact Hrow | | eassumption].
    rewrite deepcopy_id. by apply (getitem_wf uf "keys").
  - by apply (get_method_wf row).
Qed.

Lemma expand_row_wf row ufs ftk ev :
  value_wf row = true -> Forall (fun uf => value_wf uf = true) ufs ->
  Forall (fun r => value_wf r = true /\ exists d, r = VDict d)
         (gen_items (expand_row row ufs ftk ev)).
Proof.
  intros Hrow. unfold expand_row. induction 1 as [|uf ufs Huf _ IH]; simpl; [done|].
  destruct (make_row row uf ftk ev) as [r|e] eqn:Hr; simpl; [|done].
  constructor; [by apply (make_row_wf row uf ftk ev) | done].
Qed.

(** Well-formed rows.  When the input rows and the resolved pivot
    fields are well-formed values (no dictionary inside them has a key
    twice), every row [unpivot_rows] yields is a dictionary, and a
    well-formed one: assignments to a key that is already there replace its
    value and never add a second entry. *)
Lemma unpivot_rows_wf rows ufs ftk ev :
  Forall (fun row => value_wf row = true) (gen_items rows) ->
  Forall (fun uf => value_wf uf = true) ufs ->
  Forall (fun r => value_wf r = true /\ exists d, r = VDict d)
         (gen_items (unpivot_rows rows ufs ftk ev)).
Proof.
  intros Hrows Hufs. induction rows as [|row rows IH|e]; simpl in *; [done| |done].
  apply Forall_cons in Hrows as [Hrow Hrows]. rewrite gen_items_app.
  apply Forall_app. split; [by apply expand_row_wf|].
  destruct (gen_end _); [done | by apply IH].
Qed.

(** The keys of the reference row are the key
    names of the pivot field, the kept fields and the name of the value
    column, and nothing else. *)
Lemma row_spec_keys r keys n vn ftk :
  list_to_set (dict_keys (row_spec r keys n vn ftk)) =@{gset string}
  list_to_set (dict_keys keys) ∪ list_to_set ftk ∪ {[vn]}.
Proof.
  apply set_eq. intros k. unfold row_spec.
  rewrite elem_of_list_to_set, dict_keys_set_elem, dict_keys_set_all_elem.
  fold (dict_keys (map (fun f => (f, default VNone (dict_get f r))) ftk)).
  rewrite dict_keys_map_pair, !elem_of_union, !elem_of_list_to_set.
  rewrite elem_of_singleton. tauto.
Qed.

(** The values of the reference row: the value column holds the
    input row's value for the pivoted field ([None] when the row has no
    such field); a kept field holds the input row's value, also when a key
    of the pivot field has the same name; any other key holds the value
    the resolver computed. *)
Lemma row_spec_lookup r keys n vn ftk k :
  dict_get k (row_spec r keys n vn ftk) =
  if decide (vn = k) then Some (default VNone (dict_get n r))
  else if bool_decide (k ∈ ftk) then Some (default VNone (dict_get k r))
  else dict_get k keys.
Proof.
  unfold row_spec. rewrite dict_get_set. case_decide; [done|].
  apply (dict_get_set_all_map (fun f => default VNone (dict_get f r))).
Qed.

(** The reference row is a well-formed dictionary (no key twice)
    whenever the keys of the pivot field are. *)
Lemma row_spec_wf r keys n vn ftk :
  dict_wf keys -> dict_wf (row_spec r keys n vn ftk).
Proof. intros H. unfold row_spec. auto with unpivot. Qed.

(** The order of the columns of the reference row when no name
    collides: the keys of the pivot field, then the kept fields, then the
    value column. *)
Lemma row_spec_order r keys n vn ftk :
  NoDup (dict_keys keys ++ ftk ++ [vn]) ->
  dict_keys (row_spec r keys n vn ftk) = dict_keys keys ++ ftk ++ [vn].
Proof.
  intros Hnd. unfold row_spec.
  assert (Hk : dict_keys
    (keys ++ map (fun f => (f, default VNone (dict_get f r))) ftk) =
    dict_keys keys ++ ftk) by (by rewrite dict_keys_app, dict_keys_map_pair).
  rewrite app_assoc in Hnd. apply NoDup_app in Hnd as (Hnd & Hvn & _).
  rewrite dict_set_all_fresh by (unfold dict_wf; by rewrite Hk).
  rewrite dict_keys_set_notin; rewrite Hk; [by rewrite <- app_assoc|].
  intros Hin. apply (Hvn _ Hin). left.
Qed.

(** ** The rows that are built *)

Lemma make_row_row_spec ftk vn r u n keys ev :
  Forall (fun f => f ∈ dict_keys r) ftk ->
  dict_get "name" u = Some (VStr n) -> dict_get "keys" u = Some (VDict keys) ->
  getitem ev "name" = Ok (VStr vn) ->
  make_row (VDict r) (VDict u) ftk ev = Ok (VDict (row_spec r keys n vn ftk)).
Proof.
  intros Hr Hn Hk Hev. rewrite (make_row_ok ftk vn); unfold row_ok, pivot_ok;
    eauto 8. simpl. by rewrite Hn, Hk.
Qed.

(** C27: field completeness.  For a row that has the kept fields and a
    resolved pivot field, [make_row] returns a row whose keys are the key
    names of the pivot field, the kept fields and the name of the value
    column, and nothing else. *)
Theorem make_row_keys ftk vn r u n keys ev :
  Forall (fun f => f ∈ dict_keys r) ftk ->
  dict_get "name" u = Some (VStr n) -> dict_get "keys" u = Some (VDict keys) ->
  getitem ev "name" = Ok (VStr vn) ->
  exists d, make_row (VDict r) (VDict u) ftk ev = Ok (VDict d) /\
    list_to_set (dict_keys d) =@{gset string}
    list_to_set (dict_keys keys) ∪ list_to_set ftk ∪ {[vn]}.
Proof.
  intros. eexists. split; [by apply make_row_row_spec | apply row_spec_keys].
Qed.

(** C26: the values of the row [make_row] returns: the value column
    holds the input row's value for the pivoted field ([None] when the row
    has no such field, which is no error); a kept field holds the input
    row's value, also when a key of the pivot field has the same name; any
    other key holds the value the resolver computed. *)
Theorem make_row_values ftk vn r u n keys ev :
  Forall (fun f => f ∈ dict_keys r) ftk ->
  dict_get "name" u = Some (VStr n) -> dict_get "keys" u = Some (VDict keys) ->
  getitem ev "name" = Ok (VStr vn) ->
  exists d, make_row (VDict r) (VDict u) ftk ev = Ok (VDict d) /\
    forall k, dict_get k d =
      if decide (vn = k) then Some (default VNone (dict_get n r))
      else if bool_decide (k ∈ ftk) then dict_get k r
      else dict_get k keys.
Proof.
  intros Hr **. eexists. split; [by apply make_row_row_spec|].
  intros k. rewrite row_spec_lookup. case_decide; [done|].
  case_bool_decide as Hk; [|done].
  rewrite Forall_forall in Hr. by destruct (dict_get_is_Some k r) as [_ [x ->]]; auto.
Qed.

(** The row [make_row] returns is a well-formed dictionary (no
    key twice) whenever the keys of the pivot field are, and its columns
    come in the order keys, kept fields, value column when no name
    collides. *)
Theorem make_row_order ftk vn r u n keys ev :
  Forall (fun f => f ∈ dict_keys r) ftk ->
  dict_get "name" u = Some (VStr n) -> dict_get "keys" u = Some (VDict keys) ->
  getitem ev "name" = Ok (VStr vn) ->
  dict_wf keys ->
  exists d, make_row (VDict r) (VDict u) ftk ev = Ok (VDict d) /\ dict_wf d /\
    (NoDup (dict_keys keys ++ ftk ++ [vn]) ->
     dict_keys d = dict_keys keys ++ ftk ++ [vn]).
Proof.
  intros. eexists. split; [by apply make_row_row_spec|].
  split; [by apply row_spec_wf | apply row_spec_order].
Qed.

(** A resolved pivot field without [keys] makes [unpivot_rows]
    raise [KeyError] for ["keys"] at the first input row, before anything
    is yielded. *)
Theorem unpivot_rows_no_keys u ufs row rows ftk ev :
  dict_get "keys" u = None ->
  unpivot_rows (Yield row rows) (VDict u :: ufs) ftk ev = Raise (KeyError "keys").
Proof. intros H. simpl. unfold expand_row. simpl. by rewrite make_row_no_keys. Qed.

(** ** The theorems at the [sales] table *)

Lemma unpivot_rows_correct_witness :
  unpivot_rows (gen_of_list [ex_row; ex_row_west]) ex_pivots ["region"] ex_amount =
  gen_close (expand_spec ex_pivots ["region"] "amount" [ex_row; ex_row_west]) None.
Proof.
  apply (unpivot_rows_correct ["region"] "amount"
           (gen_of_list [ex_row; ex_row_west]) ex_pivots ex_amount).
  - reflexivity.
  - by_compute.
  - by_compute.
Defined.

Lemma unpivot_rows_count_witness :
  length (gen_items (unpivot_rows (gen_of_list [ex_row; ex_row_west]) ex_pivots
                       ["region"] ex_amount)) = 2 * 3.
Proof.
  apply (unpivot_rows_count ["region"] "amount"
           (gen_of_list [ex_row; ex_row_west]) ex_pivots ex_amount).
  - reflexivity.
  - by_compute.
  - by_compute.
Defined.

Lemma unpivot_rows_upstream_failure_witness :
  exists e', gen_end (unpivot_rows (Yield ex_row (Raise AttributeError)) ex_pivots
                        ["region"] ex_amount) = Some e'.
Proof.
  apply (unpivot_rows_upstream_failure (Yield ex_row (Raise AttributeError))
           ex_pivots ["region"] ex_amount AttributeError).
  reflexivity.
Defined.

Lemma unpivot_rows_KeyError_witness :
  unpivot_rows (gen_app (gen_of_list [ex_row])
                  (Yield ex_row_west (gen_of_list [ex_row])))
               ex_pivots (["region"] ++ "q2" :: ["q3"]) ex_amount =
  gen_close (expand_spec ex_pivots (["region"] ++ "q2" :: ["q3"]) "amount" [ex_row])
            (Some (KeyError "q2")).
Proof.
  apply (unpivot_rows_KeyError "amount" [ex_row]
           [("region", VStr "west"); ("q1", VInt 1); ("q3", VInt 3)]
           (gen_of_list [ex_row]) ["region"] "q2" ["q3"]
           (ex_pivot "q1" "1") [ex_pivot "q2" "2"; ex_pivot "q3" "3"] ex_amount).
  - reflexivity.
  - by_compute.
  - by_compute.
  - by_compute.
  - by_compute.
Defined.

Lemma make_row_keys_witness :
  exists d, make_row ex_row (ex_pivot "q1" "1") ["region"] ex_amount = Ok (VDict d) /\
    list_to_set (dict_keys d) =@{gset string}
    list_to_set (dict_keys [("quarter", VStr "1")]) ∪ list_to_set ["region"] ∪ {["amount"]}.
Proof.
  apply (make_row_keys ["region"] "amount" _ _ "q1" [("quarter", VStr "1")]).
  - by_compute.
  - reflexivity.
  - reflexivity.
  - reflexivity.
Defined.

Lemma make_row_values_witness :
  exists d, make_row ex_row_west (ex_pivot "q2" "2") ["region"] ex_amount = Ok (VDict d) /\
    forall k, dict_get k d =
      if decide ("amount" = k) then
        Some (default VNone (dict_get "q2"
                [("region", VStr "west"); ("q1", VInt 1); ("q3", VInt 3)]))
      else if bool_decide (k ∈ ["region"]) then
        dict_get k [("region", VStr "west"); ("q1", VInt 1); ("q3", VInt 3)]
      else dict_get k [("quarter", VStr "2")].
Proof.
  apply (make_row_values ["region"] "amount" _ _ "q2" [("quarter", VStr "2")]).
  - by_compute.
  - reflexivity.
  - reflexivity.
  - reflexivity.
Defined.

Lemma make_row_order_witness :
  exists d, make_row ex_row (ex_pivot "q1" "1") ["region"] ex_amount = Ok (VDict d) /\
    dict_wf d /\
    (NoDup (dict_keys [("quarter", VStr "1")] ++ ["region"] ++ ["amount"]) ->
     dict_keys d = dict_keys [("quarter", VStr "1")] ++ ["region"] ++ ["amount"]).
Proof.
  apply (make_row_order ["region"] "amount" _ _ "q1" [("quarter", VStr "1")]).
  - by_compute.
  - reflexivity.
  - reflexivity.
  - reflexivity.
  - by_compute.
Defined.

Lemma unpivot_rows_no_keys_witness :
  unpivot_rows (Yield ex_row Stop) (VDict [("name", VStr "q1")] :: []) ["region"]
               ex_amount = Raise (KeyError "keys").
Proof.
  apply (unpivot_rows_no_keys [("name", VStr "q1")] [] ex_row Stop ["region"] ex_amount).
  reflexivity.
Defined.
