(* ===== verification/Pivot.v ===== *)
(** * The way back: wide rows from long rows

    [unpivot_rows] loses nothing when every wide row has exactly the kept
    columns and the pivoted columns: the long rows made of a wide row hold
    its kept columns (in each of them) and the value of every pivoted
    column (in the row made for it).  [pivot_back] is the reference for the
    inverse: it rebuilds the wide row from its long rows, and [pivot_rows]
    rebuilds a table.  Nothing in [unpivot.py] computes them; they state
    what a consumer can recover, and the round-trip theorem says that this
    is the input, up to the order of the columns. *)

From stdpp Require Import base list strings.
From S2P Require Import Prelude Dict Values Matcher Rows.

(** [row.get(k)] for a row that may be any value. *)
Definition column (row : value) (k : string) : value :=
  match row with
  | VDict d => default VNone (dict_get k d)
  | _ => VNone
  end.

(** The name of the column a resolved pivot field stands for. *)
Definition pivot_name (unpivot_field : value) : string :=
  match field_name unpivot_field with
  | Ok n => n
  | Err _ => ""
  end.

(** The columns [columns] of a wide row, in that order. *)
Definition restrict (r : dict value) (columns : list string) : dict value :=
  map (fun c => (c, default VNone (dict_get c r))) columns.

(** The wide row rebuilt from the long rows made of it: the kept columns
    from the first long row, and the value column of the long row made for
    each pivot field. *)
Definition pivot_back (fields_to_keep : list string) (value_name : string)
    (fields_to_unpivot long : list value) : dict value :=
  match head long with
  | None => []
  | Some first =>
      map (fun f => (f, column first f)) fields_to_keep ++
      zip_with (fun unpivot_field out => (pivot_name unpivot_field, column out value_name))
               fields_to_unpivot long
  end.

(** [n] wide rows rebuilt from a table of long rows. *)
Fixpoint pivot_rows (n : nat) (fields_to_keep : list string) (value_name : string)
    (fields_to_unpivot long : list value) : list (dict value) :=
  match n with
  | O => []
  | S n' =>
      pivot_back fields_to_keep value_name fields_to_unpivot
                 (take (length fields_to_unpivot) long) ::
      pivot_rows n' fields_to_keep value_name fields_to_unpivot
                 (drop (length fields_to_unpivot) long)
  end.

(** A wide row that has the kept columns and the pivoted columns, and no
    other. *)
Definition wide_ok (fields_to_keep : list string) (fields_to_unpivot : list value)
    (r : dict value) : Prop :=
  Forall (fun k => k ∈ fields_to_keep ++ map pivot_name fields_to_unpivot)
         (dict_keys r) /\
  Forall (fun k => k ∈ dict_keys r)
         (fields_to_keep ++ map pivot_name fields_to_unpivot).

(** ** Restriction *)

Lemma dict_get_restrict r columns k :
  dict_get k (restrict r columns) =
  if bool_decide (k ∈ columns) then Some (default VNone (dict_get k r)) else None.
Proof.
  unfold restrict. induction columns as [|c columns IH]; simpl; [done|].
  destruct (decide (k = c)) as [->|Hne].
  - by rewrite bool_decide_eq_true_2 by left.
  - rewrite IH. rewrite (bool_decide_ext (k ∈ c :: columns) (k ∈ columns)); [done|].
    rewrite elem_of_cons. split; [by intros [?|?] | by right].
Qed.

Lemma restrict_equiv r columns :
  Forall (fun k => k ∈ columns) (dict_keys r) ->
  Forall (fun k => k ∈ dict_keys r) columns ->
  dict_equiv (restrict r columns) r.
Proof.
  rewrite !Forall_forall. intros Hr Hc k. rewrite dict_get_restrict.
  case_bool_decide as Hk.
  - apply Hc, dict_get_is_Some in Hk as [x Hx]. by rewrite Hx.
  - symmetry. apply dict_get_None. intros Hin. by apply Hk, Hr.
Qed.

(** ** One wide row *)

Lemma pivot_name_ok d n :
  dict_get "name" d = Some (VStr n) -> pivot_name (VDict d) = n.
Proof. intros Hn. unfold pivot_name, field_name. simpl. by rewrite Hn. Qed.

Lemma column_new_row_kept ftk vn r uf f :
  pivot_ok uf -> vn ∉ ftk -> f ∈ ftk ->
  column (new_row ftk vn (VDict r) uf) f = default VNone (dict_get f r).
Proof.
  intros (d & n & keys & -> & Hn & Hk) Hvn Hf. unfold new_row. rewrite Hn, Hk.
  simpl. rewrite row_spec_lookup.
  rewrite decide_False by (intros ->; done). by rewrite bool_decide_eq_true_2.
Qed.

Lemma column_new_row_value ftk vn r uf :
  pivot_ok uf ->
  column (new_row ftk vn (VDict r) uf) vn = default VNone (dict_get (pivot_name uf) r).
Proof.
  intros (d & n & keys & -> & Hn & Hk). unfold new_row. rewrite Hn, Hk.
  simpl. rewrite row_spec_lookup, decide_True by done. simpl.
  by rewrite (pivot_name_ok d n).
Qed.

Lemma pivoted_columns ftk vn ufs r :
  Forall pivot_ok ufs ->
  zip_with (fun unpivot_field out => (pivot_name unpivot_field, column out vn))
           ufs (map (new_row ftk vn (VDict r)) ufs) =
  restrict r (map pivot_name ufs).
Proof.
  unfold restrict. induction 1 as [|uf ufs Huf _ IH]; cbn [zip_with map]; [done|].
  by rewrite column_new_row_value, IH.
Qed.

Lemma pivot_back_new_row ftk vn ufs r :
  Forall pivot_ok ufs -> ufs <> [] -> vn ∉ ftk ->
  pivot_back ftk vn ufs (map (new_row ftk vn (VDict r)) ufs) =
  restrict r (ftk ++ map pivot_name ufs).
Proof.
  intros Hufs Hne Hvn. unfold pivot_back.
  destruct ufs as [|uf ufs']; [done|].
  replace (head (map (new_row ftk vn (VDict r)) (uf :: ufs')))
    with (Some (new_row ftk vn (VDict r) uf)) by done.
  rewrite pivoted_columns by done. unfold restrict at 2. rewrite map_app.
  f_equal. apply map_ext_in. intros f Hf%list_elem_of_In.
  rewrite column_new_row_kept; [done | by apply Forall_cons in Hufs as [? _] | done..].
Qed.

(** ** A table *)

Lemma pivot_rows_expand ftk vn ufs rows :
  Forall pivot_ok ufs -> ufs <> [] -> vn ∉ ftk ->
  pivot_rows (length rows) ftk vn ufs (expand_spec ufs ftk vn (map VDict rows)) =
  map (fun r => restrict r (ftk ++ map pivot_name ufs)) rows.
Proof.
  intros Hufs Hne Hvn. unfold expand_spec.
  induction rows as [|r rows IH]; simpl; [done|].
  rewrite take_app_length', drop_app_length' by (by rewrite length_map).
  by rewrite pivot_back_new_row, IH.
Qed.

Lemma wide_ok_row_ok ftk ufs r : wide_ok ftk ufs r -> row_ok ftk (VDict r).
Proof.
  intros [_ Hc]. exists r. split; [done|]. by apply Forall_app in Hc as [? _].
Qed.

(** C20: unpivoting loses nothing.  When there is at least one pivot
    field, the name of the value column is not a kept field and every wide
    row has exactly the kept columns and the pivoted columns, the wide rows
    can be rebuilt from the long rows [unpivot_rows] yields: [pivot_rows]
    gives back the table, row by row, up to the order of the columns. *)
Theorem unpivot_roundtrip ftk vn ufs ev rows :
  getitem ev "name" = Ok (VStr vn) -> Forall pivot_ok ufs -> ufs <> [] ->
  vn ∉ ftk -> Forall (wide_ok ftk ufs) rows ->
  Forall2 dict_equiv
    (pivot_rows (length rows) ftk vn ufs
       (gen_items (unpivot_rows (gen_of_list (map VDict rows)) ufs ftk ev)))
    rows.
Proof.
  intros Hev Hufs Hne Hvn Hrows.
  rewrite (unpivot_rows_expand ftk vn), gen_items_of_list, gen_items_close;
    [|done..|].
  2: { rewrite gen_items_of_list. apply Forall_fmap.
       eapply Forall_impl; [done|]. intros r. apply wide_ok_row_ok. }
  rewrite pivot_rows_expand by done.
  induction Hrows as [|r rows [Hr Hc] _ IH]; simpl; constructor; [|done].
  by apply restrict_equiv.
Qed.

(** ** The theorem at the [sales] table *)

Lemma unpivot_roundtrip_witness :
  Forall2 dict_equiv
    (pivot_rows 1 ["region"] "amount" ex_pivots
       (gen_items (unpivot_rows
                     (gen_of_list
                        [VDict [("region", VStr "east"); ("q1", VInt 10);
                                ("q2", VInt 20); ("q3", VInt 30)]])
                     ex_pivots ["region"] ex_amount)))
    [[("region", VStr "east"); ("q1", VInt 10); ("q2", VInt 20); ("q3", VInt 30)]].
Proof.
  apply (unpivot_roundtrip ["region"] "amount" ex_pivots ex_amount
           [[("region", VStr "east"); ("q1", VInt 10); ("q2", VInt 20);
             ("q3", VInt 30)]]).
  - reflexivity.
  - by_compute.
  - discriminate.
  - by_compute.
  - by_compute.
Defined.
