(* ===== verification/Heap.v ===== *)
(** * The row expander on the object store

    In [Rows] a Python value is a tree: two references to one dictionary
    are two equal values and [copy.deepcopy] is the identity.  This file
    models the same lines of [unpivot.py] (13-20) one level lower, on a
    store of mutable objects: a [ref] is what a Python variable or a slot
    of a container holds ([None], a boolean, an integer, a string, or the
    address of a dictionary or list), a [heap] is the list of the objects
    that were created, and [new_row[field] = x] updates the object in
    place.  A computation is a function from the store to an outcome and
    the store it leaves ([heapM]); the store is kept when an exception is
    raised, as in Python.

    [make_row_h] is the body of the inner loop of [unpivot_rows],
    [expand_row_h] and [unpivot_rows_h] are the loops, run without
    interruption.  [reify] reads the tree a reference stands for; it is
    the abstraction function of the refinement: what [make_row_h] leaves
    in the store is what [Rows.make_row] computes, exception for
    exception.  The store is where the purpose of [copy.deepcopy] on line
    16 can be stated: every row that is yielded is a new object, no object
    that existed before is written to, and so the rows already handed out
    keep their contents while the later ones are built.

    [deepcopy_h] copies a value as a tree and raises [RecursionError] when
    the value is nested deeper than [depth], the recursion depth that is
    available; Python's memo table, which keeps the sharing inside the
    copied value and lets it copy cyclic values, is not modelled. *)

From stdpp Require Import base list strings.
From S2P Require Import Prelude Dict Values Rows.

(** ** References, objects, the store *)

Abbreviation addr := nat (only parsing).

Inductive ref : Type :=
| RNone
| RBool (b : bool)
| RInt (z : Z)
| RStr (s : string)
| RObj (a : addr).

Inductive object : Type :=
| ODict (d : dict ref)
| OList (l : list ref).

Abbreviation heap := (list object).

#[export] Instance ref_eq_dec : EqDecision ref.
Proof. solve_decision. Defined.

#[export] Instance object_eq_dec : EqDecision object.
Proof. solve_decision. Defined.

(** The object behind a reference. *)
Definition deref (h : heap) (r : ref) : option object :=
  match r with
  | RObj a => h !! a
  | _ => None
  end.

(** ** Computations on the store *)

Definition heapM (A : Type) : Type := heap -> result A * heap.

Definition hret {A} (a : A) : heapM A := fun h => (Ok a, h).

Definition hraise {A} (e : error) : heapM A := fun h => (Err e, h).

Definition hbind {A B} (m : heapM A) (f : A -> heapM B) : heapM B :=
  fun h =>
    match m h with
    | (Ok a, h') => f a h'
    | (Err e, h') => (Err e, h')
    end.

Declare Scope heap_scope.
Delimit Scope heap_scope with heap.
Bind Scope heap_scope with heapM.

Notation "x <- c1 ;; c2" := (hbind c1 (fun x => c2))
  (at level 100, c1 at next level, right associativity) : heap_scope.

Open Scope heap_scope.

Fixpoint hmapM {A B} (f : A -> heapM B) (l : list A) : heapM (list B) :=
  match l with
  | [] => hret []
  | x :: l' => y <- f x ;; ys <- hmapM f l' ;; hret (y :: ys)
  end.

(** A [for] loop whose body returns nothing. *)
Fixpoint hfor {A} (l : list A) (body : A -> heapM unit) : heapM unit :=
  match l with
  | [] => hret tt
  | x :: l' => u <- body x ;; hfor l' body
  end.

(** ** Python's operations on objects *)

(** A display [{...}] or [[...]]: a new object, at an address that was
    not in use. *)
Definition alloc (o : object) : heapM ref :=
  fun h => (Ok (RObj (length h)), h ++ [o]).

(** [r[k]] *)
Definition getitem_h (r : ref) (k : string) : heapM ref :=
  fun h =>
    match deref h r with
    | Some (ODict d) => (of_option (KeyError k) (dict_get k d), h)
    | _ => (Err TypeError, h)
    end.

(** [r.get(k, dflt)], once [r.get] was looked up. *)
Definition dict_get_h (r : ref) (k : string) (dflt : ref) : heapM ref :=
  fun h =>
    match deref h r with
    | Some (ODict d) => (Ok (default dflt (dict_get k d)), h)
    | _ => (Err TypeError, h)
    end.

(** The bound method [r.get]: it holds the reference, not the contents. *)
Definition get_method_h (r : ref) : heapM (string -> ref -> heapM ref) :=
  fun h =>
    match deref h r with
    | Some (ODict _) => (Ok (dict_get_h r), h)
    | _ => (Err AttributeError, h)
    end.

(** [r[k] = x]: the dictionary is updated where it is. *)
Definition setitem_h (r : ref) (k : string) (x : ref) : heapM unit :=
  fun h =>
    match r with
    | RObj a =>
        match h !! a with
        | Some (ODict d) => (Ok tt, <[a := ODict (dict_set k x d)]> h)
        | _ => (Err TypeError, h)
        end
    | _ => (Err TypeError, h)
    end.

Definition as_str_h (r : ref) : heapM string :=
  match r with
  | RStr s => hret s
  | _ => hraise TypeError
  end.

(** The object a reference points to. *)
Definition load (r : ref) : heapM object :=
  fun h => (of_option TypeError (deref h r), h).

(** The contents of a copy: the items in order, each slot copied by
    [copy]. *)
Definition copy_slots (copy : ref -> heapM ref) (o : object) : heapM object :=
  match o with
  | ODict d =>
      d' <- hmapM (fun kx => x' <- copy kx.2 ;; hret (kx.1, x')) d ;;
      hret (ODict d')
  | OList l => l' <- hmapM copy l ;; hret (OList l')
  end.

(** [copy.deepcopy(r)]: new objects for the dictionaries and lists, down
    to depth [depth]. *)
Fixpoint deepcopy_h (depth : nat) (r : ref) : heapM ref :=
  match r, depth with
  | RObj a, O => hraise RecursionError
  | RObj a, S depth' =>
      o <- load r ;;
      o' <- copy_slots (deepcopy_h depth') o ;;
      alloc o'
  | _, _ => hret r
  end.

(** ** The row expander *)

(** Lines 17-18: [for field in fields_to_keep: new_row[field] = row[field]]. *)
Definition copy_kept_h (row : ref) (fields_to_keep : list string)
    (new_row : ref) : heapM unit :=
  hfor fields_to_keep
       (fun field => x <- getitem_h row field ;; setitem_h new_row field x).

(** Lines 16-19: the row built for one input row and one pivot field. *)
Definition make_row_h (depth : nat) (row unpivot_field : ref)
    (fields_to_keep : list string) (extra_value : ref) : heapM ref :=
  keys <- getitem_h unpivot_field "keys" ;;
  new_row <- deepcopy_h depth keys ;;
  u <- copy_kept_h row fields_to_keep new_row ;;
  row_get <- get_method_h row ;;
  pivot_name <- getitem_h unpivot_field "name" ;;
  pivot_name <- as_str_h pivot_name ;;
  x <- row_get pivot_name RNone ;;
  value_name <- getitem_h extra_value "name" ;;
  value_name <- as_str_h value_name ;;
  u <- setitem_h new_row value_name x ;;
  hret new_row.

(** Lines 15-20: the inner loop on one row, with the store it leaves. *)
Fixpoint expand_row_h (depth : nat) (row : ref) (fields_to_unpivot : list ref)
    (fields_to_keep : list string) (extra_value : ref) (h : heap) :
    gen ref * heap :=
  match fields_to_unpivot with
  | [] => (Stop, h)
  | unpivot_field :: rest =>
      match make_row_h depth row unpivot_field fields_to_keep extra_value h with
      | (Ok new_row, h') =>
          let '(g, h'') :=
            expand_row_h depth row rest fields_to_keep extra_value h' in
          (Yield new_row g, h'')
      | (Err e, h') => (Raise e, h')
      end
  end.

(** Lines 13-20, when nothing else writes to the store in between. *)
Fixpoint unpivot_rows_h (depth : nat) (rows : gen ref)
    (fields_to_unpivot : list ref) (fields_to_keep : list string)
    (extra_value : ref) (h : heap) : gen ref * heap :=
  match rows with
  | Stop => (Stop, h)
  | Raise e => (Raise e, h)
  | Yield row rows' =>
      let '(g, h') :=
        expand_row_h depth row fields_to_unpivot fields_to_keep extra_value h in
      match gen_end g with
      | Some _ => (g, h')
      | None =>
          let '(g', h'') :=
            unpivot_rows_h depth rows' fields_to_unpivot fields_to_keep
                           extra_value h' in
          (gen_app g g', h'')
      end
  end.

(** ** Reference definitions *)

(** The value of an object whose slots are read by [read]. *)
Definition reify_slots (read : ref -> option value) (o : object) : option value :=
  match o with
  | ODict d => VDict <$> list.mapM (fun kx => pair kx.1 <$> read kx.2) d
  | OList l => VList <$> list.mapM read l
  end.

(** The tree a reference stands for, read to depth [n]. *)
Fixpoint reify (n : nat) (h : heap) (r : ref) : option value :=
  match r with
  | RNone => Some VNone
  | RBool b => Some (VBool b)
  | RInt z => Some (VInt z)
  | RStr s => Some (VStr s)
  | RObj a =>
      match n with
      | O => None
      | S n' =>
          match h !! a with
          | Some o => reify_slots (reify n' h) o
          | None => None
          end
      end
  end.

(** [r] stands for the value [v]. *)
Definition repr (n : nat) (h : heap) (r : ref) (v : value) : Prop :=
  reify n h r = Some v.

(** An object and a value of the same shape whose slots are related. *)
Definition object_rel (R : ref -> value -> Prop) (o : object) (v : value) : Prop :=
  match o, v with
  | ODict d, VDict vd => dict_rel R d vd
  | OList l, VList vl => Forall2 R l vl
  | _, _ => False
  end.

(** Outcomes that agree: related results, or the same exception. *)
Definition sim {A B} (R : A -> B -> Prop) (out : result A) (spec : result B) : Prop :=
  match out, spec with
  | Ok a, Ok b => R a b
  | Err e, Err e' => e = e'
  | _, _ => False
  end.

(** The references an object holds. *)
Definition refs (o : object) : list ref :=
  match o with
  | ODict d => d.*2
  | OList l => l
  end.

(** A reference to an object among the first [n], or no address at all. *)
Definition ref_in (n : nat) (r : ref) : Prop :=
  match r with
  | RObj a => a < n
  | _ => True
  end.

(** A reference to an object that is not among the first [n]. *)
Definition ref_new (n : nat) (r : ref) : Prop :=
  match r with
  | RObj a => n <= a
  | _ => True
  end.

#[export] Instance ref_in_dec n r : Decision (ref_in n r).
Proof. destruct r; simpl; apply _. Defined.

#[export] Instance ref_new_dec n r : Decision (ref_new n r).
Proof. destruct r; simpl; apply _. Defined.

(** The invariant of the store: no object holds the address of an object
    that does not exist. *)
Definition closed (h : heap) : Prop :=
  Forall (fun o => Forall (ref_in (length h)) (refs o)) h.

#[export] Instance closed_dec h : Decision (closed h).
Proof. unfold closed. apply _. Defined.

(** Related traces: the same end, related items. *)
Definition gen_rel {A B} (R : A -> B -> Prop) (g : gen A) (g' : gen B) : Prop :=
  Forall2 R (gen_items g) (gen_items g') /\ gen_end g = gen_end g'.

(** A store that was reached from the closed store [h0] without writing
    to an object of [h0]. *)
Definition stable (h0 h : heap) : Prop := closed h /\ h0 `prefix_of` h.

(** [r] is private: if it is an object, it is the one created last, after
    [h0], and its slots hold older objects. *)
Definition owned (h0 h : heap) (r : ref) : Prop :=
  match r with
  | RObj b =>
      exists h1 o, h = h1 ++ [o] /\ b = length h1 /\ stable h0 h1 /\
                   Forall (ref_in (length h1)) (refs o)
  | _ => True
  end.

(** The computation [m], run in [h], agrees with the outcome [spec] on
    values; it leaves a stable store and, when it returns, [R] holds of
    that store and the two results. *)
Definition hsim {A B} (h0 : heap) (R : heap -> A -> B -> Prop) (m : heapM A)
    (spec : result B) (h : heap) : Prop :=
  stable h0 (m h).2 /\ sim (R (m h).2) (m h).1 spec.

(** Objects that hold no address below [lo]: created after the first
    [lo] objects, they share nothing with them. *)
Definition apart (lo : nat) (k : heap) : Prop :=
  Forall (fun o => Forall (ref_new lo) (refs o)) k.

(** The computation [m] only creates objects: run in a store of at least
    [lo] objects it leaves that store, followed by objects that are apart
    from the first [lo]; [Q] holds of what it returns. *)
Definition grows {A} (lo : nat) (Q : A -> Prop) (m : heapM A) : Prop :=
  forall h, lo <= length h ->
    exists k, (m h).2 = h ++ k /\ apart lo k /\
              forall a, (m h).1 = Ok a -> Q a.

(** The computation [m] leaves the first [lo] objects alone: run in a
    store of at least [lo] objects, it writes to none of them and removes
    none; [Q] holds of what it returns. *)
Definition keeps {A} (lo : nat) (Q : A -> Prop) (m : heapM A) : Prop :=
  forall h, lo <= length h ->
    take lo (m h).2 = take lo h /\ lo <= length (m h).2 /\
    forall a, (m h).1 = Ok a -> Q a.

(** An object created after the first [lo] objects, among the first [hi]. *)
Definition created (lo hi : nat) (r : ref) : Prop :=
  exists b, r = RObj b /\ lo <= b < hi.

(** What a loop of the row expander, started in the store [h], has to
    leave: a closed store in which the objects of [h] are as they were,
    and a trace of distinct new objects that stand for the rows of
    [spec]. *)
Definition trace_ok (n : nat) (h : heap) (out : gen ref * heap)
    (spec : gen value) : Prop :=
  closed out.2 /\ h `prefix_of` out.2 /\
  gen_rel (repr (S n) out.2) out.1 spec /\
  Forall (created (length h) (length out.2)) (gen_items out.1) /\
  NoDup (gen_items out.1).

(** ** Example data: the [sales] table in the store

    Address 0 is the wide row, 1 to 6 are the three resolved pivot fields
    with their key mappings, 7 is the descriptor of the value column. *)

Definition ex_heap : heap :=
  [ ODict [("region", RStr "east"); ("q1", RInt 10); ("q2", RInt 20);
           ("q3", RInt 30)];
    ODict [("quarter", RStr "1")];
    ODict [("name", RStr "q1"); ("keys", RObj 1)];
    ODict [("quarter", RStr "2")];
    ODict [("name", RStr "q2"); ("keys", RObj 3)];
    ODict [("quarter", RStr "3")];
    ODict [("name", RStr "q3"); ("keys", RObj 5)];
    ODict [("name", RStr "amount")] ].

Definition ex_pivot_refs : list ref := [RObj 2; RObj 4; RObj 6].

(** The store after the row for [q1] was made (it is the object at
    address 8) and the consumer has emptied it. *)
Definition ex_heap_written : heap :=
  <[8 := ODict []]>
    (make_row_h 8 (RObj 0) (RObj 2) ["region"] (RObj 7) ex_heap).2.

(** ** The monad *)

Lemma hbind_ok {A B} (m : heapM A) (f : A -> heapM B) h a h' :
  m h = (Ok a, h') -> hbind m f h = f a h'.
Proof. unfold hbind. by intros ->. Qed.

Lemma hbind_err {A B} (m : heapM A) (f : A -> heapM B) h e h' :
  m h = (Err e, h') -> hbind m f h = (Err e, h').
Proof. unfold hbind. by intros ->. Qed.

(** ** Objects and the values they stand for *)

Lemma reify_slots_rel read o v :
  reify_slots read o = Some v <-> object_rel (fun x y => read x = Some y) o v.
Proof.
  destruct o as [d|l]; simpl; rewrite fmap_Some; split.
  - intros (vd & H%mapM_Some_1 & ->). simpl. unfold dict_rel.
    eapply Forall2_impl; [done|]. intros [k x] [k' y]; simpl.
    intros (y' & ? & ?)%fmap_Some. by simplify_eq.
  - destruct v as [| | | | |vd]; try done. simpl. intros H.
    exists vd. split; [|done]. apply mapM_Some_2.
    eapply Forall2_impl; [done|]. intros [k x] [k' y]; simpl. by intros [-> ->].
  - by intros (vl & H%mapM_Some_1 & ->).
  - destruct v as [| | | |vl|]; try done. simpl. intros H.
    exists vl. split; [|done]. by apply mapM_Some_2.
Qed.

Lemma reify_slots_ext f g o :
  Forall (fun x => f x = g x) (refs o) -> reify_slots f o = reify_slots g o.
Proof.
  destruct o as [d|l]; simpl; intros H; f_equal.
  - apply Forall_fmap in H.
    induction H as [|[k x] d Hx _ IH]; simpl in *; [done|]. by rewrite Hx, IH.
  - induction H as [|x l Hx _ IH]; simpl; [done|]. by rewrite Hx, IH.
Qed.

Lemma Forall2_impl_in {A B} (R R' : A -> B -> Prop) l k :
  Forall2 R l k -> Forall (fun x => forall y, R x y -> R' x y) l ->
  Forall2 R' l k.
Proof.
  induction 1 as [|x y l k Hxy _ IH]; intros Himp; [constructor|].
  apply Forall_cons in Himp as [Hx Hl]. constructor; [by apply Hx | by apply IH].
Qed.

Lemma object_rel_impl (R R' : ref -> value -> Prop) o v :
  object_rel R o v -> Forall (fun x => forall y, R x y -> R' x y) (refs o) ->
  object_rel R' o v.
Proof.
  destruct o as [d|l], v; simpl; try done; intros H Himp.
  - eapply dict_rel_impl; [done|]. by apply Forall_fmap in Himp.
  - by eapply Forall2_impl_in.
Qed.

Lemma repr_obj n h a v :
  repr (S n) h (RObj a) v <->
  exists o, h !! a = Some o /\ object_rel (repr n h) o v.
Proof.
  unfold repr; simpl. destruct (h !! a) as [o|];
    [rewrite reify_slots_rel|]; naive_solver.
Qed.

Lemma ref_in_mono n m r : ref_in n r -> n <= m -> ref_in m r.
Proof. destruct r; simpl; lia. Qed.

Lemma repr_ref_in n h r v : repr n h r v -> ref_in (length h) r.
Proof.
  destruct r as [| | | |a]; try done. destruct n; [done|].
  intros (o & Ho & _)%repr_obj. simpl. by eapply lookup_lt_Some.
Qed.

(** A value that can be read, can be read with more fuel and in a larger
    store. *)
Lemma repr_mono n m h h' r v :
  repr n h r v -> n <= m -> h `prefix_of` h' -> repr m h' r v.
Proof.
  revert m r v. induction n as [|n IH]; intros m r v Hr Hnm Hh.
  - by destruct r, m.
  - destruct r as [| | | |a]; try by destruct m.
    destruct m as [|m]; [lia|].
    apply repr_obj in Hr as (o & Ho & Hrel). apply repr_obj. exists o.
    split; [by eapply prefix_lookup_Some|].
    eapply object_rel_impl; [done|]. apply Forall_forall.
    intros x _ y Hy. apply IH; [done | lia | done].
Qed.

(** ** The invariant of the store *)

Lemma closed_lookup h a o :
  closed h -> h !! a = Some o -> Forall (ref_in (length h)) (refs o).
Proof. unfold closed. rewrite Forall_lookup. eauto. Qed.

Lemma closed_app h o :
  closed h -> Forall (ref_in (length h)) (refs o) -> closed (h ++ [o]).
Proof.
  unfold closed. intros Hh Ho. rewrite length_app. simpl.
  assert (Hmono : forall o', Forall (ref_in (length h)) (refs o') ->
                             Forall (ref_in (length h + 1)) (refs o')).
  { intros o' Ho'. eapply Forall_impl; [done|].
    intros r Hr. eapply ref_in_mono; [done | lia]. }
  apply Forall_app. split; [|by constructor; auto].
  eapply Forall_impl; [done|]. auto.
Qed.

(** What the objects of a closed store stand for does not depend on the
    objects created later. *)
Lemma reify_closed n h k r :
  closed h -> ref_in (length h) r -> reify n (h ++ k) r = reify n h r.
Proof.
  intros Hc. revert r.
  induction n as [|n IH]; intros r Hr; destruct r as [| | | |a]; simpl;
    try done.
  simpl in Hr. rewrite lookup_app_l by done.
  destruct (h !! a) as [o|] eqn:Ho; [|done].
  apply reify_slots_ext. eapply Forall_impl; [by eapply closed_lookup|].
  intros x Hx. by apply IH.
Qed.

Lemma repr_closed n h h' r v :
  closed h -> h `prefix_of` h' -> ref_in (length h) r ->
  repr n h' r v <-> repr n h r v.
Proof. intros Hc [k ->] Hr. unfold repr. by rewrite reify_closed. Qed.

Lemma insert_snoc {A} (l : list A) x y : <[length l := y]> (l ++ [x]) = l ++ [y].
Proof. rewrite insert_app_r_alt by lia. by rewrite Nat.sub_diag. Qed.

Lemma Forall_dict_set_values {V} (P : V -> Prop) k x (d : dict V) :
  P x -> Forall P d.*2 -> Forall P (dict_set k x d).*2.
Proof.
  intros Hx. induction d as [|[k' y] d IH]; simpl; [by repeat constructor|].
  intros [Hy Hd]%Forall_cons. case_decide; simpl; constructor; auto.
Qed.

Lemma stable_refl h : closed h -> stable h h.
Proof. by split. Qed.

Lemma stable_snoc h0 h o :
  stable h0 h -> Forall (ref_in (length h)) (refs o) -> stable h0 (h ++ [o]).
Proof. intros [Hc Hp] Ho. split; [by apply closed_app | by apply prefix_app_r]. Qed.

Lemma owned_stable h0 h b : owned h0 h (RObj b) -> stable h0 h.
Proof. intros (h1 & o & -> & _ & Hst & Ho). by apply stable_snoc. Qed.

Lemma owned_new h0 h r : owned h0 h r -> ref_new (length h0) r.
Proof.
  destruct r as [| | | |b]; try done.
  intros (h1 & o & _ & -> & [_ Hp] & _). simpl. by apply prefix_length.
Qed.

(** ** Agreement of a computation on the store with one on values *)

Lemma hsim_bind {A B A' B'} h0 (R : heap -> A -> B -> Prop)
    (R' : heap -> A' -> B' -> Prop) m f spec g h :
  hsim h0 R m spec h ->
  (forall h' a b, stable h0 h' -> R h' a b -> hsim h0 R' (f a) (g b) h') ->
  hsim h0 R' (hbind m f) (rbind spec g) h.
Proof.
  unfold hsim, hbind. destruct (m h) as [[a|e] h'], spec as [b|e']; simpl;
    intros [Hst Hs] Hf; try done. by apply Hf.
Qed.

(** The same, when the step on values cannot fail. *)
Lemma hsim_bind_pure {A B A' B'} h0 (R : heap -> A -> B -> Prop)
    (R' : heap -> A' -> B' -> Prop) m f b spec h :
  hsim h0 R m (Ok b) h ->
  (forall h' a, stable h0 h' -> R h' a b -> hsim h0 R' (f a) spec h') ->
  hsim h0 R' (hbind m f) spec h.
Proof.
  unfold hsim, hbind. destruct (m h) as [[a|e] h']; simpl;
    intros [Hst Hs] Hf; [by apply Hf | done].
Qed.

Lemma hsim_ret {A B} h0 (R : heap -> A -> B -> Prop) a b h :
  stable h0 h -> R h a b -> hsim h0 R (hret a) (Ok b) h.
Proof. done. Qed.

(** The last step of a computation that returns what it was building. *)
Lemma hsim_then_ret {A B B'} h0 (R : heap -> A -> B -> Prop)
    (R' : heap -> B' -> B -> Prop) m spec a' h :
  hsim h0 R m spec h ->
  (forall h' a b, stable h0 h' -> R h' a b -> R' h' a' b) ->
  hsim h0 R' (hbind m (fun _ => hret a')) spec h.
Proof.
  intros Hm HR. rewrite <- (rbind_ret spec). eapply hsim_bind; [done|].
  intros h' a b Hst Hab. apply hsim_ret; eauto.
Qed.

Section store_ops.
Context (n : nat) (h0 : heap) (Hh0 : closed h0).

Lemma deref_stable h r :
  stable h0 h -> ref_in (length h0) r -> deref h r = deref h0 r.
Proof.
  intros [_ [k ->]] Hr. destruct r; try done. simpl in *. by rewrite lookup_app_l.
Qed.

(** A reference that stands for a dictionary points to one, and a
    reference that stands for anything else does not. *)
Lemma repr_cases r v :
  repr (S n) h0 r v ->
  (exists d vd, deref h0 r = Some (ODict d) /\ v = VDict vd /\
                dict_rel (repr n h0) d vd) \/
  ((forall d, deref h0 r <> Some (ODict d)) /\ (forall vd, v <> VDict vd)).
Proof.
  destruct r as [| | | |a]; try (intros [= <-]; by right).
  intros (o & Ho & Hrel)%repr_obj. simpl. rewrite Ho.
  destruct o as [d|l], v; try done; [left; eauto | right; split; congruence].
Qed.

Lemma getitem_h_sim h r v k :
  stable h0 h -> repr (S n) h0 r v ->
  hsim h0 (fun h' x vx => h' = h /\ repr n h0 x vx)
       (getitem_h r k) (getitem v k) h.
Proof.
  intros Hst Hr. unfold hsim, getitem_h.
  rewrite (deref_stable h r) by eauto using repr_ref_in.
  destruct (repr_cases r v Hr) as [(d & vd & -> & -> & Hrel)|[Hd Hv]].
  - simpl. split; [done|]. destruct (dict_get k d) as [x|] eqn:Hx.
    + by destruct (dict_rel_get_Some _ _ _ _ _ Hrel Hx) as (y & -> & Hy).
    + by rewrite (dict_rel_get_None _ _ _ _ Hrel Hx).
  - destruct (deref h0 r) as [[d|l]|], v as [| | | | |vd]; simpl; try done;
      first [by destruct (Hd d) | by destruct (Hv vd)].
Qed.

Lemma get_method_h_sim h r v :
  stable h0 h -> repr (S n) h0 r v ->
  hsim h0 (fun h' row_get row_get' =>
             h' = h /\
             forall k dflt dflt', repr n h0 dflt dflt' ->
               exists x, row_get k dflt h = (Ok x, h) /\
                         repr n h0 x (row_get' k dflt'))
       (get_method_h r) (get_method v) h.
Proof.
  intros Hst Hr. unfold hsim, get_method_h.
  pose proof (deref_stable h r Hst (repr_ref_in _ _ _ _ Hr)) as Hderef.
  rewrite Hderef.
  destruct (repr_cases r v Hr) as [(d & vd & Hd & -> & Hrel)|[Hd Hv]].
  - rewrite Hd. simpl. split; [done|]. split; [done|].
    intros k dflt dflt' Hdflt. unfold dict_get_h. rewrite Hderef, Hd.
    eexists; split; [done|]. destruct (dict_get k d) as [x|] eqn:Hx.
    + by destruct (dict_rel_get_Some _ _ _ _ _ Hrel Hx) as (y & -> & Hy).
    + by rewrite (dict_rel_get_None _ _ _ _ Hrel Hx).
  - destruct (deref h0 r) as [[d|l]|], v as [| | | | |vd]; simpl; try done;
      first [by destruct (Hd d) | by destruct (Hv vd)].
Qed.

Lemma as_str_h_sim h r v :
  stable h0 h -> repr n h0 r v ->
  hsim h0 (fun h' s s' => h' = h /\ s = s') (as_str_h r) (as_str v) h.
Proof.
  intros Hst Hr. unfold hsim.
  destruct r as [| | | |a]; try (destruct n; injection Hr as <-; done).
  destruct n as [|n']; [done|]. apply repr_obj in Hr as (o & _ & Hrel).
  by destruct o, v.
Qed.

(** Assignment to the private object: the store changes in its last
    object only. *)
Lemma setitem_h_sim h nr v k x vx :
  stable h0 h -> owned h0 h nr -> repr (S n) h nr v -> repr n h0 x vx ->
  hsim h0 (fun h' _ v' =>
             (exists b, nr = RObj b) /\ owned h0 h' nr /\ repr (S n) h' nr v')
       (setitem_h nr k x) (setitem v k vx) h.
Proof.
  intros Hst Hown Hnr Hx. unfold hsim.
  destruct nr as [| | | |b]; try (injection Hnr as <-; done).
  destruct Hown as (h1 & o & -> & -> & Hst1 & Ho).
  apply repr_obj in Hnr as (o' & Ho' & Hrel).
  rewrite list_lookup_middle in Ho' by done. injection Ho' as <-.
  simpl. rewrite list_lookup_middle by done.
  destruct o as [d|l], v as [| | | | |vd]; try done. simpl in *.
  rewrite insert_snoc.
  assert (Hx1 : ref_in (length h1) x).
  { eapply ref_in_mono; [by eapply repr_ref_in|]. apply prefix_length, Hst1. }
  assert (Hst' : stable h0 (h1 ++ [ODict (dict_set k x d)])).
  { apply stable_snoc; [done|]. by apply Forall_dict_set_values. }
  split; [done|]. split; [by eexists|]. split.
  { exists h1, (ODict (dict_set k x d)). split_and!; try done.
    by apply Forall_dict_set_values. }
  apply repr_obj. eexists. split; [by apply list_lookup_middle|]. simpl.
  apply dict_rel_set; [|eapply repr_mono; [done | lia | apply Hst']].
  eapply dict_rel_impl; [done|]. rewrite Forall_fmap in Ho.
  eapply Forall_impl; [exact Ho|]. intros [k' y] Hy w Hw. simpl in *.
  apply (repr_closed n h1 (h1 ++ [ODict d])) in Hw;
    [|apply Hst1 | by apply prefix_app_r | done].
  eapply repr_mono; [done | lia | by apply prefix_app_r].
Qed.

End store_ops.

(** ** [copy.deepcopy] *)

(** A loop that only creates objects: when the body does what [Q] says for
    every element, the loop does it for the list. *)
Lemma hmapM_spec {A B V} (f : A -> heapM B) (S : heap -> A -> V -> Prop)
    (Q : heap -> B -> V -> Prop) :
  (forall h h' x v, S h x v -> h `prefix_of` h' -> S h' x v) ->
  (forall h h' y v, Q h y v -> h `prefix_of` h' -> Q h' y v) ->
  (forall x v h, closed h -> S h x v ->
     exists y h', f x h = (Ok y, h') /\ closed h' /\ h `prefix_of` h' /\
                  Q h' y v) ->
  forall l vl h, closed h -> Forall2 (S h) l vl ->
    exists ys h', hmapM f l h = (Ok ys, h') /\ closed h' /\
                  h `prefix_of` h' /\ Forall2 (Q h') ys vl.
Proof.
  intros HS HQ Hf l. induction l as [|x l IH]; intros vl h Hc Hl.
  - apply Forall2_nil_inv_l in Hl as ->. exists [], h. by split_and!.
  - apply Forall2_cons_inv_l in Hl as (v & vl' & Hx & Hl & ->).
    destruct (Hf x v h Hc Hx) as (y & h1 & Hfx & Hc1 & Hp1 & Hy).
    destruct (IH vl' h1 Hc1) as (ys & h2 & Hys & Hc2 & Hp2 & Hall).
    { eapply Forall2_impl; [done|]. intros; by eapply HS. }
    exists (y :: ys), h2. split_and!; [|done | by etrans|].
    + simpl. by rewrite (hbind_ok _ _ _ _ _ Hfx), (hbind_ok _ _ _ _ _ Hys).
    + constructor; [by eapply HQ | done].
Qed.

Lemma object_rel_refs (R : ref -> value -> Prop) (P : ref -> Prop) o v :
  (forall x y, R x y -> P x) -> object_rel R o v -> Forall P (refs o).
Proof.
  intros HRP. destruct o as [d|l], v; simpl; try done; intros H.
  - apply Forall_fmap.
    induction H as [|[k x] [k' y] d vd [_ Hxy] _ IH]; constructor; simpl in *;
      eauto.
  - induction H; constructor; eauto.
Qed.

Lemma copy_slots_spec n (copy : ref -> heapM ref) :
  (forall r v h, closed h -> repr n h r v ->
     exists r' h', copy r h = (Ok r', h') /\ closed h' /\ h `prefix_of` h' /\
                   repr n h' r' v) ->
  forall o v h, closed h -> object_rel (repr n h) o v ->
    exists o' h', copy_slots copy o h = (Ok o', h') /\ closed h' /\
                  h `prefix_of` h' /\ object_rel (repr n h') o' v.
Proof.
  intros Hcopy [d|l] v h Hc Hrel; destruct v as [| | | |vl|vd]; try done;
    simpl in *.
  - destruct (hmapM_spec (fun kx => x' <- copy kx.2 ;; hret (kx.1, x'))
                (fun h (kx : string * ref) (kv : string * value) =>
                   kx.1 = kv.1 /\ repr n h kx.2 kv.2)
                (fun h (kx : string * ref) (kv : string * value) =>
                   kx.1 = kv.1 /\ repr n h kx.2 kv.2))
      with (l := d) (vl := vd) (h := h) as (d' & h' & Hd' & ? & ? & ?);
      try done.
    + intros ???? [? ?] ?. split; [done|]. by eapply repr_mono.
    + intros ???? [? ?] ?. split; [done|]. by eapply repr_mono.
    + intros [k x] [k' w] h1 Hc1 [? Hx]. simpl in *. subst.
      destruct (Hcopy x w h1 Hc1 Hx) as (r' & h2 & Hr' & ? & ? & ?).
      exists (k', r'), h2. split_and!; try done.
      by rewrite (hbind_ok _ _ _ _ _ Hr').
    + exists (ODict d'), h'. split_and!; try done.
      by rewrite (hbind_ok _ _ _ _ _ Hd').
  - destruct (hmapM_spec copy (repr n) (repr n))
      with (l := l) (vl := vl) (h := h) as (l' & h' & Hl' & ? & ? & ?);
      try done.
    + intros. by eapply repr_mono.
    + intros. by eapply repr_mono.
    + exists (OList l'), h'. split_and!; try done.
      by rewrite (hbind_ok _ _ _ _ _ Hl').
Qed.

(** The copy of a value that can be read within the depth available: it
    stands for the same value, and it is a new object unless the value has
    no object. *)
Lemma deepcopy_h_spec n : forall depth r v h,
  n <= depth -> closed h -> repr n h r v ->
  exists r' h', deepcopy_h depth r h = (Ok r', h') /\ closed h' /\
                h `prefix_of` h' /\ repr n h' r' v /\ owned h h' r'.
Proof.
  assert (Hatom : forall n depth r v h, (forall a, r <> RObj a) ->
            closed h -> repr n h r v ->
            exists r' h', deepcopy_h depth r h = (Ok r', h') /\ closed h' /\
                          h `prefix_of` h' /\ repr n h' r' v /\ owned h h' r').
  { intros n' depth r v h Hr Hc Hv. exists r, h.
    destruct r as [| | | |a]; try (by destruct (Hr a));
      (split_and!; [by destruct depth | done..]). }
  induction n as [|n IH]; intros depth r v h Hd Hc Hr.
  { destruct r as [| | | |a]; [by apply Hatom..|done]. }
  destruct r as [| | | |a]; [by apply Hatom..|].
  destruct depth as [|depth]; [lia|].
  apply repr_obj in Hr as (o & Ho & Hrel).
  destruct (copy_slots_spec n (deepcopy_h depth)) with (o := o) (v := v) (h := h)
    as (o' & h1 & Ho' & Hc1 & Hp1 & Hrel'); [|done..|].
  { intros r1 v1 h1 Hc1 Hr1.
    destruct (IH depth r1 v1 h1) as (r' & h' & ? & ? & ? & ? & _);
      [lia | done..|]. eauto 10. }
  assert (Hin : Forall (ref_in (length h1)) (refs o')).
  { eapply object_rel_refs; [|done]. intros x y. apply repr_ref_in. }
  exists (RObj (length h1)), (h1 ++ [o']). split_and!.
  - simpl. rewrite (hbind_ok _ _ h o h) by (by unfold load; simpl; rewrite Ho).
    by rewrite (hbind_ok _ _ _ _ _ Ho').
  - by apply closed_app.
  - by apply prefix_app_r.
  - apply repr_obj. exists o'. split; [by apply list_lookup_middle|].
    eapply object_rel_impl; [done|]. apply Forall_forall. intros x _ y Hy.
    eapply repr_mono; [done | lia | by apply prefix_app_r].
  - exists h1, o'. by split_and!.
Qed.

(** *** The copy shares nothing with the original *)

Lemma ref_new_mono lo lo' r : ref_new lo r -> lo' <= lo -> ref_new lo' r.
Proof. destruct r; simpl; lia. Qed.

Lemma apart_mono lo lo' k : apart lo k -> lo' <= lo -> apart lo' k.
Proof.
  intros Hk Hlo. eapply Forall_impl; [done|]. intros o Ho.
  eapply Forall_impl; [exact Ho|]. intros r Hr. by eapply ref_new_mono.
Qed.

(** What a computation that only creates objects leaves: the store it
    started in, followed by objects that are apart from it; [Q] holds of
    the result. *)
Lemma grows_ret {A} lo (Q : A -> Prop) a : Q a -> grows lo Q (hret a).
Proof.
  intros Ha h _. exists []. simpl. rewrite app_nil_r.
  split_and!; [done | constructor | by intros ? [= <-]].
Qed.

Lemma grows_raise {A} lo (Q : A -> Prop) e : grows lo Q (hraise e).
Proof.
  intros h _. exists []. simpl. rewrite app_nil_r.
  split_and!; [done | constructor | done].
Qed.

Lemma grows_bind {A B} lo (Q : A -> Prop) (Q' : B -> Prop) m f :
  grows lo Q m -> (forall a, Q a -> grows lo Q' (f a)) ->
  grows lo Q' (hbind m f).
Proof.
  intros Hm Hf h Hlo. unfold hbind.
  destruct (Hm h Hlo) as (k1 & Hh1 & Hk1 & Ha).
  destruct (m h) as [[a|e] h1]; simpl in *; subst; [|exists k1; by split_and!].
  destruct (Hf a (Ha a eq_refl) (h ++ k1)) as (k2 & Hh2 & Hk2 & Hb).
  { rewrite length_app. lia. }
  exists (k1 ++ k2). rewrite app_assoc, <- Hh2.
  split_and!; [done | by apply Forall_app | done].
Qed.

Lemma grows_hmapM {A B} lo (Q : B -> Prop) (f : A -> heapM B) l :
  (forall x, grows lo Q (f x)) -> grows lo (Forall Q) (hmapM f l).
Proof.
  intros Hf. induction l as [|x l IH]; simpl; [by apply grows_ret|].
  eapply grows_bind; [apply Hf|]. intros y Hy.
  eapply grows_bind; [apply IH|]. intros ys Hys.
  apply grows_ret. by constructor.
Qed.

Lemma grows_alloc lo o :
  Forall (ref_new lo) (refs o) -> grows lo (ref_new lo) (alloc o).
Proof.
  intros Ho h Hlo. exists [o]. simpl.
  split_and!; [done | by repeat constructor | by intros ? [= <-]].
Qed.

Lemma grows_load lo r : grows lo (fun _ => True) (load r).
Proof.
  intros h _. exists []. simpl. rewrite app_nil_r.
  split_and!; [done | constructor | done].
Qed.

Lemma grows_copy_slots lo copy o :
  (forall r, grows lo (ref_new lo) (copy r)) ->
  grows lo (fun o' => Forall (ref_new lo) (refs o')) (copy_slots copy o).
Proof.
  intros Hc. destruct o as [d|l]; simpl.
  - eapply grows_bind;
      [apply (grows_hmapM lo (fun ky : string * ref => ref_new lo ky.2))|].
    + intros [k x]. eapply grows_bind; [apply Hc|].
      intros x' Hx'. by apply grows_ret.
    + intros d' Hd'. apply grows_ret. simpl. by apply Forall_fmap.
  - eapply grows_bind; [by apply grows_hmapM|]. intros l' Hl'.
    by apply grows_ret.
Qed.

Lemma grows_deepcopy lo depth : forall r,
  grows lo (ref_new lo) (deepcopy_h depth r).
Proof.
  induction depth as [|depth IH]; intros r.
  { destruct r; simpl; try (by apply grows_ret). apply grows_raise. }
  destruct r as [| | | |a]; simpl; try (by apply grows_ret).
  eapply grows_bind; [apply grows_load|]. intros o _.
  eapply grows_bind; [by apply grows_copy_slots|]. intros o' Ho'.
  by apply grows_alloc.
Qed.

(** *** Computations that leave the old objects alone *)

Lemma grows_keeps {A} lo (Q : A -> Prop) m : grows lo Q m -> keeps lo Q m.
Proof.
  intros Hm h Hlo. destruct (Hm h Hlo) as (k & Hk & _ & HQ). rewrite Hk.
  split_and!; [by rewrite take_app_le | rewrite length_app; lia | done].
Qed.

Lemma keeps_read {A} lo (Q : A -> Prop) (m : heapM A) :
  (forall h, (m h).2 = h) -> (forall h a, (m h).1 = Ok a -> Q a) ->
  keeps lo Q m.
Proof.
  intros Hm HQ h Hlo. rewrite Hm. split; [done|]. split; [done|]. apply HQ.
Qed.

Lemma keeps_impl {A} lo (Q Q' : A -> Prop) m :
  keeps lo Q m -> (forall a, Q a -> Q' a) -> keeps lo Q' m.
Proof.
  intros Hm HQ h Hlo. destruct (Hm h Hlo) as (? & ? & Ha). split_and!; auto.
Qed.

Lemma keeps_ret {A} lo (Q : A -> Prop) a : Q a -> keeps lo Q (hret a).
Proof. intros Ha. apply keeps_read; [done|]. by intros ?? [= <-]. Qed.

Lemma keeps_bind {A B} lo (Q : A -> Prop) (Q' : B -> Prop) m f :
  keeps lo Q m -> (forall a, Q a -> keeps lo Q' (f a)) ->
  keeps lo Q' (hbind m f).
Proof.
  intros Hm Hf h Hlo. unfold hbind. destruct (Hm h Hlo) as (Hh1 & Hlo1 & Ha).
  destruct (m h) as [[a|e] h1]; simpl in *; [|done].
  destruct (Hf a (Ha a eq_refl) h1 Hlo1) as (Hh2 & Hlo2 & Hb).
  split_and!; [congruence | done..].
Qed.

Lemma keeps_hfor {A} lo (l : list A) body :
  (forall x, keeps lo (fun _ => True) (body x)) ->
  keeps lo (fun _ => True) (hfor l body).
Proof.
  intros Hbody. induction l as [|x l IH]; simpl; [by apply keeps_ret|].
  eapply keeps_bind; [apply Hbody | done].
Qed.

Lemma keeps_getitem lo r k : keeps lo (fun _ => True) (getitem_h r k).
Proof.
  apply keeps_read; [|done]. intros h. unfold getitem_h.
  by destruct (deref h r) as [[]|].
Qed.

Lemma keeps_as_str lo r : keeps lo (fun _ => True) (as_str_h r).
Proof. apply keeps_read; [|done]. by destruct r. Qed.

Lemma keeps_dict_get lo r k dflt : keeps lo (fun _ => True) (dict_get_h r k dflt).
Proof.
  apply keeps_read; [|done]. intros h. unfold dict_get_h.
  by destruct (deref h r) as [[]|].
Qed.

Lemma keeps_get_method lo r :
  keeps lo (fun row_get => forall k dflt, keeps lo (fun _ => True) (row_get k dflt))
        (get_method_h r).
Proof.
  apply keeps_read; intros h; unfold get_method_h;
    destruct (deref h r) as [[]|]; try done.
  intros ? [= <-] k dflt. apply keeps_dict_get.
Qed.

(** An assignment writes to the object it is given, and succeeds on an
    object only. *)
Lemma keeps_setitem lo r k x :
  ref_new lo r -> keeps lo (fun _ => exists b, r = RObj b) (setitem_h r k x).
Proof.
  intros Hr h Hlo. unfold setitem_h. destruct r as [| | | |a]; try done.
  simpl in Hr. destruct (h !! a) as [[d|l]|]; simpl; try done.
  rewrite take_insert_ge, length_insert by done. eauto.
Qed.

Lemma keeps_copy_kept lo row ftk new_row :
  ref_new lo new_row -> keeps lo (fun _ => True) (copy_kept_h row ftk new_row).
Proof.
  intros Hnew. apply keeps_hfor. intros f.
  eapply keeps_bind; [apply keeps_getitem|]. intros x _.
  eapply keeps_impl; [by apply keeps_setitem | done].
Qed.

(** The loop body, whatever its arguments are: what it writes to is new,
    and what it returns is a new object. *)
Lemma keeps_make_row_h lo depth row uf ftk ev :
  keeps lo (fun r => exists b, r = RObj b /\ lo <= b)
        (make_row_h depth row uf ftk ev).
Proof.
  unfold make_row_h.
  eapply keeps_bind; [apply keeps_getitem|]. intros keys _.
  eapply keeps_bind; [apply grows_keeps, grows_deepcopy|]. intros new_row Hnew.
  eapply keeps_bind; [by apply keeps_copy_kept|]. intros _ _.
  eapply keeps_bind; [apply keeps_get_method|]. intros row_get Hget.
  eapply keeps_bind; [apply keeps_getitem|]. intros pn _.
  eapply keeps_bind; [apply keeps_as_str|]. intros s _.
  eapply keeps_bind; [apply Hget|]. intros x _.
  eapply keeps_bind; [apply keeps_getitem|]. intros vn _.
  eapply keeps_bind; [apply keeps_as_str|]. intros s' _.
  eapply keeps_bind; [by apply keeps_setitem|]. intros _ [b ->].
  apply keeps_ret. eauto.
Qed.

Lemma keeps_run {A} (Q : A -> Prop) m h :
  keeps (length h) Q m ->
  h `prefix_of` (m h).2 /\ forall a, (m h).1 = Ok a -> Q a.
Proof.
  intros Hm. destruct (Hm h) as (Htake & _ & HQ); [done|].
  rewrite firstn_all in Htake. split; [|done].
  rewrite <- Htake at 1. apply prefix_take.
Qed.

Lemma owned_weaken h0 h h' r :
  h0 `prefix_of` h -> owned h h' r -> owned h0 h' r.
Proof.
  intros Hp. destruct r; try done. intros (h1 & o & -> & -> & [? ?] & ?).
  exists h1, o. split_and!; try done. split; [done | by etrans].
Qed.

Section make_row.
Context (n : nat) (h0 : heap) (Hh0 : closed h0).

Lemma deepcopy_h_sim depth h r v :
  stable h0 h -> repr n h0 r v -> n <= depth ->
  hsim h0 (fun h' r' v' => v' = v /\ owned h0 h' r' /\ repr n h' r' v)
       (deepcopy_h depth r) (Ok v) h.
Proof.
  intros [Hc Hp] Hr Hd.
  destruct (deepcopy_h_spec n depth r v h) as (r' & h' & Heq & ? & ? & ? & ?);
    [done.. | by eapply repr_mono |].
  unfold hsim. rewrite Heq. simpl. split; [split; [done | by etrans]|].
  split_and!; [done | by eapply owned_weaken | done].
Qed.

Lemma copy_kept_h_sim row vrow nr ftk : forall h v,
  repr (S n) h0 row vrow -> stable h0 h -> owned h0 h nr ->
  repr (S n) h nr v ->
  hsim h0 (fun h' _ v' => owned h0 h' nr /\ repr (S n) h' nr v')
       (copy_kept_h row ftk nr) (copy_kept vrow ftk v) h.
Proof.
  induction ftk as [|f ftk IH]; intros h v Hrow Hst Hown Hnr.
  { by apply hsim_ret. }
  unfold copy_kept_h, copy_kept. simpl. eapply hsim_bind.
  - eapply hsim_bind; [by apply getitem_h_sim|].
    intros h' x vx _ [-> Hx]. by apply setitem_h_sim.
  - intros h' [] v' Hst' (_ & Hown' & Hnr'). by apply IH.
Qed.

(** The heart of the refinement: [make_row_h] and [Rows.make_row] agree,
    and the row is the private object of the call. *)
Lemma make_row_h_sim depth row uf ftk ev vrow vuf vev :
  repr (S n) h0 row vrow -> repr (S n) h0 uf vuf -> repr (S n) h0 ev vev ->
  n <= depth ->
  hsim h0 (fun h' r v =>
             (exists b, r = RObj b) /\ owned h0 h' r /\ repr (S n) h' r v)
       (make_row_h depth row uf ftk ev) (make_row vrow vuf ftk vev) h0.
Proof.
  intros Hrow Huf Hev Hd. pose proof (stable_refl h0 Hh0) as Hst0.
  unfold make_row_h, make_row.
  eapply hsim_bind; [by apply getitem_h_sim|].
  intros ? keys vkeys _ [-> Hkeys]. cbv beta. rewrite deepcopy_id.
  eapply hsim_bind_pure; [by apply deepcopy_h_sim|].
  intros h1 nr Hst1 (_ & Hown & Hnr).
  eapply hsim_bind.
  { apply copy_kept_h_sim; try done. eapply repr_mono; [done | lia | done]. }
  intros h2 [] v2 Hst2 [Hown2 Hnr2].
  eapply hsim_bind; [by apply get_method_h_sim|].
  intros ? row_get row_get' _ [-> Hget].
  eapply hsim_bind; [by apply getitem_h_sim|].
  intros ? pn vpn _ [-> Hpn].
  eapply hsim_bind; [by eapply as_str_h_sim|].
  intros ? s ? _ [-> <-].
  destruct (Hget s RNone VNone) as (x & Hx & Hxv); [by destruct n|].
  eapply (hsim_bind_pure _ (fun h' a b => h' = h2 /\ repr n h0 a b)).
  { unfold hsim. by rewrite Hx. }
  intros ? ? _ [-> Hx'].
  eapply hsim_bind; [by apply getitem_h_sim|].
  intros ? vn vvn _ [-> Hvn].
  eapply hsim_bind; [by eapply as_str_h_sim|].
  intros ? s' ? _ [-> <-].
  eapply hsim_then_ret; [by apply setitem_h_sim|]. done.
Qed.

End make_row.

(** ** Traces *)

Lemma gen_rel_Stop_inv {A B} (R : A -> B -> Prop) g' :
  gen_rel R Stop g' -> g' = Stop.
Proof. intros [Hi He]. destruct g'; [done | inversion Hi | done]. Qed.

Lemma gen_rel_Raise_inv {A B} (R : A -> B -> Prop) e g' :
  gen_rel R (Raise e) g' -> g' = Raise e.
Proof.
  intros [Hi He]. destruct g'; simpl in *; [done | inversion Hi | congruence].
Qed.

Lemma gen_rel_Yield_inv {A B} (R : A -> B -> Prop) a g g' :
  gen_rel R (Yield a g) g' ->
  exists b g'', g' = Yield b g'' /\ R a b /\ gen_rel R g g''.
Proof.
  intros [Hi He]. destruct g' as [|b g''|e]; simpl in *; [inversion Hi | | inversion Hi].
  apply Forall2_cons in Hi as [Hab Hi]. by exists b, g''.
Qed.

Lemma gen_rel_Yield {A B} (R : A -> B -> Prop) a b g g' :
  R a b -> gen_rel R g g' -> gen_rel R (Yield a g) (Yield b g').
Proof. intros Hab [Hi He]. split; simpl; [by constructor | done]. Qed.

Lemma gen_rel_impl {A B} (R R' : A -> B -> Prop) g g' :
  gen_rel R g g' -> (forall a b, R a b -> R' a b) -> gen_rel R' g g'.
Proof. intros [Hi He] HR. split; [by eapply Forall2_impl | done]. Qed.

Lemma gen_rel_app {A B} (R : A -> B -> Prop) g1 g1' g2 g2' :
  gen_rel R g1 g1' -> (gen_end g1 = None -> gen_rel R g2 g2') ->
  gen_rel R (gen_app g1 g2) (gen_app g1' g2').
Proof.
  intros [Hi He] H2. split; rewrite ?gen_items_app, ?gen_end_app, <- He.
  - apply Forall2_app; [done|]. destruct (gen_end g1); [constructor|].
    by apply H2.
  - destruct (gen_end g1); [done|]. by apply H2.
Qed.

Lemma created_mono lo lo' hi hi' r :
  created lo hi r -> lo' <= lo -> hi <= hi' -> created lo' hi' r.
Proof. intros (b & -> & ?) ??. exists b. split; [done | lia]. Qed.

Lemma created_apart lo mid hi r : created lo mid r -> created mid hi r -> False.
Proof. intros (b & -> & ?) (b' & [= <-] & ?). lia. Qed.

Lemma owned_created h0 h b : owned h0 h (RObj b) -> created (length h0) (length h) (RObj b).
Proof.
  intros (h1 & o & -> & -> & [_ Hp%prefix_length] & _). exists (length h1).
  split; [done|]. rewrite length_app. simpl. lia.
Qed.

Lemma trace_ok_end n h h1 e :
  closed h1 -> h `prefix_of` h1 ->
  trace_ok n h (gen_close [] e, h1) (gen_close [] e).
Proof. intros Hc Hp. split_and!; simpl; try done; by destruct e; constructor. Qed.

Lemma trace_ok_Yield n h h1 r v g h2 spec :
  closed h1 -> h `prefix_of` h1 -> created (length h) (length h1) r ->
  repr (S n) h1 r v -> trace_ok n h1 (g, h2) spec ->
  trace_ok n h (Yield r g, h2) (Yield v spec).
Proof.
  intros Hc1 Hp Hr Hv (Hc2 & Hp2 & Hrel & Hnew & Hnd). simpl in *.
  pose proof (prefix_length _ _ Hp). pose proof (prefix_length _ _ Hp2).
  split_and!; simpl; [done | by etrans | | |].
  - apply gen_rel_Yield; [|done]. by eapply repr_mono.
  - constructor; [eapply created_mono; [done | lia..]|].
    eapply Forall_impl; [done|]. intros r' Hr'. eapply created_mono; [done | lia..].
  - constructor; [|done]. intros Hin. rewrite Forall_forall in Hnew.
    eapply created_apart; [done | by apply Hnew].
Qed.

Lemma trace_ok_app n h g1 h1 spec1 g2 h2 spec2 :
  trace_ok n h (g1, h1) spec1 -> gen_end g1 = None ->
  trace_ok n h1 (g2, h2) spec2 ->
  trace_ok n h (gen_app g1 g2, h2) (gen_app spec1 spec2).
Proof.
  intros (Hc1 & Hp1 & Hrel1 & Hnew1 & Hnd1) Hend (Hc2 & Hp2 & Hrel2 & Hnew2 & Hnd2).
  simpl in *.
  pose proof (prefix_length _ _ Hp1). pose proof (prefix_length _ _ Hp2).
  split_and!; simpl; [done | by etrans | | |].
  - apply gen_rel_app; [|done]. eapply gen_rel_impl; [done|].
    intros r v Hr. by eapply repr_mono.
  - rewrite gen_items_app, Hend. apply Forall_app. split.
    + eapply Forall_impl; [done|]. intros r Hr. eapply created_mono; [done | lia..].
    + eapply Forall_impl; [done|]. intros r Hr. eapply created_mono; [done | lia..].
  - rewrite gen_items_app, Hend. apply NoDup_app. split_and!; [done | | done].
    rewrite Forall_forall in Hnew1, Hnew2. intros r Hr1 Hr2.
    eapply created_apart; [by apply Hnew1 | by apply Hnew2].
Qed.

(** A trace that ended with an exception is not continued. *)
Lemma trace_ok_raised n h g1 h1 spec1 spec2 e :
  trace_ok n h (g1, h1) spec1 -> gen_end g1 = Some e ->
  trace_ok n h (g1, h1) (gen_app spec1 spec2).
Proof.
  intros (Hc1 & Hp1 & [Hi He] & Hnew1 & Hnd1) Hend. split_and!; try done.
  simpl in *. split; rewrite ?gen_items_app, ?gen_end_app, <- He, Hend;
    [by rewrite app_nil_r | done].
Qed.

Section loops.
Context (n depth : nat) (Hdepth : n <= depth).
Context (fields_to_keep : list string) (ev : ref) (vev : value).

Lemma expand_row_h_sim row vrow ufs : forall vufs h,
  closed h -> repr (S n) h row vrow -> Forall2 (repr (S n) h) ufs vufs ->
  repr (S n) h ev vev ->
  trace_ok n h (expand_row_h depth row ufs fields_to_keep ev h)
           (expand_row vrow vufs fields_to_keep vev).
Proof.
  induction ufs as [|uf ufs IH]; intros vufs h Hc Hrow Hufs Hev.
  { apply Forall2_nil_inv_l in Hufs as ->. by apply (trace_ok_end n h h None). }
  apply Forall2_cons_inv_l in Hufs as (vuf & vufs' & Huf & Hufs & ->).
  unfold expand_row. simpl.
  destruct (make_row_h_sim n h Hc depth row uf fields_to_keep ev vrow vuf vev)
    as [[Hc1 Hp1] Hsim]; try done.
  destruct (make_row_h depth row uf fields_to_keep ev h) as [[r|e] h1],
    (make_row vrow vuf fields_to_keep vev) as [v|e']; simpl in *; try done.
  - destruct Hsim as ((b & ->) & Hown & Hr).
    specialize (IH vufs' h1 Hc1).
    destruct (expand_row_h depth row ufs fields_to_keep ev h1) as [g h2].
    eapply trace_ok_Yield; [done.. | by apply owned_created | done |].
    apply IH; [by eapply repr_mono | | by eapply repr_mono].
    eapply Forall2_impl; [done|]. intros; by eapply repr_mono.
  - subst. by apply (trace_ok_end n h h1 (Some e')).
Qed.

Lemma unpivot_rows_h_sim rows ufs : forall vrows vufs h,
  closed h -> gen_rel (repr (S n) h) rows vrows ->
  Forall2 (repr (S n) h) ufs vufs -> repr (S n) h ev vev ->
  trace_ok n h (unpivot_rows_h depth rows ufs fields_to_keep ev h)
           (unpivot_rows vrows vufs fields_to_keep vev).
Proof.
  induction rows as [|row rows IH|e]; intros vrows vufs h Hc Hrows Hufs Hev.
  - apply gen_rel_Stop_inv in Hrows as ->. by apply (trace_ok_end n h h None).
  - apply gen_rel_Yield_inv in Hrows as (vrow & vrows' & -> & Hrow & Hrows).
    simpl.
    pose proof (expand_row_h_sim row vrow ufs vufs h Hc Hrow Hufs Hev) as Hexp.
    destruct (expand_row_h depth row ufs fields_to_keep ev h) as [g h1].
    destruct (gen_end g) as [e|] eqn:Hend; [by eapply trace_ok_raised|].
    pose proof Hexp as (Hc1 & Hp1 & _).
    specialize (IH vrows' vufs h1 Hc1).
    destruct (unpivot_rows_h depth rows ufs fields_to_keep ev h1) as [g' h2].
    eapply trace_ok_app; [done.. |]. simpl in *.
    apply IH; [| | by eapply repr_mono].
    + eapply gen_rel_impl; [done|]. intros; by eapply repr_mono.
    + eapply Forall2_impl; [done|]. intros; by eapply repr_mono.
  - apply gen_rel_Raise_inv in Hrows as ->.
    by apply (trace_ok_end n h h (Some e)).
Qed.

End loops.

Lemma sim_impl {A B} (R R' : A -> B -> Prop) out spec :
  sim R out spec -> (forall a b, R a b -> R' a b) -> sim R' out spec.
Proof. destruct out, spec; simpl; auto. Qed.

Lemma prefix_insert_new {A} (h h1 : list A) b o :
  h `prefix_of` h1 -> length h <= b -> h `prefix_of` <[b := o]> h1.
Proof.
  intros [k ->] Hb. rewrite insert_app_r_alt by done. by apply prefix_app_r.
Qed.

(** ** The theorems *)

(** C11: the row expander on the object store implements the row expander
    on values.  In a closed store where the row, the pivot field and the
    descriptor of the value column stand for the values [vrow], [vuf] and
    [vev], and the key mapping is not nested deeper than [copy.deepcopy]
    may recurse, the body of the loop of [unpivot_rows] either raises the
    exception that [make_row] returns, or returns a reference that stands,
    in the store it leaves, for the row that [make_row] returns. *)
Theorem make_row_h_refines n depth h row uf ftk ev vrow vuf vev :
  closed h -> repr (S n) h row vrow -> repr (S n) h uf vuf ->
  repr (S n) h ev vev -> n <= depth ->
  sim (repr (S n) (make_row_h depth row uf ftk ev h).2)
      (make_row_h depth row uf ftk ev h).1 (make_row vrow vuf ftk vev).
Proof.
  intros Hc Hrow Huf Hev Hd.
  destruct (make_row_h_sim n h Hc depth row uf ftk ev vrow vuf vev)
    as [_ Hsim]; try done.
  eapply sim_impl; [done|]. by intros r v (_ & _ & ?).
Qed.

(** C17: the output rows are freshly constructed and the inputs are only
    read.  Whatever the arguments, the store and the outcome (a row, or
    any exception, raised at any point), the store that the body of the
    loop leaves begins with the store it started in, object for object:
    the row, the pivot fields, their key mappings and every row handed
    out before are as they were.  When a row is returned it is an object
    that did not exist before. *)
Theorem make_row_h_fresh depth h row uf ftk ev :
  h `prefix_of` (make_row_h depth row uf ftk ev h).2 /\
  forall r, (make_row_h depth row uf ftk ev h).1 = Ok r ->
            exists b, r = RObj b /\ length h <= b.
Proof. apply keeps_run, keeps_make_row_h. Qed.

(** On inputs that stand for values in a closed store, the store stays
    closed and the row that is returned is one of its objects. *)
Lemma make_row_h_created n depth h row uf ftk ev vrow vuf vev :
  closed h -> repr (S n) h row vrow -> repr (S n) h uf vuf ->
  repr (S n) h ev vev -> n <= depth ->
  closed (make_row_h depth row uf ftk ev h).2 /\
  forall r, (make_row_h depth row uf ftk ev h).1 = Ok r ->
            created (length h) (length (make_row_h depth row uf ftk ev h).2) r.
Proof.
  intros Hc Hrow Huf Hev Hd.
  destruct (make_row_h_sim n h Hc depth row uf ftk ev vrow vuf vev)
    as [[Hc' Hp] Hsim]; try done.
  split; [done|]. intros r Hr. rewrite Hr in Hsim.
  destruct (make_row vrow vuf ftk vev); [|done].
  destruct Hsim as ((b & ->) & Hown & _). by apply owned_created.
Qed.


(** C8: the generator on the object store implements the generator on
    values.  Run on a source of rows that stand for the rows of [vrows],
    [unpivot_rows_h] ends as [unpivot_rows] ends (exhaustion, or the same
    exception) and yields references that stand for the rows of
    [unpivot_rows], read in the final store: no row changes after it was
    yielded.  The references are pairwise distinct, and the store begins
    with the store the generator started in. *)
Theorem unpivot_rows_h_refines n depth h rows ufs ftk ev vrows vufs vev :
  closed h -> gen_rel (repr (S n) h) rows vrows ->
  Forall2 (repr (S n) h) ufs vufs -> repr (S n) h ev vev -> n <= depth ->
  gen_rel (repr (S n) (unpivot_rows_h depth rows ufs ftk ev h).2)
          (unpivot_rows_h depth rows ufs ftk ev h).1
          (unpivot_rows vrows vufs ftk vev) /\
  NoDup (gen_items (unpivot_rows_h depth rows ufs ftk ev h).1) /\
  h `prefix_of` (unpivot_rows_h depth rows ufs ftk ev h).2.
Proof.
  intros Hc Hrows Hufs Hev Hd.
  destruct (unpivot_rows_h_sim n depth Hd ftk ev vev rows ufs vrows vufs h)
    as (_ & Hp & Hrel & _ & Hnd); done.
Qed.

(** C30: [copy.deepcopy] on the object store.  A value that can be read
    within the depth available is copied: the store grows by new objects,
    the result stands for the same value, it is a new object unless the
    value is not an object, and no new object holds the address of an
    object that existed, so that the copy shares nothing with the
    original. *)
Theorem deepcopy_h_copies n depth r v h :
  n <= depth -> closed h -> repr n h r v ->
  exists r' k, deepcopy_h depth r h = (Ok r', h ++ k) /\
               repr n (h ++ k) r' v /\ closed (h ++ k) /\
               apart (length h) k /\ ref_new (length h) r'.
Proof.
  intros Hd Hc Hr.
  destruct (deepcopy_h_spec n depth r v h) as (r' & h' & Heq & Hc' & _ & Hr' & _);
    [done..|].
  destruct (grows_deepcopy (length h) depth r h) as (k & Hk & Hap & Hnew);
    [done|].
  rewrite Heq in Hk, Hnew. simpl in *. subst. exists r', k. split_and!; auto.
Qed.

(** ** The theorems at the [sales] table *)

Lemma make_row_h_refines_witness :
  sim (repr 2 (make_row_h 8 (RObj 0) (RObj 2) ["region"] (RObj 7) ex_heap).2)
      (make_row_h 8 (RObj 0) (RObj 2) ["region"] (RObj 7) ex_heap).1
      (make_row ex_row (ex_pivot "q1" "1") ["region"] ex_amount).
Proof.
  apply (make_row_h_refines 1 8 ex_heap (RObj 0) (RObj 2) ["region"] (RObj 7)
           ex_row (ex_pivot "q1" "1") ex_amount);
    [by_compute | reflexivity.. | lia].
Defined.


Lemma unpivot_rows_h_refines_witness :
  gen_rel (repr 2 (unpivot_rows_h 8 (gen_of_list [RObj 0]) ex_pivot_refs
                     ["region"] (RObj 7) ex_heap).2)
          (unpivot_rows_h 8 (gen_of_list [RObj 0]) ex_pivot_refs ["region"]
                          (RObj 7) ex_heap).1
          (unpivot_rows (gen_of_list [ex_row]) ex_pivots ["region"] ex_amount) /\
  NoDup (gen_items (unpivot_rows_h 8 (gen_of_list [RObj 0]) ex_pivot_refs
                      ["region"] (RObj 7) ex_heap).1) /\
  ex_heap `prefix_of`
    (unpivot_rows_h 8 (gen_of_list [RObj 0]) ex_pivot_refs ["region"]
                    (RObj 7) ex_heap).2.
Proof.
  apply (unpivot_rows_h_refines 1 8 ex_heap (gen_of_list [RObj 0])
           ex_pivot_refs ["region"] (RObj 7) (gen_of_list [ex_row]) ex_pivots
           ex_amount);
    [by_compute | by split; repeat constructor | by repeat constructor
    | reflexivity | lia].
Defined.

Lemma deepcopy_h_copies_witness :
  exists r' k, deepcopy_h 8 (RObj 2) ex_heap = (Ok r', ex_heap ++ k) /\
               repr 2 (ex_heap ++ k) r' (ex_pivot "q1" "1") /\
               closed (ex_heap ++ k) /\ apart (length ex_heap) k /\
               ref_new (length ex_heap) r'.
Proof.
  apply (deepcopy_h_copies 2 8 (RObj 2) (ex_pivot "q1" "1") ex_heap);
    [lia | by_compute | reflexivity].
Defined.
