(* ===== verification/Space.v ===== *)
(** * Recursion depth and space of the row expander

    Line 16 copies the key mapping of the pivot field with
    [copy.deepcopy], once for every output row.  The copy recurses once
    per level of nesting and creates one object per dictionary and list
    of the value.  This file measures both on the value a reference
    stands for: [value_height] is the depth of the recursion the copy
    needs, [value_nodes] the number of objects it creates.  With them,
    [Heap.deepcopy_h] raises [RecursionError] exactly when the value is
    nested deeper than the depth it is given, and the store grows by the
    number of nodes of the key mapping for every row, whatever the width
    of the row. *)

From stdpp Require Import base list strings.
From S2P Require Import Prelude Dict Values Rows Heap.

(** The levels of nesting of dictionaries and lists. *)
Fixpoint value_height (v : value) : nat :=
  match v with
  | VList l => S (max_list_with value_height l)
  | VDict d => S (max_list_with (fun kv => value_height kv.2) d)
  | _ => 0
  end.

(** The number of dictionaries and lists in a value. *)
Fixpoint value_nodes (v : value) : nat :=
  match v with
  | VList l => S (sum_list_with value_nodes l)
  | VDict d => S (sum_list_with (fun kv => value_nodes kv.2) d)
  | _ => 0
  end.

(** What a copying computation leaves when it is given [depth] levels of
    recursion for a value [v]: never more than one new object per node;
    within the depth, a reference into a closed store that has grown by
    exactly the nodes of [v]; beyond it, [RecursionError]. *)
Definition copy_bound {B} (Q : nat -> B -> Prop) (height nodes depth : nat)
    (h : heap) (out : result B * heap) : Prop :=
  length out.2 <= length h + nodes /\
  (height <= depth ->
     exists y, out.1 = Ok y /\ closed out.2 /\ h `prefix_of` out.2 /\
               Q (length out.2) y /\ length out.2 = length h + nodes) /\
  (depth < height -> out.1 = Err RecursionError).

(** A computation that creates no object and does not run out of
    recursion depth; what it returns satisfies [Q]. *)
Definition steady {A} (Q : A -> Prop) (m : heapM A) : Prop :=
  forall h, length (m h).2 = length h /\ (m h).1 <> Err RecursionError /\
            forall a, (m h).1 = Ok a -> Q a.

(** ** Measures *)

Lemma value_height_atom n h r v :
  (forall a, r <> RObj a) -> repr n h r v -> value_height v = 0 /\ value_nodes v = 0.
Proof.
  intros Hr Hv. destruct r as [| | | |a]; [..|by destruct (Hr a)];
    destruct n; unfold repr in Hv; simpl in Hv; by simplify_eq.
Qed.

(** ** A loop of copies *)

Section loop.
Context {A B V : Type} (f : A -> heapM B) (R : heap -> A -> V -> Prop).
Context (Q : nat -> B -> Prop) (height nodes : V -> nat) (depth : nat).
Context (HR : forall h h' x v, R h x v -> h `prefix_of` h' -> R h' x v).
Context (HQ : forall n n' y, Q n y -> n <= n' -> Q n' y).
Context (Hf : forall x v h, closed h -> R h x v ->
                copy_bound Q (height v) (nodes v) depth h (f x h)).

Lemma hmapM_bound l : forall vl h,
  closed h -> Forall2 (R h) l vl ->
  copy_bound (fun n => Forall (Q n)) (max_list_with height vl)
             (sum_list_with nodes vl) depth h (hmapM f l h).
Proof.
  induction l as [|x l IH]; intros vl h Hc Hl.
  { apply Forall2_nil_inv_l in Hl as ->. split_and!; simpl; [lia | | lia].
    intros _. exists []. by split_and!. }
  apply Forall2_cons_inv_l in Hl as (v & vl' & Hx & Hl & ->).
  destruct (Hf x v h Hc Hx) as (Hle & Hok & Hbad). cbn [hmapM max_list_with sum_list_with].
  destruct (decide (height v <= depth)) as [Hv|Hv].
  2: { assert (Hout : (f x h).1 = Err RecursionError) by (apply Hbad; lia).
       destruct (f x h) as [[y|e] h1] eqn:Hfx; simpl in *; simplify_eq.
       rewrite (hbind_err _ _ _ _ _ Hfx). split_and!; simpl; [lia | lia | done]. }
  destruct (Hok Hv) as (y & Hy & Hc1 & Hp1 & Hq & Hlen).
  destruct (f x h) as [out1 h1] eqn:Hfx. simpl in *. subst out1.
  rewrite (hbind_ok _ _ _ _ _ Hfx).
  destruct (IH vl' h1 Hc1) as (Hle2 & Hok2 & Hbad2).
  { eapply Forall2_impl; [done|]. intros; by eapply HR. }
  destruct (hmapM f l h1) as [[ys|e] h2] eqn:Hys; simpl in *.
  - rewrite (hbind_ok _ _ _ _ _ Hys).
    split_and!; simpl; [lia | | intros ?; by specialize (Hbad2 ltac:(lia))].
    intros Hm. destruct Hok2 as (ys' & ? & Hc2 & Hp2 & Hqs & Hlen2); [lia|].
    simplify_eq. exists (y :: ys'). split_and!; [done.. | by etrans | | lia].
    constructor; [|done]. eapply HQ; [done|]. by apply prefix_length.
  - rewrite (hbind_err _ _ _ _ _ Hys).
    split_and!; simpl; [lia | | intros ?; apply Hbad2; lia].
    intros Hm. by destruct Hok2 as (? & ? & _); [lia|].
Qed.

End loop.

(** The result of a copy is wrapped. *)
Lemma copy_bound_fmap {B B'} (Q : nat -> B -> Prop) (Q' : nat -> B' -> Prop)
    (g : B -> B') height nodes depth h (m : heapM B) :
  (forall k y, Q k y -> Q' k (g y)) ->
  copy_bound Q height nodes depth h (m h) ->
  copy_bound Q' height nodes depth h (hbind m (fun y => hret (g y)) h).
Proof.
  intros Hg (Hle & Hok & Hbad). unfold hbind.
  destruct (m h) as [[y|e] h']; simpl in *;
    (split_and!; [done | | intros Hh; specialize (Hbad Hh); by simplify_eq]);
    intros Hh; destruct (Hok Hh) as (y' & ? & ? & ? & ? & ?); simplify_eq.
  exists (g y'). split_and!; auto.
Qed.

(** ** [copy.deepcopy] *)

(** The slots of an object, copied with [depth] levels left for each. *)
Lemma copy_slots_bound n depth (copy : ref -> heapM ref) :
  (forall r v h, closed h -> repr n h r v ->
     copy_bound ref_in (value_height v) (value_nodes v) depth h (copy r h)) ->
  forall o v h, closed h -> object_rel (repr n h) o v ->
    copy_bound (fun k o' => Forall (ref_in k) (refs o'))
               (pred (value_height v)) (pred (value_nodes v)) depth h
               (copy_slots copy o h).
Proof.
  intros Hcopy [d|l] v h Hc Hrel; destruct v as [| | | |vl|vd]; try done;
    cbn [copy_slots value_height value_nodes pred object_rel] in *.
  - eapply copy_bound_fmap; [intros k y Hy; simpl; apply Forall_fmap, Hy|].
    apply (hmapM_bound (fun kx => x' <- copy kx.2 ;; hret (kx.1, x'))
             (fun h (kx : string * ref) (kv : string * value) =>
                repr n h kx.2 kv.2)
             (fun k (kx : string * ref) => ref_in k kx.2)
             (fun kv => value_height kv.2) (fun kv => value_nodes kv.2) depth);
      [| |intros [k x] [k' w] h1 Hc1 Hx|done|].
    + intros. by eapply repr_mono.
    + intros. by eapply ref_in_mono.
    + eapply copy_bound_fmap; [|by apply Hcopy]. done.
    + eapply Forall2_impl; [done|]. by intros ?? [_ ?].
  - eapply copy_bound_fmap; [intros k y Hy; exact Hy|].
    apply (hmapM_bound copy (repr n) ref_in value_height value_nodes depth);
      try done.
    + intros. by eapply repr_mono.
    + intros. by eapply ref_in_mono.
Qed.

(** The value is copied when, and only when, it is not nested deeper
    than [depth], and one object is created for each of its nodes. *)
Lemma deepcopy_h_bound n : forall depth r v h,
  closed h -> repr n h r v ->
  copy_bound ref_in (value_height v) (value_nodes v) depth h
             (deepcopy_h depth r h).
Proof.
  assert (Hatom : forall n depth r v h, (forall a, r <> RObj a) ->
            closed h -> repr n h r v ->
            copy_bound ref_in (value_height v) (value_nodes v) depth h
                       (deepcopy_h depth r h)).
  { intros n' depth r v h Hr Hc Hv.
    destruct (value_height_atom n' h r v Hr Hv) as [-> ->].
    assert (deepcopy_h depth r h = (Ok r, h)) as ->
      by (destruct r as [| | | |a], depth; try done; by destruct (Hr a)).
    split_and!; simpl; [lia | | lia]. intros _. exists r.
    split_and!; [done.. | | lia]. destruct r as [| | | |a]; try done.
    by destruct (Hr a). }
  induction n as [|n IH]; intros depth r v h Hc Hr.
  { destruct r as [| | | |a]; [by apply (Hatom 0)..|done]. }
  destruct r as [| | | |a]; [by apply (Hatom (S n))..|].
  apply repr_obj in Hr as (o & Ho & Hrel).
  assert (Hv : value_height v = S (pred (value_height v)) /\
               value_nodes v = S (pred (value_nodes v))).
  { by destruct o, v. }
  destruct Hv as [Hh Hn]. rewrite Hh, Hn.
  destruct depth as [|depth]; [split_and!; simpl; [lia | lia | done]|].
  destruct (copy_slots_bound n depth (deepcopy_h depth) (IH depth) o v h Hc Hrel)
    as (Hle & Hok & Hbad).
  cbn [deepcopy_h]. rewrite (hbind_ok _ _ h o h) by (by unfold load; simpl; rewrite Ho).
  unfold hbind, alloc.
  destruct (copy_slots (deepcopy_h depth) o h) as [[o'|e] h1]; simpl in *.
  - unfold copy_bound. simpl. rewrite length_app. simpl.
    split_and!; [lia | | intros ?; by specialize (Hbad ltac:(lia))].
    intros Hd. destruct Hok as (y & ? & Hc1 & Hp1 & Hin & Hlen); [lia|]. simplify_eq.
    exists (RObj (length h1)).
    split_and!; [done | by apply closed_app | by etrans; [|apply prefix_app_r]
                | simpl; lia | lia].
  - unfold copy_bound. simpl.
    split_and!; [lia | | intros ?; specialize (Hbad ltac:(lia)); by simplify_eq].
    intros Hd. by destruct Hok as (? & ? & _); [lia|].
Qed.

(** ** The rest of the loop body

    After line 16 the body reads the row and assigns to the new row
    (lines 17-19): no object is created, and the exceptions are those of
    subscripting. *)

Lemma steady_ret {A} (Q : A -> Prop) a : Q a -> steady Q (hret a).
Proof. intros Ha h. split_and!; [done..|]. by intros ? [= <-]. Qed.

Lemma steady_bind {A B} (Q : A -> Prop) (Q' : B -> Prop) m f :
  steady Q m -> (forall a, Q a -> steady Q' (f a)) -> steady Q' (hbind m f).
Proof.
  intros Hm Hf h. destruct (Hm h) as (Hl & He & HQ). unfold hbind.
  destruct (m h) as [[a|e] h1]; simpl in *.
  - destruct (Hf a (HQ a eq_refl) h1) as (? & ? & ?). split_and!; [lia | done..].
  - split_and!; [done | | done]. intros [= ->]. by apply He.
Qed.

Lemma steady_hfor {A} (l : list A) body :
  (forall x, steady (fun _ => True) (body x)) -> steady (fun _ => True) (hfor l body).
Proof.
  intros Hb. induction l as [|x l IH]; simpl; [by apply steady_ret|].
  eapply steady_bind; [apply Hb | done].
Qed.

Lemma steady_getitem r k : steady (fun _ => True) (getitem_h r k).
Proof.
  intros h. unfold getitem_h. destruct (deref h r) as [[d|l]|]; simpl;
    [destruct (dict_get k d); simpl|..]; by split_and!.
Qed.

Lemma steady_as_str r : steady (fun _ => True) (as_str_h r).
Proof. intros h. destruct r; simpl; by split_and!. Qed.

Lemma steady_dict_get r k dflt : steady (fun _ => True) (dict_get_h r k dflt).
Proof.
  intros h. unfold dict_get_h. destruct (deref h r) as [[d|l]|]; simpl; by split_and!.
Qed.

Lemma steady_get_method r :
  steady (fun g => forall k dflt, steady (fun _ => True) (g k dflt)) (get_method_h r).
Proof.
  intros h. unfold get_method_h. destruct (deref h r) as [[d|l]|]; simpl;
    (split_and!; [done..|]); intros g [= <-]. apply steady_dict_get.
Qed.

Lemma steady_setitem r k x : steady (fun _ => True) (setitem_h r k x).
Proof.
  intros h. unfold setitem_h. destruct r as [| | | |a]; simpl; try by split_and!.
  destruct (h !! a) as [[d|l]|]; simpl; split_and!; try done.
  by rewrite length_insert.
Qed.

Lemma steady_copy_kept row ftk new_row :
  steady (fun _ => True) (copy_kept_h row ftk new_row).
Proof.
  apply steady_hfor. intros field.
  eapply steady_bind; [apply steady_getitem|]. intros x _. apply steady_setitem.
Qed.

(** Lines 17-19, for the new row [new_row]. *)
Lemma steady_fill_row row uf ftk ev new_row :
  steady (fun r => r = new_row)
    (u <- copy_kept_h row ftk new_row ;;
     row_get <- get_method_h row ;;
     pivot_name <- getitem_h uf "name" ;;
     pivot_name <- as_str_h pivot_name ;;
     x <- row_get pivot_name RNone ;;
     value_name <- getitem_h ev "name" ;;
     value_name <- as_str_h value_name ;;
     u <- setitem_h new_row value_name x ;;
     hret new_row).
Proof.
  eapply steady_bind; [apply steady_copy_kept|]. intros _ _.
  eapply steady_bind; [apply steady_get_method|]. intros row_get Hg.
  eapply steady_bind; [apply steady_getitem|]. intros ? _.
  eapply steady_bind; [apply steady_as_str|]. intros pivot_name _.
  eapply steady_bind; [apply Hg|]. intros x _.
  eapply steady_bind; [apply steady_getitem|]. intros ? _.
  eapply steady_bind; [apply steady_as_str|]. intros value_name _.
  eapply steady_bind; [apply steady_setitem|]. intros _ _. by apply steady_ret.
Qed.

(** ** The theorems *)

(** C23: the space and the recursion depth of one output row.  In a
    closed store where the pivot field has a key mapping that stands for
    [vkeys], the body of the loop (lines 16-19) creates at most as many
    objects as [vkeys] has dictionaries and lists, whatever the row and
    the number of kept fields; it raises [RecursionError] exactly when
    [vkeys] is nested deeper than the recursion depth that is left; and
    when it returns a row, the store has grown by exactly that number of
    objects. *)
Theorem make_row_h_space n depth h row uf ftk ev keys vkeys :
  closed h -> (getitem_h uf "keys" h).1 = Ok keys -> repr n h keys vkeys ->
  length (make_row_h depth row uf ftk ev h).2 <= length h + value_nodes vkeys /\
  ((make_row_h depth row uf ftk ev h).1 = Err RecursionError <->
   depth < value_height vkeys) /\
  (forall r, (make_row_h depth row uf ftk ev h).1 = Ok r ->
             length (make_row_h depth row uf ftk ev h).2 =
             length h + value_nodes vkeys).
Proof.
  intros Hc Hk Hr. unfold make_row_h.
  destruct (steady_getitem uf "keys" h) as (Hl & _).
  destruct (getitem_h uf "keys" h) as [out h0] eqn:Hg. simpl in *. subst out.
  assert (h0 = h) as -> by (unfold getitem_h in Hg; by repeat case_match; simplify_eq).
  rewrite (hbind_ok _ _ _ _ _ Hg). clear Hg Hl.
  destruct (deepcopy_h_bound n depth keys vkeys h Hc Hr) as (Hle & Hok & Hbad).
  destruct (deepcopy_h depth keys h) as [[new_row|e] h1] eqn:Hcp; simpl in *.
  - rewrite (hbind_ok _ _ _ _ _ Hcp).
    destruct (steady_fill_row row uf ftk ev new_row h1) as (Hl1 & He1 & _).
    rewrite Hl1. split_and!; [done | split; [done|] |].
    + intros Hd. by specialize (Hbad Hd).
    + intros r _. destruct (decide (value_height vkeys <= depth)) as [Hd|Hd].
      * by destruct (Hok Hd) as (? & _ & _ & _ & _ & ?).
      * by specialize (Hbad ltac:(lia)).
  - rewrite (hbind_err _ _ _ _ _ Hcp). simpl. split_and!; [done | split | done].
    + intros [= ->]. destruct (decide (value_height vkeys <= depth)) as [Hd|Hd]; [|lia].
      by destruct (Hok Hd) as (? & ? & _).
    + intros Hd. by rewrite (Hbad Hd).
Qed.

Lemma make_row_h_space_witness :
  length (make_row_h 8 (RObj 0) (RObj 2) ["region"] (RObj 7) ex_heap).2 <=
    length ex_heap + value_nodes (VDict [("quarter", VStr "1")]) /\
  ((make_row_h 8 (RObj 0) (RObj 2) ["region"] (RObj 7) ex_heap).1 =
     Err RecursionError <-> 8 < value_height (VDict [("quarter", VStr "1")])) /\
  (forall r, (make_row_h 8 (RObj 0) (RObj 2) ["region"] (RObj 7) ex_heap).1 = Ok r ->
             length (make_row_h 8 (RObj 0) (RObj 2) ["region"] (RObj 7) ex_heap).2 =
             length ex_heap + value_nodes (VDict [("quarter", VStr "1")])).
Proof.
  apply (make_row_h_space 1 8 ex_heap (RObj 0) (RObj 2) ["region"] (RObj 7)
           (RObj 1) (VDict [("quarter", VStr "1")]));
    [by_compute | reflexivity | reflexivity].
Defined.

(** The same of [copy.deepcopy] alone. *)

(** The recursion depth and the space of [copy.deepcopy].  For a
    reference that stands for the value [v] in a closed store, the copy
    with [depth] levels of recursion raises [RecursionError] exactly when
    [v] is nested deeper than [depth]; the store never grows by more than
    the number of dictionaries and lists in [v]; and when the copy
    returns, it has grown by exactly that number and is closed. *)
Theorem deepcopy_h_bounds n depth r v h :
  closed h -> repr n h r v ->
  length (deepcopy_h depth r h).2 <= length h + value_nodes v /\
  ((deepcopy_h depth r h).1 = Err RecursionError <-> depth < value_height v) /\
  (value_height v <= depth ->
     closed (deepcopy_h depth r h).2 /\
     length (deepcopy_h depth r h).2 = length h + value_nodes v).
Proof.
  intros Hc Hr. destruct (deepcopy_h_bound n depth r v h Hc Hr) as (Hle & Hok & Hbad).
  split_and!; [done | split; [|done] |].
  - intros He. destruct (decide (value_height v <= depth)) as [Hd|]; [|lia].
    destruct (Hok Hd) as (y & Hy & _). congruence.
  - intros Hd. destruct (Hok Hd) as (y & _ & ? & _ & _ & ?). done.
Qed.

(** ** The theorems at the [sales] table *)

Lemma deepcopy_h_bounds_witness :
  length (deepcopy_h 1 (RObj 2) ex_heap).2 <= length ex_heap + 2 /\
  ((deepcopy_h 1 (RObj 2) ex_heap).1 = Err RecursionError <->
   1 < value_height (ex_pivot "q1" "1")) /\
  (value_height (ex_pivot "q1" "1") <= 1 ->
     closed (deepcopy_h 1 (RObj 2) ex_heap).2 /\
     length (deepcopy_h 1 (RObj 2) ex_heap).2 = length ex_heap + 2).
Proof.
  apply (deepcopy_h_bounds 2 1 (RObj 2) (ex_pivot "q1" "1") ex_heap);
    [by_compute | reflexivity].
Defined.
