(* ===== verification/Lazy.v ===== *)
(** * The row expander as a generator object

    [Rows.unpivot_rows] gives the trace of the generator of lines 13-20 of
    [unpivot.py].  This file models the generator object itself: its
    suspended frame (the row source, the current row and the pivot fields
    still to visit for it) and [next], one resumption of the frame up to
    the next [yield], the end of the loop or an exception.  The theorems
    relate the two models and state what the generator reads from its
    source, and when. *)

From stdpp Require Import base list strings.
From S2P Require Import Prelude Dict Values Rows.

(** The locals of the suspended frame: the iterator over [rows] (what the
    source has still to deliver) and, inside the loop body, the current
    [row] with what is left of the iteration over [fields_to_unpivot]. *)
Record frame : Type := {
  src : gen value;
  cur : option (value * list value)
}.

(** A generator object: suspended, or closed (after it returned or raised). *)
Inductive gstate : Type :=
| Suspended (f : frame)
| Closed.

(** What [next(g)] does for the caller of a generator of [A]. *)
Inductive response (A : Type) : Type :=
| Item (x : A)
| StopIteration
| Exception (e : error).

Arguments Item {A} x.
Arguments StopIteration {A}.
Arguments Exception {A} e.

Section generator.
Variables (fields_to_unpivot : list value) (fields_to_keep : list string)
          (extra_value : value).

(** The generator as [unpivot_rows(rows, ...)] returns it: nothing has run. *)
Definition start (rows : gen value) : gstate :=
  Suspended {| src := rows; cur := None |}.

(** Lines 16-20 for [row] and [unpivot_field], with [rest] the pivot fields
    after it: the frame is suspended at the [yield], or the exception
    closes the generator. *)
Definition emit (rows : gen value) (row unpivot_field : value) (rest : list value) :
    response value * gstate :=
  match make_row row unpivot_field fields_to_keep extra_value with
  | Ok new_row => (Item new_row, Suspended {| src := rows; cur := Some (row, rest) |})
  | Err e => (Exception e, Closed)
  end.

(** Line 14: the outer loop asks the source for the next row, and enters
    the inner loop with it; with no pivot field the inner loop is empty and
    the outer loop goes on. *)
Fixpoint fetch (rows : gen value) : response value * gstate :=
  match rows with
  | Stop => (StopIteration, Closed)
  | Raise e => (Exception e, Closed)
  | Yield row rows' =>
      match fields_to_unpivot with
      | [] => fetch rows'
      | unpivot_field :: rest => emit rows' row unpivot_field rest
      end
  end.

(** [next(g)]: resume the frame where it was suspended. *)
Definition next (g : gstate) : response value * gstate :=
  match g with
  | Closed => (StopIteration, Closed)
  | Suspended f =>
      match cur f with
      | Some (row, unpivot_field :: rest) => emit (src f) row unpivot_field rest
      | _ => fetch (src f)
      end
  end.

(** What the generator has still to deliver. *)
Definition trace (g : gstate) : gen value :=
  match g with
  | Closed => Stop
  | Suspended f =>
      gen_app
        match cur f with
        | Some (row, rest) => expand_row row rest fields_to_keep extra_value
        | None => Stop
        end
        (unpivot_rows (src f) fields_to_unpivot fields_to_keep extra_value)
  end.

(** The consumer's loop [for new_row in g] with at most [fuel] calls of
    [next]. *)
Fixpoint drain (fuel : nat) (g : gstate) : gen value :=
  match fuel with
  | O => Stop
  | S fuel' =>
      match next g with
      | (Item row, g') => Yield row (drain fuel' g')
      | (StopIteration, _) => Stop
      | (Exception e, _) => Raise e
      end
  end.

(** The first [k] rows of the generator ([itertools.islice(g, k)]) and the
    generator afterwards. *)
Fixpoint take_rows (k : nat) (g : gstate) : list value * gstate :=
  match k with
  | O => ([], g)
  | S k' =>
      match next g with
      | (Item row, g') => let p := take_rows k' g' in (row :: p.1, p.2)
      | (_, g') => ([], g')
      end
  end.

(** What the source has still to deliver. *)
Definition source (g : gstate) : gen value :=
  match g with
  | Suspended f => src f
  | Closed => Stop
  end.

(** One answer of [next] against the trace. *)
Definition answers (t : gen value) (r : response value * gstate) : Prop :=
  match r.1 with
  | Item row => t = Yield row (trace r.2)
  | StopIteration => t = Stop /\ r.2 = Closed
  | Exception e => t = Raise e /\ r.2 = Closed
  end.

End generator.

Arguments start : clear implicits.

Section generator_facts.
Context (ufs : list value) (ftk : list string) (ev : value).

(** ** One resumption *)

Lemma emit_answers rows row uf rest :
  answers ufs ftk ev
    (gen_app (expand_row row (uf :: rest) ftk ev) (unpivot_rows rows ufs ftk ev))
    (emit ftk ev rows row uf rest).
Proof.
  unfold answers, emit, expand_row. simpl.
  by destruct (make_row row uf ftk ev).
Qed.

Lemma fetch_answers rows :
  answers ufs ftk ev (unpivot_rows rows ufs ftk ev) (fetch ufs ftk ev rows).
Proof.
  induction rows as [|row rows IH|e]; simpl; [done | | done].
  pose proof (emit_answers rows row) as Hemit.
  by destruct ufs as [|uf rest].
Qed.

Lemma next_answers g : answers ufs ftk ev (trace ufs ftk ev g) (next ufs ftk ev g).
Proof.
  destruct g as [[rows [[row [|uf rest]]|]]|]; simpl; [| | |done].
  - apply fetch_answers.
  - apply emit_answers.
  - apply fetch_answers.
Qed.

Lemma trace_start rows : trace ufs ftk ev (start rows) = unpivot_rows rows ufs ftk ev.
Proof. done. Qed.

Lemma drain_trace fuel g :
  length (gen_items (trace ufs ftk ev g)) < fuel ->
  drain ufs ftk ev fuel g = trace ufs ftk ev g.
Proof.
  revert g. induction fuel as [|fuel IH]; intros g Hlen; [lia|]. simpl.
  pose proof (next_answers g) as H. unfold answers in H.
  destruct (next ufs ftk ev g) as [[row| |e] g']; simpl in H.
  - rewrite H in *. simpl in Hlen. rewrite IH; [done | lia].
  - by destruct H as [-> _].
  - by destruct H as [-> _].
Qed.

(** C15: the generator object implements the trace.  Whatever the
    state of the generator, one call of [next] returns the first row of
    what the trace has still to deliver and leaves a generator that
    delivers the rest; it raises [StopIteration] exactly when the trace is
    exhausted and the exception the trace ends with otherwise, and in both
    cases the generator is closed. *)
Theorem next_refines g :
  match next ufs ftk ev g with
  | (Item row, g') => trace ufs ftk ev g = Yield row (trace ufs ftk ev g')
  | (StopIteration, g') => trace ufs ftk ev g = Stop /\ g' = Closed
  | (Exception e, g') => trace ufs ftk ev g = Raise e /\ g' = Closed
  end.
Proof.
  pose proof (next_answers g) as H. unfold answers in H.
  by destruct (next ufs ftk ev g) as [[row| |e] g'].
Qed.

(** Consuming the generator gives the trace of [unpivot_rows].
    A consumer that calls [next] until the generator stops or raises
    collects exactly the rows of [unpivot_rows], and ends the same way;
    every call returns, and more calls than (input rows) x (pivot fields)
    are never needed. *)
Theorem drain_unpivot_rows rows fuel :
  length (gen_items rows) * length ufs < fuel ->
  drain ufs ftk ev fuel (start rows) = unpivot_rows rows ufs ftk ev.
Proof.
  intros Hfuel. rewrite drain_trace; [done|]. rewrite trace_start.
  pose proof (unpivot_rows_length_le rows ufs ftk ev). lia.
Qed.

(** A closed generator stays closed.  After [next] raised
    [StopIteration] or an exception, every later call raises
    [StopIteration]: the source is not asked again. *)
Theorem next_closed g r g' :
  next ufs ftk ev g = (r, g') -> (forall row, r <> Item row) ->
  next ufs ftk ev g' = (StopIteration, Closed).
Proof.
  intros Hnext Hr. pose proof (next_answers g) as H. unfold answers in H.
  rewrite Hnext in H. destruct r as [row| |e]; simpl in H.
  - by destruct (Hr row).
  - by destruct H as [_ ->].
  - by destruct H as [_ ->].
Qed.

(** Inside a row the source is not touched.  When the frame is
    suspended with pivot fields left for the current row, [next] builds the
    row for the first of them from the current row, and the source is as
    it was. *)
Theorem next_within_row rows row uf rest r g' :
  next ufs ftk ev (Suspended {| src := rows; cur := Some (row, uf :: rest) |}) =
    (Item r, g') ->
  make_row row uf ftk ev = Ok r /\
  g' = Suspended {| src := rows; cur := Some (row, rest) |}.
Proof.
  simpl. unfold emit. destruct (make_row row uf ftk ev); intros ?; by simplify_eq.
Qed.

(** No read-ahead.  When the current row is used up (or no row
    was read yet), a call of [next] that returns a row has asked the source
    for exactly one row, the one the returned row is built from; the rows
    after it are still in the source. *)
Theorem next_reads_one rows c r g' :
  c = None \/ (exists row, c = Some (row, [])) ->
  next ufs ftk ev (Suspended {| src := rows; cur := c |}) = (Item r, g') ->
  exists row uf rest,
    ufs = uf :: rest /\ rows = Yield row (source g') /\
    make_row row uf ftk ev = Ok r /\
    g' = Suspended {| src := source g'; cur := Some (row, rest) |}.
Proof.
  intros Hc Hnext.
  assert (Hfetch : fetch ufs ftk ev rows = (Item r, g'))
    by (by destruct Hc as [->|[row ->]]).
  clear Hnext Hc. destruct ufs as [|uf rest]; simpl in Hfetch.
  - exfalso. induction rows as [|row rows IH|e]; simpl in *; auto; done.
  - destruct rows as [|row rows|e]; simpl in Hfetch; try done.
    unfold emit in Hfetch. destruct (make_row row uf ftk ev) eqn:Hrow; simplify_eq.
    by exists row, uf, rest.
Qed.

(** ** The first [k] rows *)

Lemma take_rows_app k1 k2 g out g1 :
  take_rows ufs ftk ev k1 g = (out, g1) -> length out = k1 ->
  take_rows ufs ftk ev (k1 + k2) g =
  (out ++ (take_rows ufs ftk ev k2 g1).1, (take_rows ufs ftk ev k2 g1).2).
Proof.
  revert g out. induction k1 as [|k1 IH]; intros g out; simpl.
  { intros ? _. simplify_eq. by destruct (take_rows _ _ _ k2 g1). }
  destruct (next ufs ftk ev g) as [[row| |e] g']; simpl; intros H Hlen;
    simplify_eq/=.
  destruct (take_rows ufs ftk ev k1 g') as [out' g1'] eqn:Hk1. simpl in *.
  by rewrite (IH g' out') by (done || lia).
Qed.

Section good_input.
Context (vn : string) (Hev : getitem ev "name" = Ok (VStr vn))
        (Hufs : Forall pivot_ok ufs).

Lemma take_rows_within_row rows row rest k :
  row_ok ftk row -> Forall pivot_ok rest -> k <= length rest ->
  take_rows ufs ftk ev k (Suspended {| src := rows; cur := Some (row, rest) |}) =
  (map (new_row ftk vn row) (take k rest),
   Suspended {| src := rows; cur := Some (row, drop k rest) |}).
Proof.
  intros Hrow. revert rest. induction k as [|k IH]; intros rest Hrest Hk; [done|].
  destruct rest as [|uf rest]; [simpl in Hk; lia|].
  apply Forall_cons in Hrest as [Huf Hrest]. simpl in *. unfold emit.
  rewrite (make_row_ok ftk vn) by done. by rewrite IH by (done || lia).
Qed.

Lemma take_rows_fetch_row rows row c k :
  c = None \/ (exists row', c = Some (row', [])) ->
  row_ok ftk row -> 0 < k <= length ufs ->
  take_rows ufs ftk ev k (Suspended {| src := Yield row rows; cur := c |}) =
  (map (new_row ftk vn row) (take k ufs),
   Suspended {| src := rows; cur := Some (row, drop k ufs) |}).
Proof.
  intros Hc Hrow Hk. destruct k as [|k]; [lia|].
  assert (Hnext : next ufs ftk ev (Suspended {| src := Yield row rows; cur := c |}) =
                  fetch ufs ftk ev (Yield row rows))
    by (by destruct Hc as [->|[row' ->]]).
  cbn [take_rows]. rewrite Hnext. clear Hnext Hc.
  pose proof (take_rows_within_row rows row) as Hin.
  destruct ufs as [|uf rest]; [simpl in Hk; lia|].
  apply Forall_cons in Hufs as [Huf Hrest]. simpl in *. unfold emit.
  rewrite (make_row_ok ftk vn) by done. by rewrite Hin by (done || lia).
Qed.

(** C16: no read-ahead, for any number of rows.  To deliver its first
    [k] rows the generator asks the source for no more rows than those [k]
    rows are built from: when [k] is at most [q] times the number of
    pivot fields, the [k] rows are the first [k] of the reference
    expansion, at most [q] rows of the source have been read, and whatever
    follows them in the source (more rows, or a failure) is untouched. *)
Theorem take_rows_no_read_ahead pre rest k q c :
  c = None \/ (exists row, c = Some (row, [])) ->
  Forall (row_ok ftk) pre ->
  k <= q * length ufs -> q <= length pre ->
  exists n c', n <= q /\
    take_rows ufs ftk ev k
      (Suspended {| src := gen_app (gen_of_list pre) rest; cur := c |}) =
    (take k (expand_spec ufs ftk vn pre),
     Suspended {| src := gen_app (gen_of_list (drop n pre)) rest; cur := c' |}).
Proof.
  intros Hc Hpre. revert k q c Hc.
  induction Hpre as [|row pre Hrow _ IH]; intros k q c Hc Hk Hq.
  { assert (k = 0) as -> by (simpl in Hq; nia). exists 0, c. split; [lia | done]. }
  destruct (decide (k = 0)) as [->|Hk0]; [exists 0, c; split; [lia | done]|].
  destruct q as [|q]; [lia|]. simpl in Hq. unfold expand_spec. simpl.
  destruct (decide (k <= length ufs)) as [Hle|Hgt].
  - exists 1, (Some (row, drop k ufs)). split; [lia|].
    rewrite take_rows_fetch_row by (done || lia).
    by rewrite take_app_le, <- fmap_take by (rewrite length_map; lia).
  - destruct (IH (k - length ufs) q (Some (row, [])))
      as (n & c' & Hn & Heq); [eauto | lia | lia |].
    exists (S n), c'. split; [lia|].
    replace k with (length ufs + (k - length ufs)) at 1 by lia.
    erewrite take_rows_app;
      [| apply take_rows_fetch_row; (done || lia)
       | by rewrite length_map, length_take; lia].
    rewrite drop_all, firstn_all, Heq. simpl.
    replace k with (length (map (new_row ftk vn row) ufs) + (k - length ufs)) at 2
      by (rewrite length_map; lia).
    by rewrite take_app_add.
Qed.

End good_input.

End generator_facts.

(** ** The theorems at the [sales] table *)

Lemma drain_unpivot_rows_witness :
  drain ex_pivots ["region"] ex_amount 7 (start (gen_of_list [ex_row; ex_row_west])) =
  unpivot_rows (gen_of_list [ex_row; ex_row_west]) ex_pivots ["region"] ex_amount.
Proof.
  apply (drain_unpivot_rows ex_pivots ["region"] ex_amount
           (gen_of_list [ex_row; ex_row_west]) 7).
  by_compute.
Defined.

Lemma next_closed_witness :
  next ex_pivots ["region"] ex_amount Closed = (StopIteration, Closed).
Proof.
  apply (next_closed ex_pivots ["region"] ex_amount (start (Raise AttributeError))
           (Exception AttributeError) Closed).
  - reflexivity.
  - discriminate.
Defined.

Lemma next_within_row_witness :
  make_row ex_row (ex_pivot "q2" "2") ["region"] ex_amount =
    Ok (new_row ["region"] "amount" ex_row (ex_pivot "q2" "2")) /\
  Suspended {| src := Raise AttributeError;
               cur := Some (ex_row, [ex_pivot "q3" "3"]) |} =
  Suspended {| src := Raise AttributeError;
               cur := Some (ex_row, [ex_pivot "q3" "3"]) |}.
Proof.
  apply (next_within_row ex_pivots ["region"] ex_amount (Raise AttributeError) ex_row
           (ex_pivot "q2" "2") [ex_pivot "q3" "3"]).
  reflexivity.
Defined.

Lemma next_reads_one_witness :
  exists row uf rest,
    ex_pivots = uf :: rest /\
    Yield ex_row (Yield ex_row_west Stop) =
      Yield row (source (Suspended {| src := Yield ex_row_west Stop;
                                      cur := Some (ex_row, tail ex_pivots) |})) /\
    make_row row uf ["region"] ex_amount =
      Ok (new_row ["region"] "amount" ex_row (ex_pivot "q1" "1")) /\
    Suspended {| src := Yield ex_row_west Stop; cur := Some (ex_row, tail ex_pivots) |} =
    Suspended {| src := source (Suspended {| src := Yield ex_row_west Stop;
                                             cur := Some (ex_row, tail ex_pivots) |});
                 cur := Some (row, rest) |}.
Proof.
  apply (next_reads_one ex_pivots ["region"] ex_amount
           (Yield ex_row (Yield ex_row_west Stop)) None).
  - left. reflexivity.
  - reflexivity.
Defined.

Lemma take_rows_no_read_ahead_witness :
  exists n c', n <= 2 /\
    take_rows ex_pivots ["region"] ex_amount 4
      (Suspended {| src := gen_app (gen_of_list [ex_row; ex_row_west])
                                   (Raise AttributeError);
                    cur := None |}) =
    (take 4 (expand_spec ex_pivots ["region"] "amount" [ex_row; ex_row_west]),
     Suspended {| src := gen_app (gen_of_list (drop n [ex_row; ex_row_west]))
                                 (Raise AttributeError);
                  cur := c' |}).
Proof.
  apply (take_rows_no_read_ahead ex_pivots ["region"] ex_amount "amount").
  - reflexivity.
  - by_compute.
  - left. reflexivity.
  - by_compute.
  - by_compute.
  - by_compute.
Defined.
