(* ===== verification/HeapLazy.v ===== *)
(** * The generator object on the object store, and its consumer

    [Lazy] models the generator object of [unpivot_rows] on values,
    [Heap] the loop body on the object store.  This file puts the two
    together: [next_h] is one resumption of the generator in a store, and
    a [system] is the generator, the store and what the consumer has read
    so far.  Between two calls of [next] the store may change: the
    consumer writes to the rows it was given, it and others create
    objects.  [step_h] has a step for the pull and a step for any such
    change; what is assumed of a change is that the store stays closed and
    that the objects of the initial store (the input rows, the pivot
    fields with their key mappings, the descriptor of the value column)
    are not written to.

    The theorem is a simulation in the style of a forward simulation
    diagram: a pull is matched by [Lazy.next] on the values that the frame
    stands for, a change of the store by no step at all.  Hence what the
    consumer reads, row by row at the time it gets the row, followed by
    what the generator on values has still to deliver, is the trace of
    [Rows.unpivot_rows]. *)

From stdpp Require Import base list strings relations.
From S2P Require Import Prelude Dict Values Rows Lazy Heap.

(** The locals of the suspended frame, as references. *)
Record frame_h : Type := {
  src_h : gen ref;
  cur_h : option (ref * list ref)
}.

Inductive gstate_h : Type :=
| Suspended_h (f : frame_h)
| Closed_h.

(** The generator, the store, the rows the consumer has read (each at the
    time it was returned) and how the iteration ended, if it has. *)
Record system : Type := {
  gen_of : gstate_h;
  store : heap;
  seen : list value;
  ended : option (option error)
}.

Section generator_h.
Variables (depth : nat) (fields_to_unpivot : list ref)
          (fields_to_keep : list string) (extra_value : ref).

(** The generator as [unpivot_rows(rows, ...)] returns it. *)
Definition start_h (rows : gen ref) : gstate_h :=
  Suspended_h {| src_h := rows; cur_h := None |}.

(** Lines 16-20 for [row] and [unpivot_field]: the body runs in the store
    and the frame is suspended at the [yield], or the exception closes the
    generator. *)
Definition emit_h (rows : gen ref) (row unpivot_field : ref) (rest : list ref)
    (h : heap) : response ref * gstate_h * heap :=
  match make_row_h depth row unpivot_field fields_to_keep extra_value h with
  | (Ok new_row, h') =>
      (Item new_row, Suspended_h {| src_h := rows; cur_h := Some (row, rest) |}, h')
  | (Err e, h') => (Exception e, Closed_h, h')
  end.

(** Line 14: the outer loop asks the source for the next row. *)
Fixpoint fetch_h (rows : gen ref) (h : heap) : response ref * gstate_h * heap :=
  match rows with
  | Stop => (StopIteration, Closed_h, h)
  | Raise e => (Exception e, Closed_h, h)
  | Yield row rows' =>
      match fields_to_unpivot with
      | [] => fetch_h rows' h
      | unpivot_field :: rest => emit_h rows' row unpivot_field rest h
      end
  end.

(** [next(g)] in the store [h]. *)
Definition next_h (g : gstate_h) (h : heap) : response ref * gstate_h * heap :=
  match g with
  | Closed_h => (StopIteration, Closed_h, h)
  | Suspended_h f =>
      match cur_h f with
      | Some (row, unpivot_field :: rest) =>
          emit_h (src_h f) row unpivot_field rest h
      | _ => fetch_h (src_h f) h
      end
  end.

(** ** The consumer *)

(** The depth to which a row is read, and the store in which the
    generator was created. *)
Variables (n : nat) (hb : heap).

(** What a reference stands for in [h] ([None] when it cannot be read). *)
Definition val_in (h : heap) (r : ref) : value :=
  default VNone (reify (S n) h r).

(** What the consumer reads in the answer of [next]. *)
Definition read_h (h : heap) (resp : response ref) : response value :=
  match resp with
  | Item r => Item (val_in h r)
  | StopIteration => StopIteration
  | Exception e => Exception e
  end.

Definition init_h (rows : gen ref) : system :=
  {| gen_of := start_h rows; store := hb; seen := []; ended := None |}.

(** The consumer calls [next] and reads the row it gets. *)
Definition pull_h (s : system) : system :=
  match next_h (gen_of s) (store s) with
  | (Item r, g', h') =>
      {| gen_of := g'; store := h'; seen := seen s ++ [val_in h' r];
         ended := None |}
  | (StopIteration, g', h') =>
      {| gen_of := g'; store := h'; seen := seen s; ended := Some None |}
  | (Exception e, g', h') =>
      {| gen_of := g'; store := h'; seen := seen s; ended := Some (Some e) |}
  end.

(** Anything else that happens to the store. *)
Definition write_h (h' : heap) (s : system) : system :=
  {| gen_of := gen_of s; store := h'; seen := seen s; ended := ended s |}.

Inductive step_h : system -> system -> Prop :=
| step_pull s : ended s = None -> step_h s (pull_h s)
| step_write s h' :
    hb `prefix_of` h' -> closed h' -> step_h s (write_h h' s).

(** ** Reference definitions *)

(** The frame on values that a frame of references stands for. *)
Definition abs_gen (g : gstate_h) : gstate :=
  match g with
  | Closed_h => Closed
  | Suspended_h f =>
      Suspended {| src := gen_map (val_in hb) (src_h f);
                   cur := (fun c : ref * list ref =>
                             (val_in hb c.1, val_in hb <$> c.2)) <$> cur_h f |}
  end.

(** A reference that can be read in the initial store. *)
Definition readable (r : ref) : Prop := is_Some (reify (S n) hb r).

Definition gen_ok (g : gstate_h) : Prop :=
  match g with
  | Closed_h => True
  | Suspended_h f =>
      Forall readable (gen_items (src_h f)) /\
      match cur_h f with
      | Some (row, rest) => readable row /\ Forall readable rest
      | None => True
      end
  end.

(** What the consumer has still to get. *)
Definition remaining (s : system) : gen value :=
  match ended s with
  | None =>
      trace (val_in hb <$> fields_to_unpivot) fields_to_keep
            (val_in hb extra_value) (abs_gen (gen_of s))
  | Some o => gen_close [] o
  end.

(** The invariant of the reachable states. *)
Record inv_h (rows : gen ref) (s : system) : Prop := {
  inv_h_trace :
    gen_app (gen_of_list (seen s)) (remaining s) =
    unpivot_rows (gen_map (val_in hb) rows) (val_in hb <$> fields_to_unpivot)
                 fields_to_keep (val_in hb extra_value);
  inv_h_gen : gen_ok (gen_of s);
  inv_h_store : stable hb (store s)
}.

End generator_h.

(** ** Example: the [sales] table, with a consumer that empties the first
    row it gets before it asks for the second *)

Definition ex_system (schedule : list (option heap)) : system :=
  foldl (fun s a =>
           match a with
           | None => pull_h 8 ex_pivot_refs ["region"] (RObj 7) 1 s
           | Some h' => write_h h' s
           end)
        (init_h ex_heap (gen_of_list [RObj 0])) schedule.

Definition ex_schedule : list (option heap) :=
  [None; Some ex_heap_written; None; None; None].

Arguments inv_h_trace {_ _ _ _ _ _ _ _}.
Arguments inv_h_gen {_ _ _ _ _ _ _ _}.
Arguments inv_h_store {_ _ _ _ _ _ _ _}.

(** ** One resumption is matched by [Lazy.next] *)

Section simulation.
Context (depth : nat) (ufs : list ref) (ftk : list string) (ev : ref).
Context (n : nat) (hb : heap).
Context (Hdepth : n <= depth) (Hhb : closed hb).
Context (Hufs : Forall (readable n hb) ufs) (Hev : readable n hb ev).

Lemma readable_repr r h :
  readable n hb r -> hb `prefix_of` h -> repr (S n) h r (val_in n hb r).
Proof.
  intros [v Hv] Hp. unfold val_in. rewrite Hv. simpl. by eapply repr_mono.
Qed.

Lemma val_in_repr h r v : repr (S n) h r v -> val_in n h r = v.
Proof. unfold val_in, repr. by intros ->. Qed.

Lemma emit_h_sim rows row uf rest h :
  Forall (readable n hb) (gen_items rows) -> readable n hb row ->
  readable n hb uf -> Forall (readable n hb) rest -> stable hb h ->
  match emit_h depth ftk ev rows row uf rest h with
  | (resp, g', h') =>
      emit ftk (val_in n hb ev) (gen_map (val_in n hb) rows) (val_in n hb row)
           (val_in n hb uf) (val_in n hb <$> rest) =
        (read_h n h' resp, abs_gen n hb g') /\
      gen_ok n hb g' /\ stable hb h'
  end.
Proof.
  intros Hrows Hrow Huf Hrest [Hc Hp]. unfold emit_h, emit.
  destruct (make_row_h_sim n h Hc depth row uf ftk ev (val_in n hb row)
              (val_in n hb uf) (val_in n hb ev)) as [[Hc1 Hp1] Hsim];
    [by apply readable_repr.. | done |].
  destruct (make_row_h depth row uf ftk ev h) as [[r|e] h1],
    (make_row (val_in n hb row) (val_in n hb uf) ftk (val_in n hb ev))
    as [v|e']; simpl in *; try done.
  - destruct Hsim as (_ & _ & Hr). rewrite (val_in_repr h1 r v Hr).
    split; [done|]. split; [by split_and!|]. split; [done | by etrans].
  - subst. split; [done|]. split; [done|]. split; [done | by etrans].
Qed.

Lemma fetch_h_sim rows h :
  Forall (readable n hb) (gen_items rows) -> stable hb h ->
  match fetch_h depth ufs ftk ev rows h with
  | (resp, g', h') =>
      fetch (val_in n hb <$> ufs) ftk (val_in n hb ev)
            (gen_map (val_in n hb) rows) =
        (read_h n h' resp, abs_gen n hb g') /\
      gen_ok n hb g' /\ stable hb h'
  end.
Proof.
  intros Hrows Hst. induction rows as [|row rows IH|e]; simpl; [done | | done].
  simpl in Hrows. apply Forall_cons in Hrows as [Hrow Hrows].
  destruct ufs as [|uf rest]; simpl; [by apply IH|].
  apply Forall_cons in Hufs as [Huf Hrest]. by apply emit_h_sim.
Qed.

Lemma next_h_sim g h :
  gen_ok n hb g -> stable hb h ->
  match next_h depth ufs ftk ev g h with
  | (resp, g', h') =>
      next (val_in n hb <$> ufs) ftk (val_in n hb ev) (abs_gen n hb g) =
        (read_h n h' resp, abs_gen n hb g') /\
      gen_ok n hb g' /\ stable hb h'
  end.
Proof.
  intros Hg Hst. destruct g as [[rows [[row [|uf rest]]|]]|]; simpl in *;
    [| | |done].
  - destruct Hg as [Hrows _]. by apply fetch_h_sim.
  - destruct Hg as (Hrows & Hrow & [Huf Hrest]%Forall_cons).
    by apply emit_h_sim.
  - destruct Hg as [Hrows _]. by apply fetch_h_sim.
Qed.

(** ** The invariant *)

Lemma inv_h_init rows :
  Forall (readable n hb) (gen_items rows) ->
  inv_h ufs ftk ev n hb rows (init_h hb rows).
Proof. intros Hrows. split; simpl; [done | done | by apply stable_refl]. Qed.

Lemma inv_h_pull rows s :
  inv_h ufs ftk ev n hb rows s -> ended s = None ->
  inv_h ufs ftk ev n hb rows (pull_h depth ufs ftk ev n s).
Proof.
  intros [Htr Hg Hst] Hended. unfold remaining in Htr. rewrite Hended in Htr.
  unfold pull_h. pose proof (next_h_sim (gen_of s) (store s) Hg Hst) as Hsim.
  destruct (next_h depth ufs ftk ev (gen_of s) (store s)) as [[resp g'] h'].
  destruct Hsim as (Hnext & Hg' & Hst').
  pose proof (next_answers (val_in n hb <$> ufs) ftk (val_in n hb ev)
                (abs_gen n hb (gen_of s))) as Hans.
  rewrite Hnext in Hans. unfold answers in Hans. simpl in Hans.
  destruct resp as [r| |e]; simpl in Hans; split; simpl; try done.
  - unfold remaining. simpl. by rewrite gen_app_snoc, <- Hans.
  - unfold remaining. simpl. destruct Hans as [Hans _]. by rewrite <- Hans.
  - unfold remaining. simpl. destruct Hans as [Hans _]. by rewrite <- Hans.
Qed.

Lemma inv_h_step rows s s' :
  inv_h ufs ftk ev n hb rows s -> step_h depth ufs ftk ev n hb s s' ->
  inv_h ufs ftk ev n hb rows s'.
Proof.
  intros Hinv Hstep.
  inversion Hstep as [s0 Hended|s0 h' Hp Hc]; subst; [by apply inv_h_pull|].
  destruct Hinv as [Htr Hg Hst]. by split.
Qed.

Lemma inv_h_reachable rows s :
  Forall (readable n hb) (gen_items rows) ->
  rtc (step_h depth ufs ftk ev n hb) (init_h hb rows) s ->
  inv_h ufs ftk ev n hb rows s.
Proof.
  intros Hrows. revert s. apply rtc_ind_r; [by apply inv_h_init|].
  intros s s' _ Hstep Hinv. by eapply inv_h_step.
Qed.

End simulation.

(** ** The theorem *)

(** C18: a consumer that writes to the store between its pulls reads the
    rows of the value model.  The generator is created in a closed store
    in which its arguments can be read.  Then, whatever the consumer and
    others do to the store between two calls of [next], as long as the
    store stays closed and the objects of the initial store are not
    written to, the rows the consumer has read, each at the time [next]
    returned it, followed by what the generator on values has still to
    deliver from the frame, are the trace of [unpivot_rows] on the values
    of the arguments; when the iteration has ended, the consumer has read
    the whole trace and has seen how it ends. *)
Theorem consumer_reads_trace depth ufs ftk ev n hb rows s :
  n <= depth -> closed hb -> Forall (readable n hb) (gen_items rows) ->
  Forall (readable n hb) ufs -> readable n hb ev ->
  rtc (step_h depth ufs ftk ev n hb) (init_h hb rows) s ->
  gen_app (gen_of_list (seen s)) (remaining ufs ftk ev n hb s) =
    unpivot_rows (gen_map (val_in n hb) rows) (val_in n hb <$> ufs) ftk
                 (val_in n hb ev) /\
  (forall o, ended s = Some o ->
     unpivot_rows (gen_map (val_in n hb) rows) (val_in n hb <$> ufs) ftk
                  (val_in n hb ev) = gen_close (seen s) o) /\
  closed (store s) /\ hb `prefix_of` store s.
Proof.
  intros Hd Hc Hrows Hufs Hev Hs.
  destruct (inv_h_reachable depth ufs ftk ev n hb Hd Hc Hufs Hev rows s Hrows Hs)
    as [Htr _ [Hc' Hp]].
  split_and!; [done | | done..].
  intros o Ho. rewrite <- Htr. unfold remaining. rewrite Ho.
  rewrite <- (app_nil_r (seen s)) at 2. by rewrite gen_close_app.
Qed.

(** ** The theorem at the [sales] table *)

Lemma ex_system_reachable :
  rtc (step_h 8 ex_pivot_refs ["region"] (RObj 7) 1 ex_heap)
      (init_h ex_heap (gen_of_list [RObj 0])) (ex_system ex_schedule).
Proof.
  unfold ex_system, ex_schedule. cbn [foldl].
  do 3 (eapply rtc_r; [|apply step_pull; by vm_compute]).
  eapply rtc_r; [|apply step_write; by_compute].
  eapply rtc_r; [|apply step_pull; by vm_compute].
  apply rtc_refl.
Defined.

Lemma consumer_reads_trace_witness :
  gen_app (gen_of_list (seen (ex_system ex_schedule)))
          (remaining ex_pivot_refs ["region"] (RObj 7) 1 ex_heap
                     (ex_system ex_schedule)) =
    unpivot_rows (gen_map (val_in 1 ex_heap) (gen_of_list [RObj 0]))
                 (val_in 1 ex_heap <$> ex_pivot_refs) ["region"]
                 (val_in 1 ex_heap (RObj 7)) /\
  (forall o, ended (ex_system ex_schedule) = Some o ->
     unpivot_rows (gen_map (val_in 1 ex_heap) (gen_of_list [RObj 0]))
                  (val_in 1 ex_heap <$> ex_pivot_refs) ["region"]
                  (val_in 1 ex_heap (RObj 7)) =
     gen_close (seen (ex_system ex_schedule)) o) /\
  closed (store (ex_system ex_schedule)) /\
  ex_heap `prefix_of` store (ex_system ex_schedule).
Proof.
  apply (consumer_reads_trace 8 ex_pivot_refs ["region"] (RObj 7) 1 ex_heap
           (gen_of_list [RObj 0]) (ex_system ex_schedule));
    [lia | by_compute | repeat constructor; by eexists..
    | apply ex_system_reachable].
Defined.
