(* ===== verification/Schema.v ===== *)
(** * The schema resolver

    The first loop of [func] (lines 28-64 of [unpivot.py]).  For every
    selected table that has a schema, every unpivot specification in turn
    splits the current field list into the fields whose name fully matches
    its pattern and the others ([resolve_spec], lines 39-59); each matched
    field gets its resolved [keys] ([pivot_field], lines 49-59, with the
    loop over the key templates [resolve_keys_step], lines 52-58) and is
    appended to [unpivot_fields_without_regex]; the fields left over are
    the kept fields, and the schema becomes kept fields, extra keys, extra
    value ([resolve_resource], lines 29-64).  The two locals that the
    second loop of [func] reads are the [resolver_state]. *)

From stdpp Require Import base list strings.
From S2P Require Import Prelude Dict Values Regex Matcher Rows.

Section schema.
Context `{E : RegexEngine}.

(** Lines 54-56: a string template is substituted in the name of the field,
    any other value is kept (and the name is not looked up). *)
Definition resolve_key (field_name_re : pattern) (field_to_pivot new_val : value) :
    result value :=
  match new_val with
  | VStr template =>
      name <- field_name field_to_pivot ;;
      s <- re_sub field_name_re template name ;;
      Ok (VStr s)
  | _ => Ok new_val
  end.

(** Lines 52-58: one turn of the loop over the keys of the specification.
    The state is [new_key_values] and the field being pivoted. *)
Definition resolve_keys_step (field_name_re : pattern)
    (original_key_values : dict value) (st : dict value * value)
    (key : string) : result (dict value * value) :=
  new_val <- of_option (KeyError key) (dict_get key original_key_values) ;;
  new_val <- resolve_key field_name_re st.2 new_val ;;
  let new_key_values := dict_set key new_val st.1 in
  field_to_pivot <- setitem st.2 "keys" (VDict new_key_values) ;;
  Ok (new_key_values, field_to_pivot).

(** Lines 50-58 for one matched field. *)
Definition pivot_field (u_field : value) (field_name_re : pattern)
    (field_to_pivot : value) : result value :=
  original_key_values <- getitem u_field "keys" ;;
  original_key_values <- as_dict original_key_values ;;
  st <- foldM (resolve_keys_step field_name_re original_key_values)
              ([], field_to_pivot) (dict_keys original_key_values) ;;
  Ok st.2.

(** Lines 39-59: one specification applied to the current field list and
    the list of resolved pivot fields. *)
Definition resolve_spec (st : list value * list value) (u_field : value) :
    result (list value * list value) :=
  name <- getitem u_field "name" ;;
  name <- as_str name ;;
  field_name_re <- re_compile name ;;
  fields_to_pivot <- filterM (match_fields field_name_re true) st.1 ;;
  fields <- filterM (match_fields field_name_re false) st.1 ;;
  pivoted <- mapM (pivot_field u_field field_name_re) fields_to_pivot ;;
  Ok (fields, st.2 ++ pivoted).

Record resolver_state : Type := {
  unpivot_fields_without_regex : list value;
  fields_to_keep : option (list string)
}.

Definition initial_state : resolver_state :=
  {| unpivot_fields_without_regex := []; fields_to_keep := None |}.

(** Lines 29-64: the body of the loop over the table descriptors. *)
Definition resolve_resource (m : matcher) (unpivot_fields extra_keys : list value)
    (extra_value : value) (st : resolver_state) (resource : value) :
    result (value * resolver_state) :=
  name <- getitem resource "name" ;;
  name <- as_str name ;;
  if negb (matcher_match m name) then Ok (resource, st) else
  schema <- get resource "schema" VNone ;;
  if is_none schema then Ok (resource, st) else
  fields <- get schema "fields" (VList []) ;;
  fields <- as_list fields ;;
  p <- foldM resolve_spec (fields, unpivot_fields_without_regex st)
             unpivot_fields ;;
  kept <- mapM field_name p.1 ;;
  schema <- setitem schema "fields" (VList (p.1 ++ extra_keys ++ [extra_value])) ;;
  resource <- setitem resource "schema" schema ;;
  Ok (resource, {| unpivot_fields_without_regex := p.2;
                   fields_to_keep := Some kept |}).

(** Lines 29-64: the loop. *)
Fixpoint resolve_resources (m : matcher) (unpivot_fields extra_keys : list value)
    (extra_value : value) (st : resolver_state) (resources : list value) :
    result (list value * resolver_state) :=
  match resources with
  | [] => Ok ([], st)
  | resource :: resources' =>
      p <- resolve_resource m unpivot_fields extra_keys extra_value st resource ;;
      q <- resolve_resources m unpivot_fields extra_keys extra_value p.2 resources' ;;
      Ok (p.1 :: q.1, q.2)
  end.

(** Lines 28-64 on the package descriptor. *)
Definition schema_pass (m : matcher) (unpivot_fields extra_keys : list value)
    (extra_value : value) (descriptor : value) :
    result (value * resolver_state) :=
  resources <- getitem descriptor "resources" ;;
  resources <- as_list resources ;;
  p <- resolve_resources m unpivot_fields extra_keys extra_value
         initial_state resources ;;
  descriptor <- setitem descriptor "resources" (VList p.1) ;;
  Ok (descriptor, p.2).

(** ** Reference definitions *)

(** The field's name is a string that the pattern fully matches. *)
Definition name_matches (re : pattern) (field : value) : bool :=
  match field_name field with
  | Ok n => re_fullmatch re n
  | Err _ => false
  end.

(** A field descriptor: a dictionary with a string under ["name"]. *)
Definition is_field (field : value) : bool := is_ok (field_name field).

(** One key value of a specification resolved for the field named [name]. *)
Definition sub_key (re : pattern) (name : string) (new_val : value) : result value :=
  match new_val with
  | VStr template => s <- re_sub re template name ;; Ok (VStr s)
  | _ => Ok new_val
  end.

(** The keys of a specification resolved for the field named [name]. *)
Definition resolved_keys (re : pattern) (name : string) (original : dict value) :
    result (dict value) :=
  mapM (fun kv => v <- sub_key re name kv.2 ;; Ok (kv.1, v)) original.

(** Every key template of the specification can be substituted for the
    field. *)
Definition can_pivot (re : pattern) (original : dict value) (field : value) : bool :=
  match field_name field with
  | Ok n => is_ok (resolved_keys re n original)
  | Err _ => false
  end.

(** The compiled pattern of a specification (line 40). *)
Definition compile_spec (u_field : value) : result pattern :=
  name <- getitem u_field "name" ;; name <- as_str name ;; re_compile name.

(** A specification the resolver can apply to the fields of a table: its
    pattern compiles, its keys are a non-empty well-formed mapping, and
    every key template can be substituted for every field it matches. *)
Definition spec_okb (fields : list value) (u_field : value) : bool :=
  match compile_spec u_field, (k <- getitem u_field "keys" ;; as_dict k) with
  | Ok re, Ok original =>
      bool_decide (dict_wf original) && bool_decide (original <> []) &&
      forallb (fun f => implb (name_matches re f) (can_pivot re original f)) fields
  | _, _ => false
  end.

(** A table descriptor the resolver can process: it has a name, and its
    schema, when it has one, lists fields that all have a name and to which
    every specification can be applied. *)
Definition resource_okb (unpivot_fields : list value) (resource : value) : bool :=
  match resource with
  | VDict rd =>
      match dict_get "name" rd, dict_get "schema" rd with
      | Some (VStr _), (None | Some VNone) => true
      | Some (VStr _), Some (VDict sd) =>
          match default (VList []) (dict_get "fields" sd) with
          | VList fields =>
              forallb is_field fields &&
              forallb (spec_okb fields) unpivot_fields
          | _ => false
          end
      | _, _ => false
      end
  | _ => false
  end.

(** The names of the fields that have one (line 61 on well-formed fields). *)
Definition field_names (fields : list value) : list string :=
  omap (fun f => match field_name f with Ok n => Some n | Err _ => None end)
       fields.

(** The field is called [n]. *)
Definition has_name (n : string) (field : value) : bool :=
  bool_decide (field_name field = Ok n).

(** The field with [keys] stored under ["keys"] (line 58). *)
Definition with_keys (keys : dict value) (field : value) : value :=
  match field with
  | VDict fd => VDict (dict_set "keys" (VDict keys) fd)
  | _ => field
  end.

(** The string values of a key mapping are templates without
    back-references. *)
Definition plain_keys (original : dict value) : bool :=
  forallb (fun kv => match kv.2 with VStr t => plain_template t | _ => true end)
          original.

(** The fields that no pattern matches. *)
Definition kept_fields (res : list pattern) (fields : list value) : list value :=
  List.filter (fun f => negb (existsb (fun re => name_matches re f) res)) fields.

(** The names of the pivoted fields in the order the resolver records
    them: specification by specification, each on the fields the earlier
    ones left. *)
Fixpoint pivot_names (res : list pattern) (fields : list value) :
    list (result string) :=
  match res with
  | [] => []
  | re :: res' =>
      map field_name (List.filter (name_matches re) fields) ++
      pivot_names res' (List.filter (fun f => negb (name_matches re f)) fields)
  end.

End schema.

(** ** Example data: the descriptors of the [sales] scenario

    The table [sales] with the columns [region], [q1], [q2], [q3], one
    specification per quarter column (literal names, so that the literal
    engine resolves them), the extra key [quarter], and the descriptors the
    resolver produces. *)

Definition ex_field (name : string) : value :=
  VDict [("name", VStr name); ("type", VStr "integer")].

Definition ex_spec (name quarter : string) : value :=
  VDict [("name", VStr name); ("keys", VDict [("quarter", VStr quarter)])].

Definition ex_specs : list value :=
  [ex_spec "q1" "1"; ex_spec "q2" "2"; ex_spec "q3" "3"].

Definition ex_fields (names : list string) : list value := map ex_field names.

Definition ex_schema (fields : list string) : dict value :=
  [("fields", VList (ex_fields fields))].

Definition ex_table_dict (name : string) (fields : list string) : dict value :=
  [("name", VStr name); ("schema", VDict (ex_schema fields))].

Definition ex_table (name : string) (fields : list string) : value :=
  VDict (ex_table_dict name fields).

Definition ex_sales : value := ex_table "sales" ["region"; "q1"; "q2"; "q3"].

Definition ex_other : value := ex_table "other" ["country"; "q1"].

Definition ex_raw : value := VDict [("name", VStr "raw")].

Definition ex_descriptor (tables : list value) : value :=
  VDict [("name", VStr "pkg"); ("resources", VList tables)].

Definition ex_quarter : value := ex_field "quarter".

(** The compiled patterns of the specifications, for the literal engine. *)
Definition ex_re (p : string) : @pattern literal_engine := p.

Definition ex_res : list (@pattern literal_engine) := ["q1"; "q2"; "q3"].

(** A resolved pivot field of the scenario. *)
Definition ex_pivoted (name quarter : string) : value :=
  VDict [("name", VStr name); ("type", VStr "integer");
         ("keys", VDict [("quarter", VStr quarter)])].

Definition ex_long_schema (table first_field : string) : value :=
  VDict [("name", VStr table);
         ("schema", VDict [("fields",
            VList [ex_field first_field; ex_quarter; ex_amount])])].

Section schema_facts.
Context `{E : RegexEngine}.

(** ** Fields and their names *)

Lemma is_field_name field : is_field field = true <-> exists n, field_name field = Ok n.
Proof. apply is_ok_true. Qed.

Lemma name_matches_field re field n :
  field_name field = Ok n -> name_matches re field = re_fullmatch re n.
Proof. unfold name_matches. by intros ->. Qed.

Lemma match_fields_field re expected field :
  is_field field = true ->
  match_fields re expected field = Ok (Bool.eqb (name_matches re field) expected).
Proof.
  intros [n Hn]%is_field_name. unfold match_fields, name_matches.
  by rewrite Hn.
Qed.

Lemma filterM_match_fields re expected fields :
  Forall (fun f => is_field f = true) fields ->
  filterM (match_fields re expected) fields =
  Ok (List.filter (fun f => Bool.eqb (name_matches re f) expected) fields).
Proof.
  intros H. apply filterM_total. eapply Forall_impl; [done|].
  intros f Hf. by apply match_fields_field.
Qed.

Lemma field_name_set_keys fd x :
  field_name (VDict (dict_set "keys" x fd)) = field_name (VDict fd).
Proof. unfold field_name. simpl. by rewrite dict_get_set_ne. Qed.

(** ** The loop over the keys *)

Lemma resolve_key_sub_key re fd n v :
  dict_get "name" fd = Some (VStr n) ->
  resolve_key re (VDict fd) v = sub_key re n v.
Proof.
  intros Hn. destruct v; try done. unfold resolve_key, field_name. simpl.
  by rewrite Hn.
Qed.

Lemma resolve_keys_fold re original n items acc fd :
  (forall k v, (k, v) ∈ items -> dict_get k original = Some v) ->
  dict_get "name" fd = Some (VStr n) ->
  foldM (resolve_keys_step re original) (acc, VDict fd) (dict_keys items) =
  (rk <- resolved_keys re n items ;;
   Ok (dict_set_all rk acc,
       VDict (match items with
              | [] => fd
              | _ => dict_set "keys" (VDict (dict_set_all rk acc)) fd
              end))).
Proof.
  revert acc fd. induction items as [|[k v] items IH]; intros acc fd Hin Hn;
    [done|].
  cbn [dict_keys fmap list_fmap fst foldM]. unfold resolve_keys_step at 1.
  rewrite (Hin k v) by left. cbn [of_option rbind snd fst].
  rewrite (resolve_key_sub_key re fd n) by done.
  unfold resolved_keys. cbn [mapM snd fst].
  destruct (sub_key re n v) as [v'|e]; cbn [rbind setitem]; [|done].
  fold (dict_keys items). rewrite IH; first last.
  - by rewrite dict_get_set_ne.
  - intros k0 v0 Hk0. apply Hin. by right.
  - fold (resolved_keys re n items). clear IH.
    destruct items as [|kv items]; [done|].
    destruct (resolved_keys re n (kv :: items)) as [rk|e]; cbn [rbind]; [|done].
    by rewrite dict_set_all_cons, dict_set_set.
Qed.

Lemma resolved_keys_keys re n original rk :
  resolved_keys re n original = Ok rk -> dict_keys rk = dict_keys original.
Proof.
  unfold resolved_keys, dict_keys. revert rk.
  induction original as [|[k v] original IH]; intros rk H; simpl in *;
    rsimpl; [done|]. f_equal. by apply IH.
Qed.

Lemma resolved_keys_lookup re n original rk k v :
  resolved_keys re n original = Ok rk -> dict_get k original = Some v ->
  exists v', sub_key re n v = Ok v' /\ dict_get k rk = Some v'.
Proof.
  unfold resolved_keys. revert rk.
  induction original as [|[k0 v0] original IH]; intros rk H Hk; simpl in *;
    [done|]. rsimpl. case_decide; simplify_eq; eauto.
Qed.

Lemma resolved_keys_total re n original :
  Forall (fun kv => is_ok (sub_key re n kv.2) = true) original ->
  exists rk, resolved_keys re n original = Ok rk.
Proof.
  unfold resolved_keys. induction 1 as [|[k v] original Hv _ [rk IH]]; simpl;
    [eauto|]. simpl in Hv. apply is_ok_true in Hv as [v' ->]. simpl.
  rewrite IH. simpl. eauto.
Qed.

Lemma resolved_keys_wf re n original rk :
  resolved_keys re n original = Ok rk -> dict_wf original -> dict_wf rk.
Proof. unfold dict_wf. by intros ->%resolved_keys_keys. Qed.

(** ** One matched field *)

Lemma pivot_field_eq u re fd n original :
  dict_get "keys" u = Some (VDict original) -> dict_wf original ->
  dict_get "name" fd = Some (VStr n) ->
  pivot_field (VDict u) re (VDict fd) =
  (rk <- resolved_keys re n original ;;
   Ok (VDict (match original with
              | [] => fd
              | _ => dict_set "keys" (VDict rk) fd
              end))).
Proof.
  intros Hk Hwf Hn. unfold pivot_field. simpl. rewrite Hk. simpl.
  rewrite (resolve_keys_fold re original n original [] fd); [|auto using dict_elem_get|done].
  destruct (resolved_keys re n original) as [rk|e] eqn:Hrk; simpl; [|done].
  rewrite (dict_set_all_fresh rk []); [done|].
  simpl. by eapply resolved_keys_wf.
Qed.

Lemma pivot_field_name u re fd n original p :
  dict_get "keys" u = Some (VDict original) -> dict_wf original ->
  dict_get "name" fd = Some (VStr n) ->
  pivot_field (VDict u) re (VDict fd) = Ok p -> field_name p = Ok n.
Proof.
  intros Hk Hwf Hn. rewrite (pivot_field_eq u re fd n original) by done.
  intros H. rsimpl. unfold field_name. simpl.
  destruct original; [by rewrite Hn | by rewrite dict_get_set_ne, Hn].
Qed.

(** ** One specification *)

Lemma filter_eqb_true {A} (p : A -> bool) l :
  List.filter (fun x => Bool.eqb (p x) true) l = List.filter p l.
Proof. apply List.filter_ext. intros x. by destruct (p x). Qed.

Lemma filter_eqb_false {A} (p : A -> bool) l :
  List.filter (fun x => Bool.eqb (p x) false) l =
  List.filter (fun x => negb (p x)) l.
Proof. apply List.filter_ext. intros x. by destruct (p x). Qed.

Lemma resolve_spec_eq u n re fields ufs :
  dict_get "name" u = Some (VStr n) -> re_compile n = Ok re ->
  Forall (fun f => is_field f = true) fields ->
  resolve_spec (fields, ufs) (VDict u) =
  (pivoted <- mapM (pivot_field (VDict u) re) (List.filter (name_matches re) fields) ;;
   Ok (List.filter (fun f => negb (name_matches re f)) fields, ufs ++ pivoted)).
Proof.
  intros Hn Hre Hf. unfold resolve_spec. simpl. rewrite Hn. simpl.
  rewrite Hre. simpl. rewrite !filterM_match_fields by done. simpl.
  by rewrite filter_eqb_true, filter_eqb_false.
Qed.

Lemma filter_matches_is_field re fields :
  Forall (fun f => is_field f = true) fields ->
  Forall (fun f => is_field f = true) (List.filter (fun f => negb (name_matches re f)) fields).
Proof.
  rewrite !Forall_forall. intros H f [Hf _]%list_elem_of_In%List.filter_In.
  by apply H, list_elem_of_In.
Qed.

Lemma filter_length_split {A} (p : A -> bool) l :
  length (List.filter (fun x => negb (p x)) l) + length (List.filter p l) = length l.
Proof. induction l as [|x l IH]; simpl; [done|]. destruct (p x); simpl; lia. Qed.

Lemma mapM_pivot_field u re original fields :
  dict_get "keys" u = Some (VDict original) -> dict_wf original ->
  Forall (fun f => can_pivot re original f = true) fields ->
  exists pivoted, mapM (pivot_field (VDict u) re) fields = Ok pivoted /\
    map field_name pivoted = map field_name fields.
Proof.
  intros Hk Hwf. induction 1 as [|f fields Hf _ (pivoted & IH & Hnames)]; simpl;
    [by exists []|].
  unfold can_pivot in Hf. destruct (field_name f) as [n|] eqn:Hn; [|done].
  apply field_name_ok in Hn as (fd & -> & Hn).
  apply is_ok_true in Hf as [rk Hrk].
  pose proof (pivot_field_eq u re fd n original Hk Hwf Hn) as Heq.
  rewrite Hrk in Heq. simpl in Heq. rewrite Heq, IH. simpl.
  eexists. split; [done|]. cbn [map]. f_equal; [|done].
  by eapply (pivot_field_name u re fd n original).
Qed.

(** One specification partitions the current field list.  With a
    valid pattern, a well-formed key mapping and fields that all have a
    name, [resolve_spec] succeeds; the kept fields are the fields whose
    name the pattern does not fully match, in their order; the resolved
    pivot fields are appended to those of the earlier specifications, one
    per matched field, in order and under the same names; no field is lost
    or duplicated. *)
Theorem resolve_spec_partition u n re original fields ufs :
  dict_get "name" u = Some (VStr n) -> re_compile n = Ok re ->
  dict_get "keys" u = Some (VDict original) -> dict_wf original ->
  Forall (fun f => is_field f = true) fields ->
  Forall (fun f => can_pivot re original f = true)
         (List.filter (name_matches re) fields) ->
  exists pivoted,
    resolve_spec (fields, ufs) (VDict u) =
      Ok (List.filter (fun f => negb (name_matches re f)) fields, ufs ++ pivoted) /\
    map field_name pivoted = map field_name (List.filter (name_matches re) fields) /\
    length (List.filter (fun f => negb (name_matches re f)) fields) + length pivoted =
      length fields.
Proof.
  intros Hn Hre Hk Hwf Hf Hp.
  destruct (mapM_pivot_field u re original _ Hk Hwf Hp) as (pivoted & Hm & Hnames).
  exists pivoted. rewrite (resolve_spec_eq u n re) by done. rewrite Hm.
  split; [done|]. split; [done|].
  rewrite <- (filter_length_split (name_matches re) fields). f_equal.
  by rewrite <- (length_map field_name), Hnames, length_map.
Qed.

(** A field consumed by a specification is gone: after a
    successful [resolve_spec] no kept field matches its pattern, and
    applying the same specification again changes nothing. *)
Theorem resolve_spec_consumed u n re st st' :
  dict_get "name" u = Some (VStr n) -> re_compile n = Ok re ->
  Forall (fun f => is_field f = true) st.1 ->
  resolve_spec st (VDict u) = Ok st' ->
  Forall (fun f => name_matches re f = false) st'.1 /\
  resolve_spec st' (VDict u) = Ok st'.
Proof.
  destruct st as [fields ufs], st' as [fields' ufs']. simpl.
  intros Hn Hre Hf. rewrite (resolve_spec_eq u n re) by done.
  intros H. rsimpl.
  assert (Hnone : Forall (fun f => name_matches re f = false)
            (List.filter (fun f => negb (name_matches re f)) fields)).
  { apply Forall_forall. intros f [_ Hm]%list_elem_of_In%List.filter_In.
    by apply negb_true_iff. }
  split; [done|].
  rewrite (resolve_spec_eq u n re) by auto using filter_matches_is_field.
  assert (Hnil : List.filter (name_matches re)
            (List.filter (fun f => negb (name_matches re f)) fields) = []).
  { induction Hnone as [|f l Hfalse _ IH]; simpl; [done | by rewrite Hfalse]. }
  rewrite Hnil. simpl. rewrite app_nil_r. do 2 f_equal.
  clear -Hnone. induction Hnone as [|f l Hfalse _ IH]; simpl; [done|].
  rewrite Hfalse. simpl. by f_equal.
Qed.

(** C25: the resolved keys.  For a specification with at least one
    key, [pivot_field] stores under ["keys"] a mapping with exactly the key
    names of the specification, in their order, in which every value is the
    value of the specification resolved for the field ([sub_key]): a string is
    the result of [re.sub] on the field name, any other value is itself. *)
Theorem pivot_field_resolved u re fd n original :
  dict_get "keys" u = Some (VDict original) -> dict_wf original ->
  original <> [] ->
  dict_get "name" fd = Some (VStr n) ->
  can_pivot re original (VDict fd) = true ->
  exists rk,
    pivot_field (VDict u) re (VDict fd) = Ok (VDict (dict_set "keys" (VDict rk) fd)) /\
    dict_keys rk = dict_keys original /\
    forall k v, dict_get k original = Some v ->
      exists v', sub_key re n v = Ok v' /\ dict_get k rk = Some v'.
Proof.
  intros Hk Hwf Hne Hn Hp. unfold can_pivot in Hp.
  rewrite (proj2 (field_name_ok (VDict fd) n)) in Hp by eauto.
  apply is_ok_true in Hp as [rk Hrk]. exists rk.
  rewrite (pivot_field_eq u re fd n original) by done. rewrite Hrk. simpl.
  split; [by destruct original|].
  split; [by eapply resolved_keys_keys|].
  intros k v Hv. by eapply resolved_keys_lookup.
Qed.

(** A specification whose key mapping is empty leaves the
    matched field as it is: no ["keys"] entry is stored (the assignment of
    line 58 is inside the loop over the keys). *)
Theorem pivot_field_empty_keys u re field :
  dict_get "keys" u = Some (VDict []) ->
  pivot_field (VDict u) re field = Ok field.
Proof. intros Hk. unfold pivot_field. simpl. by rewrite Hk. Qed.

(** ** All the specifications on one field list *)

Lemma spec_okb_inv fields u :
  spec_okb fields u = true ->
  exists ud n re original,
    u = VDict ud /\ dict_get "name" ud = Some (VStr n) /\ re_compile n = Ok re /\
    compile_spec u = Ok re /\
    dict_get "keys" ud = Some (VDict original) /\ dict_wf original /\
    original <> [] /\
    Forall (fun f => name_matches re f = true -> can_pivot re original f = true) fields.
Proof.
  unfold spec_okb. destruct (compile_spec u) as [re|] eqn:Hc; [|done].
  destruct (k <- getitem u "keys" ;; as_dict k) as [original|] eqn:Hk; [|done].
  intros [[Hwf Hne]%andb_true_iff Hall]%andb_true_iff.
  apply bool_decide_eq_true in Hwf, Hne.
  unfold compile_spec in Hc.
  apply rbind_ok in Hk as (y & (ud & -> & Hk)%getitem_ok & Hy).
  apply rbind_ok in Hc as (x & (? & ? & Hn)%getitem_ok & Hc).
  apply rbind_ok in Hc as (n & Hx & Hc). destruct x, y; simplify_eq/=.
  eexists _, n, re, original. repeat split; try done.
  apply Forall_forall. intros f Hf%list_elem_of_In Hm.
  rewrite forallb_forall in Hall. specialize (Hall f Hf).
  by rewrite Hm in Hall.
Qed.

Lemma spec_okb_filter p fields u :
  spec_okb fields u = true -> spec_okb (List.filter p fields) u = true.
Proof.
  unfold spec_okb. destruct (compile_spec u); [|done].
  destruct (k <- getitem u "keys" ;; as_dict k); [|done].
  intros [H1 H2]%andb_true_iff. apply andb_true_iff. split; [done|].
  rewrite forallb_forall in *. intros f [Hf _]%List.filter_In. auto.
Qed.

Lemma kept_fields_cons re res fields :
  kept_fields (re :: res) fields =
  kept_fields res (List.filter (fun f => negb (name_matches re f)) fields).
Proof.
  unfold kept_fields. induction fields as [|f fields IH]; simpl in *; [done|].
  destruct (name_matches re f); simpl; [done|].
  destruct (existsb _ res); simpl; by rewrite IH.
Qed.

Lemma pivot_field_pivot_ok u re fd n original p :
  dict_get "keys" u = Some (VDict original) -> dict_wf original ->
  original <> [] -> dict_get "name" fd = Some (VStr n) ->
  pivot_field (VDict u) re (VDict fd) = Ok p -> pivot_ok p.
Proof.
  intros Hk Hwf Hne Hn. rewrite (pivot_field_eq u re fd n original) by done.
  intros H. rsimpl. destruct original; [done|].
  eexists _, n, _. split; [done|].
  by rewrite dict_get_set_ne, dict_get_set_eq.
Qed.

Lemma mapM_pivot_field_ok u re original fields pivoted :
  dict_get "keys" u = Some (VDict original) -> dict_wf original ->
  original <> [] -> Forall (fun f => is_field f = true) fields ->
  mapM (pivot_field (VDict u) re) fields = Ok pivoted -> Forall pivot_ok pivoted.
Proof.
  intros Hk Hwf Hne Hf. revert pivoted.
  induction Hf as [|f fields Hfld _ IH]; intros pivoted H; simpl in *; rsimpl;
    constructor; [|by apply IH].
  apply is_field_name in Hfld as [n (fd & -> & Hn)%field_name_ok].
  by eapply pivot_field_pivot_ok.
Qed.

Lemma kept_fields_nil fields : kept_fields [] fields = fields.
Proof.
  unfold kept_fields. simpl. by apply forallb_filter_id, forallb_forall.
Qed.

(** One applicable specification: the step of the loop, with the shape of
    what it appends. *)
Lemma resolve_spec_ok fields ufs u re :
  Forall (fun f => is_field f = true) fields ->
  spec_okb fields u = true -> compile_spec u = Ok re ->
  exists pivoted,
    resolve_spec (fields, ufs) u =
      Ok (List.filter (fun f => negb (name_matches re f)) fields, ufs ++ pivoted) /\
    map field_name pivoted = map field_name (List.filter (name_matches re) fields) /\
    Forall pivot_ok pivoted.
Proof.
  intros Hf Hu Hre.
  destruct (spec_okb_inv _ _ Hu)
    as (ud & n & re' & original & -> & Hn & Hc & Hcs & Hk & Hwf & Hne & Hp).
  rewrite Hcs in Hre. simplify_eq.
  destruct (mapM_pivot_field ud re original (List.filter (name_matches re) fields))
    as (pivoted & Hm & Hnames); try done.
  { apply Forall_forall. intros f [Hin Hm]%list_elem_of_In%List.filter_In.
    rewrite Forall_forall in Hp. by apply Hp; [apply list_elem_of_In|]. }
  exists pivoted. rewrite (resolve_spec_eq ud n re), Hm by done.
  split; [done|]. split; [done|].
  eapply (mapM_pivot_field_ok ud re original); [done..| |done].
  rewrite !Forall_forall in *. intros f [Hin _]%list_elem_of_In%List.filter_In.
  by apply Hf, list_elem_of_In.
Qed.

Lemma resolve_specs_fold specs res fields ufs :
  Forall (fun f => is_field f = true) fields ->
  Forall (fun u => spec_okb fields u = true) specs ->
  mapM compile_spec specs = Ok res ->
  exists pivoted,
    foldM resolve_spec (fields, ufs) specs = Ok (kept_fields res fields, ufs ++ pivoted) /\
    map field_name pivoted = pivot_names res fields /\
    Forall pivot_ok pivoted.
Proof.
  revert res fields ufs.
  induction specs as [|u specs IH]; intros res fields ufs Hf Hspecs Hres.
  { simpl in *. simplify_eq. exists []. by rewrite app_nil_r, kept_fields_nil. }
  apply Forall_cons in Hspecs as [Hu Hspecs].
  simpl in Hres. apply rbind_ok in Hres as (re & Hre & Hres).
  apply rbind_ok in Hres as (res' & Hres' & ?). simplify_eq.
  destruct (resolve_spec_ok fields ufs u re) as (piv1 & Heq & Hnames & Hok1);
    try done.
  cbn [foldM]. rewrite Heq. cbn [rbind].
  destruct (IH res' (List.filter (fun f => negb (name_matches re f)) fields)
              (ufs ++ piv1)) as (piv2 & Heq2 & Hnames2 & Hok2).
  - by apply filter_matches_is_field.
  - eapply Forall_impl; [done|]. intros u' Hu'. by apply spec_okb_filter.
  - done.
  - exists (piv1 ++ piv2). rewrite Heq2, kept_fields_cons, app_assoc.
    split; [done|]. split; [|by apply Forall_app].
    by rewrite map_app, Hnames, Hnames2.
Qed.

(** C7: the resolver on one field list.  With specifications that
    can be applied, the loop over the specifications succeeds; the fields
    kept are those that no pattern matches, in their order; the resolved
    pivot fields are appended to the ones already recorded, specification
    by specification, each taking the fields the earlier ones left, and
    every one of them has a name and a key mapping. *)
Theorem resolve_specs_correct specs res fields ufs :
  Forall (fun f => is_field f = true) fields ->
  Forall (fun u => spec_okb fields u = true) specs ->
  mapM compile_spec specs = Ok res ->
  exists pivoted,
    foldM resolve_spec (fields, ufs) specs = Ok (kept_fields res fields, ufs ++ pivoted) /\
    map field_name pivoted = pivot_names res fields /\
    Forall pivot_ok pivoted.
Proof. apply resolve_specs_fold. Qed.

(** ** One table *)

Lemma mapM_field_name fields :
  Forall (fun f => is_field f = true) fields ->
  mapM field_name fields = Ok (field_names fields).
Proof.
  unfold field_names.
  induction 1 as [|f fields [n Hn]%is_field_name _ IH]; simpl; [done|].
  by rewrite Hn, IH.
Qed.

Lemma field_names_length fields :
  Forall (fun f => is_field f = true) fields ->
  length (field_names fields) = length fields.
Proof. intros H%mapM_field_name%mapM_ok_length. done. Qed.

Lemma kept_fields_is_field res fields :
  Forall (fun f => is_field f = true) fields ->
  Forall (fun f => is_field f = true) (kept_fields res fields).
Proof.
  rewrite !Forall_forall. intros H f [Hf _]%list_elem_of_In%List.filter_In.
  by apply H, list_elem_of_In.
Qed.

Lemma resolve_resource_untouched m specs eks ev st rd name :
  dict_get "name" rd = Some (VStr name) ->
  matcher_match m name = false \/ default VNone (dict_get "schema" rd) = VNone ->
  resolve_resource m specs eks ev st (VDict rd) = Ok (VDict rd, st).
Proof.
  intros Hn H. unfold resolve_resource. simpl. rewrite Hn. simpl.
  destruct (matcher_match m name); simpl; [|done].
  destruct H as [?|H]; [done|].
  by destruct (dict_get "schema" rd); simpl in *; subst.
Qed.

Lemma resolve_resource_selected m specs res eks ev st rd name sd fields :
  dict_get "name" rd = Some (VStr name) -> matcher_match m name = true ->
  dict_get "schema" rd = Some (VDict sd) ->
  default (VList []) (dict_get "fields" sd) = VList fields ->
  Forall (fun f => is_field f = true) fields ->
  Forall (fun u => spec_okb fields u = true) specs ->
  mapM compile_spec specs = Ok res ->
  exists pivoted,
    resolve_resource m specs eks ev st (VDict rd) =
      Ok (VDict (dict_set "schema"
                   (VDict (dict_set "fields"
                             (VList (kept_fields res fields ++ eks ++ [ev])) sd)) rd),
          {| unpivot_fields_without_regex :=
               unpivot_fields_without_regex st ++ pivoted;
             fields_to_keep := Some (field_names (kept_fields res fields)) |}) /\
    map field_name pivoted = pivot_names res fields /\
    Forall pivot_ok pivoted.
Proof.
  intros Hn Hm Hs Hfs Hf Hspecs Hres.
  destruct (resolve_specs_fold specs res fields
              (unpivot_fields_without_regex st) Hf Hspecs Hres)
    as (pivoted & Heq & Hnames & Hok).
  exists pivoted. split; [|done].
  unfold resolve_resource. simpl. rewrite Hn. simpl. rewrite Hm, Hs. simpl.
  rewrite Hfs. simpl. rewrite Heq. simpl.
  by rewrite mapM_field_name by (by apply kept_fields_is_field).
Qed.

(** A table that is not selected, or that has no schema (the
    entry is missing or [None]), is left as it is, and so are the resolved
    pivot fields and the kept fields recorded so far. *)
Theorem resolve_resource_skip m specs eks ev st rd name :
  dict_get "name" rd = Some (VStr name) ->
  matcher_match m name = false \/ default VNone (dict_get "schema" rd) = VNone ->
  resolve_resource m specs eks ev st (VDict rd) = Ok (VDict rd, st).
Proof. apply resolve_resource_untouched. Qed.

(** C5: a selected table with a schema.  With specifications that
    can be applied, the schema's field list becomes the kept fields (those
    no pattern matches, with their own descriptors), then the extra keys,
    then the extra value; every other entry of the table descriptor and of
    the schema is untouched; [fields_to_keep] becomes the names of the
    kept fields, and the resolved pivot fields of this table are appended
    to [unpivot_fields_without_regex]. *)
Theorem resolve_resource_schema m specs res eks ev st rd name sd fields :
  dict_get "name" rd = Some (VStr name) -> matcher_match m name = true ->
  dict_get "schema" rd = Some (VDict sd) ->
  default (VList []) (dict_get "fields" sd) = VList fields ->
  Forall (fun f => is_field f = true) fields ->
  Forall (fun u => spec_okb fields u = true) specs ->
  mapM compile_spec specs = Ok res ->
  exists pivoted,
    resolve_resource m specs eks ev st (VDict rd) =
      Ok (VDict (dict_set "schema"
                   (VDict (dict_set "fields"
                             (VList (kept_fields res fields ++ eks ++ [ev])) sd)) rd),
          {| unpivot_fields_without_regex :=
               unpivot_fields_without_regex st ++ pivoted;
             fields_to_keep := Some (field_names (kept_fields res fields)) |}) /\
    map field_name pivoted = pivot_names res fields /\
    Forall pivot_ok pivoted.
Proof. apply resolve_resource_selected. Qed.

(** ** The whole descriptor *)

Lemma resolve_spec_prefix st u st' :
  resolve_spec st u = Ok st' -> st.2 `prefix_of` st'.2.
Proof. unfold resolve_spec. intros H. rsimpl. by eexists. Qed.

Lemma resolve_specs_prefix specs st st' :
  foldM resolve_spec st specs = Ok st' -> st.2 `prefix_of` st'.2.
Proof.
  revert st. induction specs as [|u specs IH]; intros st H; simpl in *;
    rsimpl; [done|].
  etrans; [by eapply resolve_spec_prefix | by apply IH].
Qed.

Lemma resolve_resource_inv m specs eks ev st r r' st' :
  resolve_resource m specs eks ev st r = Ok (r', st') ->
  (forall k, k <> "schema" -> getitem r' k = getitem r k) /\
  unpivot_fields_without_regex st `prefix_of` unpivot_fields_without_regex st'.
Proof.
  unfold resolve_resource. intros H.
  apply rbind_ok in H as (x & Hx & H). apply rbind_ok in H as (name & _ & H).
  destruct (matcher_match m name); simpl in H; [|by simplify_eq].
  apply rbind_ok in H as (schema & _ & H).
  destruct (is_none schema); [by simplify_eq|].
  apply rbind_ok in H as (y & _ & H). apply rbind_ok in H as (fields & _ & H).
  apply rbind_ok in H as (p & Hp%resolve_specs_prefix & H).
  apply rbind_ok in H as (kept & _ & H). apply rbind_ok in H as (s' & _ & H).
  apply rbind_ok in H as (r0 & Hr0 & H). simplify_eq. split; [|done].
  intros k Hk. by eapply getitem_setitem_ne.
Qed.

Lemma resolve_resources_inv m specs eks ev st rs rs' st' :
  resolve_resources m specs eks ev st rs = Ok (rs', st') ->
  Forall2 (fun r r' => forall k, k <> "schema" -> getitem r' k = getitem r k) rs rs' /\
  unpivot_fields_without_regex st `prefix_of` unpivot_fields_without_regex st'.
Proof.
  revert st rs' st'. induction rs as [|r rs IH]; intros st rs' st' H; simpl in H.
  { simplify_eq. by split; [constructor|]. }
  apply rbind_ok in H as ([r1 st1] & [H1 Hp1]%resolve_resource_inv & H).
  apply rbind_ok in H as ([rs2 st2] & [H2 Hp2]%IH & H). simplify_eq/=.
  split; [by constructor | by etrans].
Qed.

(** C33: the schema pass keeps the package in shape.  When it
    succeeds, the descriptor has the same tables in the same order, each
    with every entry other than its schema unchanged (its name in
    particular), and every entry of the package descriptor other than the
    table list is unchanged. *)
Theorem schema_pass_preserves m specs eks ev d d' st :
  schema_pass m specs eks ev d = Ok (d', st) ->
  exists rs rs',
    getitem d "resources" = Ok (VList rs) /\
    getitem d' "resources" = Ok (VList rs') /\
    Forall2 (fun r r' => forall k, k <> "schema" -> getitem r' k = getitem r k)
            rs rs' /\
    forall k, k <> "resources" -> getitem d' k = getitem d k.
Proof.
  unfold schema_pass. intros H.
  apply rbind_ok in H as (x & Hx & H). apply rbind_ok in H as (rs & Hrs & H).
  apply rbind_ok in H as ([rs' st0] & [Hinv _]%resolve_resources_inv & H).
  apply rbind_ok in H as (d0 & Hd0 & H). destruct x; simplify_eq/=.
  exists rs, rs'. split; [done|]. split; [by eapply getitem_setitem|].
  split; [done|]. intros k Hk. by eapply getitem_setitem_ne.
Qed.

(** Pivot fields accumulate over the tables.  The resolved pivot
    fields recorded before a table is processed are still there, in front,
    after the whole list of tables is processed: the fields of an earlier
    table are never removed when a later table is resolved. *)
Theorem resolve_resources_accumulates m specs eks ev st rs rs' st' :
  resolve_resources m specs eks ev st rs = Ok (rs', st') ->
  unpivot_fields_without_regex st `prefix_of` unpivot_fields_without_regex st'.
Proof. by intros [_ H]%resolve_resources_inv. Qed.

(** C35: the two locals of the first loop are shared by the tables.
    After two selected tables with a schema, [unpivot_fields_without_regex]
    holds the pivot fields of the first table followed by those of the
    second, and [fields_to_keep] holds the kept names of the second table
    only: what is recorded is not per table. *)
Theorem resolve_resources_shared_state m specs res eks ev st
    rd1 name1 sd1 fields1 rd2 name2 sd2 fields2 :
  mapM compile_spec specs = Ok res ->
  dict_get "name" rd1 = Some (VStr name1) -> matcher_match m name1 = true ->
  dict_get "schema" rd1 = Some (VDict sd1) ->
  default (VList []) (dict_get "fields" sd1) = VList fields1 ->
  Forall (fun f => is_field f = true) fields1 ->
  Forall (fun u => spec_okb fields1 u = true) specs ->
  dict_get "name" rd2 = Some (VStr name2) -> matcher_match m name2 = true ->
  dict_get "schema" rd2 = Some (VDict sd2) ->
  default (VList []) (dict_get "fields" sd2) = VList fields2 ->
  Forall (fun f => is_field f = true) fields2 ->
  Forall (fun u => spec_okb fields2 u = true) specs ->
  exists rs' piv1 piv2,
    resolve_resources m specs eks ev st [VDict rd1; VDict rd2] =
      Ok (rs', {| unpivot_fields_without_regex :=
                    unpivot_fields_without_regex st ++ piv1 ++ piv2;
                  fields_to_keep := Some (field_names (kept_fields res fields2)) |}) /\
    map field_name piv1 = pivot_names res fields1 /\
    map field_name piv2 = pivot_names res fields2.
Proof.
  intros Hres Hn1 Hm1 Hs1 Hfs1 Hf1 Hsp1 Hn2 Hm2 Hs2 Hfs2 Hf2 Hsp2.
  destruct (resolve_resource_selected m specs res eks ev st rd1 name1 sd1 fields1)
    as (piv1 & Heq1 & Hnames1 & _); try done.
  simpl. rewrite Heq1. simpl.
  match goal with
  | |- context [resolve_resource _ _ _ _ ?s (VDict rd2)] =>
      destruct (resolve_resource_selected m specs res eks ev s rd2 name2 sd2 fields2)
        as (piv2 & Heq2 & Hnames2 & _); try done
  end.
  rewrite Heq2. simpl. rewrite <- app_assoc. by eexists _, piv1, piv2.
Qed.

Lemma resource_okb_total m specs res eks ev st r :
  resource_okb specs r = true -> mapM compile_spec specs = Ok res ->
  Forall pivot_ok (unpivot_fields_without_regex st) ->
  exists r' st', resolve_resource m specs eks ev st r = Ok (r', st') /\
    Forall pivot_ok (unpivot_fields_without_regex st').
Proof.
  intros Hr Hres Hst. destruct r as [| | | | |rd]; try done. simpl in Hr.
  destruct (dict_get "name" rd) as [[| | |name| |]|] eqn:Hn; try done.
  destruct (matcher_match m name) eqn:Hm;
    [|exists (VDict rd), st; split; [by eapply resolve_resource_untouched; eauto | done]].
  destruct (dict_get "schema" rd) as [[| | | | |sd]|] eqn:Hs; try done;
    try (exists (VDict rd), st; split; [|done];
         eapply resolve_resource_untouched; [done | right; by rewrite Hs]).
  destruct (default (VList []) (dict_get "fields" sd)) as [| | | |fields|] eqn:Hf;
    try done.
  apply andb_true_iff in Hr as [Hfields Hspecs].
  destruct (resolve_resource_selected m specs res eks ev st rd name sd fields)
    as (pivoted & Heq & _ & Hok); try done.
  - apply Forall_forall. intros f Hin%list_elem_of_In.
    rewrite forallb_forall in Hfields. auto.
  - apply Forall_forall. intros u Hin%list_elem_of_In.
    rewrite forallb_forall in Hspecs. auto.
  - eexists _, _. split; [done|]. simpl. by apply Forall_app.
Qed.

(** C34: the schema pass raises nothing on a well-formed package.  When
    the descriptor lists its tables, every table is well formed and the
    patterns of the specifications compile, [schema_pass] succeeds, and
    every resolved pivot field it records has a name and a key mapping, as
    the row expander needs. *)
Theorem schema_pass_total m specs res eks ev dd rs :
  dict_get "resources" dd = Some (VList rs) ->
  Forall (fun r => resource_okb specs r = true) rs ->
  mapM compile_spec specs = Ok res ->
  exists d' st, schema_pass m specs eks ev (VDict dd) = Ok (d', st) /\
    Forall pivot_ok (unpivot_fields_without_regex st).
Proof.
  intros Hd Hrs Hres. unfold schema_pass. simpl. rewrite Hd. simpl.
  enough (H : forall st, Forall pivot_ok (unpivot_fields_without_regex st) ->
            exists rs' st', resolve_resources m specs eks ev st rs = Ok (rs', st') /\
              Forall pivot_ok (unpivot_fields_without_regex st')).
  { destruct (H initial_state) as (rs' & st' & -> & Hok); [by constructor|].
    simpl. eauto. }
  clear Hd. induction Hrs as [|r rs Hr _ IH]; intros st Hst; simpl; [eauto|].
  destruct (resource_okb_total m specs res eks ev st r Hr Hres Hst)
    as (r' & st1 & -> & Hst1). simpl.
  destruct (IH st1 Hst1) as (rs' & st' & -> & Hst'). simpl. eauto.
Qed.

End schema_facts.

(** ** Literal column names

    What the resolver does with a specification whose pattern has no
    metacharacter and whose key templates have no back-reference, for any
    engine that satisfies the laws of [RegexLiteral]. *)

Section literal.
Context `{E : RegexEngine} `{!RegexLiteral E}.

Lemma name_matches_plain n re f :
  plain n = true -> re_compile n = Ok re -> is_field f = true ->
  name_matches re f = has_name n f.
Proof.
  intros Hp Hre [m Hm]%is_field_name. unfold name_matches, has_name.
  rewrite Hm, (fullmatch_plain n re m) by done.
  apply bool_decide_ext. split; congruence.
Qed.

Lemma filter_name_matches_plain n re fields :
  plain n = true -> re_compile n = Ok re ->
  Forall (fun f => is_field f = true) fields ->
  List.filter (name_matches re) fields = List.filter (has_name n) fields /\
  List.filter (fun f => negb (name_matches re f)) fields =
    List.filter (fun f => negb (has_name n f)) fields.
Proof.
  intros Hp Hre Hf. split; apply List.filter_ext_in; intros f Hin%list_elem_of_In;
    rewrite Forall_forall in Hf; by rewrite (name_matches_plain n re f) by auto.
Qed.

Lemma resolved_keys_plain n re original :
  plain n = true -> re_compile n = Ok re -> plain_keys original = true ->
  resolved_keys re n original = Ok original.
Proof.
  intros Hp Hre. unfold resolved_keys, plain_keys.
  induction original as [|[k v] original IH]; simpl; [done|].
  intros [Hv Ho]%andb_true_iff. rewrite (IH Ho).
  destruct v; simpl; try done. by rewrite (sub_plain n re s) by done.
Qed.

(** Literal column names.  For a specification whose pattern is
    a plain name [n] and whose templates are plain, with any engine that
    obeys the laws of the interface: the fields named exactly [n] are
    pivoted, each with the key mapping of the specification as it is, and
    all the other fields are kept, in order. *)
Theorem resolve_spec_plain ud n original fields ufs :
  dict_get "name" ud = Some (VStr n) -> plain n = true ->
  dict_get "keys" ud = Some (VDict original) -> dict_wf original ->
  original <> [] -> plain_keys original = true ->
  Forall (fun f => is_field f = true) fields ->
  resolve_spec (fields, ufs) (VDict ud) =
  Ok (List.filter (fun f => negb (has_name n f)) fields,
      ufs ++ map (with_keys original) (List.filter (has_name n) fields)).
Proof.
  intros Hn Hp Hk Hwf Hne Hpk Hf.
  destruct (proj1 (is_ok_true _) (compile_plain n Hp)) as [re Hre].
  rewrite (resolve_spec_eq ud n re) by done.
  destruct (filter_name_matches_plain n re fields Hp Hre Hf) as [-> ->].
  rewrite (mapM_total _ (with_keys original)); [done|].
  apply Forall_forall. intros f [Hin Hname]%list_elem_of_In%List.filter_In.
  apply bool_decide_eq_true in Hname.
  apply field_name_ok in Hname as (fd & -> & Hfd).
  rewrite (pivot_field_eq ud re fd n original) by done.
  rewrite resolved_keys_plain by done. simpl. by destruct original.
Qed.

End literal.

(** ** The theorems at the [sales] table, with the literal engine *)

Lemma resolve_spec_partition_witness :
  exists pivoted,
    resolve_spec (ex_fields ["region"; "q1"; "q2"], [ex_pivoted "q0" "0"])
                 (ex_spec "q1" "1") =
      Ok (List.filter (fun f => negb (name_matches (ex_re "q1") f))
                      (ex_fields ["region"; "q1"; "q2"]),
          [ex_pivoted "q0" "0"] ++ pivoted) /\
    map field_name pivoted =
      map field_name (List.filter (name_matches (ex_re "q1")) (ex_fields ["region"; "q1"; "q2"])) /\
    length (List.filter (fun f => negb (name_matches (ex_re "q1") f))
                        (ex_fields ["region"; "q1"; "q2"])) + length pivoted =
      length (ex_fields ["region"; "q1"; "q2"]).
Proof.
  apply (resolve_spec_partition
           [("name", VStr "q1"); ("keys", VDict [("quarter", VStr "1")])]
           "q1" (ex_re "q1") [("quarter", VStr "1")]).
  - reflexivity.
  - reflexivity.
  - reflexivity.
  - by_compute.
  - by_compute.
  - by_compute.
Defined.

Lemma resolve_spec_consumed_witness :
  Forall (fun f => name_matches (ex_re "q1") f = false)
         (ex_fields ["region"; "q2"], [ex_pivoted "q1" "1"]).1 /\
  resolve_spec (ex_fields ["region"; "q2"], [ex_pivoted "q1" "1"]) (ex_spec "q1" "1") =
    Ok (ex_fields ["region"; "q2"], [ex_pivoted "q1" "1"]).
Proof.
  apply (resolve_spec_consumed
           [("name", VStr "q1"); ("keys", VDict [("quarter", VStr "1")])]
           "q1" (ex_re "q1") (ex_fields ["region"; "q1"; "q2"], [])).
  - reflexivity.
  - reflexivity.
  - by_compute.
  - reflexivity.
Defined.

Lemma pivot_field_resolved_witness :
  exists rk,
    pivot_field (ex_spec "q1" "1") (ex_re "q1") (ex_field "q1") =
      Ok (VDict (dict_set "keys" (VDict rk)
                   [("name", VStr "q1"); ("type", VStr "integer")])) /\
    dict_keys rk = dict_keys [("quarter", VStr "1")] /\
    forall k v, dict_get k [("quarter", VStr "1")] = Some v ->
      exists v', sub_key (ex_re "q1") "q1" v = Ok v' /\ dict_get k rk = Some v'.
Proof.
  apply (pivot_field_resolved
           [("name", VStr "q1"); ("keys", VDict [("quarter", VStr "1")])]).
  - reflexivity.
  - by_compute.
  - done.
  - reflexivity.
  - reflexivity.
Defined.

Lemma pivot_field_empty_keys_witness :
  pivot_field (VDict [("name", VStr "q1"); ("keys", VDict [])]) (ex_re "q1") (ex_field "q1") =
  Ok (ex_field "q1").
Proof.
  apply (pivot_field_empty_keys [("name", VStr "q1"); ("keys", VDict [])]).
  reflexivity.
Defined.

Lemma resolve_specs_correct_witness :
  exists pivoted,
    foldM resolve_spec (ex_fields ["region"; "q1"; "q2"; "q3"], []) ex_specs =
      Ok (kept_fields ex_res (ex_fields ["region"; "q1"; "q2"; "q3"]),
          [] ++ pivoted) /\
    map field_name pivoted =
      pivot_names ex_res (ex_fields ["region"; "q1"; "q2"; "q3"]) /\
    Forall pivot_ok pivoted.
Proof.
  apply (resolve_specs_correct ex_specs ex_res).
  - by_compute.
  - by_compute.
  - reflexivity.
Defined.

Lemma resolve_resource_skip_witness :
  resolve_resource MatchAll ex_specs [ex_quarter] ex_amount initial_state ex_raw =
  Ok (ex_raw, initial_state).
Proof.
  apply (resolve_resource_skip MatchAll ex_specs [ex_quarter] ex_amount initial_state
           [("name", VStr "raw")] "raw").
  - reflexivity.
  - right. reflexivity.
Defined.

Lemma resolve_resource_schema_witness :
  exists pivoted,
    resolve_resource MatchAll ex_specs [ex_quarter] ex_amount initial_state
        (VDict (ex_table_dict "sales" ["region"; "q1"; "q2"; "q3"])) =
      Ok (VDict (dict_set "schema"
                   (VDict (dict_set "fields"
                      (VList (kept_fields ex_res (ex_fields ["region"; "q1"; "q2"; "q3"])
                              ++ [ex_quarter] ++ [ex_amount]))
                      (ex_schema ["region"; "q1"; "q2"; "q3"])))
                   (ex_table_dict "sales" ["region"; "q1"; "q2"; "q3"])),
          {| unpivot_fields_without_regex :=
               unpivot_fields_without_regex initial_state ++ pivoted;
             fields_to_keep :=
               Some (field_names
                       (kept_fields ex_res (ex_fields ["region"; "q1"; "q2"; "q3"]))) |}) /\
    map field_name pivoted = pivot_names ex_res (ex_fields ["region"; "q1"; "q2"; "q3"]) /\
    Forall pivot_ok pivoted.
Proof.
  apply (resolve_resource_schema MatchAll ex_specs ex_res [ex_quarter] ex_amount
           initial_state _ "sales").
  - reflexivity.
  - reflexivity.
  - reflexivity.
  - reflexivity.
  - by_compute.
  - by_compute.
  - reflexivity.
Defined.

Lemma schema_pass_preserves_witness :
  exists rs rs',
    getitem (ex_descriptor [ex_sales; ex_raw]) "resources" = Ok (VList rs) /\
    getitem (ex_descriptor [ex_long_schema "sales" "region"; ex_raw]) "resources" =
      Ok (VList rs') /\
    Forall2 (fun r r' => forall k, k <> "schema" -> getitem r' k = getitem r k)
            rs rs' /\
    forall k, k <> "resources" ->
      getitem (ex_descriptor [ex_long_schema "sales" "region"; ex_raw]) k =
      getitem (ex_descriptor [ex_sales; ex_raw]) k.
Proof.
  apply (schema_pass_preserves MatchAll ex_specs [ex_quarter] ex_amount
           (ex_descriptor [ex_sales; ex_raw])
           (ex_descriptor [ex_long_schema "sales" "region"; ex_raw])
           {| unpivot_fields_without_regex :=
                [ex_pivoted "q1" "1"; ex_pivoted "q2" "2"; ex_pivoted "q3" "3"];
              fields_to_keep := Some ["region"] |}).
  reflexivity.
Defined.

Lemma resolve_resources_accumulates_witness :
  unpivot_fields_without_regex
    {| unpivot_fields_without_regex := [ex_pivoted "q0" "0"];
       fields_to_keep := None |} `prefix_of`
  unpivot_fields_without_regex
    {| unpivot_fields_without_regex :=
         [ex_pivoted "q0" "0"; ex_pivoted "q1" "1"; ex_pivoted "q2" "2";
          ex_pivoted "q3" "3"; ex_pivoted "q1" "1"];
       fields_to_keep := Some ["country"] |}.
Proof.
  apply (resolve_resources_accumulates MatchAll ex_specs [ex_quarter] ex_amount
           {| unpivot_fields_without_regex := [ex_pivoted "q0" "0"];
              fields_to_keep := None |}
           [ex_sales; ex_other]
           [ex_long_schema "sales" "region"; ex_long_schema "other" "country"]).
  reflexivity.
Defined.

Lemma schema_pass_total_witness :
  exists d' st,
    schema_pass MatchAll ex_specs [ex_quarter] ex_amount
                (ex_descriptor [ex_sales; ex_raw; ex_other]) = Ok (d', st) /\
    Forall pivot_ok (unpivot_fields_without_regex st).
Proof.
  apply (schema_pass_total MatchAll ex_specs ex_res [ex_quarter] ex_amount _
           [ex_sales; ex_raw; ex_other]).
  - reflexivity.
  - by_compute.
  - reflexivity.
Defined.

Lemma resolve_spec_plain_witness :
  resolve_spec (ex_fields ["region"; "q1"; "q2"; "q1"], []) (ex_spec "q1" "1") =
  Ok (List.filter (fun f => negb (has_name "q1" f)) (ex_fields ["region"; "q1"; "q2"; "q1"]),
      [] ++ map (with_keys [("quarter", VStr "1")])
             (List.filter (has_name "q1") (ex_fields ["region"; "q1"; "q2"; "q1"]))).
Proof.
  apply (resolve_spec_plain
           [("name", VStr "q1"); ("keys", VDict [("quarter", VStr "1")])] "q1").
  - reflexivity.
  - reflexivity.
  - reflexivity.
  - by_compute.
  - done.
  - reflexivity.
  - by_compute.
Defined.

Lemma resolve_resources_shared_state_witness :
  exists rs' piv1 piv2,
    resolve_resources MatchAll ex_specs [ex_quarter] ex_amount initial_state
        [VDict (ex_table_dict "sales" ["region"; "q1"; "q2"; "q3"]);
         VDict (ex_table_dict "other" ["country"; "q1"])] =
      Ok (rs', {| unpivot_fields_without_regex :=
                    unpivot_fields_without_regex initial_state ++ piv1 ++ piv2;
                  fields_to_keep :=
                    Some (field_names
                            (kept_fields ex_res (ex_fields ["country"; "q1"]))) |}) /\
    map field_name piv1 = pivot_names ex_res (ex_fields ["region"; "q1"; "q2"; "q3"]) /\
    map field_name piv2 = pivot_names ex_res (ex_fields ["country"; "q1"]).
Proof.
  apply (resolve_resources_shared_state MatchAll ex_specs ex_res [ex_quarter]
           ex_amount initial_state
           (ex_table_dict "sales" ["region"; "q1"; "q2"; "q3"]) "sales"
           (ex_schema ["region"; "q1"; "q2"; "q3"]) (ex_fields ["region"; "q1"; "q2"; "q3"])
           (ex_table_dict "other" ["country"; "q1"]) "other"
           (ex_schema ["country"; "q1"]) (ex_fields ["country"; "q1"])).
  - reflexivity.
  - reflexivity.
  - reflexivity.
  - reflexivity.
  - reflexivity.
  - by_compute.
  - by_compute.
  - reflexivity.
  - reflexivity.
  - reflexivity.
  - reflexivity.
  - by_compute.
  - by_compute.
Defined.
