(* ===== verification/HeapSchema.v ===== *)
(** * The schema resolver on the object store

    [Schema] models the first loop of [func] (lines 28-64 of [unpivot.py])
    on values, where an assignment builds a new descriptor.  The code
    assigns in place: line 58 writes the resolved [keys] into the very
    field object that was found in the schema, lines 62-63 extend the
    working list [fields] with the objects [extra_keys] holds and with the
    object [extra_value], and line 64 stores that list in the schema
    object of the package descriptor.  This file models the loop on the
    store of [Heap]: the descriptor, the specifications and the
    descriptors of the new columns are references, nothing is copied, and
    what the pass returns is the state of the two locals, the store being
    where the descriptor has changed.

    The two lists that never leave [func], [fields_to_pivot] and
    [unpivot_fields_without_regex], are lists of references; the working
    list [fields] is an object, because line 64 makes it part of the
    descriptor.  A [for] loop runs over the elements the list had when the
    loop started.

    [reach] is the footprint of a reference, the addresses [reify] visits;
    a value is a tree when its footprint has no address twice.  Every
    procedure is specified by [hsimP]: it agrees with its counterpart of
    [Schema], and the store it leaves differs from the store it started
    in inside a region only ([pres]).  The theorems at the end follow
    from the specification of the whole pass ([schema_pass_h_sim]): the
    refinement of [Schema.schema_pass], the frame of the pass, the
    sharing of the objects of the configuration between the schemas,
    what a consumer does to the rows when it renames the value column
    in the descriptor ([rename_value_column_h]), and the second loop
    ([selected_rows_h], lines 72-75) run after the first on one store. *)

From stdpp Require Import base list strings.
From S2P Require Import Prelude Dict Values Regex Matcher Rows Schema Heap.

Section schema_h.
Context `{E : RegexEngine}.

(** ** Computations on the store, continued *)

(** A computation that does not look at the store. *)
Definition hlift {A} (r : result A) : heapM A := fun h => (r, h).

Fixpoint hfilterM {A} (f : A -> heapM bool) (l : list A) : heapM (list A) :=
  match l with
  | [] => hret []
  | x :: l' =>
      b <- f x ;; ys <- hfilterM f l' ;; hret (if b : bool then x :: ys else ys)
  end.

Fixpoint hfoldM {A S} (f : S -> A -> heapM S) (s : S) (l : list A) : heapM S :=
  match l with
  | [] => hret s
  | x :: l' => s' <- f s x ;; hfoldM f s' l'
  end.

(** The elements of a list object, as a loop over it or [list(...)]
    reads them. *)
Definition list_items_h (r : ref) : heapM (list ref) :=
  fun h =>
    match deref h r with
    | Some (OList l) => (Ok l, h)
    | _ => (Err TypeError, h)
    end.

(** The keys of a dictionary, as [for key in r] reads them. *)
Definition dict_keys_h (r : ref) : heapM (list string) :=
  fun h =>
    match deref h r with
    | Some (ODict d) => (Ok (dict_keys d), h)
    | _ => (Err TypeError, h)
    end.

(** [r.extend(xs)]: the list grows where it is. *)
Definition extend_h (r : ref) (xs : list ref) : heapM unit :=
  fun h =>
    match r with
    | RObj a =>
        match h !! a with
        | Some (OList l) => (Ok tt, <[a := OList (l ++ xs)]> h)
        | _ => (Err AttributeError, h)
        end
    | _ => (Err AttributeError, h)
    end.

(** [r.append(x)] *)
Definition append_h (r : ref) (x : ref) : heapM unit := extend_h r [x].

Definition is_none_h (r : ref) : bool :=
  match r with
  | RNone => true
  | _ => false
  end.

(** ** Field matching (lines 7-10) *)

Definition field_name_h (field : ref) : heapM string :=
  n <- getitem_h field "name" ;; as_str_h n.

Definition match_fields_h (field_name_re : pattern) (expected : bool)
    (field : ref) : heapM bool :=
  n <- field_name_h field ;;
  hret (Bool.eqb (re_fullmatch field_name_re n) expected).

(** ** The resolver (lines 28-64) *)

(** Lines 54-56. *)
Definition resolve_key_h (field_name_re : pattern) (field_to_pivot new_val : ref) :
    heapM ref :=
  match new_val with
  | RStr template =>
      name <- field_name_h field_to_pivot ;;
      s <- hlift (re_sub field_name_re template name) ;;
      hret (RStr s)
  | _ => hret new_val
  end.

(** Lines 53-58: one turn of the loop over the keys.  Both assignments
    are in place: the first to the dictionary made on line 51, the second
    to the field object of the schema. *)
Definition resolve_keys_step_h (field_name_re : pattern)
    (original_key_values new_key_values field_to_pivot : ref) (key : string) :
    heapM unit :=
  new_val <- getitem_h original_key_values key ;;
  new_val <- resolve_key_h field_name_re field_to_pivot new_val ;;
  u <- setitem_h new_key_values key new_val ;;
  setitem_h field_to_pivot "keys" new_key_values.

(** Lines 50-58 for one matched field; line 59 appends what is returned. *)
Definition pivot_field_h (u_field : ref) (field_name_re : pattern)
    (field_to_pivot : ref) : heapM ref :=
  original_key_values <- getitem_h u_field "keys" ;;
  new_key_values <- alloc (ODict []) ;;
  keys <- dict_keys_h original_key_values ;;
  u <- hfor keys (resolve_keys_step_h field_name_re original_key_values
                    new_key_values field_to_pivot) ;;
  hret field_to_pivot.

(** Lines 39-59: one specification.  The state is the working list
    [fields], a list object, and [unpivot_fields_without_regex]. *)
Definition resolve_spec_h (st : ref * list ref) (u_field : ref) :
    heapM (ref * list ref) :=
  name <- getitem_h u_field "name" ;;
  name <- as_str_h name ;;
  field_name_re <- hlift (re_compile name) ;;
  l <- list_items_h st.1 ;;
  fields_to_pivot <- hfilterM (match_fields_h field_name_re true) l ;;
  l <- list_items_h st.1 ;;
  l <- hfilterM (match_fields_h field_name_re false) l ;;
  fields <- alloc (OList l) ;;
  pivoted <- hmapM (pivot_field_h u_field field_name_re) fields_to_pivot ;;
  hret (fields, st.2 ++ pivoted).

(** The two locals of [func] that the second loop reads. *)
Record resolver_state_h : Type := {
  unpivot_fields_without_regex_h : list ref;
  fields_to_keep_h : option (list string)
}.

Definition initial_state_h : resolver_state_h :=
  {| unpivot_fields_without_regex_h := []; fields_to_keep_h := None |}.

(** Lines 30-37: the schema object of a selected table and its list of
    fields, or [None] where the code says [continue].  The default of
    [schema.get] is a new list.  The elements of [fields] are read here,
    where [Schema.resolve_resource] reads them. *)
Definition table_fields_h (m : matcher) (resource : ref) :
    heapM (option (ref * ref)) :=
  name <- getitem_h resource "name" ;;
  name <- as_str_h name ;;
  if negb (matcher_match m name) then hret None else
  resource_get <- get_method_h resource ;;
  schema <- resource_get "schema" RNone ;;
  if is_none_h schema then hret None else
  schema_get <- get_method_h schema ;;
  dflt <- alloc (OList []) ;;
  fields <- schema_get "fields" dflt ;;
  l <- list_items_h fields ;;
  hret (Some (schema, fields)).

(** Lines 61-64: the names of the fields that are left, then the working
    list grows by the extra keys and the extra value, where it is, and is
    stored in the schema. *)
Definition install_fields_h (schema fields : ref) (extra_keys : list ref)
    (extra_value : ref) : heapM (list string) :=
  l <- list_items_h fields ;;
  fields_to_keep <- hmapM field_name_h l ;;
  u <- extend_h fields extra_keys ;;
  u <- append_h fields extra_value ;;
  u <- setitem_h schema "fields" fields ;;
  hret fields_to_keep.

(** Lines 29-64: the body of the loop over the table descriptors. *)
Definition resolve_resource_h (m : matcher) (unpivot_fields extra_keys : list ref)
    (extra_value : ref) (st : resolver_state_h) (resource : ref) :
    heapM resolver_state_h :=
  o <- table_fields_h m resource ;;
  match o with
  | None => hret st
  | Some (schema, fields) =>
      p <- hfoldM resolve_spec_h (fields, unpivot_fields_without_regex_h st)
                  unpivot_fields ;;
      fields_to_keep <- install_fields_h schema p.1 extra_keys extra_value ;;
      hret {| unpivot_fields_without_regex_h := p.2;
              fields_to_keep_h := Some fields_to_keep |}
  end.

(** Lines 28-64 on the package descriptor. *)
Definition schema_pass_h (m : matcher) (unpivot_fields extra_keys : list ref)
    (extra_value descriptor : ref) : heapM resolver_state_h :=
  resources <- getitem_h descriptor "resources" ;;
  l <- list_items_h resources ;;
  hfoldM (resolve_resource_h m unpivot_fields extra_keys extra_value)
         initial_state_h l.

End schema_h.

(** Lines 72-75: the rows of a selected table, with the two locals the
    first loop left.  The call raises when [fields_to_keep] is unbound,
    which it is when no table was selected in the first loop; otherwise
    the result is the trace of the generator, with the store it leaves. *)
Definition selected_rows_h (depth : nat) (st : resolver_state_h)
    (extra_value : ref) (rows : gen ref) : heapM (gen ref) :=
  fun h =>
    match fields_to_keep_h st with
    | None => (Err (UnboundLocalError "fields_to_keep"), h)
    | Some kept =>
        let out := unpivot_rows_h depth rows (unpivot_fields_without_regex_h st)
                                  kept extra_value h in
        (Ok out.1, out.2)
    end.

(** The same on values. *)
Definition selected_rows (st : resolver_state) (extra_value : value)
    (rows : gen value) : result (gen value) :=
  (kept <- of_option (UnboundLocalError "fields_to_keep") (fields_to_keep st) ;;
   Ok (unpivot_rows rows (unpivot_fields_without_regex st) kept extra_value))%result.

(** ** Reference definitions *)

(** The footprint of a reference: the addresses [reify] visits, in the
    order of the visit. *)
Fixpoint reach (n : nat) (h : heap) (r : ref) : list nat :=
  match r, n with
  | RObj a, S n' =>
      a :: match h !! a with
           | Some o => concat (reach n' h <$> refs o)
           | None => []
           end
  | _, _ => []
  end.

(** [r] stands for [v], and its footprint lies in the region [A]. *)
Definition within (A : nat -> Prop) (n : nat) (h : heap) (r : ref) (v : value) :
    Prop :=
  repr n h r v /\ Forall A (reach n h r).

(** [r] stands for [v] and no object is reached twice: nothing is shared
    inside the value. *)
Definition tree (n : nat) (h : heap) (r : ref) (v : value) : Prop :=
  repr n h r v /\ NoDup (reach n h r).

(** The same of a list of references: nothing is shared inside a value
    or between two of them. *)
Definition trees (n : nat) (h : heap) (l : list ref) (vl : list value) : Prop :=
  Forall2 (repr n h) l vl /\ NoDup (concat (reach n h <$> l)).

(** The two parts of [Schema.resolve_resource] that [table_fields_h] and
    [install_fields_h] are compared with. *)
Definition table_fields `{E : RegexEngine} (m : matcher) (resource : value) :
    result (option (value * list value)) :=
  (name <- getitem resource "name" ;;
   name <- as_str name ;;
   if negb (matcher_match m name) then Ok None else
   schema <- get resource "schema" VNone ;;
   if is_none schema then Ok None else
   fields <- get schema "fields" (VList []) ;;
   fields <- as_list fields ;;
   Ok (Some (schema, fields)))%result.

Definition install_fields (schema : value) (fields extra_keys : list value)
    (extra_value : value) : result (value * list string) :=
  (kept <- mapM field_name fields ;;
   schema <- setitem schema "fields"
               (VList (fields ++ extra_keys ++ [extra_value])) ;;
   Ok (schema, kept))%result.

(** The footprint of the item [k] of a dictionary. *)
Definition slot_reach (n : nat) (h : heap) (k : string) (d : dict ref) : list nat :=
  match dict_get k d with
  | Some x => reach n h x
  | None => []
  end.

(** The store [h] was reached from the closed store [h0] by creating
    objects and by writing to objects of [h0] that are in [P], and to no
    other object of [h0]. *)
Definition pres (P : nat -> Prop) (h0 h : heap) : Prop :=
  closed h /\ length h0 <= length h /\
  forall a, a < length h0 -> ~ P a -> h !! a = h0 !! a.

(** The computation [m], run in [h], agrees with the outcome [spec] on
    values and leaves a store that [pres P h0] allows. *)
Definition hsimP {A B} (P : nat -> Prop) (h0 : heap)
    (R : heap -> A -> B -> Prop) (m : heapM A) (spec : result B) (h : heap) :
    Prop :=
  pres P h0 (m h).2 /\ sim (R (m h).2) (m h).1 spec.

(** The invariant of the loop over the keys (lines 52-58), between the
    store and the state [st] of the loop on values: the dictionary made
    on line 51, at [nk], holds the keys resolved so far, whose values
    were read in the region [C] of the store [h] the loop started in; the
    field object, at [af], is as it was in [h], where its items were [df]
    and stood for [vdf], or its [keys] are that dictionary. *)
Definition keys_inv (C : nat -> Prop) (n : nat) (h : heap) (af : nat)
    (df : dict ref) (vdf : dict value) (nk : nat) (h' : heap)
    (st : dict value * value) : Prop :=
  (exists dk, h' !! nk = Some (ODict dk) /\ dict_rel (within C n h) dk st.1) /\
  ((h' !! af = Some (ODict df) /\ st.2 = VDict vdf) \/
   (h' !! af = Some (ODict (dict_set "keys" (RObj nk) df)) /\
    st.2 = VDict (dict_set "keys" (VDict st.1) vdf))).

(** The field object has a name that the pattern fully matches. *)
Definition name_matches_h `{E : RegexEngine} (re : pattern) (h : heap)
    (field : ref) : bool :=
  match (field_name_h field h).1 with
  | Ok s => re_fullmatch re s
  | Err _ => false
  end.

(** The configuration of the processor: the specifications, the extra
    keys and the extra value are in the region [C] of the store. *)
Definition config_in (C : nat -> Prop) (n : nat) (h : heap)
    (unpivot_fields extra_keys : list ref) (extra_value : ref)
    (vunpivot_fields vextra_keys : list value) (vextra_value : value) : Prop :=
  Forall2 (within C n h) unpivot_fields vunpivot_fields /\
  Forall2 (within C n h) extra_keys vextra_keys /\
  within C n h extra_value vextra_value.

(** What one table, or the tables of a list, add to the two locals: the
    resolved fields [pivoted], which stand for [vpivoted]. *)
Definition state_grows (R : ref -> value -> Prop) (st st' : resolver_state_h)
    (vst vst' : resolver_state) : Prop :=
  exists pivoted vpivoted,
    unpivot_fields_without_regex_h st' =
      unpivot_fields_without_regex_h st ++ pivoted /\
    unpivot_fields_without_regex vst' =
      unpivot_fields_without_regex vst ++ vpivoted /\
    fields_to_keep_h st' = fields_to_keep vst' /\
    Forall2 R pivoted vpivoted.

(** The two locals of [func] after the first loop, against their values. *)
Definition state_rel (R : ref -> value -> Prop) (st : resolver_state_h)
    (vst : resolver_state) : Prop :=
  Forall2 R (unpivot_fields_without_regex_h st) (unpivot_fields_without_regex vst) /\
  fields_to_keep_h st = fields_to_keep vst.

(** The list [table['schema']['fields']] ends with the objects
    [extra_keys] holds and with the object [extra_value]: the objects
    themselves, not copies of them. *)
Definition installed (h : heap) (extra_keys : list ref) (extra_value : ref)
    (table : ref) : Prop :=
  exists schema fields kept,
    (getitem_h table "schema" h).1 = Ok schema /\
    (getitem_h schema "fields" h).1 = Ok fields /\
    (list_items_h fields h).1 = Ok (kept ++ extra_keys ++ [extra_value]).

(** What lines 30-64 leave for one table, started in the store [h] where
    the table [table] stood for [vtable]: the locals have grown by the
    fields resolved in it, which are read in the footprint the table had,
    in the region [C] of the configuration and in new objects, as is the
    table; and the table reads as before or holds the objects of the
    configuration. *)
Definition table_post (C : nat -> Prop) (n : nat) (h : heap)
    (extra_keys : list ref) (extra_value : ref)
    (st : resolver_state_h) (vst : resolver_state) (table : ref) (vtable : value)
    (h' : heap) (st' : resolver_state_h) (out : value * resolver_state) : Prop :=
  let R := fun a => a ∈ reach n h table \/ C a \/ length h <= a in
  state_grows (within R (S (S n)) h') st st' vst out.2 /\
  within R (S (S (S n))) h' table out.1 /\
  (repr (S (S (S n))) h' table vtable \/ installed h' extra_keys extra_value table).

(** The same for the tables of a list. *)
Definition tables_post (C : nat -> Prop) (n : nat) (h : heap)
    (extra_keys : list ref) (extra_value : ref)
    (st : resolver_state_h) (vst : resolver_state) (l : list ref) (vl : list value)
    (h' : heap) (st' : resolver_state_h) (out : list value * resolver_state) :
    Prop :=
  let R := fun a => a ∈ concat (reach n h <$> l) \/ C a \/ length h <= a in
  state_grows (within R (S (S n)) h') st st' vst out.2 /\
  Forall2 (within R (S (S (S n))) h') l out.1 /\
  Forall2 (fun r v => repr (S (S (S n))) h' r v \/
                      installed h' extra_keys extra_value r) l vl.

(** The tables of the package descriptor, as the store holds them. *)
Definition tables_h (h : heap) (descriptor : ref) (l : list ref) : Prop :=
  exists resources,
    (getitem_h descriptor "resources" h).1 = Ok resources /\
    (list_items_h resources h).1 = Ok l.

(** What lines 28-64 leave, started in the store [h] where the package
    descriptor stood for [vdescriptor]. *)
Definition pass_post (C : nat -> Prop) (n : nat) (h : heap)
    (extra_keys : list ref) (extra_value descriptor : ref) (vdescriptor : value)
    (h' : heap) (st : resolver_state_h) (out : value * resolver_state) : Prop :=
  let R := fun a => a ∈ reach n h descriptor \/ C a \/ length h <= a in
  state_rel (within R (S (S n)) h') st out.2 /\
  within R (5 + n) h' descriptor out.1 /\
  exists l vl,
    tables_h h' descriptor l /\ getitem vdescriptor "resources" = Ok (VList vl) /\
    Forall2 (fun r v => repr (S (S (S n))) h' r v \/
                        installed h' extra_keys extra_value r) l vl.

(** ** A consumer that writes to the descriptor it was given

    [table['schema']['fields'][-1]['name'] = name]: the value column of
    a table is given another name. *)
Definition rename_value_column_h (table : ref) (name : string) : heapM unit :=
  schema <- getitem_h table "schema" ;;
  fields <- getitem_h schema "fields" ;;
  l <- list_items_h fields ;;
  column <- hlift (of_option IndexError (last l)) ;;
  setitem_h column "name" (RStr name).

(** A new tree in the store for a value: what reading a descriptor from
    a file leaves. *)
Fixpoint store_value (v : value) : heapM ref :=
  match v with
  | VNone => hret RNone
  | VBool b => hret (RBool b)
  | VInt z => hret (RInt z)
  | VStr s => hret (RStr s)
  | VList l =>
      l' <- (fix go (l : list value) : heapM (list ref) :=
               match l with
               | [] => hret []
               | x :: l' => y <- store_value x ;; ys <- go l' ;; hret (y :: ys)
               end) l ;;
      alloc (OList l')
  | VDict d =>
      d' <- (fix go (d : dict value) : heapM (dict ref) :=
               match d with
               | [] => hret []
               | kx :: d' =>
                   y <- store_value kx.2 ;; ys <- go d' ;; hret ((kx.1, y) :: ys)
               end) d ;;
      alloc (ODict d')
  end.

(** ** Example data: the [sales] package in the store *)

(** The configuration and the descriptor, stored one after the other. *)
Definition ex_setup : heapM (list ref * list ref * ref * ref) :=
  ufs <- hmapM store_value ex_specs ;;
  eks <- hmapM store_value [ex_quarter] ;;
  ev <- store_value ex_amount ;;
  descriptor <- store_value (ex_descriptor [ex_sales; ex_raw]) ;;
  hret (ufs, eks, ev, descriptor).

Definition ex_store : heap := (ex_setup []).2.

(** What [ex_setup] returns: the specifications are at the addresses 1,
    3 and 5 (their key mappings at 0, 2 and 4), the extra key at 6, the
    extra value at 7, and the descriptor of the package at 17. *)
Definition ex_ufs : list ref := [RObj 1; RObj 3; RObj 5].
Definition ex_eks : list ref := [RObj 6].
Definition ex_ev : ref := RObj 7.
Definition ex_pkg : ref := RObj 17.

(** The region of the configuration. *)
Definition ex_config (a : nat) : Prop := a ∈ seq 0 8.

(** The store after the pass, and the state of the two locals. *)
Definition ex_store_resolved : heap :=
  (schema_pass_h (E:=literal_engine) MatchAll ex_ufs ex_eks ex_ev ex_pkg ex_store).2.

Definition ex_state_resolved : resolver_state_h :=
  {| unpivot_fields_without_regex_h := [RObj 9; RObj 10; RObj 11];
     fields_to_keep_h := Some ["region"] |}.

(** The store after the consumer renamed the value column of [sales], with
    a row of the table at its end. *)
Definition ex_store_renamed : heap :=
  (rename_value_column_h (RObj 14) "total" ex_store_resolved).2 ++
  [ODict [("region", RStr "east"); ("q1", RInt 10); ("q2", RInt 20);
          ("q3", RInt 30)]].

(** The store after the pass, with a row of the table [sales] that the
    source made afterwards. *)
Definition ex_store_rows : heap :=
  ex_store_resolved ++
  [ODict [("region", RStr "east"); ("q1", RInt 10); ("q2", RInt 20);
          ("q3", RInt 30)]].

(** ** Footprints *)

Lemma reach_obj n h a o :
  h !! a = Some o -> reach (S n) h (RObj a) = a :: concat (reach n h <$> refs o).
Proof. simpl. by intros ->. Qed.

(** What [reify] reads of a store is the footprint. *)
Lemma reify_reach_frame n h h' r :
  Forall (fun a => h' !! a = h !! a) (reach n h r) ->
  reify n h' r = reify n h r /\ reach n h' r = reach n h r.
Proof.
  revert r. induction n as [|n IH]; intros r; destruct r as [| | | |a];
    simpl; try done.
  intros [Ha Hs]%Forall_cons. rewrite Ha. destruct (h !! a) as [o|]; [|done].
  rewrite Forall_concat, Forall_fmap in Hs.
  split; [apply reify_slots_ext | do 2 f_equal; apply Forall_fmap_ext];
    (eapply Forall_impl; [exact Hs|]); intros x Hx; by apply IH.
Qed.

(** Every address of the footprint of a readable value is in use. *)
Lemma repr_reach_lt n h r v :
  repr n h r v -> Forall (fun a => a < length h) (reach n h r).
Proof.
  revert r v. induction n as [|n IH]; intros r v; destruct r as [| | | |a];
    try (intros; by constructor).
  intros (o & Ho & Hrel)%repr_obj. rewrite (reach_obj _ _ _ _ Ho).
  constructor; [by eapply lookup_lt_Some|].
  apply Forall_concat, Forall_fmap.
  eapply object_rel_refs; [|done]. intros x y. apply IH.
Qed.

Lemma object_rel_conj (R : ref -> value -> Prop) (Q : ref -> Prop) o v :
  object_rel (fun x y => R x y /\ Q x) o v <->
  object_rel R o v /\ Forall Q (refs o).
Proof.
  destruct o as [d|l], v as [| | | |vl|vd]; simpl; try tauto.
  - unfold dict_rel. revert vd. induction d as [|[k x] d IH]; intros [|[k' y] vd].
    + split; [by intros _; split; constructor | constructor].
    + split; [by intros ?%Forall2_nil_cons_inv | by intros [?%Forall2_nil_cons_inv _]].
    + split; [by intros ?%Forall2_cons_nil_inv | by intros [?%Forall2_cons_nil_inv _]].
    + rewrite !Forall2_cons, fmap_cons, Forall_cons, IH. simpl. tauto.
  - revert vl. induction l as [|x l IH]; intros [|y vl].
    + split; [by intros _; split; constructor | constructor].
    + split; [by intros ?%Forall2_nil_cons_inv | by intros [?%Forall2_nil_cons_inv _]].
    + split; [by intros ?%Forall2_cons_nil_inv | by intros [?%Forall2_cons_nil_inv _]].
    + rewrite !Forall2_cons, Forall_cons, IH. tauto.
Qed.

Lemma within_atom A n h r v :
  (forall a, r <> RObj a) -> within A n h r v <-> repr n h r v.
Proof.
  intros Hr. unfold within. split; [tauto|]. intros Hv. split; [done|].
  destruct r as [| | | |a], n; simpl; try constructor; by destruct (Hr a).
Qed.

Lemma within_obj A n h a v :
  within A (S n) h (RObj a) v <->
  A a /\ exists o, h !! a = Some o /\ object_rel (within A n h) o v.
Proof.
  unfold within at 1. rewrite repr_obj. split.
  - intros [(o & Ho & Hrel) HA]. rewrite (reach_obj _ _ _ _ Ho) in HA.
    apply Forall_cons in HA as [Ha HA]. split; [done|]. exists o. split; [done|].
    apply object_rel_conj. split; [done|]. by rewrite Forall_concat, Forall_fmap in HA.
  - intros (Ha & o & Ho & [Hrel HA]%object_rel_conj). split; [eauto|].
    rewrite (reach_obj _ _ _ _ Ho). constructor; [done|].
    by apply Forall_concat, Forall_fmap.
Qed.

(** More fuel and a larger region. *)
Lemma within_mono A A' n m h r v :
  within A n h r v -> n <= m -> (forall a, A a -> A' a) -> within A' m h r v.
Proof.
  intros Hr Hnm HA. revert m r v Hr Hnm.
  induction n as [|n IH]; intros m r v Hr Hnm.
  - destruct r as [| | | |a]; [..|by destruct Hr];
      (apply within_atom; [done|]); destruct Hr as [Hr _]; by destruct m.
  - destruct r as [| | | |a];
      try (apply within_atom; [done|]; destruct Hr as [Hr _]; by destruct m).
    destruct m as [|m]; [lia|].
    apply within_obj in Hr as (Ha & o & Ho & Hrel). apply within_obj.
    split; [auto|]. exists o. split; [done|].
    eapply object_rel_impl; [done|]. apply Forall_forall. intros x _ y Hxy.
    apply IH; [done | lia].
Qed.

Lemma within_repr A n h r v : within A n h r v -> repr n h r v.
Proof. by intros [? _]. Qed.

Lemma repr_within n h r v : repr n h r v -> within (.∈ reach n h r) n h r v.
Proof. intros Hr. split; [done|]. by apply Forall_forall. Qed.

(** The footprint consists of addresses in use. *)
Lemma within_lt A n h r v :
  within A n h r v -> within (fun a => A a /\ a < length h) n h r v.
Proof.
  intros [Hr HA]. split; [done|]. apply Forall_and. split; [done|].
  by eapply repr_reach_lt.
Qed.

(** ** Trees *)

(** More fuel reaches the same objects. *)
Lemma reach_mono n m h r v :
  repr n h r v -> n <= m -> reach m h r = reach n h r.
Proof.
  revert m r v. induction n as [|n IH]; intros m r v Hr Hnm;
    destruct r as [| | | |a]; try (by destruct m); try done.
  destruct m as [|m]; [lia|].
  apply repr_obj in Hr as (o & Ho & Hrel). rewrite !(reach_obj _ _ _ _ Ho).
  do 2 f_equal. apply Forall_fmap_ext.
  eapply object_rel_refs; [|done]. intros x y Hxy. simpl. eapply IH; [done | lia].
Qed.

Lemma elem_of_reach_slot n h (l : list ref) x a :
  x ∈ l -> a ∈ reach n h x -> a ∈ concat (reach n h <$> l).
Proof.
  intros Hx Ha. induction l as [|y l IH]; [by apply elem_of_nil in Hx|].
  rewrite fmap_cons. simpl. apply elem_of_app.
  apply elem_of_cons in Hx as [->|Hx]; [by left | right; auto].
Qed.

(** The footprint of an object, in terms of its slots read with the same
    fuel. *)
Lemma reach_obj_slots n h a o v :
  repr n h (RObj a) v -> h !! a = Some o ->
  reach n h (RObj a) = a :: concat (reach n h <$> refs o).
Proof.
  intros Hr Ho. destruct n as [|n]; [done|].
  rewrite (reach_obj _ _ _ _ Ho). do 2 f_equal. symmetry.
  apply repr_obj in Hr as (o' & Ho' & Hrel). simplify_eq.
  apply Forall_fmap_ext. eapply object_rel_refs; [|done].
  intros x y Hxy. cbv beta. eapply reach_mono; [done | lia].
Qed.

(** An object of a tree: it is not reached from its slots, and the slots
    are trees that share nothing. *)
Lemma tree_obj n h a v :
  tree n h (RObj a) v ->
  exists o, h !! a = Some o /\ object_rel (repr n h) o v /\
            (a ∉ concat (reach n h <$> refs o)) /\
            NoDup (concat (reach n h <$> refs o)).
Proof.
  intros [Hr Hnd]. pose proof Hr as Hr'. destruct n as [|n]; [done|].
  apply repr_obj in Hr as (o & Ho & Hrel). exists o.
  rewrite (reach_obj_slots _ _ _ _ _ Hr' Ho) in Hnd. apply NoDup_cons in Hnd.
  split_and!; [done | | tauto..].
  eapply object_rel_impl; [done|]. apply Forall_forall. intros x _ y Hxy.
  eapply repr_mono; [done | lia | done].
Qed.

Lemma trees_lt n h l vl a :
  trees n h l vl -> a ∈ concat (reach n h <$> l) -> a < length h.
Proof.
  intros [Hl _]. induction Hl as [|x v l vl Hx _ IH]; simpl;
    [by intros ?%elem_of_nil|].
  intros [Ha|Ha]%elem_of_app; [|auto].
  pose proof (repr_reach_lt _ _ _ _ Hx) as Hlt. rewrite Forall_forall in Hlt. auto.
Qed.

(** The slots of an object, each within the footprint of the slots. *)
Lemma repr_slots n h o v :
  object_rel (repr n h) o v ->
  object_rel (within (.∈ concat (reach n h <$> refs o)) n h) o v.
Proof.
  intros Hrel. eapply object_rel_impl; [done|]. apply Forall_forall.
  intros x Hx y Hxy. split; [done|]. apply Forall_forall. intros a Ha.
  by eapply elem_of_reach_slot.
Qed.

Lemma trees_nil n h : trees n h [] [].
Proof. split; constructor. Qed.

Lemma trees_cons n h x l v vl :
  trees n h (x :: l) (v :: vl) <->
  tree n h x v /\ trees n h l vl /\
  forall a, a ∈ reach n h x -> a ∉ concat (reach n h <$> l).
Proof.
  unfold trees, tree. rewrite Forall2_cons, fmap_cons. simpl.
  rewrite NoDup_app. tauto.
Qed.

Lemma trees_elem n h l vl x :
  trees n h l vl -> x ∈ l -> exists v, v ∈ vl /\ tree n h x v.
Proof.
  intros [Hl Hnd] Hx. revert Hnd. induction Hl as [|y v l vl Hy _ IH];
    [by apply elem_of_nil in Hx|].
  rewrite fmap_cons. simpl. intros (Hndy & _ & Hnd)%NoDup_app.
  apply elem_of_cons in Hx as [->|Hx].
  - exists v. split; [left | done].
  - destruct (IH Hx Hnd) as (w & ? & ?). exists w. split; [by right | done].
Qed.

(** A tree whose footprint is not written to is the same tree. *)
Lemma reach_pres P n h0 h r v :
  repr n h0 r v -> pres P h0 h -> (forall a, a ∈ reach n h0 r -> ~ P a) ->
  repr n h r v /\ reach n h r = reach n h0 r.
Proof.
  intros Hr (_ & _ & H) HP.
  destruct (reify_reach_frame n h0 h r) as [Hv Hf].
  { pose proof (repr_reach_lt _ _ _ _ Hr) as Hlt. rewrite Forall_forall in Hlt.
    apply Forall_forall. intros a Ha. apply H; auto. }
  split; [unfold repr; by rewrite Hv | done].
Qed.

Lemma trees_pres P n h0 h l vl :
  trees n h0 l vl -> pres P h0 h ->
  (forall a, a ∈ concat (reach n h0 <$> l) -> ~ P a) ->
  trees n h l vl /\ reach n h <$> l = reach n h0 <$> l.
Proof.
  intros [Hl Hnd] Hp HP.
  assert (H : Forall2 (fun x v => repr n h x v /\ reach n h x = reach n h0 x) l vl).
  { eapply Forall2_impl_in; [done|]. apply Forall_forall. intros x Hx v Hv.
    eapply reach_pres; [done..|]. intros a Ha. by eapply HP, elem_of_reach_slot. }
  assert (Heq : reach n h <$> l = reach n h0 <$> l).
  { apply Forall_fmap_ext. eapply Forall2_Forall_l; [done|].
    apply Forall_forall. by intros v _ x [_ ?]. }
  split; [|done]. split; [|by rewrite Heq].
  eapply Forall2_impl; [done|]. by intros x v [? _].
Qed.

Lemma filter_concat_sub {B} (f : B -> list nat) (p : B -> bool) l a :
  a ∈ concat (f <$> List.filter p l) -> a ∈ concat (f <$> l).
Proof.
  induction l as [|x l IH]; simpl; [done|].
  destruct (p x); simpl; rewrite !elem_of_app; tauto.
Qed.

(** The two parts of a list of trees share nothing. *)
Lemma trees_filter {B} (f : B -> list nat) (p : B -> bool) l :
  NoDup (concat (f <$> l)) ->
  NoDup (concat (f <$> List.filter p l)) /\
  (forall a, a ∈ concat (f <$> List.filter p l) ->
             a ∉ concat (f <$> List.filter (fun x => negb (p x)) l)).
Proof.
  induction l as [|x l IH]; simpl.
  { intros _. split; [constructor | by intros ? ?%elem_of_nil]. }
  intros (Hx & Hxl & Hl)%NoDup_app. destruct (IH Hl) as (Hnd & Hdisj).
  destruct (p x); simpl; (split; [try done|]).
  - apply NoDup_app. split_and!; try done.
    intros a Ha Hal. eapply Hxl, filter_concat_sub; done.
  - intros a [Ha|Ha]%elem_of_app; [|by apply Hdisj].
    intros Hal. eapply Hxl, filter_concat_sub; done.
  - intros a Ha [Hax|Hal]%elem_of_app; [|by eapply Hdisj].
    eapply Hxl, filter_concat_sub; done.
Qed.

(** ** Stores that keep what is outside a region *)

Lemma pres_refl P h : closed h -> pres P h h.
Proof. done. Qed.

Lemma pres_trans P P' h0 h1 h2 :
  pres P h0 h1 -> pres P' h1 h2 ->
  (forall a, a < length h0 -> P' a -> P a) -> pres P h0 h2.
Proof.
  intros (_ & Hl1 & H1) (Hc & Hl2 & H2) HP. split_and!; [done | lia |].
  intros a Ha HPa. rewrite H2, H1; auto with lia.
Qed.

Lemma pres_mono P P' h0 h :
  pres P h0 h -> (forall a, a < length h0 -> P a -> P' a) -> pres P' h0 h.
Proof. intros (Hc & Hl & H) HP. split_and!; [done..|]. intros a Ha HPa. auto. Qed.

Lemma pres_alloc P h0 h o :
  pres P h0 h -> Forall (ref_in (length h)) (refs o) -> pres P h0 (h ++ [o]).
Proof.
  intros (Hc & Hl & H) Ho. split_and!; [by apply closed_app | |].
  - rewrite length_app. lia.
  - intros a Ha HPa. rewrite lookup_app_l by lia. auto.
Qed.

Lemma closed_insert h a o :
  closed h -> Forall (ref_in (length h)) (refs o) -> closed (<[a := o]> h).
Proof.
  unfold closed. intros Hc Ho. rewrite length_insert. by apply Forall_insert.
Qed.

Lemma pres_insert P h0 h a o :
  pres P h0 h -> (a < length h0 -> P a) ->
  Forall (ref_in (length h)) (refs o) -> pres P h0 (<[a := o]> h).
Proof.
  intros (Hc & Hl & H) Ha Ho. split_and!; [by apply closed_insert | |].
  - by rewrite length_insert.
  - intros b Hb HPb. rewrite list_lookup_insert_ne; [auto|]. intros ->. auto.
Qed.

(** A value whose footprint is outside the region that was written to is
    what it was. *)
Lemma within_pres P A n h0 h r v :
  within A n h0 r v -> pres P h0 h -> (forall a, A a -> ~ P a) ->
  within A n h r v.
Proof.
  intros [Hr HA] (_ & _ & H) HAP.
  destruct (reify_reach_frame n h0 h r) as [Hv Hf].
  { pose proof (repr_reach_lt _ _ _ _ Hr) as Hlt.
    eapply Forall_impl; [apply Forall_and; split; [exact HA | exact Hlt]|].
    intros a [Ha Hlta]. simpl. auto. }
  split; [unfold repr; by rewrite Hv | by rewrite Hf].
Qed.

(** ** The rules of the calculus *)

Lemma hsimP_bind {A B A' B'} P h0 (R : heap -> A -> B -> Prop)
    (R' : heap -> A' -> B' -> Prop) m f spec g h :
  hsimP P h0 R m spec h ->
  (forall h' a b, pres P h0 h' -> R h' a b -> hsimP P h0 R' (f a) (g b) h') ->
  hsimP P h0 R' (hbind m f) (rbind spec g) h.
Proof.
  unfold hsimP, hbind. destruct (m h) as [[a|e] h'], spec as [b|e']; simpl;
    intros [Hp Hs] Hf; try done; by apply Hf.
Qed.

Lemma hsimP_ret {A B} P h0 (R : heap -> A -> B -> Prop) a b h :
  pres P h0 h -> R h a b -> hsimP P h0 R (hret a) (Ok b) h.
Proof. done. Qed.

Lemma hsimP_raise {A B} P h0 (R : heap -> A -> B -> Prop) e h :
  pres P h0 h -> hsimP P h0 R (hraise e) (Err e) h.
Proof. done. Qed.

(** A procedure that was specified from the store it starts in. *)
Lemma hsimP_call {A B} P P' h0 (R : heap -> A -> B -> Prop) m spec h :
  pres P h0 h -> hsimP P' h R m spec h ->
  (forall a, a < length h0 -> P' a -> P a) -> hsimP P h0 R m spec h.
Proof. intros Hp [Hp' Hs] HP. split; [by eapply pres_trans | done]. Qed.

Lemma hsimP_impl {A B} P h0 (R R' : heap -> A -> B -> Prop) m spec h :
  hsimP P h0 R m spec h ->
  (forall h' a b, pres P h0 h' -> R h' a b -> R' h' a b) ->
  hsimP P h0 R' m spec h.
Proof. intros [Hp Hs] HR. split; [done|]. eapply sim_impl; [done|]. eauto. Qed.

(** ** Reading what is outside the region that is written to

    The values of the region [A] were read in the store [h0]; the
    computation writes to [P], which is apart from [A], so that in every
    store [pres P h0] allows they are read as in [h0]. *)

Section reads.
Context (P A : nat -> Prop) (n : nat) (h0 : heap).
Context (HAP : forall a, A a -> ~ P a).

Lemma pres_lookup h a o :
  pres P h0 h -> A a -> h0 !! a = Some o -> h !! a = Some o.
Proof.
  intros (_ & _ & H) Ha Ho. rewrite H; [done | by eapply lookup_lt_Some | auto].
Qed.

(** A reference stands for a dictionary, a list or an atom. *)
Lemma within_cases r v :
  within A n h0 r v ->
  (exists a d vd, r = RObj a /\ A a /\ h0 !! a = Some (ODict d) /\
                  v = VDict vd /\ dict_rel (within A n h0) d vd) \/
  (exists a l vl, r = RObj a /\ A a /\ h0 !! a = Some (OList l) /\
                  v = VList vl /\ Forall2 (within A n h0) l vl) \/
  ((forall a, r <> RObj a) /\ (forall vd, v <> VDict vd) /\
   (forall vl, v <> VList vl) /\ (forall s, r = RStr s <-> v = VStr s) /\
   (r = RNone <-> v = VNone)).
Proof.
  intros Hr. destruct r as [| | | |a].
  1-4: right; right; destruct Hr as [Hr _]; destruct n; injection Hr as <-;
    split_and!; try done; intros; split; congruence.
  destruct n as [|n']; [by destruct Hr|].
  apply within_obj in Hr as (Ha & o & Ho & Hrel).
  assert (Hup : forall x y, within A n' h0 x y -> within A (S n') h0 x y).
  { intros x y Hxy. eapply within_mono; [done | lia | done]. }
  destruct o as [d|l], v as [| | | |vl|vd]; try done; simpl in Hrel.
  - left. exists a, d, vd. split_and!; try done.
    eapply dict_rel_impl; [done|]. apply Forall_forall. auto.
  - right; left. exists a, l, vl. split_and!; try done.
    eapply Forall2_impl; [done|]. auto.
Qed.

Lemma getitem_h_P h r v k :
  pres P h0 h -> within A n h0 r v ->
  hsimP P h0 (fun h' x vx => h' = h /\ within A n h0 x vx)
        (getitem_h r k) (getitem v k) h.
Proof.
  intros Hp Hr. unfold hsimP, getitem_h.
  destruct (within_cases r v Hr)
    as [(a & d & vd & -> & Ha & Ho & -> & Hrel)|
        [(a & l & vl & -> & Ha & Ho & -> & Hrel)|(Hr' & Hd & _)]]; simpl.
  - rewrite (pres_lookup h a _ Hp Ha Ho). simpl. split; [done|].
    destruct (dict_get k d) as [x|] eqn:Hx.
    + by destruct (dict_rel_get_Some _ _ _ _ _ Hrel Hx) as (y & -> & Hy).
    + by rewrite (dict_rel_get_None _ _ _ _ Hrel Hx).
  - by rewrite (pres_lookup h a _ Hp Ha Ho).
  - destruct r as [| | | |a], v as [| | | | |vd]; simpl; try done;
      first [by destruct (Hr' a) | by destruct (Hd vd)].
Qed.

Lemma as_str_h_P h r v :
  pres P h0 h -> within A n h0 r v ->
  hsimP P h0 (fun h' s s' => h' = h /\ s = s') (as_str_h r) (as_str v) h.
Proof.
  intros Hp Hr. unfold hsimP.
  destruct (within_cases r v Hr)
    as [(a & d & vd & -> & _ & _ & -> & _)|
        [(a & l & vl & -> & _ & _ & -> & _)|(_ & _ & _ & Hs & _)]]; try done.
  destruct r as [| | |s|a]; simpl.
  4: { destruct (Hs s) as [-> _]; done. }
  all: destruct v as [| | |s| |]; try done;
    destruct (Hs s) as [_ Heq]; by specialize (Heq eq_refl).
Qed.

Lemma field_name_h_P h r v :
  pres P h0 h -> within A n h0 r v ->
  hsimP P h0 (fun h' s s' => h' = h /\ s = s') (field_name_h r) (field_name v) h.
Proof.
  intros Hp Hr. eapply hsimP_bind; [by apply getitem_h_P|].
  intros h' x vx _ [-> Hx]. by apply as_str_h_P.
Qed.

Lemma list_items_h_P h r v :
  pres P h0 h -> within A n h0 r v ->
  hsimP P h0 (fun h' l vl => h' = h /\ Forall2 (within A n h0) l vl)
        (list_items_h r) (as_list v) h.
Proof.
  intros Hp Hr. unfold hsimP, list_items_h.
  destruct (within_cases r v Hr)
    as [(a & d & vd & -> & Ha & Ho & -> & Hrel)|
        [(a & l & vl & -> & Ha & Ho & -> & Hrel)|(Hr' & _ & Hl & _)]]; simpl.
  - by rewrite (pres_lookup h a _ Hp Ha Ho).
  - by rewrite (pres_lookup h a _ Hp Ha Ho).
  - destruct r as [| | | |a], v as [| | | |vl|]; simpl; try done;
      first [by destruct (Hr' a) | by destruct (Hl vl)].
Qed.

Lemma dict_keys_h_P h r v :
  pres P h0 h -> within A n h0 r v ->
  hsimP P h0 (fun h' ks vd => h' = h /\ ks = dict_keys vd /\
                              within A n h0 r (VDict vd))
        (dict_keys_h r) (as_dict v) h.
Proof.
  intros Hp Hr. unfold hsimP, dict_keys_h.
  destruct (within_cases r v Hr)
    as [(a & d & vd & -> & Ha & Ho & -> & Hrel)|
        [(a & l & vl & -> & Ha & Ho & -> & Hrel)|(Hr' & Hd & _)]]; simpl.
  - rewrite (pres_lookup h a _ Hp Ha Ho). simpl. split_and!; try done.
    by eapply dict_rel_keys.
  - by rewrite (pres_lookup h a _ Hp Ha Ho).
  - destruct r as [| | | |a], v as [| | | | |vd]; simpl; try done;
      first [by destruct (Hr' a) | by destruct (Hd vd)].
Qed.

End reads.

Lemma within_pres_mono P A A' n m h0 h r v :
  within A n h0 r v -> pres P h0 h -> (forall a, A a -> ~ P a) ->
  n <= m -> (forall a, A a -> A' a) -> within A' m h r v.
Proof. intros. eapply within_mono; [by eapply within_pres | done..]. Qed.

Lemma dict_rel_within_pres P A A' n m h0 h d vd :
  dict_rel (within A n h0) d vd -> pres P h0 h -> (forall a, A a -> ~ P a) ->
  n <= m -> (forall a, A a -> A' a) -> dict_rel (within A' m h) d vd.
Proof.
  intros Hd Hp HAP Hnm HA. eapply dict_rel_impl; [done|].
  apply Forall_forall. intros kx _ y Hy. by eapply within_pres_mono.
Qed.

(** A value that is not written to, read later with more fuel. *)
Lemma repr_untouched P (R : nat -> Prop) n m h h' y vy :
  repr n h y vy -> pres P h h' -> n <= m ->
  (forall b, b ∈ reach n h y -> ~ P b /\ R b) -> within R m h' y vy.
Proof.
  intros Hy Hp Hnm HR.
  eapply within_pres_mono; [by apply repr_within | done | | done |];
    intros b Hb; by apply HR.
Qed.

(** ** An item of a dictionary of a tree *)

Lemma slot_reach_sub n h k d b :
  b ∈ slot_reach n h k d -> b ∈ concat (reach n h <$> d.*2).
Proof.
  unfold slot_reach. destruct (dict_get k d) as [x|] eqn:Hx;
    [|by intros ?%elem_of_nil].
  apply elem_of_reach_slot. apply dict_get_Some_elem in Hx.
  apply list_elem_of_fmap. by exists (k, x).
Qed.

Lemma NoDup_concat_elem {A} (ls : list (list A)) l :
  NoDup (concat ls) -> l ∈ ls -> NoDup l.
Proof.
  induction ls as [|l' ls IH]; simpl; [by intros _ ?%elem_of_nil|].
  intros (? & _ & ?)%NoDup_app [->|?]%elem_of_cons; auto.
Qed.

Lemma dict_slot n h d vd k x :
  dict_rel (repr n h) d vd -> NoDup (concat (reach n h <$> d.*2)) ->
  dict_get k d = Some x ->
  exists vx, dict_get k vd = Some vx /\ tree n h x vx.
Proof.
  intros Hd Hnd Hx.
  destruct (dict_rel_get_Some _ _ _ _ _ Hd Hx) as (vx & Hvx & Hr).
  exists vx. split; [done|]. split; [done|].
  eapply NoDup_concat_elem; [done|]. apply list_elem_of_fmap. exists x.
  split; [done|]. apply dict_get_Some_elem in Hx.
  apply list_elem_of_fmap. by exists (k, x).
Qed.

(** The dictionary after an assignment to the key [k], when what was
    written to in between lies in the footprint of the item [k]: the
    other items are what they were. *)
Lemma dict_rel_rebuild P (R : nat -> Prop) n m h h' k x' vx' d vd :
  dict_rel (repr n h) d vd -> NoDup (concat (reach n h <$> d.*2)) ->
  pres P h h' -> n <= m ->
  (forall b, b ∈ concat (reach n h <$> d.*2) ->
             R b /\ (P b -> b ∈ slot_reach n h k d)) ->
  within R m h' x' vx' ->
  dict_rel (within R m h') (dict_set k x' d) (dict_set k vx' vd).
Proof.
  intros Hd Hnd Hp Hnm HR Hx'.
  induction Hd as [|[k1 x1] [k2 v1] d vd [Hk Hx1] Hd IH]; simpl in *.
  { constructor; [by split | constructor]. }
  subst k2. apply NoDup_app in Hnd as (_ & Hdisj & Hnd).
  unfold slot_reach in HR. simpl in HR. case_decide; subst.
  - constructor; [done|]. eapply dict_rel_impl; [done|].
    apply Forall_forall. intros [ky y] Hy vy Hvy. simpl in *.
    eapply repr_untouched; [done..|]. intros b Hb.
    assert (Hbd : b ∈ concat (reach n h <$> d.*2)).
    { eapply elem_of_reach_slot; [|done]. apply list_elem_of_fmap. by exists (ky, y). }
    destruct (HR b) as [HRb HPb]; [apply elem_of_app; by right|].
    split; [|done]. intros Hb'%HPb. by eapply Hdisj.
  - constructor.
    + split; [done|]. simpl. eapply repr_untouched; [done..|]. intros b Hb.
      destruct (HR b) as [HRb HPb]; [apply elem_of_app; by left|].
      split; [|done]. intros Hb'%HPb. eapply Hdisj; [done|].
      by eapply slot_reach_sub.
    + apply IH; [done|]. intros b Hb. apply HR, elem_of_app. by right.
Qed.

Lemma hsimP_alloc {A B} P h0 (R : heap -> A -> B -> Prop) o f spec h :
  hsimP P h0 R (f (RObj (length h))) spec (h ++ [o]) ->
  hsimP P h0 R (hbind (alloc o) f) spec h.
Proof. done. Qed.

Lemma setitem_h_eq h a d k x :
  h !! a = Some (ODict d) ->
  setitem_h (RObj a) k x h = (Ok tt, <[a := ODict (dict_set k x d)]> h).
Proof. unfold setitem_h. by intros ->. Qed.

(** ** One pivoted field (lines 50-58) *)

Section pivot.
Context `{E : RegexEngine}.
Context (A C : nat -> Prop) (n : nat) (h : heap) (re : pattern).
Context (af : nat) (df : dict ref) (vdf : dict value).
Context (Hf : h !! af = Some (ODict df)).
Context (Hdf : dict_rel (within A n h) df vdf).
Context (HA : ~ A af) (HC : ~ C af).

Local Abbreviation inv := (keys_inv C n h af df vdf).

Lemma field_name_h_pivot nk h' st :
  pres (.= af) h h' -> inv nk h' st ->
  hsimP (.= af) h (fun h'' s s' => h'' = h' /\ s = s')
        (field_name_h (RObj af)) (field_name st.2) h'.
Proof.
  intros Hp [_ Hinv].
  assert (Hname : exists d vd, h' !! af = Some (ODict d) /\ st.2 = VDict vd /\
            dict_get "name" d = dict_get "name" df /\
            dict_get "name" vd = dict_get "name" vdf).
  { destruct Hinv as [[? ?]|[? ?]]; do 2 eexists; split_and!; try done;
      by apply dict_get_set_ne. }
  destruct Hname as (d & vd & Hd & -> & Hn & Hvn).
  unfold hsimP, field_name_h, field_name, hbind, getitem_h. simpl.
  rewrite Hd, Hn, Hvn. simpl.
  destruct (dict_get "name" df) as [x|] eqn:Hx.
  - destruct (dict_rel_get_Some _ _ _ _ _ Hdf Hx) as (y & -> & Hy). simpl.
    by apply (as_str_h_P (.= af) A n h).
  - by rewrite (dict_rel_get_None _ _ _ _ Hdf Hx).
Qed.

Lemma resolve_key_h_sim nk h' st x vx :
  pres (.= af) h h' -> inv nk h' st -> within C n h x vx ->
  hsimP (.= af) h (fun h'' y vy => h'' = h' /\ within C n h y vy)
        (resolve_key_h re (RObj af) x) (resolve_key re st.2 vx) h'.
Proof.
  intros Hp Hinv Hx.
  destruct (within_cases C n h x vx Hx)
    as [(a & d & vd & -> & _ & _ & -> & _)|
        [(a & l & vl & -> & _ & _ & -> & _)|(Hr & _ & _ & Hs & _)]];
    try by apply hsimP_ret.
  destruct x as [| | |t|a].
  5: by destruct (Hr a).
  4: { destruct (Hs t) as [Heq _]. specialize (Heq eq_refl) as ->. simpl.
       eapply hsimP_bind; [by eapply field_name_h_pivot|].
       intros h'' s s' Hp' [-> ->]. unfold hsimP, hbind, hlift. simpl.
       destruct (re_sub re t s'); simpl; [|done]. split_and!; try done.
       apply within_atom; [done | by destruct n]. }
  all: destruct vx as [| | |t| |]; try (by apply hsimP_ret);
    destruct (Hs t) as [_ Heq]; by specialize (Heq eq_refl).
Qed.

Lemma resolve_keys_step_h_sim nk okv vokv key h' st :
  length h <= nk -> within C n h okv (VDict vokv) ->
  pres (.= af) h h' -> inv nk h' st ->
  hsimP (.= af) h (fun h'' _ st' => inv nk h'' st')
        (resolve_keys_step_h re okv (RObj nk) (RObj af) key)
        (resolve_keys_step re vokv st key) h'.
Proof.
  intros Hnk Hokv Hp Hinv. unfold resolve_keys_step_h, resolve_keys_step.
  eapply hsimP_bind.
  { by apply (getitem_h_P (.= af) C n h (fun a Ha Heq => HC (eq_ind _ C Ha _ Heq))
                h' okv (VDict vokv) key). }
  intros h1 x vx _ [-> Hx].
  eapply hsimP_bind; [by eapply resolve_key_h_sim|].
  intros h1 y vy _ [-> Hy].
  assert (Haf : af < length h) by (by eapply lookup_lt_Some).
  destruct Hinv as [(dk & Hdk & Hrel) Hinv], Hp as (Hc & Hl & Hp).
  assert (Hy' : ref_in (length h') y).
  { eapply ref_in_mono; [eapply repr_ref_in, Hy | done]. }
  assert (Hin : exists d vd, h' !! af = Some (ODict d) /\ st.2 = VDict vd /\
            dict_set "keys" (RObj nk) d = dict_set "keys" (RObj nk) df /\
            forall w, dict_set "keys" w vd = dict_set "keys" w vdf).
  { destruct Hinv as [[? ?]|[? ?]]; do 2 eexists; split_and!; try done;
      intros; by rewrite dict_set_set. }
  destruct Hin as (d & vd & Hd & Hst & Hset & Hvset).
  assert (Hcl : Forall (ref_in (length h')) (dict_set "keys" (RObj nk) d).*2).
  { apply Forall_dict_set_values; [simpl; by eapply lookup_lt_Some|].
    by apply (closed_lookup h' af (ODict d)). }
  rewrite Hset in Hcl.
  unfold hsimP, hbind. rewrite (setitem_h_eq _ _ _ _ _ Hdk).
  erewrite setitem_h_eq; [|rewrite list_lookup_insert_ne by lia; exact Hd].
  rewrite Hst, Hset. simpl. rewrite Hvset. split.
  - split_and!.
    + apply closed_insert; [apply closed_insert; [done|]|].
      * apply Forall_dict_set_values; [done|].
        by apply (closed_lookup h' nk (ODict dk)).
      * by rewrite length_insert.
    + by rewrite !length_insert.
    + intros a Ha Hne. rewrite !list_lookup_insert_ne by (try done; lia). auto.
  - split.
    + exists (dict_set key y dk). simpl. split; [|by apply dict_rel_set].
      rewrite list_lookup_insert_ne by lia. apply list_lookup_insert_eq.
      by eapply lookup_lt_Some.
    + right. split; [|done]. apply list_lookup_insert_eq.
      rewrite length_insert. lia.
Qed.

Lemma keys_loop_sim nk okv vokv keys :
  length h <= nk -> within C n h okv (VDict vokv) ->
  forall h' st, pres (.= af) h h' -> inv nk h' st ->
  hsimP (.= af) h (fun h'' _ st' => inv nk h'' st')
        (hfor keys (resolve_keys_step_h re okv (RObj nk) (RObj af)))
        (foldM (resolve_keys_step re vokv) st keys) h'.
Proof.
  intros Hnk Hokv. induction keys as [|key keys IH]; intros h' st Hp Hinv; simpl.
  - by apply hsimP_ret.
  - eapply hsimP_bind; [by apply resolve_keys_step_h_sim|].
    intros h'' [] st' Hp' Hinv'. by apply IH.
Qed.

(** The field object after the loop: its items are within what they
    were within, its [keys] are the new dictionary. *)
Lemma keys_inv_within nk h' st :
  length h <= nk -> pres (.= af) h h' -> inv nk h' st ->
  within (fun a => a = af \/ A a \/ C a \/ length h <= a) (S (S n)) h'
         (RObj af) st.2.
Proof.
  intros Hnk Hp [(dk & Hdk & Hrel) Hinv].
  assert (Hdf' : dict_rel (within (fun a => a = af \/ A a \/ C a \/ length h <= a)
                             (S n) h') df vdf).
  { eapply dict_rel_within_pres; [done.. | | lia | tauto]. by intros a ? ->. }
  apply within_obj. split; [by left|].
  destruct Hinv as [[Hd ->]|[Hd ->]]; eexists; (split; [done|]); [done|].
  apply dict_rel_set; [done|]. apply within_obj. split; [tauto|].
  eexists. split; [done|].
  eapply dict_rel_within_pres; [done.. | | lia | tauto]. by intros a ? ->.
Qed.

Lemma pivot_field_h_sim u_field vuf :
  closed h -> within C n h u_field vuf ->
  hsimP (.= af) h
        (fun h' f vf =>
           f = RObj af /\
           within (fun a => a = af \/ A a \/ C a \/ length h <= a) (S (S n)) h' f vf)
        (pivot_field_h u_field re (RObj af)) (pivot_field vuf re (VDict vdf)) h.
Proof.
  intros Hc Huf. unfold pivot_field_h, pivot_field.
  assert (HCP : forall a, C a -> a <> af) by (by intros a ? ->).
  eapply hsimP_bind;
    [apply (getitem_h_P (.= af) C n h HCP); [by apply pres_refl | done]|].
  intros h1 okv vokv _ [-> Hokv]. apply hsimP_alloc.
  assert (Hp : pres (.= af) h (h ++ [ODict []])).
  { apply pres_alloc; [by apply pres_refl | constructor]. }
  eapply hsimP_bind; [by apply (dict_keys_h_P (.= af) C n h HCP)|].
  intros h1 ks vd _ (-> & -> & Hd).
  eapply hsimP_bind.
  { apply (keys_loop_sim (length h) okv vd); [done.. |]. split.
    - exists []. split; [by apply list_lookup_middle | constructor].
    - left. split; [|done]. rewrite lookup_app_l; [done | by eapply lookup_lt_Some]. }
  intros h' [] st Hp' Hinv. apply hsimP_ret; [done|].
  split; [done|]. by apply (keys_inv_within (length h)).
Qed.

End pivot.

(** ** One specification (lines 39-59) *)

Lemma hsimP_frame {A B} P h0 (R : heap -> A -> B -> Prop) m spec h :
  hsimP P h0 R m spec h ->
  hsimP P h0 (fun h' a b => pres P h0 h' /\ R h' a b) m spec h.
Proof. intros [Hp Hs]. split; [done|]. eapply sim_impl; [done|]. auto. Qed.

(** A step that leaves the store as it is. *)
Lemma hsimP_read {A B} P h0 (R : A -> B -> Prop) m spec h :
  pres P h0 h -> (m h).2 = h -> sim R (m h).1 spec ->
  hsimP P h0 (fun h' a b => h' = h /\ R a b) m spec h.
Proof.
  intros Hp Hh Hs. split; [by rewrite Hh|]. eapply sim_impl; [done|].
  by intros a b ?.
Qed.

(** A step of the code on the store only. *)
Lemma hsimP_step {A B C} P h0 (R : heap -> B -> C -> Prop) (m : heapM A) f a
    spec h :
  m h = (Ok a, h) -> hsimP P h0 R (f a) spec h ->
  hsimP P h0 R (hbind m f) spec h.
Proof. unfold hsimP, hbind. by intros ->. Qed.

Lemma repr_dict n h x vd :
  repr n h x (VDict vd) ->
  exists a d, x = RObj a /\ h !! a = Some (ODict d) /\ dict_rel (repr n h) d vd.
Proof.
  intros Hx. destruct (within_cases (fun _ => True) n h x (VDict vd))
    as [(a & d & vd' & -> & _ & Ho & [= <-] & Hrel)|
        [(a & l & vl & _ & _ & _ & ? & _)|(_ & Hd & _)]];
    [split; [done | by apply Forall_forall] | | done | by destruct (Hd vd)].
  exists a, d. split_and!; try done. eapply dict_rel_impl; [done|].
  apply Forall_forall. by intros kx _ y [? _].
Qed.

Section spec.
Context `{E : RegexEngine}.

Lemma field_name_h_heap x h : (field_name_h x h).2 = h.
Proof.
  unfold field_name_h, hbind, getitem_h.
  destruct (deref h x) as [[d|l]|]; simpl; try done.
  destruct (dict_get "name" d) as [[]|]; done.
Qed.

Lemma field_name_h_repr n h x v :
  closed h -> repr n h x v -> sim eq (field_name_h x h).1 (field_name v).
Proof.
  intros Hc Hx.
  destruct (field_name_h_P (fun _ => False) (fun _ => True) n h
              (fun _ _ H => H) h x v) as [_ Hs];
    [done | split; [done | by apply Forall_forall] |].
  eapply sim_impl; [done|]. by intros s s' [_ ?].
Qed.

Lemma name_matches_h_repr re n h x v :
  closed h -> repr n h x v -> name_matches_h re h x = name_matches re v.
Proof.
  intros Hc Hx. pose proof (field_name_h_repr n h x v Hc Hx) as Hs.
  unfold name_matches_h, name_matches.
  destruct (field_name_h x h).1, (field_name v); simpl in Hs; by subst.
Qed.

Lemma match_fields_h_eq re b x h :
  match_fields_h re b x h =
  (rmap (fun s => Bool.eqb (re_fullmatch re s) b) (field_name_h x h).1, h).
Proof.
  unfold match_fields_h, hbind. pose proof (field_name_h_heap x h) as Hh.
  destruct (field_name_h x h) as [[s|e] h1]; simpl in *; by subst.
Qed.

(** [list(filter(match_fields(field_name_re, expected), fields))] *)
Lemma hfilterM_sim re b n h l vl :
  closed h -> Forall2 (repr n h) l vl ->
  (hfilterM (match_fields_h re b) l h).2 = h /\
  sim (fun l' vl' =>
         l' = List.filter (fun x => Bool.eqb (name_matches_h re h x) b) l /\
         vl' = List.filter (fun v => Bool.eqb (name_matches re v) b) vl /\
         Forall (fun v => is_field v = true) vl)
      (hfilterM (match_fields_h re b) l h).1 (filterM (match_fields re b) vl).
Proof.
  intros Hc. induction 1 as [|x v l vl Hx _ [IHh IH]]; [done|].
  pose proof (field_name_h_repr n h x v Hc Hx) as Hs.
  cbn [hfilterM filterM List.filter]. unfold hbind.
  rewrite match_fields_h_eq. unfold match_fields at 1.
  destruct (field_name_h x h).1 as [s|e] eqn:Hn;
    destruct (field_name v) as [s'|e'] eqn:Hv; simpl in Hs; try done; subst.
  assert (Hm : name_matches_h re h x = re_fullmatch re s')
    by (unfold name_matches_h; by rewrite Hn).
  rewrite Hm, (name_matches_field re v s' Hv). simpl.
  destruct (hfilterM (match_fields_h re b) l h) as [[l'|e] h1];
    simpl in IHh; subst h1;
    destruct (filterM (match_fields re b) vl) as [vl'|e']; simpl in *; try done.
  destruct IH as (-> & -> & Hf). split_and!; try done.
  constructor; [|done]. unfold is_field. by rewrite Hv.
Qed.

Lemma Forall2_filter_bool {A B} (R : A -> B -> Prop) p q l k :
  Forall2 R l k -> (forall x y, R x y -> p x = q y) ->
  Forall2 R (List.filter p l) (List.filter q k).
Proof.
  intros H Hpq. induction H as [|x y l k Hxy _ IH]; simpl; [constructor|].
  rewrite <- (Hpq x y Hxy). destruct (p x); [by constructor | done].
Qed.

Lemma Forall_filter_bool {A} (P : A -> Prop) p l :
  Forall P l -> Forall P (List.filter p l).
Proof.
  induction 1 as [|x l Hx _ IH]; simpl; [constructor|].
  destruct (p x); [by constructor | done].
Qed.

(** The matched and the other fields of a list of trees: trees that
    share nothing. *)
Lemma partition_trees re n h cur vcur :
  closed h -> trees n h cur vcur ->
  trees n h (List.filter (fun x => Bool.eqb (name_matches_h re h x) true) cur)
            (List.filter (fun v => Bool.eqb (name_matches re v) true) vcur) /\
  trees n h (List.filter (fun x => Bool.eqb (name_matches_h re h x) false) cur)
            (List.filter (fun v => Bool.eqb (name_matches re v) false) vcur) /\
  forall a,
    a ∈ concat (reach n h <$>
                  List.filter (fun x => Bool.eqb (name_matches_h re h x) true) cur) ->
    a ∉ concat (reach n h <$>
                  List.filter (fun x => Bool.eqb (name_matches_h re h x) false) cur).
Proof.
  intros Hc [Hl Hnd].
  assert (Hf : forall b,
    Forall2 (repr n h)
      (List.filter (fun x => Bool.eqb (name_matches_h re h x) b) cur)
      (List.filter (fun v => Bool.eqb (name_matches re v) b) vcur)).
  { intros b. eapply Forall2_filter_bool; [done|]. intros x v Hx. cbv beta.
    by rewrite (name_matches_h_repr re n h x v). }
  rewrite !filter_eqb_true, !filter_eqb_false in *.
  destruct (trees_filter (reach n h) (name_matches_h re h) cur Hnd) as [Hp Hd].
  destruct (trees_filter (reach n h) (fun x => negb (name_matches_h re h x)) cur Hnd)
    as [Hk _].
  pose proof (Hf true) as Ht. pose proof (Hf false) as Hfa.
  rewrite !filter_eqb_true in Ht. rewrite !filter_eqb_false in Hfa.
  split_and!; [by split | by split | done].
Qed.

(** A field of the schema that has a name is a dictionary object. *)
Lemma field_obj n h x v :
  tree n h x v -> is_field v = true ->
  exists a d vd, x = RObj a /\ v = VDict vd /\ h !! a = Some (ODict d) /\
    dict_rel (within (.∈ concat (reach n h <$> d.*2)) n h) d vd /\
    (a ∉ concat (reach n h <$> d.*2)) /\
    reach n h x = a :: concat (reach n h <$> d.*2).
Proof.
  intros Hx [s (vd & -> & _)%field_name_ok]%is_field_name.
  destruct (repr_dict n h x vd) as (a & d & -> & Ho & _); [apply Hx|].
  destruct (tree_obj n h a (VDict vd) Hx) as (o & Ho' & Hrel & Ha & _).
  simplify_eq. exists a, d, vd. split_and!; try done.
  - by apply (repr_slots n h (ODict d) (VDict vd)).
  - eapply (reach_obj_slots n h a (ODict d)); [apply Hx | done].
Qed.

Section loop.
Context (C : nat -> Prop) (n : nat) (re : pattern) (u_field : ref) (vuf : value).

(** Lines 50-58 on a field that is a tree: only its footprint is written
    to. *)
Lemma pivot_field_h_tree x v h :
  closed h -> tree n h x v -> is_field v = true ->
  within C n h u_field vuf -> (forall a, C a -> a ∉ reach n h x) ->
  hsimP (.∈ reach n h x) h
        (fun h' f vf =>
           f = x /\
           within (fun a => a ∈ reach n h x \/ C a \/ length h <= a) (S (S n)) h' f vf)
        (pivot_field_h u_field re x) (pivot_field vuf re v) h.
Proof.
  intros Hc Hx Hv Hu HC.
  destruct (field_obj n h x v Hx Hv) as (a & d & vd & -> & -> & Ho & Hd & Ha & Heq).
  rewrite Heq in *.
  eapply hsimP_call; [by apply pres_refl | |].
  - eapply hsimP_impl.
    { eapply (pivot_field_h_sim _ C n h re a d vd Ho Hd Ha); [|done..].
      intros HCa. eapply HC; [done | by left]. }
    intros h' f vf _ [-> Hf]. split; [done|].
    eapply within_mono; [done | lia |]. intros b. rewrite elem_of_cons. tauto.
  - intros b _ Hb. cbv beta in Hb. subst b. left.
Qed.

(** Line 49: the loop over the matched fields. *)
Lemma pivot_loop_sim l : forall vl h,
  closed h -> trees n h l vl -> Forall (fun v => is_field v = true) vl ->
  within C n h u_field vuf ->
  (forall a, C a -> a ∉ concat (reach n h <$> l)) ->
  hsimP (.∈ concat (reach n h <$> l)) h
        (fun h' ys vys =>
           ys = l /\
           Forall2 (within (fun a => a ∈ concat (reach n h <$> l) \/ C a \/
                                     length h <= a) (S (S n)) h') ys vys)
        (hmapM (pivot_field_h u_field re) l) (mapM (pivot_field vuf re) vl) h.
Proof.
  induction l as [|x l IH]; intros vl h Hc Ht Hf Hu HC.
  { destruct Ht as [->%Forall2_nil_inv_l _]. by apply hsimP_ret; [apply pres_refl|]. }
  destruct vl as [|v vl]; [by destruct Ht as [?%Forall2_cons_nil_inv _]|].
  pose proof Ht as Ht0.
  apply trees_cons in Ht as (Hx & Htl & Hdisj).
  apply Forall_cons in Hf as [Hfv Hfl]. cbn [hmapM mapM].
  assert (Hsub : forall b, b ∈ reach n h x \/ b ∈ concat (reach n h <$> l) ->
                           b ∈ concat (reach n h <$> x :: l)).
  { intros b Hb. rewrite fmap_cons. simpl. by apply elem_of_app. }
  eapply hsimP_bind.
  { eapply hsimP_call; [by apply pres_refl | |].
    - apply hsimP_frame, pivot_field_h_tree; try done.
      intros b Hb Hbx. eapply HC; eauto.
    - intros b _ ?. apply Hsub. by left. }
  intros h1 f vf _ (Hp1 & -> & Hf1).
  destruct (trees_pres _ n h h1 l vl Htl Hp1) as [Htl1 Heq].
  { intros b Hb Hbx. by eapply Hdisj. }
  assert (Heq' : concat (reach n h1 <$> l) = concat (reach n h <$> l))
    by (by rewrite Heq).
  eapply hsimP_bind.
  { eapply hsimP_call;
      [eapply pres_mono; [exact Hp1 | by intros b _ ?; apply Hsub; left] | |].
    - apply hsimP_frame, IH; try done; [apply Hp1 | |].
      + eapply within_pres; [done..|]. intros b Hb Hbx. eapply HC; eauto.
      + intros b Hb. rewrite Heq'. intros Hbl. eapply HC; eauto.
    - intros b _ Hb. apply Hsub. right. by rewrite <- Heq'. }
  intros h2 ys vys Hp (Hp2 & -> & Hys). apply hsimP_ret; [done|].
  split; [done|]. constructor.
  - eapply within_mono; [eapply within_pres; [apply within_lt, Hf1 | exact Hp2 |] |
                         lia | intros b [? _]; naive_solver].
    intros b [[Hb|[Hb|Hb]] Hlt]; rewrite Heq'; intros Hbl.
    + by eapply Hdisj.
    + eapply HC; eauto.
    + pose proof (trees_lt n h l vl b Htl Hbl). lia.
  - eapply Forall2_impl; [done|]. intros y vy Hy.
    eapply within_mono; [done | lia |]. rewrite Heq'.
    destruct Hp1 as (_ & Hl & _). intros b [?|[?|?]]; auto with lia.
Qed.

End loop.

Lemma hsimP_lift {A B C} P h0 (R : heap -> B -> C -> Prop) (r : result A) f g h :
  pres P h0 h -> (forall a, r = Ok a -> hsimP P h0 R (f a) (g a) h) ->
  hsimP P h0 R (hbind (hlift r) f) (rbind r g) h.
Proof. intros Hp Hf. destruct r as [a|e]; [by apply Hf | done]. Qed.

(** Lines 41-46: [list(filter(match_fields(re, b), fields))] reads the
    working list and the names of the fields. *)
Lemma hsimP_filter {B B'} P h0 re b n h fa cur vcur (R : heap -> B -> B' -> Prop)
    (f : list ref -> heapM B) (g : list value -> result B') :
  closed h -> pres P h0 h -> h !! fa = Some (OList cur) ->
  Forall2 (repr n h) cur vcur ->
  (Forall (fun v => is_field v = true) vcur ->
   hsimP P h0 R
     (f (List.filter (fun x => Bool.eqb (name_matches_h re h x) b) cur))
     (g (List.filter (fun v => Bool.eqb (name_matches re v) b) vcur)) h) ->
  hsimP P h0 R
    (hbind (list_items_h (RObj fa))
           (fun l => hbind (hfilterM (match_fields_h re b) l) f))
    (rbind (filterM (match_fields re b) vcur) g) h.
Proof.
  intros Hc Hp Hfa Hl Hf.
  eapply hsimP_step; [unfold list_items_h; simpl; by rewrite Hfa|].
  destruct (hfilterM_sim re b n h cur vcur Hc Hl) as [Hh Hs].
  eapply hsimP_bind; [by apply hsimP_read|].
  intros h1 ys vys _ (-> & -> & -> & Hfl). by apply Hf.
Qed.

(** Lines 39-59.  The working list is replaced by a new list object; the
    fields that are left in it are as they were, the matched fields are
    resolved in place. *)
Lemma resolve_spec_h_sim C n fa cur vcur pv vpv u_field vuf h :
  closed h -> h !! fa = Some (OList cur) -> trees n h cur vcur ->
  within C n h u_field vuf ->
  (forall a, C a -> a ∉ concat (reach n h <$> cur)) ->
  hsimP (.∈ concat (reach n h <$> cur)) h
    (fun h' st vst =>
       exists kept pivoted vpivoted,
         st = (RObj (length h), pv ++ pivoted) /\ vst.2 = vpv ++ vpivoted /\
         h' !! length h = Some (OList kept) /\ trees n h' kept vst.1 /\
         (forall a, a ∈ concat (reach n h' <$> kept) ->
                    a ∈ concat (reach n h <$> cur)) /\
         Forall2 (within (fun a => (a ∈ concat (reach n h <$> cur) /\
                                    a ∉ concat (reach n h' <$> kept)) \/
                                   C a \/ length h < a) (S (S n)) h')
                 pivoted vpivoted)
    (resolve_spec_h (RObj fa, pv) u_field) (resolve_spec (vcur, vpv) vuf) h.
Proof.
  intros Hc Hfa Ht Hu HC. unfold resolve_spec_h, resolve_spec. cbn [fst snd].
  pose proof (pres_refl (.∈ concat (reach n h <$> cur)) h Hc) as Hp0.
  eapply hsimP_bind; [by apply (getitem_h_P _ C n h HC)|].
  intros h1 x vx _ [-> Hx].
  eapply hsimP_bind; [by apply (as_str_h_P _ C n h)|].
  intros h1 s s' _ [-> ->]. apply hsimP_lift; [done|]. intros re Hre.
  eapply (hsimP_filter _ _ re true n); [done.. | apply Ht |]. intros Hf.
  eapply (hsimP_filter _ _ re false n); [done.. | apply Ht |]. intros _.
  apply hsimP_alloc.
  destruct (partition_trees re n h cur vcur Hc Ht) as (Htp & Htk & Hdisj).
  set (piv := List.filter (fun x => Bool.eqb (name_matches_h re h x) true) cur) in *.
  set (kept := List.filter (fun x => Bool.eqb (name_matches_h re h x) false) cur) in *.
  assert (Hp1 : pres (fun _ => False) h (h ++ [OList kept])).
  { apply pres_alloc; [by apply pres_refl|]. apply Forall_filter_bool.
    by apply (closed_lookup h fa (OList cur)). }
  destruct (trees_pres _ n h _ piv _ Htp Hp1) as [Htp1 Heqp]; [by intros ? _ []|].
  destruct (trees_pres _ n h _ kept _ Htk Hp1) as [Htk1 Heqk]; [by intros ? _ []|].
  eapply hsimP_bind.
  { eapply hsimP_call; [eapply pres_mono; [exact Hp1 | by intros ? _ []] | |].
    - apply hsimP_frame, (pivot_loop_sim C n re u_field vuf piv);
        [apply Hp1 | done | by apply Forall_filter_bool | |].
      + eapply within_pres; [done..|]. by intros ? _ [].
      + rewrite Heqp. intros a Ha Hin. eapply HC, filter_concat_sub; done.
    - intros b _ Hin. rewrite Heqp in Hin. by eapply filter_concat_sub. }
  intros h2 ys vys Hp (Hp2 & -> & Hys). apply hsimP_ret; [done|].
  destruct (trees_pres _ n _ h2 kept _ Htk1 Hp2) as [Htk2 Heqk2].
  { intros a Ha Hin. rewrite Heqk in Ha. rewrite Heqp in Hin. by eapply Hdisj. }
  exists kept, piv, vys. cbn [fst snd]. rewrite Heqk2, Heqk. split_and!; try done.
  - destruct Hp2 as (_ & _ & H2). rewrite H2.
    + by apply list_lookup_middle.
    + rewrite length_app. simpl. lia.
    + rewrite Heqp. intros Hin%(trees_lt n h piv _ _ Htp). lia.
  - intros a Ha. by eapply filter_concat_sub.
  - eapply Forall2_impl; [done|]. intros y vy Hy.
    eapply within_mono; [done | lia |]. rewrite Heqp, length_app. simpl.
    intros a [Ha|[?|?]]; [left | auto | right; right; lia].
    split; [by eapply filter_concat_sub | by apply Hdisj].
Qed.

(** A field that an earlier specification resolved is not written to
    by the later ones: they write to the fields that were left, and it is
    none of the lists they create. *)
Lemma earlier_pivot_kept C n h h1 h2 cur vcur kept1 kept2 fa2 y vy :
  trees n h cur vcur ->
  (forall a, C a -> a < length h /\ a ∉ concat (reach n h <$> cur)) ->
  length h <= length h1 ->
  (forall a, a ∈ concat (reach n h1 <$> kept1) -> a ∈ concat (reach n h <$> cur)) ->
  pres (.∈ concat (reach n h1 <$> kept1)) h1 h2 ->
  (forall a, a ∈ concat (reach n h2 <$> kept2) ->
             a ∈ concat (reach n h1 <$> kept1)) ->
  fa2 = length h \/ length h1 <= fa2 ->
  within (fun a => (a ∈ concat (reach n h <$> cur) /\
                    a ∉ concat (reach n h1 <$> kept1)) \/ C a \/ length h < a)
         (S (S n)) h1 y vy ->
  within (fun a => ((a ∈ concat (reach n h <$> cur) /\
                     a ∉ concat (reach n h2 <$> kept2)) \/ C a \/ length h <= a) /\
                   a <> fa2)
         (S (S n)) h2 y vy.
Proof.
  intros Ht HC Hl1 Hsub1 Hp2 Hsub2 Hfa2 Hy.
  eapply within_mono; [eapply within_pres; [apply within_lt, Hy | exact Hp2 |] | lia |].
  - intros a [[[Ha Hna]|[Ha|Ha]] Hlt] Hin; [done | by eapply HC, Hsub1 |].
    apply Hsub1, (trees_lt n h cur vcur) in Hin; [lia | done].
  - intros a [Ha Hlt]. split.
    + destruct Ha as [[Ha Hna]|[Ha|Ha]];
        [left; split; [done | by intros ?%Hsub2] | auto | right; right; lia].
    + destruct Hfa2 as [->|?]; [|lia].
      destruct Ha as [[Ha _]|[Ha|Ha]]; [|destruct (HC a Ha); lia | lia].
      apply (trees_lt n h cur vcur) in Ha; [lia | done].
Qed.

(** Line 39: the loop over the specifications.  The fields that are left
    are trees within the footprint of the fields the loop started with;
    the resolved fields reach neither them nor the working list. *)
Lemma resolve_specs_h_sim C n ufs : forall vufs fa cur vcur pv vpv h,
  closed h -> h !! fa = Some (OList cur) -> trees n h cur vcur ->
  Forall2 (within C n h) ufs vufs ->
  (forall a, C a -> a < length h /\ a ∉ concat (reach n h <$> cur)) ->
  hsimP (.∈ concat (reach n h <$> cur)) h
    (fun h' st vst =>
       exists fa' kept pivoted vpivoted,
         st = (RObj fa', pv ++ pivoted) /\ vst.2 = vpv ++ vpivoted /\
         (fa' = fa \/ length h <= fa') /\
         h' !! fa' = Some (OList kept) /\ trees n h' kept vst.1 /\
         (forall a, a ∈ concat (reach n h' <$> kept) ->
                    a ∈ concat (reach n h <$> cur)) /\
         Forall2 (within (fun a => ((a ∈ concat (reach n h <$> cur) /\
                                     a ∉ concat (reach n h' <$> kept)) \/
                                    C a \/ length h <= a) /\ a <> fa')
                         (S (S n)) h')
                 pivoted vpivoted)
    (hfoldM resolve_spec_h (RObj fa, pv) ufs)
    (foldM resolve_spec (vcur, vpv) vufs) h.
Proof.
  induction ufs as [|u ufs IH]; intros vufs fa cur vcur pv vpv h Hc Hfa Ht Hu HC.
  { apply Forall2_nil_inv_l in Hu as ->. apply hsimP_ret; [by apply pres_refl|].
    exists fa, cur, [], []. rewrite !app_nil_r. split_and!; auto. }
  destruct vufs as [|vu vufs]; [by apply Forall2_cons_nil_inv in Hu|].
  apply Forall2_cons in Hu as [Hu Hus]. cbn [hfoldM foldM].
  eapply hsimP_bind.
  { apply hsimP_frame, (resolve_spec_h_sim C n fa cur vcur pv vpv); try done.
    intros a Ha. by apply HC. }
  intros h1 st1 [vk1 vp1] Hp
    (Hp1 & kept1 & piv1 & vpiv1 & -> & Hv1 & Hk1 & Htk1 & Hsub1 & Hpiv1).
  cbn [fst snd] in *. subst vp1.
  eapply hsimP_impl; [eapply hsimP_call; [exact Hp | |]|].
  - apply hsimP_frame, (IH vufs (length h) kept1 vk1 (pv ++ piv1) (vpv ++ vpiv1));
      [apply Hp1 | done.. | |].
    + eapply Forall2_impl; [done|]. intros x v Hx.
      eapply within_pres; [done..|]. intros a Ha. by apply HC.
    + intros a Ha. destruct (HC a Ha) as [Hlt Hna], Hp1 as (_ & Hl & _).
      split; [lia | auto].
  - intros a _ Ha. by apply Hsub1.
  - intros h2 st2 vst2 _
      (Hp2 & fa2 & kept2 & piv2 & vpiv2 & -> & Hv2 & Hfa2 & Hk2 & Htk2 & Hsub2 & Hpiv2).
    destruct Hp1 as (_ & Hl1 & _).
    exists fa2, kept2, (piv1 ++ piv2), (vpiv1 ++ vpiv2).
    rewrite !app_assoc. split_and!; try done; [lia | auto |].
    apply Forall2_app.
    + eapply Forall2_impl; [exact Hpiv1|]. intros y vy.
      by apply (earlier_pivot_kept C n h h1 h2 cur vcur kept1 kept2).
    + eapply Forall2_impl; [done|]. intros y vy Hy.
      eapply within_mono; [done | lia |].
      intros a [[[Ha Hna]|[Ha|Ha]] Hne]; (split; [|done]);
        [left; split; [by apply Hsub1 | done] | auto | right; right; lia].
Qed.

(** ** One table (lines 29-64) *)

Lemma resolve_resource_split m ufs eks ev st resource :
  resolve_resource m ufs eks ev st resource =
  (o <- table_fields m resource ;;
   match o with
   | None => Ok (resource, st)
   | Some (schema, fields) =>
       p <- foldM resolve_spec (fields, unpivot_fields_without_regex st) ufs ;;
       q <- install_fields schema p.1 eks ev ;;
       resource <- setitem resource "schema" q.1 ;;
       Ok (resource, {| unpivot_fields_without_regex := p.2;
                        fields_to_keep := Some q.2 |})
   end)%result.
Proof.
  unfold resolve_resource, table_fields, install_fields.
  destruct (getitem resource "name") as [x|]; simpl; [|done].
  destruct (as_str x) as [name|]; simpl; [|done].
  destruct (negb (matcher_match m name)); [done|].
  destruct (get resource "schema" VNone) as [schema|]; simpl; [|done].
  destruct (is_none schema); [done|].
  destruct (get schema "fields" (VList [])) as [y|]; simpl; [|done].
  destruct (as_list y) as [fields|]; simpl; [|done].
  destruct (foldM resolve_spec _ ufs) as [p|]; simpl; [|done].
  destruct (mapM field_name p.1) as [kept|]; simpl; [|done].
  by destruct (setitem schema "fields" _).
Qed.

Lemma rel_default {V W} (R : V -> W -> Prop) k d vd dflt vdflt :
  dict_rel R d vd -> R dflt vdflt ->
  R (default dflt (dict_get k d)) (default vdflt (dict_get k vd)).
Proof.
  intros Hd Hdf. destruct (dict_get k d) as [x|] eqn:Hx.
  - by destruct (dict_rel_get_Some _ _ _ _ _ Hd Hx) as (y & -> & ?).
  - by rewrite (dict_rel_get_None _ _ _ _ Hd Hx).
Qed.

Lemma value_dict_cases v : (exists vd, v = VDict vd) \/ forall vd, v <> VDict vd.
Proof. destruct v; eauto. Qed.

Lemma value_list_cases v : (exists vl, v = VList vl) \/ forall vl, v <> VList vl.
Proof. destruct v; eauto. Qed.

Lemma repr_all n h x v : repr n h x v -> within (fun _ => True) n h x v.
Proof. intros Hx. split; [done | by apply Forall_forall]. Qed.

Lemma repr_list n h x vl :
  repr n h x (VList vl) ->
  exists a l, x = RObj a /\ h !! a = Some (OList l) /\ Forall2 (repr n h) l vl.
Proof.
  intros Hx. destruct (within_cases _ n h x (VList vl) (repr_all _ _ _ _ Hx))
    as [(a & d & vd & _ & _ & _ & ? & _)|
        [(a & l & vl' & -> & _ & Ho & [= <-] & Hrel)|(_ & _ & Hl & _)]];
    [done | | by destruct (Hl vl)].
  exists a, l. split_and!; try done. eapply Forall2_impl; [done|].
  by intros y vy [? _].
Qed.

Lemma get_method_h_fail n h r v :
  repr n h r v -> (forall vd, v <> VDict vd) ->
  get_method_h r h = (Err AttributeError, h) /\ get_method v = Err AttributeError.
Proof.
  intros Hr Hv. unfold get_method_h.
  destruct (within_cases _ n h r v (repr_all _ _ _ _ Hr))
    as [(a & d & vd & _ & _ & _ & -> & _)|
        [(a & l & vl' & -> & _ & Ho & -> & _)|(Hr' & _)]];
    [by destruct (Hv vd) | simpl; by rewrite Ho |].
  split; [|by destruct v as [| | | | |vd]; [..|destruct (Hv vd)]].
  destruct r as [| | | |a]; [done..|by destruct (Hr' a)].
Qed.

Lemma list_items_h_fail n h r v :
  repr n h r v -> (forall vl, v <> VList vl) ->
  list_items_h r h = (Err TypeError, h) /\ as_list v = Err TypeError.
Proof.
  intros Hr Hv. unfold list_items_h.
  destruct (within_cases _ n h r v (repr_all _ _ _ _ Hr))
    as [(a & d & vd & -> & _ & Ho & -> & _)|
        [(a & l & vl' & _ & _ & _ & -> & _)|(Hr' & _)]];
    [simpl; by rewrite Ho | by destruct (Hv vl') |].
  split; [|by destruct v as [| | | |vl|]; [..|destruct (Hv vl)|]].
  destruct r as [| | | |a]; [done..|by destruct (Hr' a)].
Qed.

Lemma is_none_h_repr n h r v : repr n h r v -> is_none_h r = is_none v.
Proof.
  intros Hr. destruct (within_cases _ n h r v (repr_all _ _ _ _ Hr))
    as [(a & d & vd & -> & _ & _ & -> & _)|
        [(a & l & vl' & -> & _ & _ & -> & _)|(_ & _ & _ & _ & Hn)]]; [done..|].
  destruct r, v; try done; destruct Hn as [H1 H2];
    first [by specialize (H1 eq_refl) | by specialize (H2 eq_refl)].
Qed.

(** [r.get]: the method exists on a dictionary only. *)
Lemma hsimP_get_method {B B'} P h0 n h r v k vdflt (R : heap -> B -> B' -> Prop)
    (f : (string -> ref -> heapM ref) -> heapM B) (g : value -> result B') :
  pres P h0 h -> repr n h r v ->
  (forall a d vd, r = RObj a -> v = VDict vd -> h !! a = Some (ODict d) ->
     dict_rel (repr n h) d vd ->
     hsimP P h0 R (f (dict_get_h (RObj a))) (g (default vdflt (dict_get k vd))) h) ->
  hsimP P h0 R (hbind (get_method_h r) f) (rbind (get v k vdflt) g) h.
Proof.
  intros Hp Hr Hf. destruct (value_dict_cases v) as [[vd ->]|Hno].
  2: { destruct (get_method_h_fail n h r v Hr) as [Hg Hvg]; [done|].
       unfold hsimP, hbind, get. by rewrite Hg, Hvg. }
  destruct (repr_dict n h r vd Hr) as (a & d & -> & Ha & Hd).
  eapply hsimP_step; [unfold get_method_h; simpl; by rewrite Ha|]. by eapply Hf.
Qed.

(** [list(r)], where the value model asks for a list. *)
Lemma hsimP_list_items {B B'} P h0 n h r v (R : heap -> B -> B' -> Prop)
    (f : list ref -> heapM B) (g : list value -> result B') :
  pres P h0 h -> repr n h r v ->
  (forall a l vl, r = RObj a -> v = VList vl -> h !! a = Some (OList l) ->
     Forall2 (repr n h) l vl -> hsimP P h0 R (f l) (g vl) h) ->
  hsimP P h0 R (hbind (list_items_h r) f) (rbind (as_list v) g) h.
Proof.
  intros Hp Hr Hf. destruct (value_list_cases v) as [[vl ->]|Hno].
  2: { destruct (list_items_h_fail n h r v Hr) as [Hg Hvg]; [done|].
       unfold hsimP, hbind. by rewrite Hg, Hvg. }
  destruct (repr_list n h r vl Hr) as (a & l & -> & Ha & Hl).
  eapply hsimP_step; [unfold list_items_h; simpl; by rewrite Ha|]. by eapply Hf.
Qed.

(** Line 37: what [schema.get('fields', [])] returns, in the store that
    has the new empty list at its end. *)
Lemma fields_default_repr n h s ds vds :
  repr n h s (VDict vds) -> dict_rel (repr n h) ds vds ->
  repr n (h ++ [OList []]) (default (RObj (length h)) (dict_get "fields" ds))
       (default (VList []) (dict_get "fields" vds)).
Proof.
  intros Hs Hds. apply rel_default.
  - eapply dict_rel_impl; [done|]. apply Forall_forall. intros kx _ y Hy.
    eapply repr_mono; [done.. | by apply prefix_app_r].
  - destruct n as [|n']; [by destruct s|]. apply repr_obj.
    exists (OList []). split; [by apply list_lookup_middle | constructor].
Qed.

(** Lines 30-37.  When the table is selected and has a schema, the
    result is the schema object and the list object of its fields: the
    one the schema holds, or the new empty list. *)
Lemma table_fields_h_sim m n h res vres :
  closed h -> repr n h res vres ->
  hsimP (fun _ => False) h
    (fun h' o vo =>
       (o = None /\ vo = None /\ h' = h) \/
       exists ar dr vdr sa ds vds fa cur vcur,
         o = Some (RObj sa, RObj fa) /\ vo = Some (VDict vds, vcur) /\
         h' = h ++ [OList []] /\ res = RObj ar /\ vres = VDict vdr /\
         h !! ar = Some (ODict dr) /\
         dict_get "schema" dr = Some (RObj sa) /\
         dict_get "schema" vdr = Some (VDict vds) /\
         h !! sa = Some (ODict ds) /\ h' !! fa = Some (OList cur) /\
         RObj fa = default (RObj (length h)) (dict_get "fields" ds) /\
         VList vcur = default (VList []) (dict_get "fields" vds))
    (table_fields_h m res) (table_fields m vres) h.
Proof.
  intros Hc Hres. pose proof (pres_refl (fun _ => False) h Hc) as Hp.
  unfold table_fields_h, table_fields.
  eapply hsimP_bind.
  { apply (getitem_h_P (fun _ => False) (fun _ => True) n h (fun _ _ H => H));
      [done | by apply repr_all]. }
  intros h1 x vx _ [-> Hx].
  eapply hsimP_bind; [by apply (as_str_h_P _ (fun _ => True) n h)|].
  intros h1 s s' _ [-> ->].
  destruct (negb (matcher_match m s')); [by apply hsimP_ret; [|left]|].
  eapply (hsimP_get_method _ _ n); [done..|]. intros ar dr vdr -> -> Har Hdr.
  eapply hsimP_step; [unfold dict_get_h; simpl; by rewrite Har|].
  assert (Hs : repr n h (default RNone (dict_get "schema" dr))
                 (default VNone (dict_get "schema" vdr)))
    by (apply rel_default; [done | by destruct n]).
  rewrite (is_none_h_repr n h _ _ Hs).
  destruct (is_none _) eqn:Hnone; [by apply hsimP_ret; [|left]|].
  eapply (hsimP_get_method _ _ n); [done..|]. intros sa ds vds Hsa Hvds Hsao Hds.
  rewrite Hsa, Hvds in *. apply hsimP_alloc.
  assert (Hp1 : pres (fun _ => False) h (h ++ [OList []]))
    by (apply pres_alloc; [done | constructor]).
  eapply hsimP_step.
  { unfold dict_get_h. simpl. rewrite lookup_app_l by (by eapply lookup_lt_Some).
    by rewrite Hsao. }
  eapply (hsimP_list_items _ _ n); [done | by eapply fields_default_repr|].
  intros fa cur vcur Hfa Hvcur Hfao _.
  apply hsimP_ret; [done|]. right.
  exists ar, dr, vdr, sa, ds, vds, fa, cur, vcur. rewrite <- Hfa, <- Hvcur.
  split_and!; try done.
  - destruct (dict_get "schema" dr); simpl in *; congruence.
  - destruct (dict_get "schema" vdr); simpl in *; congruence.
Qed.

(** Line 61: [[f['name'] for f in fields]]. *)
Lemma hmapM_field_name_sim n h l vl :
  closed h -> Forall2 (repr n h) l vl ->
  (hmapM field_name_h l h).2 = h /\
  sim eq (hmapM field_name_h l h).1 (mapM field_name vl).
Proof.
  intros Hc. induction 1 as [|x v l vl Hx _ [IHh IH]]; [done|].
  pose proof (field_name_h_repr n h x v Hc Hx) as Hs.
  pose proof (field_name_h_heap x h) as Hh.
  cbn [hmapM mapM]. unfold hbind.
  destruct (field_name_h x h) as [[s|e] h1]; simpl in *; subst h1;
    destruct (field_name v); simpl in *; try done; subst.
  destruct (hmapM field_name_h l h) as [[ys|e] h1]; simpl in *; subst h1;
    destruct (mapM field_name vl); simpl in *; try done. by subst.
Qed.

Lemma extend_h_eq h a l xs :
  h !! a = Some (OList l) ->
  extend_h (RObj a) xs h = (Ok tt, <[a := OList (l ++ xs)]> h).
Proof. unfold extend_h. by intros ->. Qed.

(** Lines 61-64: what they leave in the store. *)
Lemma install_fields_h_sim n h sa ds fa kept vkept eks ev vds veks vev :
  closed h -> h !! sa = Some (ODict ds) -> h !! fa = Some (OList kept) ->
  Forall2 (repr n h) kept vkept ->
  Forall (ref_in (length h)) eks -> ref_in (length h) ev ->
  hsimP (fun a => a = sa \/ a = fa) h
    (fun h' ks q =>
       h' = <[sa := ODict (dict_set "fields" (RObj fa) ds)]>
              (<[fa := OList (kept ++ eks ++ [ev])]> h) /\
       q = (VDict (dict_set "fields" (VList (vkept ++ veks ++ [vev])) vds), ks))
    (install_fields_h (RObj sa) (RObj fa) eks ev)
    (install_fields (VDict vds) vkept veks vev) h.
Proof.
  intros Hc Hsa Hfa Hk Heks Hev. unfold install_fields_h, install_fields.
  assert (Hne : fa <> sa) by (intros ->; congruence).
  assert (Hlt : fa < length h) by (by eapply lookup_lt_Some).
  eapply hsimP_step; [unfold list_items_h; simpl; by rewrite Hfa|].
  destruct (hmapM_field_name_sim n h kept vkept Hc Hk) as [Hh Hs].
  eapply hsimP_bind; [by apply hsimP_read; [apply pres_refl|..]|].
  intros h1 ks ks' _ [-> ->].
  unfold hsimP, hbind, append_h. rewrite (extend_h_eq _ _ _ _ Hfa).
  erewrite extend_h_eq by (by apply list_lookup_insert_eq).
  rewrite list_insert_insert_eq, <- app_assoc.
  erewrite setitem_h_eq by (by rewrite list_lookup_insert_ne).
  simpl. split; [|done]. split_and!.
  - apply closed_insert; [apply closed_insert; [done|]|]; simpl.
    + rewrite !Forall_app. split_and!; [|done | by constructor].
      by apply (closed_lookup h fa (OList kept)).
    + rewrite length_insert. apply Forall_dict_set_values; [done|].
      by apply (closed_lookup h sa (ODict ds)).
  - by rewrite !length_insert.
  - intros a _ Ha. rewrite !list_lookup_insert_ne; [done|..]; intros ->; tauto.
Qed.

End spec.

(** ** The descriptor of a table, as a tree

    The table descriptor at [ar] holds the schema object at [sa] under
    [schema].  What lines 39-64 write to is the schema object and the
    footprint of its [fields]: the other items of the two dictionaries
    are what they were. *)

Lemma dict_set_same {V} k (x : V) d : dict_get k d = Some x -> dict_set k x d = d.
Proof.
  induction d as [|[k' y] d IH]; simpl; [done|].
  case_decide; intros; simplify_eq; [done | by rewrite IH].
Qed.

(** A dictionary that is a tree, and one of its items. *)
Section item.
Context (n : nat) (h : heap) (a : nat) (d : dict ref) (vd : dict value).
Context (Htree : tree n h (RObj a) (VDict vd)) (Ha : h !! a = Some (ODict d)).

Lemma dict_items :
  dict_rel (repr n h) d vd /\ (a ∉ concat (reach n h <$> d.*2)) /\
  NoDup (concat (reach n h <$> d.*2)) /\
  reach n h (RObj a) = a :: concat (reach n h <$> d.*2).
Proof.
  destruct (tree_obj n h a _ Htree) as (o & Ho & Hrel & Hn & Hnd). simplify_eq.
  split_and!; try done. apply (reach_obj_slots n h a (ODict d) (VDict vd));
    [apply Htree | done].
Qed.

Lemma item_reach k b :
  b ∈ slot_reach n h k d -> b ∈ reach n h (RObj a) /\ b <> a /\ b < length h.
Proof.
  destruct dict_items as (_ & Hn & _ & Heq). intros Hb%slot_reach_sub.
  assert (Hin : b ∈ reach n h (RObj a)) by (rewrite Heq; by right).
  split_and!; [done | by intros -> |].
  pose proof (repr_reach_lt n h _ _ (proj1 Htree)) as Hlt.
  rewrite Forall_forall in Hlt. by apply Hlt.
Qed.

(** The dictionary after an assignment to the key [k], when what was
    written to since [h] is the dictionary itself and the footprint of
    that item. *)
Lemma item_rebuild P (R : nat -> Prop) m h' k x' vx' :
  pres P h h' -> n <= m ->
  (forall b, b ∈ reach n h (RObj a) -> R b) ->
  (forall b, P b -> b = a \/ b ∈ slot_reach n h k d) ->
  h' !! a = Some (ODict (dict_set k x' d)) ->
  within R m h' x' vx' ->
  within R (S m) h' (RObj a) (VDict (dict_set k vx' vd)).
Proof.
  intros Hp Hm HR HP Ha' Hx. destruct dict_items as (Hd & Hn & Hnd & Heq).
  apply within_obj. split; [apply HR; rewrite Heq; by left|].
  eexists. split; [done|]. simpl. eapply dict_rel_rebuild; [done..| |done].
  intros b Hb. split; [apply HR; rewrite Heq; by right|].
  intros [->|?]%HP; done.
Qed.

End item.

(** A list that is a tree. *)
Lemma list_items_tree n h a l vl :
  tree n h (RObj a) (VList vl) -> h !! a = Some (OList l) ->
  trees n h l vl /\ (a ∉ concat (reach n h <$> l)) /\
  reach n h (RObj a) = a :: concat (reach n h <$> l).
Proof.
  intros Ht Ha. destruct (tree_obj n h a _ Ht) as (o & Ho & Hrel & Hn & Hnd).
  simplify_eq. split_and!; [by split | done |].
  apply (reach_obj_slots n h a (OList l) (VList vl)); [apply Ht | done].
Qed.

(** *** Objects that are shared *)

Lemma getitem_h_ok r k h x :
  (getitem_h r k h).1 = Ok x <->
  exists a d, r = RObj a /\ h !! a = Some (ODict d) /\ dict_get k d = Some x.
Proof.
  unfold getitem_h. split.
  - destruct r as [| | | |a]; simpl; try done.
    destruct (h !! a) as [[d|l]|] eqn:Ha; simpl; try done.
    destruct (dict_get k d) eqn:Hk; simpl; intros; simplify_eq. by exists a, d.
  - intros (a & d & -> & Ha & Hk). simpl. by rewrite Ha, Hk.
Qed.

Lemma list_items_h_ok r h l :
  (list_items_h r h).1 = Ok l <-> exists a, r = RObj a /\ h !! a = Some (OList l).
Proof.
  unfold list_items_h. split.
  - destruct r as [| | | |a]; simpl; try done.
    destruct (h !! a) as [[d|l']|] eqn:Ha; simpl; intros; simplify_eq. by exists a.
  - intros (a & -> & Ha). simpl. by rewrite Ha.
Qed.

Lemma within_item A k h a d v key x :
  within A (S k) h (RObj a) v -> h !! a = Some (ODict d) ->
  dict_get key d = Some x -> A a /\ exists vx, within A k h x vx.
Proof.
  intros (Ha & o & Ho & Hrel)%within_obj Hd Hx. simplify_eq. split; [done|].
  destruct v as [| | | | |vd]; try done. simpl in Hrel.
  destruct (dict_rel_get_Some _ _ _ _ _ Hrel Hx) as (vx & _ & Hvx). by exists vx.
Qed.

Lemma installed_at h eks ev ar dr sa ds fa kept :
  h !! ar = Some (ODict dr) -> dict_get "schema" dr = Some (RObj sa) ->
  h !! sa = Some (ODict ds) -> dict_get "fields" ds = Some (RObj fa) ->
  h !! fa = Some (OList (kept ++ eks ++ [ev])) -> installed h eks ev (RObj ar).
Proof.
  intros Har Hs Hsa Hf Hfa. exists (RObj sa), (RObj fa), kept.
  rewrite !getitem_h_ok, list_items_h_ok. naive_solver.
Qed.

(** What is read of the table is in the region that was not written to. *)
Lemma installed_pres P A k h h' eks ev r v :
  installed h eks ev r -> within A (S (S (S k))) h r v -> pres P h h' ->
  (forall a, A a -> ~ P a) -> installed h' eks ev r.
Proof.
  intros (s & f & kept & (ar & dr & -> & Har & Hs)%getitem_h_ok &
          (sa & ds & -> & Hsa & Hf)%getitem_h_ok &
          (fa & -> & Hfa)%list_items_h_ok) Hw Hp HAP.
  destruct (within_item A _ h ar dr v "schema" _ Hw Har Hs) as (Hr & vs & Hws).
  destruct (within_item A _ h sa ds vs "fields" _ Hws Hsa Hf) as (Hrs & vf & Hwf).
  apply within_obj in Hwf as (Hrf & _).
  exists (RObj sa), (RObj fa), kept.
  rewrite !getitem_h_ok, list_items_h_ok.
  split_and!; eexists; [eexists|eexists|]; split_and!; try done;
    by eapply (pres_lookup P A h HAP).
Qed.

(** A table that reads as before, or that holds the objects of the
    configuration: either is still so after writes elsewhere. *)
Lemma outcome_pres P A k h h' eks ev r v v0 :
  within A (S (S (S k))) h r v -> pres P h h' -> (forall a, A a -> ~ P a) ->
  repr (S (S (S k))) h r v0 \/ installed h eks ev r ->
  repr (S (S (S k))) h' r v0 \/ installed h' eks ev r.
Proof.
  intros Hw Hp HAP [Hr|Hi]; [left | right; by eapply installed_pres].
  assert (v0 = v) as -> by (destruct Hw as [Hw _]; unfold repr in *; congruence).
  by eapply within_repr, within_pres.
Qed.

Section table.
Context (n : nat) (h : heap).
Context (ar : nat) (dr : dict ref) (vdr : dict value).
Context (sa : nat) (ds : dict ref) (vds : dict value).
Context (Htree : tree n h (RObj ar) (VDict vdr)).
Context (Har : h !! ar = Some (ODict dr)).
Context (Hschema : dict_get "schema" dr = Some (RObj sa)).
Context (Hvschema : dict_get "schema" vdr = Some (VDict vds)).
Context (Hsa : h !! sa = Some (ODict ds)).

Lemma table_items :
  dict_rel (repr n h) dr vdr /\ (ar ∉ concat (reach n h <$> dr.*2)) /\
  NoDup (concat (reach n h <$> dr.*2)) /\
  reach n h (RObj ar) = ar :: concat (reach n h <$> dr.*2).
Proof. exact (dict_items n h ar dr vdr Htree Har). Qed.

Lemma schema_tree : tree n h (RObj sa) (VDict vds).
Proof.
  destruct table_items as (Hdr & _ & Hnd & _).
  destruct (dict_slot n h dr vdr "schema" _ Hdr Hnd Hschema) as (vs & Hvs & Ht).
  by simplify_eq.
Qed.

Lemma schema_items :
  dict_rel (repr n h) ds vds /\ (sa ∉ concat (reach n h <$> ds.*2)) /\
  NoDup (concat (reach n h <$> ds.*2)) /\
  reach n h (RObj sa) = sa :: concat (reach n h <$> ds.*2).
Proof. exact (dict_items n h sa ds vds schema_tree Hsa). Qed.

Lemma schema_reach b :
  b = sa \/ b ∈ concat (reach n h <$> ds.*2) ->
  b ∈ concat (reach n h <$> dr.*2) /\ b ∈ reach n h (RObj ar) /\ b <> ar.
Proof.
  intros Hb. destruct table_items as (_ & Hn & _ & Heq).
  destruct schema_items as (_ & _ & _ & Heqs).
  assert (Hin : b ∈ concat (reach n h <$> dr.*2)).
  { apply (slot_reach_sub n h "schema"). unfold slot_reach.
    rewrite Hschema, Heqs. apply elem_of_cons. tauto. }
  split_and!; [done | rewrite Heq; by right | by intros ->].
Qed.

(** The table descriptor after the schema object was given a new list
    of fields. *)
Lemma table_rebuild (R : nat -> Prop) h' k fa' vfl :
  pres (fun a => a = sa \/ a ∈ slot_reach n h "fields" ds) h h' -> n <= k ->
  (forall a, a ∈ reach n h (RObj ar) -> R a) ->
  h' !! sa = Some (ODict (dict_set "fields" (RObj fa') ds)) ->
  within R k h' (RObj fa') vfl ->
  within R (S (S k)) h' (RObj ar)
         (VDict (dict_set "schema" (VDict (dict_set "fields" vfl vds)) vdr)).
Proof.
  intros Hp Hk HR Hsa' Hfl.
  destruct table_items as (Hdr & Hn & Hnd & Heq).
  destruct schema_items as (Hds & Hns & Hnds & Heqs).
  assert (HRs : forall b, b = sa \/ b ∈ concat (reach n h <$> ds.*2) -> R b).
  { intros b Hb. by apply HR, schema_reach. }
  apply within_obj. split; [apply HR; rewrite Heq; by left|].
  exists (ODict dr). split.
  { destruct Hp as (_ & _ & Hp). rewrite Hp; [done | by eapply lookup_lt_Some|].
    intros HW. destruct (schema_reach ar) as (_ & _ & Hne); [|done].
    destruct HW as [?|?%slot_reach_sub]; auto. }
  simpl. rewrite <- (dict_set_same "schema" (RObj sa) dr Hschema) at 1.
  eapply dict_rel_rebuild; [done.. | lia | |].
  { intros b Hb. split; [apply HR; rewrite Heq; by right|].
    unfold slot_reach at 2. rewrite Hschema, Heqs.
    intros [->|Hin%slot_reach_sub]; [by left | by right]. }
  apply within_obj. split; [by apply HRs; left|]. eexists. split; [done|]. simpl.
  eapply dict_rel_rebuild; [done.. | |done].
  intros b Hb. split; [by apply HRs; right|]. by intros [->|?].
Qed.

(** The list of fields that [table_fields_h] returns: its elements are
    trees in the footprint of the item [fields] of the schema, and it is
    the list object of the schema or the new list. *)
Lemma fields_list fa cur vcur :
  (h ++ [OList []]) !! fa = Some (OList cur) ->
  RObj fa = default (RObj (length h)) (dict_get "fields" ds) ->
  VList vcur = default (VList []) (dict_get "fields" vds) ->
  trees n h cur vcur /\
  (forall a, a ∈ concat (reach n h <$> cur) ->
             a ∈ slot_reach n h "fields" ds /\ a <> fa) /\
  (fa ∈ slot_reach n h "fields" ds \/ fa = length h).
Proof.
  intros Hfa Hf Hvf. destruct schema_items as (Hds & _ & Hnds & _).
  unfold slot_reach. destruct (dict_get "fields" ds) as [x|] eqn:Hx; simpl in *.
  - subst x.
    destruct (dict_slot n h ds vds "fields" _ Hds Hnds Hx) as (vfl & Hvfl & Ht).
    rewrite Hvfl in Hvf. simpl in Hvf. subst vfl.
    destruct (tree_obj n h fa _ Ht) as (o & Ho & Hrel & Hn & Hnd).
    rewrite lookup_app_l in Hfa by (by eapply lookup_lt_Some). simplify_eq.
    rewrite (reach_obj_slots n h fa (OList cur) (VList vcur)) by (done || apply Ht).
    split_and!; [by split | | left; by left].
    intros a Ha. split; [by right | by intros ->].
  - rewrite (dict_rel_get_None _ _ _ _ Hds Hx) in Hvf. simplify_eq/=.
    rewrite list_lookup_middle in Hfa by done. simplify_eq.
    split_and!; [apply trees_nil | by intros ? ?%elem_of_nil | by right].
Qed.

Lemma sa_reach : sa ∈ reach n h (RObj ar) /\ sa < length h.
Proof.
  destruct (schema_reach sa) as (_ & ? & _); [by left|].
  split; [done | by eapply lookup_lt_Some].
Qed.

Lemma fields_reach b :
  b ∈ slot_reach n h "fields" ds ->
  b ∈ reach n h (RObj ar) /\ b <> sa /\ b < length h.
Proof.
  intros Hb%slot_reach_sub. destruct schema_items as (_ & Hns & _ & _).
  destruct (schema_reach b) as (_ & Hin & _); [by right|].
  split_and!; [done | by intros -> |].
  pose proof (repr_reach_lt n h _ _ (proj1 Htree)) as Hlt.
  rewrite Forall_forall in Hlt. by apply Hlt.
Qed.

(** *** The store after lines 37-64

    [fa] is the list [schema.get('fields', [])] returned, in the store
    [h1] that holds the default; [h2] is the store after the loop over
    the specifications, where the working list is at [fa'] and holds
    [kept]; [h3] is the store after lines 62-64. *)

Context (C : nat -> Prop) (fa : nat) (cur : list ref) (vcur : list value).
Context (HC : forall a, C a -> a < length h /\ a ∉ reach n h (RObj ar)).
Context (Hfa : (h ++ [OList []]) !! fa = Some (OList cur)).
Context (Hf : RObj fa = default (RObj (length h)) (dict_get "fields" ds)).
Context (Hvf : VList vcur = default (VList []) (dict_get "fields" vds)).
Context (Hcl : closed h).

Local Abbreviation h1 := (h ++ [OList []]).
Local Abbreviation region :=
  (fun a => a ∈ reach n h (RObj ar) \/ C a \/ length h <= a).

Lemma table_start :
  pres (fun _ => False) h h1 /\ trees n h1 cur vcur /\
  reach n h1 <$> cur = reach n h <$> cur /\
  (forall a, a ∈ concat (reach n h1 <$> cur) ->
             a ∈ slot_reach n h "fields" ds /\ a <> fa) /\
  (forall a, C a -> a < length h1 /\ a ∉ concat (reach n h1 <$> cur)).
Proof.
  destruct (fields_list fa cur vcur Hfa Hf Hvf) as (Ht & Hin & _).
  assert (Hp : pres (fun _ => False) h h1).
  { apply pres_alloc; [by apply pres_refl | constructor]. }
  destruct (trees_pres _ n h h1 cur vcur Ht Hp) as [Ht1 Heq]; [by intros ? _ []|].
  rewrite Heq. split_and!; try done.
  intros a Ha. destruct (HC a Ha) as [Hlt Hn]. rewrite length_app. split; [lia|].
  intros [Hr _]%Hin. by apply Hn, fields_reach.
Qed.

Context (h2 : heap) (fa' : nat) (kept : list ref) (vkept : list value).
Context (Hp2 : pres (.∈ concat (reach n h1 <$> cur)) h1 h2).
Context (Hfa' : fa' = fa \/ length h1 <= fa').
Context (Hkept : h2 !! fa' = Some (OList kept)).
Context (Htk : trees n h2 kept vkept).
Context (Hsub : forall a, a ∈ concat (reach n h2 <$> kept) ->
                          a ∈ concat (reach n h1 <$> cur)).

(** The schema object is not written to before line 64. *)
Lemma schema_kept : h2 !! sa = Some (ODict ds) /\ fa' <> sa.
Proof.
  destruct table_start as (_ & _ & _ & Hin & _), sa_reach as [_ Hlt].
  assert (Hsa2 : h2 !! sa = Some (ODict ds)).
  { destruct Hp2 as (_ & _ & ->).
    - by rewrite lookup_app_l.
    - rewrite length_app. lia.
    - intros [Hr _]%Hin. by apply fields_reach in Hr as (_ & ? & _). }
  split; [done | intros ->; congruence].
Qed.

(** Lines 62-64 write to the schema object and to the working list,
    which is new or was the list of the schema. *)
Lemma working_list_new a : a < length h -> a = fa' -> a ∈ slot_reach n h "fields" ds.
Proof.
  intros Hlt ->. destruct (fields_list fa cur vcur Hfa Hf Hvf) as (_ & _ & Hin).
  rewrite length_app in Hfa'. simpl in Hfa'.
  destruct Hfa' as [->|?]; [destruct Hin; [done | lia] | lia].
Qed.

Lemma install_writes a :
  a < length h -> a = sa \/ a = fa' -> a ∈ reach n h (RObj ar).
Proof.
  intros Hlt [->|Ha]; [apply sa_reach | by apply fields_reach, working_list_new].
Qed.

(** Lines 61-64, called in [h2]: what the call writes to is inside the
    table. *)
Lemma install_fields_h_call extra_keys extra_value vextra_keys vextra_value :
  pres (.∈ reach n h (RObj ar)) h h2 ->
  Forall (ref_in (length h)) extra_keys -> ref_in (length h) extra_value ->
  hsimP (.∈ reach n h (RObj ar)) h
    (fun h' ks q =>
       pres (fun a => a = sa \/ a = fa') h2 h' /\
       h' = <[sa := ODict (dict_set "fields" (RObj fa') ds)]>
              (<[fa' := OList (kept ++ extra_keys ++ [extra_value])]> h2) /\
       q = (VDict (dict_set "fields"
                     (VList (vkept ++ vextra_keys ++ [vextra_value])) vds), ks))
    (install_fields_h (RObj sa) (RObj fa') extra_keys extra_value)
    (install_fields (VDict vds) vkept vextra_keys vextra_value) h2.
Proof.
  intros Hp Hrk Hrv. destruct schema_kept as [Hsa2 _].
  assert (Hlen : length h <= length h2) by apply Hp.
  eapply hsimP_call; [exact Hp | |].
  - apply hsimP_frame,
      (install_fields_h_sim n h2 sa ds fa' kept vkept extra_keys extra_value vds
         vextra_keys vextra_value); [apply Hp2 | done | done | apply Htk | |].
    + eapply Forall_impl; [exact Hrk|]. intros x Hx. by eapply ref_in_mono.
    + by eapply ref_in_mono.
  - intros a Hlt Ha. by eapply install_writes.
Qed.

Context (eks : list ref) (veks : list value) (ev : ref) (vev : value).
Context (Heks : Forall2 (within C n h) eks veks) (Hev : within C n h ev vev).

Local Abbreviation h3 :=
  (<[sa := ODict (dict_set "fields" (RObj fa') ds)]>
     (<[fa' := OList (kept ++ eks ++ [ev])]> h2)).

Context (Hp3 : pres (fun a => a = sa \/ a = fa') h2 h3).

Lemma pres_table :
  pres (fun a => a = sa \/ a ∈ slot_reach n h "fields" ds) h h3.
Proof.
  destruct table_start as (Hp1 & _ & _ & Hin & _).
  eapply pres_trans; [eapply pres_trans; [|exact Hp2|] | exact Hp3 |].
  - eapply pres_mono; [exact Hp1 | by intros ? _ []].
  - intros a _ [Ha _]%Hin. by right.
  - intros a Hlt [->|Ha]; [by left | right; by apply working_list_new].
Qed.

Lemma pres_table_reach : pres (.∈ reach n h (RObj ar)) h h3.
Proof.
  eapply pres_mono; [apply pres_table|].
  intros a _ [->|Ha]; [apply sa_reach | by apply fields_reach].
Qed.

(** The fields the loop left in the working list are where lines 62-64
    write nothing. *)
Lemma kept_apart b :
  b ∈ concat (reach n h2 <$> kept) ->
  b ∈ reach n h (RObj ar) /\ b <> sa /\ b <> fa'.
Proof.
  destruct table_start as (_ & _ & _ & Hin & _).
  intros [Hr Hne]%Hsub%Hin. apply fields_reach in Hr as (Hr & Hsa' & Hlt).
  split_and!; [done..|]. rewrite length_app in Hfa'. simpl in Hfa'.
  intros ->. destruct Hfa'; [done | lia].
Qed.

(** The resolved fields are not written to by lines 62-64. *)
Lemma pivots_installed pivoted vpivoted :
  Forall2 (within (fun a => ((a ∈ concat (reach n h1 <$> cur) /\
                              a ∉ concat (reach n h2 <$> kept)) \/
                             C a \/ length h1 <= a) /\ a <> fa')
                  (S (S n)) h2) pivoted vpivoted ->
  Forall2 (within region (S (S n)) h3) pivoted vpivoted.
Proof.
  destruct table_start as (_ & _ & _ & Hin & _), sa_reach as [Hsr Hlt].
  intros Hpiv. eapply Forall2_impl; [done|]. intros y vy Hy.
  eapply within_pres_mono; [done | exact Hp3 | | lia |].
  - intros a [Ha Hne] [-> | ->]; [|done].
    destruct Ha as [[[Hr _]%Hin _]|[Ha|Ha]].
    + by apply fields_reach in Hr as (_ & ? & _).
    + by destruct (HC sa Ha).
    + rewrite length_app in Ha. simpl in Ha. lia.
  - intros a [[[[Hr _]%Hin _]|[Ha|Ha]] _].
    + left. by apply fields_reach.
    + auto.
    + right; right. rewrite length_app in Ha. lia.
Qed.

(** The working list after lines 62-63: the fields that were left, then
    the objects of the configuration. *)
Lemma fields_installed :
  within region (S n) h3 (RObj fa') (VList (vkept ++ veks ++ [vev])).
Proof.
  destruct schema_kept as [Hsa2 Hne].
  assert (Hcfg : forall x v, within C n h x v -> within region n h3 x v).
  { intros x v Hx. eapply within_pres_mono; [done | apply pres_table_reach | | lia | auto].
    intros a Ha. by destruct (HC a Ha). }
  apply within_obj. split.
  { destruct (decide (fa' < length h)) as [Hlt|]; [left | right; right; lia].
    by apply fields_reach, working_list_new. }
  exists (OList (kept ++ eks ++ [ev])). split.
  { rewrite list_lookup_insert_ne by done. apply list_lookup_insert_eq.
    by eapply lookup_lt_Some. }
  simpl. repeat apply Forall2_app.
  - eapply Forall2_impl_in; [apply Htk|]. apply Forall_forall. intros y Hy vy Hr.
    eapply repr_untouched; [done | exact Hp3 | lia |]. intros b Hb.
    destruct (kept_apart b) as (? & ? & ?); [by eapply elem_of_reach_slot|].
    split; [intros [?|?]; done | by left].
  - eapply Forall2_impl; [exact Heks | done].
  - constructor; [by apply Hcfg | constructor].
Qed.

(** The table descriptor after line 64. *)
Lemma table_installed :
  within region (S (S (S n))) h3 (RObj ar)
    (VDict (dict_set "schema"
              (VDict (dict_set "fields" (VList (vkept ++ veks ++ [vev])) vds)) vdr)).
Proof.
  destruct schema_kept as [Hsa2 Hne].
  apply (table_rebuild region h3 (S n) fa');
    [apply pres_table | lia | by left | | apply fields_installed].
  apply list_lookup_insert_eq. rewrite length_insert. by eapply lookup_lt_Some.
Qed.

(** The list that line 64 stores in the schema holds the objects of the
    configuration. *)
Lemma table_shares : installed h3 eks ev (RObj ar).
Proof.
  destruct schema_kept as [Hsa2 Hne].
  destruct (schema_reach sa) as (_ & _ & Hsar); [by left|].
  apply (installed_at h3 eks ev ar dr sa (dict_set "fields" (RObj fa') ds) fa' kept);
    [| done | | apply dict_get_set_eq |].
  - destruct pres_table as (_ & _ & ->); [done | by eapply lookup_lt_Some|].
    intros [?|Hin%slot_reach_sub]; [done|].
    by destruct (schema_reach ar) as (_ & _ & ?); [right|].
  - apply list_lookup_insert_eq. rewrite length_insert. by eapply lookup_lt_Some.
  - rewrite list_lookup_insert_ne by done. apply list_lookup_insert_eq.
    by eapply lookup_lt_Some.
Qed.

End table.

(** ** The package descriptor, as a tree

    The descriptor at [ad] holds the list of the table descriptors, at
    [la], under [resources].  Neither object is written to: the pass
    writes inside the tables. *)

Section descriptor.
Context (n : nat) (h : heap).
Context (ad : nat) (dd : dict ref) (vdd : dict value).
Context (la : nat) (l : list ref) (vl : list value).
Context (Htree : tree n h (RObj ad) (VDict vdd)).
Context (Had : h !! ad = Some (ODict dd)).
Context (Hres : dict_get "resources" dd = Some (RObj la)).
Context (Hvres : dict_get "resources" vdd = Some (VList vl)).
Context (Hla : h !! la = Some (OList l)).

Lemma resources_trees :
  trees n h l vl /\ la ∈ slot_reach n h "resources" dd /\
  forall a, a ∈ concat (reach n h <$> l) ->
            a ∈ slot_reach n h "resources" dd /\ a <> la /\ a <> ad.
Proof.
  destruct (dict_items n h ad dd vdd Htree Had) as (Hdr & _ & Hnd & _).
  destruct (dict_slot n h dd vdd "resources" _ Hdr Hnd Hres) as (vs & Hvs & Ht).
  simplify_eq. destruct (list_items_tree n h la l vl Ht Hla) as (Htl & Hn & Heq).
  unfold slot_reach. rewrite Hres, Heq. split_and!; [done | by left|]. intros a Ha.
  assert (Hin : a ∈ slot_reach n h "resources" dd).
  { unfold slot_reach. rewrite Hres, Heq. by right. }
  split_and!; [by right | by intros -> |].
  by apply (item_reach n h ad dd vdd Htree Had) in Hin as (_ & ? & _).
Qed.

(** The descriptor and its list of tables are not written to. *)
Lemma descriptor_kept h' :
  pres (.∈ concat (reach n h <$> l)) h h' ->
  h' !! ad = Some (ODict dd) /\ h' !! la = Some (OList l).
Proof.
  intros (_ & _ & Hp). destruct resources_trees as (_ & _ & Hin).
  split; (rewrite Hp; [done | by eapply lookup_lt_Some|]).
  - by intros (_ & _ & ?)%Hin.
  - by intros (_ & ? & _)%Hin.
Qed.

(** The descriptor after the tables were rewritten where they are. *)
Lemma descriptor_rebuild (R : nat -> Prop) h' vl' :
  pres (.∈ concat (reach n h <$> l)) h h' ->
  (forall a, a ∈ reach n h (RObj ad) -> R a) ->
  Forall2 (within R (S (S (S n))) h') l vl' ->
  within R (5 + n) h' (RObj ad) (VDict (dict_set "resources" (VList vl') vdd)).
Proof.
  intros Hp HR Hl. destruct resources_trees as (_ & Hlr & Hin).
  destruct (descriptor_kept h' Hp) as [Had' Hla'].
  apply (item_rebuild n h ad dd vdd Htree Had (.∈ concat (reach n h <$> l)) R
           (4 + n) h' "resources" (RObj la));
    [done | lia | done | by intros b [? _]%Hin; right | |].
  - by rewrite (dict_set_same _ _ _ Hres).
  - apply within_obj. split.
    { by apply HR, (item_reach n h ad dd vdd Htree Had "resources"). }
    by exists (OList l).
Qed.

End descriptor.

(** ** One table (lines 29-64), and the loop over the tables *)

(** Reading an item, and the elements of a list: where they are. *)
Lemma getitem_h_at n h d vd k :
  closed h -> repr n h d vd ->
  hsimP (fun _ => False) h
    (fun h' x vx =>
       h' = h /\ exists ad dd vdd,
         d = RObj ad /\ vd = VDict vdd /\ h !! ad = Some (ODict dd) /\
         dict_get k dd = Some x /\ dict_get k vdd = Some vx /\ repr n h x vx)
    (getitem_h d k) (getitem vd k) h.
Proof.
  intros Hc Hd.
  assert (Hh : (getitem_h d k h).2 = h) by (unfold getitem_h; by repeat case_match).
  unfold hsimP. rewrite Hh. split; [by apply pres_refl|]. clear Hh.
  destruct (value_dict_cases vd) as [[vdd ->]|Hno].
  - destruct (repr_dict n h d vdd Hd) as (ad & dd & -> & Had & Hdd).
    unfold getitem_h. simpl. rewrite Had.
    destruct (dict_get k dd) as [x|] eqn:Hx; simpl.
    + destruct (dict_rel_get_Some _ _ _ _ _ Hdd Hx) as (vx & Hvx & Hr).
      rewrite Hvx. simpl. split; [done|]. by exists ad, dd, vdd.
    + by rewrite (dict_rel_get_None _ _ _ _ Hdd Hx).
  - destruct (within_cases _ n h d vd (repr_all _ _ _ _ Hd))
      as [(a & d' & vd' & _ & _ & _ & -> & _)|
          [(a & l & vl' & -> & _ & Ho & -> & _)|(Hr' & _)]];
      [by destruct (Hno vd') | unfold getitem_h; simpl; by rewrite Ho |].
    destruct d as [| | | |a]; [..|by destruct (Hr' a)];
      by destruct vd as [| | | | |vd']; [..|destruct (Hno vd')].
Qed.

Lemma config_in_pres P C n h0 h ufs eks ev vufs veks vev :
  config_in C n h0 ufs eks ev vufs veks vev -> pres P h0 h ->
  (forall a, C a -> ~ P a) -> config_in C n h ufs eks ev vufs veks vev.
Proof.
  intros (Hu & Hk & Hv) Hp HC. split_and!; [| |by eapply within_pres];
    (eapply Forall2_impl; [done|]); intros x v Hx; by eapply within_pres.
Qed.

Lemma config_in_ref_in C n h ufs eks ev vufs veks vev :
  config_in C n h ufs eks ev vufs veks vev ->
  Forall (ref_in (length h)) eks /\ ref_in (length h) ev.
Proof.
  intros (_ & Hk & [Hv _]). split; [|by eapply repr_ref_in].
  eapply Forall2_Forall_l; [exact Hk|]. apply Forall_forall.
  intros v _ x [Hx _]. by eapply repr_ref_in.
Qed.

(** The outcome is mapped by a function on the side of the values. *)
Lemma hsimP_then {A B B'} P h0 (R : heap -> A -> B -> Prop)
    (R' : heap -> A -> B' -> Prop) m spec (g : B -> B') h :
  hsimP P h0 R m spec h ->
  (forall h' a b, pres P h0 h' -> R h' a b -> R' h' a (g b)) ->
  hsimP P h0 R' m (rbind spec (fun b => Ok (g b))) h.
Proof.
  unfold hsimP. intros [Hp Hs] HR. split; [done|].
  destruct (m h) as [[a|e] h'], spec as [b|e']; simpl in *; auto.
Qed.

(** The region of a table, of the configuration and of the new objects
    is not where the tables that follow it in the list are. *)
Lemma next_table_apart (C : nat -> Prop) n h r l vl a :
  trees n h l vl ->
  (forall a, a ∈ reach n h r -> a ∉ concat (reach n h <$> l)) ->
  (forall a, C a -> a ∉ concat (reach n h <$> l)) ->
  a ∈ reach n h r \/ C a \/ length h <= a -> a ∉ concat (reach n h <$> l).
Proof.
  intros Ht Hd HC [Ha|[Ha|Ha]] Hin; [by eapply Hd | by eapply HC |].
  apply (trees_lt n h l vl) in Hin; [lia | done].
Qed.

(** What was read in a table that lines 30-64 are done with is read
    again after the tables that follow it in the list were rewritten. *)
Lemma within_next_table (C : nat -> Prop) n h h1 h2 r l vl k x vx :
  trees n h l vl ->
  (forall a, a ∈ reach n h r -> a ∉ concat (reach n h <$> l)) ->
  (forall a, C a -> a ∉ concat (reach n h <$> l)) ->
  pres (.∈ concat (reach n h <$> l)) h1 h2 ->
  within (fun a => a ∈ reach n h r \/ C a \/ length h <= a) k h1 x vx ->
  within (fun a => a ∈ concat (reach n h <$> r :: l) \/ C a \/ length h <= a)
         k h2 x vx.
Proof.
  intros Ht Hd HC Hp Hx. eapply within_pres_mono; [exact Hx | exact Hp | | done |].
  - intros a. by apply (next_table_apart C n h r l vl).
  - intros a [Ha|[Ha|Ha]]; [left; simpl; apply elem_of_app; by left | auto..].
Qed.

(** The outcome for a list of tables, from the outcome for the first and
    the outcome for the others, which were rewritten after it. *)
Lemma tables_post_cons C n h h1 h2 eks ev st st1 st2 vst vst1 vst2 r l v vl v1 vl2 :
  trees n h l vl ->
  (forall a, a ∈ reach n h r -> a ∉ concat (reach n h <$> l)) ->
  (forall a, C a -> a ∉ concat (reach n h <$> l)) ->
  length h <= length h1 -> reach n h1 <$> l = reach n h <$> l ->
  pres (.∈ concat (reach n h <$> l)) h1 h2 ->
  table_post C n h eks ev st vst r v h1 st1 (v1, vst1) ->
  tables_post C n h1 eks ev st1 vst1 l vl h2 st2 (vl2, vst2) ->
  tables_post C n h eks ev st vst (r :: l) (v :: vl) h2 st2 (v1 :: vl2, vst2).
Proof.
  intros Ht Hd HC Hlen Heq Hp ((piv1 & vpiv1 & Hs1 & Hv1 & Hk1 & Hpiv1) & Hr1 & Ho1)
    ((piv2 & vpiv2 & Hs2 & Hv2 & Hk2 & Hpiv2) & Hl2 & Ho2).
  unfold tables_post. cbn [fst snd] in *. rewrite Heq in *.
  assert (Hnew : forall k x vx,
    within (fun a => a ∈ concat (reach n h <$> l) \/ C a \/ length h1 <= a) k h2 x vx ->
    within (fun a => a ∈ concat (reach n h <$> r :: l) \/ C a \/ length h <= a)
           k h2 x vx).
  { intros k x vx Hx. eapply within_mono; [done..|]. simpl.
    intros a [?|[?|?]]; [left; apply elem_of_app; by right | auto | right; right; lia]. }
  pose proof (within_next_table C n h h1 h2 r l vl) as Hold.
  split_and!.
  - exists (piv1 ++ piv2), (vpiv1 ++ vpiv2). rewrite Hs2, Hs1, Hv2, Hv1, !app_assoc.
    split_and!; try done. apply Forall2_app; (eapply Forall2_impl; [done|]); auto.
  - constructor; [by apply Hold|]. eapply Forall2_impl; [done|]. auto.
  - constructor; [|done]. eapply outcome_pres; [exact Hr1 | exact Hp | | done].
    intros a. by apply (next_table_apart C n h r l vl).
Qed.

(** A table that is not selected, or has no schema. *)
Lemma table_post_skip C n h eks ev st vst res vres :
  tree n h res vres -> fields_to_keep_h st = fields_to_keep vst ->
  table_post C n h eks ev st vst res vres h st (vres, vst).
Proof.
  intros Ht Hst.
  assert (Hw : within (fun a => a ∈ reach n h res \/ C a \/ length h <= a)
                 (S (S (S n))) h res vres).
  { eapply within_mono; [by apply repr_within, Ht | lia | auto]. }
  split_and!; [|done | left; by eapply within_repr].
  exists [], []. rewrite !app_nil_r. by split_and!.
Qed.

Section pass.
Context `{E : RegexEngine}.
Context (m : matcher) (C : nat -> Prop) (n : nat).
Context (ufs eks : list ref) (ev : ref) (vufs veks : list value) (vev : value).

Lemma resolve_resource_h_sim st vst res vres h :
  closed h -> tree n h res vres -> config_in C n h ufs eks ev vufs veks vev ->
  (forall a, C a -> a < length h /\ a ∉ reach n h res) ->
  fields_to_keep_h st = fields_to_keep vst ->
  hsimP (.∈ reach n h res) h (table_post C n h eks ev st vst res vres)
    (resolve_resource_h m ufs eks ev st res)
    (resolve_resource m vufs veks vev vst vres) h.
Proof.
  intros Hc Ht Hcfg HC Hst. rewrite resolve_resource_split. unfold resolve_resource_h.
  pose proof (pres_refl (.∈ reach n h res) h Hc) as Hp0.
  eapply hsimP_bind.
  { eapply hsimP_call; [done | by apply (table_fields_h_sim m n h res vres) , Ht|].
    by intros ? _ []. }
  intros h1 o vo Hp1
    [(-> & -> & ->)|(ar & dr & vdr & sa & ds & vds & fa & cur & vcur & -> & -> & -> &
                     -> & -> & Har & Hs & Hvs & Hsa & Hfa & Hf & Hvf)].
  { apply hsimP_ret; [done | by apply table_post_skip]. }
  destruct (table_start n h ar dr vdr sa ds vds Ht Har Hs Hvs Hsa C fa cur vcur
              HC Hfa Hf Hvf Hc) as (Hp & Ht1 & Heq & Hin & HC1).
  destruct Hcfg as (Hufs & Heks & Hev).
  eapply hsimP_bind.
  { eapply hsimP_call; [exact Hp1 | |].
    - apply hsimP_frame,
        (resolve_specs_h_sim C n ufs vufs fa cur vcur
           (unpivot_fields_without_regex_h st) (unpivot_fields_without_regex vst));
        [apply Hp | done | done | | done].
      eapply Forall2_impl; [exact Hufs|]. intros x v Hx.
      eapply within_pres; [done..|]. by intros ? _ [].
    - intros a _ [Hr _]%Hin. by eapply fields_reach. }
  intros h2 p [vkept vpv] Hp2'
    (Hp2 & fa' & kept & pivoted & vpivoted & -> & Hv & Hfa' & Hkept & Htk & Hsub & Hpiv).
  cbn [fst snd] in *. subst vpv.
  destruct (config_in_ref_in C n h ufs eks ev vufs veks vev) as [Hrk Hrv];
    [done|].
  eapply hsimP_bind; [by eapply install_fields_h_call|].
  intros h3 ks q Hp3' (Hp3 & -> & ->). cbn [fst snd setitem rbind].
  apply hsimP_ret; [done|]. split_and!.
  - exists pivoted, vpivoted. split_and!; try done.
    by eapply pivots_installed.
  - by eapply table_installed.
  - right. by eapply table_shares.
Qed.

(** Line 29: the loop over the table descriptors.  A table that was
    rewritten, and the fields resolved in it, are not written to when the
    tables after it are. *)
Lemma resolve_resources_h_sim l : forall vl st vst h,
  closed h -> trees n h l vl -> config_in C n h ufs eks ev vufs veks vev ->
  (forall a, C a -> a < length h /\ a ∉ concat (reach n h <$> l)) ->
  fields_to_keep_h st = fields_to_keep vst ->
  hsimP (.∈ concat (reach n h <$> l)) h (tables_post C n h eks ev st vst l vl)
    (hfoldM (resolve_resource_h m ufs eks ev) st l)
    (resolve_resources m vufs veks vev vst vl) h.
Proof.
  induction l as [|r l IH]; intros vl st vst h Hc Ht Hcfg HC Hst.
  { destruct Ht as [->%Forall2_nil_inv_l _]. apply hsimP_ret; [by apply pres_refl|].
    split_and!; [exists [], []; rewrite !app_nil_r; by split_and! | constructor..]. }
  destruct vl as [|v vl]; [by destruct Ht as [?%Forall2_cons_nil_inv _]|].
  apply trees_cons in Ht as (Htr & Htl & Hdisj). cbn [hfoldM resolve_resources].
  assert (HCl : forall a, C a -> a ∉ concat (reach n h <$> l)).
  { intros a Ha Hin. destruct (HC a Ha) as [_ []]. simpl. apply elem_of_app. by right. }
  assert (HCr : forall a, C a -> a ∉ reach n h r).
  { intros a Ha Hin. destruct (HC a Ha) as [_ []]. simpl. apply elem_of_app. by left. }
  eapply hsimP_bind.
  { eapply hsimP_call; [by apply pres_refl | |].
    - apply hsimP_frame, (resolve_resource_h_sim st vst r v h); try done.
      intros a Ha. destruct (HC a Ha). auto.
    - intros a _ Ha. simpl. apply elem_of_app. by left. }
  intros h1 st1 [v1 vst1] Hp [Hp1 Hpost1].
  destruct (trees_pres _ n h h1 l vl Htl Hp1) as [Htl1 Heq];
    [intros a Ha Hin; by eapply Hdisj|].
  eapply hsimP_then.
  { eapply hsimP_call; [exact Hp | |].
    - apply hsimP_frame, (IH vl st1 vst1 h1); [apply Hp1 | done | | |].
      + by eapply config_in_pres.
      + intros a Ha. destruct (HC a Ha), Hp1 as (_ & ? & _). rewrite Heq.
        split; [lia | auto].
      + by destruct Hpost1 as ((? & ? & _ & _ & ? & _) & _).
    - intros a _ Ha. rewrite Heq in Ha. simpl. apply elem_of_app. by right. }
  intros h2 st2 [vl2 vst2] _ [Hp2 Hpost2]. rewrite Heq in Hp2.
  apply (tables_post_cons C n h h1 h2 eks ev st st1 st2 vst vst1 vst2 r l v vl v1 vl2);
    try done. apply Hp1.
Qed.

(** Lines 28-64.  The pass writes inside the footprint of the descriptor;
    the descriptor then reads as the descriptor [Schema.schema_pass]
    returns, and the resolved fields as the fields it returns. *)
Lemma schema_pass_h_sim d vd h :
  closed h -> tree n h d vd -> config_in C n h ufs eks ev vufs veks vev ->
  (forall a, C a -> a < length h /\ a ∉ reach n h d) ->
  hsimP (.∈ reach n h d) h (pass_post C n h eks ev d vd)
    (schema_pass_h m ufs eks ev d) (schema_pass m vufs veks vev vd) h.
Proof.
  intros Hc Ht Hcfg HC. unfold schema_pass_h, schema_pass.
  pose proof (pres_refl (.∈ reach n h d) h Hc) as Hp0.
  eapply hsimP_bind.
  { eapply hsimP_call; [done | by apply (getitem_h_at n), Ht | by intros ? _ []]. }
  intros h1 x vx _ (-> & ad & dd & vdd & -> & -> & Had & Hx & Hvx & Hr).
  destruct (value_list_cases vx) as [[vl ->]|Hno].
  2: { destruct (list_items_h_fail n h x vx Hr Hno) as [Hg Hvg].
       unfold hsimP, hbind. by rewrite Hg, Hvg. }
  destruct (repr_list n h x vl Hr) as (la & l & -> & Hla & _).
  eapply hsimP_step; [unfold list_items_h; simpl; by rewrite Hla|].
  cbn [as_list rbind].
  destruct (resources_trees n h ad dd vdd la l vl Ht Had Hx Hvx Hla)
    as (Htl & Hlr & Hin).
  assert (Hsub : forall a, a ∈ concat (reach n h <$> l) -> a ∈ reach n h (RObj ad)).
  { intros a [Ha _]%Hin. by apply (item_reach n h ad dd vdd Ht Had "resources"). }
  assert (Hmono : forall k h' x vx,
    within (fun a => a ∈ concat (reach n h <$> l) \/ C a \/ length h <= a) k h' x vx ->
    within (fun a => a ∈ reach n h (RObj ad) \/ C a \/ length h <= a) k h' x vx).
  { intros k h' x vx Hw. eapply within_mono; [done..|]. intros a [?|?]; auto. }
  cbn [setitem rbind]. eapply hsimP_then.
  { eapply hsimP_call; [done | |].
    - apply hsimP_frame,
        (resolve_resources_h_sim l vl initial_state_h initial_state h); try done.
      intros a Ha. destruct (HC a Ha) as [? Hn]. split; [done | by intros ?%Hsub].
    - intros a _ Ha. by apply Hsub. }
  intros h2 st [vl2 vst] Hp2 (Hp & (piv & vpiv & Hs & Hv & Hk & Hpiv) & Hl & Ho).
  unfold pass_post. cbn [fst snd] in *. split_and!.
  - split; [|done]. rewrite Hs, Hv. simpl.
    eapply Forall2_impl; [done|]. intros y vy. apply Hmono.
  - apply (descriptor_rebuild n h ad dd vdd la l vl Ht Had Hx Hvx Hla _ h2 vl2);
      [done | by left|].
    eapply Forall2_impl; [done|]. intros y vy. apply Hmono.
  - destruct (descriptor_kept n h ad dd vdd la l vl Ht Had Hx Hvx Hla h2 Hp)
      as [Had2 Hla2].
    exists l, vl. split_and!; [|simpl; by rewrite Hvx | done].
    exists (RObj la). rewrite getitem_h_ok, list_items_h_ok. naive_solver.
Qed.

End pass.

(** ** The second loop (lines 72-75) *)

(** The call of [unpivot_rows] with the locals of [func]: the rows are
    new objects, and the store begins with the store of the call. *)
Lemma selected_rows_h_sim n depth st vst ev vev rows vrows h :
  n <= depth -> closed h -> state_rel (repr (S n) h) st vst ->
  repr (S n) h ev vev -> gen_rel (repr (S n) h) rows vrows ->
  closed (selected_rows_h depth st ev rows h).2 /\
  h `prefix_of` (selected_rows_h depth st ev rows h).2 /\
  sim (fun g vg =>
         gen_rel (repr (S n) (selected_rows_h depth st ev rows h).2) g vg /\
         NoDup (gen_items g))
      (selected_rows_h depth st ev rows h).1 (selected_rows vst vev vrows).
Proof.
  intros Hd Hc [Hpiv Hk] Hev Hrows. unfold selected_rows_h, selected_rows.
  rewrite Hk. destruct (fields_to_keep vst) as [kept|]; [|done].
  by destruct (unpivot_rows_h_sim n depth Hd kept ev vev rows
                 (unpivot_fields_without_regex_h st) vrows
                 (unpivot_fields_without_regex vst) h) as (? & ? & ? & _ & ?).
Qed.

(** ** The theorems *)

(** C6: the schema pass that assigns in place implements the schema pass
    on values.  In a closed store where the package descriptor is a tree
    (no object is reached twice) and the configuration lies in a region
    of the store that the descriptor does not reach, the pass raises the
    exception [Schema.schema_pass] returns, or it returns and then the
    same descriptor reference reads, in the store the pass leaves, as the
    descriptor [Schema.schema_pass] returns, the resolved fields read as
    the resolved fields it returns, and the names of the kept fields are
    the same. *)
Theorem schema_pass_h_refines `{E : RegexEngine} m C n h ufs eks ev d vufs veks vev vd :
  closed h -> tree n h d vd -> config_in C n h ufs eks ev vufs veks vev ->
  (forall a, C a -> a < length h /\ a ∉ reach n h d) ->
  sim (fun st out =>
         repr (5 + n) (schema_pass_h m ufs eks ev d h).2 d out.1 /\
         state_rel (repr (2 + n) (schema_pass_h m ufs eks ev d h).2) st out.2)
      (schema_pass_h m ufs eks ev d h).1 (schema_pass m vufs veks vev vd).
Proof.
  intros Hc Ht Hcfg HC.
  destruct (schema_pass_h_sim m C n ufs eks ev vufs veks vev d vd h Hc Ht Hcfg HC)
    as [_ Hs].
  eapply sim_impl; [exact Hs|]. intros st out ([Hp Hk] & Hd & _).
  split; [apply Hd|]. split; [|done].
  eapply Forall2_impl; [done|]. by intros x v [? _].
Qed.

(** C12: the schema pass writes inside the package descriptor only.
    Under the same hypotheses, and whether the pass returns or raises,
    the store it leaves is closed, every object of the store it started
    in that the descriptor did not reach is as it was, and so the
    specifications, the extra keys and the extra value read as before:
    the configuration is not changed by the pass. *)
Theorem schema_pass_h_frame `{E : RegexEngine} m C n h ufs eks ev d vufs veks vev vd :
  closed h -> tree n h d vd -> config_in C n h ufs eks ev vufs veks vev ->
  (forall a, C a -> a < length h /\ a ∉ reach n h d) ->
  let h' := (schema_pass_h m ufs eks ev d h).2 in
  closed h' /\ length h <= length h' /\
  (forall a, a < length h -> a ∉ reach n h d -> h' !! a = h !! a) /\
  config_in C n h' ufs eks ev vufs veks vev.
Proof.
  intros Hc Ht Hcfg HC.
  destruct (schema_pass_h_sim m C n ufs eks ev vufs veks vev d vd h Hc Ht Hcfg HC)
    as [Hp _].
  split_and!; [apply Hp.. |].
  eapply config_in_pres; [done..|]. intros a Ha. by destruct (HC a Ha).
Qed.

(** The two loops of [func] on one store.  When the schema pass
    returns in a store as in [schema_pass_h_refines], and the source
    then makes the rows of a selected table (the store has grown,
    nothing was written to), the
    call of lines 72-75 with the two locals the pass left and with the
    object [extra_value] raises [UnboundLocalError] when the value model
    does, and otherwise its rows read, in the final store, as the rows
    [Rows.unpivot_rows] computes from the state [Schema.schema_pass]
    returns; they are pairwise distinct objects, and making them writes
    to no object that existed before.  The pivoted fields that the first
    loop changed in place and the second loop reads are therefore the
    same objects, with the key mappings the first loop gave them. *)
Theorem selected_rows_h_refines `{E : RegexEngine} m C n depth h ufs eks ev d
    vufs veks vev vd st h2 rows vrows :
  closed h -> tree n h d vd -> config_in C n h ufs eks ev vufs veks vev ->
  (forall a, C a -> a < length h /\ a ∉ reach n h d) ->
  (schema_pass_h m ufs eks ev d h).1 = Ok st ->
  closed h2 -> (schema_pass_h m ufs eks ev d h).2 `prefix_of` h2 ->
  gen_rel (repr (2 + n) h2) rows vrows -> S n <= depth ->
  exists vd' vst,
    schema_pass m vufs veks vev vd = Ok (vd', vst) /\
    sim (fun g vg =>
           gen_rel (repr (2 + n) (selected_rows_h depth st ev rows h2).2) g vg /\
           NoDup (gen_items g))
        (selected_rows_h depth st ev rows h2).1 (selected_rows vst vev vrows) /\
    h2 `prefix_of` (selected_rows_h depth st ev rows h2).2.
Proof.
  intros Hc Ht Hcfg HC Hst Hc2 Hpre Hrows Hd.
  destruct (schema_pass_h_sim m C n ufs eks ev vufs veks vev d vd h Hc Ht Hcfg HC)
    as [Hp Hs].
  assert (Hev : repr (2 + n) h2 ev vev).
  { eapply repr_mono; [|apply (Nat.le_add_l n 2)|exact Hpre].
    eapply within_repr, config_in_pres; [done..|]. intros a Ha. by destruct (HC a Ha). }
  rewrite Hst in Hs. destruct (schema_pass m vufs veks vev vd) as [[vd' vst]|e]; [|done].
  destruct Hs as ([Hpiv Hk] & _ & _). exists vd', vst. split; [done|].
  destruct (selected_rows_h_sim (S n) depth st vst ev vev rows vrows h2)
    as (_ & ? & ?); try done.
  split; [|done]. eapply Forall2_impl; [exact Hpiv|]. intros r v Hr.
  eapply repr_mono; [by eapply within_repr | done | done].
Qed.

(** ** The theorems at the [sales] package *)

Lemma ex_setup_run : ex_setup [] = (Ok (ex_ufs, ex_eks, ex_ev, ex_pkg), ex_store).
Proof. reflexivity. Qed.

Lemma ex_store_closed : closed ex_store.
Proof. by_compute. Qed.

Lemma ex_pkg_tree : tree 8 ex_store ex_pkg (ex_descriptor [ex_sales; ex_raw]).
Proof. split; [reflexivity | by_compute]. Qed.

Lemma ex_config_in :
  config_in ex_config 8 ex_store ex_ufs ex_eks ex_ev ex_specs [ex_quarter] ex_amount.
Proof. repeat split; repeat constructor; by_compute. Qed.

Lemma ex_config_apart a :
  ex_config a -> a < length ex_store /\ a ∉ reach 8 ex_store ex_pkg.
Proof. revert a. apply Forall_forall. by_compute. Qed.

Lemma schema_pass_h_refines_witness :
  sim (fun st out =>
         repr 13 (schema_pass_h (E:=literal_engine) MatchAll ex_ufs ex_eks ex_ev
                    ex_pkg ex_store).2 ex_pkg out.1 /\
         state_rel (repr 10 (schema_pass_h (E:=literal_engine) MatchAll ex_ufs
                               ex_eks ex_ev ex_pkg ex_store).2) st out.2)
      (schema_pass_h (E:=literal_engine) MatchAll ex_ufs ex_eks ex_ev ex_pkg
         ex_store).1
      (schema_pass (E:=literal_engine) MatchAll ex_specs [ex_quarter] ex_amount
         (ex_descriptor [ex_sales; ex_raw])).
Proof.
  apply (schema_pass_h_refines (E:=literal_engine) MatchAll ex_config 8 ex_store
           ex_ufs ex_eks ex_ev ex_pkg ex_specs [ex_quarter] ex_amount
           (ex_descriptor [ex_sales; ex_raw]));
    [apply ex_store_closed | apply ex_pkg_tree | apply ex_config_in
    | apply ex_config_apart].
Defined.

Lemma schema_pass_h_frame_witness :
  let h' := (schema_pass_h (E:=literal_engine) MatchAll ex_ufs ex_eks ex_ev ex_pkg
               ex_store).2 in
  closed h' /\ length ex_store <= length h' /\
  (forall a, a < length ex_store -> a ∉ reach 8 ex_store ex_pkg ->
             h' !! a = ex_store !! a) /\
  config_in ex_config 8 h' ex_ufs ex_eks ex_ev ex_specs [ex_quarter] ex_amount.
Proof.
  apply (schema_pass_h_frame (E:=literal_engine) MatchAll ex_config 8 ex_store
           ex_ufs ex_eks ex_ev ex_pkg ex_specs [ex_quarter] ex_amount
           (ex_descriptor [ex_sales; ex_raw]));
    [apply ex_store_closed | apply ex_pkg_tree | apply ex_config_in
    | apply ex_config_apart].
Defined.

(** C13: the rewritten schemas hold the objects of the configuration.
    Under the same hypotheses, when the pass returns, every table of the
    package either reads as it did before the pass, or the list of fields
    of its schema ends with the objects [extra_keys] holds and with the
    object [extra_value]: lines 62-63 insert the objects, not copies of
    them, so the descriptor of the value column, which line 19 reads for
    every row, can be reached from the descriptor the consumer is given,
    and from every schema that was rewritten. *)
Theorem extra_value_shared `{E : RegexEngine} m C n h ufs eks ev d vufs veks vev vd st :
  closed h -> tree n h d vd -> config_in C n h ufs eks ev vufs veks vev ->
  (forall a, C a -> a < length h /\ a ∉ reach n h d) ->
  (schema_pass_h m ufs eks ev d h).1 = Ok st ->
  exists l vl,
    tables_h (schema_pass_h m ufs eks ev d h).2 d l /\
    getitem vd "resources" = Ok (VList vl) /\
    Forall2 (fun r v => repr (3 + n) (schema_pass_h m ufs eks ev d h).2 r v \/
                        installed (schema_pass_h m ufs eks ev d h).2 eks ev r)
            l vl.
Proof.
  intros Hc Ht Hcfg HC Hok.
  destruct (schema_pass_h_sim m C n ufs eks ev vufs veks vev d vd h Hc Ht Hcfg HC)
    as [_ Hs].
  rewrite Hok in Hs. destruct (schema_pass m vufs veks vev vd) as [out|]; [|done].
  apply Hs.
Qed.


Lemma extra_value_shared_witness :
  exists l vl,
    tables_h ex_store_resolved ex_pkg l /\
    getitem (ex_descriptor [ex_sales; ex_raw]) "resources" = Ok (VList vl) /\
    Forall2 (fun r v => repr 11 ex_store_resolved r v \/
                        installed ex_store_resolved ex_eks ex_ev r) l vl.
Proof.
  apply (extra_value_shared (E:=literal_engine) MatchAll ex_config 8 ex_store
           ex_ufs ex_eks ex_ev ex_pkg ex_specs [ex_quarter] ex_amount
           (ex_descriptor [ex_sales; ex_raw]) ex_state_resolved);
    [apply ex_store_closed | apply ex_pkg_tree | apply ex_config_in
    | apply ex_config_apart | vm_compute; reflexivity].
Defined.


Lemma selected_rows_h_refines_witness :
  exists vd' vst,
    schema_pass (E:=literal_engine) MatchAll ex_specs [ex_quarter] ex_amount
                (ex_descriptor [ex_sales; ex_raw]) = Ok (vd', vst) /\
    sim (fun g vg =>
           gen_rel (repr 10 (selected_rows_h 9 ex_state_resolved ex_ev
                               (gen_of_list [RObj 25]) ex_store_rows).2) g vg /\
           NoDup (gen_items g))
        (selected_rows_h 9 ex_state_resolved ex_ev (gen_of_list [RObj 25])
                         ex_store_rows).1
        (selected_rows vst ex_amount (gen_of_list [ex_row])) /\
    ex_store_rows `prefix_of`
      (selected_rows_h 9 ex_state_resolved ex_ev (gen_of_list [RObj 25])
                       ex_store_rows).2.
Proof.
  apply (selected_rows_h_refines (E:=literal_engine) MatchAll ex_config 8 9
           ex_store ex_ufs ex_eks ex_ev ex_pkg ex_specs [ex_quarter] ex_amount
           (ex_descriptor [ex_sales; ex_raw]) ex_state_resolved ex_store_rows
           (gen_of_list [RObj 25]) (gen_of_list [ex_row]));
    [apply ex_store_closed | apply ex_pkg_tree | apply ex_config_in
    | apply ex_config_apart | vm_compute; reflexivity | by_compute
    | by eexists
    | split; [repeat constructor; vm_compute; reflexivity | reflexivity]
    | lia].
Defined.

(** The row made for [q1] after the consumer renamed the value column:
    the value is under the new name. *)
Lemma renamed_rows :
  sim (fun r v => repr 2 (make_row_h 8 (RObj 25) (RObj 9) ["region"] ex_ev
                            ex_store_renamed).2 r v)
      (make_row_h 8 (RObj 25) (RObj 9) ["region"] ex_ev ex_store_renamed).1
      (Ok (VDict [("quarter", VStr "1"); ("region", VStr "east");
                  ("total", VInt 10)])).
Proof. vm_compute. reflexivity. Qed.
