(* ===== verification/Unpivot.v ===== *)
(** * The processor

    [func] (lines 25-75 of [unpivot.py]) is a generator over a package: it
    builds the resource matcher, runs the schema resolver on the package
    descriptor, yields the descriptor, and then yields, for every table in
    order, either the table as it is (not selected) or the generator
    [unpivot_rows] over its rows (selected).  [unpivot] (lines 23-77)
    returns [func] for a configuration.

    The package is the wrapper dataflows passes to a processor: its
    descriptor ([package.pkg.descriptor]) and, in order, the tables with
    their name ([resource.res.name]) and their rows. *)

From stdpp Require Import base list strings.
From S2P Require Import Prelude Dict Values Regex Matcher Rows Schema.

Record resource_wrapper : Type := {
  res_name : string;
  res_rows : gen value
}.

Record package_wrapper : Type := {
  pkg_descriptor : value;
  pkg_resources : list resource_wrapper
}.

(** What [func] yields. *)
Inductive item : Type :=
| ItemPackage (descriptor : value)
| ItemResource (resource : resource_wrapper)
| ItemRows (rows : gen value).

Section unpivot.
Context `{E : RegexEngine}.

(** Lines 68-75: the loop over the tables. *)
Fixpoint row_pass (m : matcher) (st : resolver_state) (extra_value : value)
    (resources : list resource_wrapper) : gen item :=
  match resources with
  | [] => Stop
  | resource :: resources' =>
      if negb (matcher_match m (res_name resource)) then
        Yield (ItemResource resource) (row_pass m st extra_value resources')
      else
        match fields_to_keep st with
        | None => Raise (UnboundLocalError "fields_to_keep")
        | Some kept =>
            Yield (ItemRows (unpivot_rows (res_rows resource)
                               (unpivot_fields_without_regex st) kept extra_value))
                  (row_pass m st extra_value resources')
        end
  end.

(** Lines 25-75. *)
Definition func (unpivot_fields extra_keys : list value) (extra_value : value)
    (resources : selector) (package : package_wrapper) : gen item :=
  match
    (m <- ResourceMatcher resources (pkg_descriptor package) ;;
     p <- schema_pass m unpivot_fields extra_keys extra_value
            (pkg_descriptor package) ;;
     Ok (m, p))
  with
  | Err e => Raise e
  | Ok (m, (descriptor, st)) =>
      Yield (ItemPackage descriptor)
            (row_pass m st extra_value (pkg_resources package))
  end.

(** Lines 23-77. *)
Definition unpivot (unpivot_fields extra_keys : list value) (extra_value : value)
    (resources : selector) : package_wrapper -> gen item :=
  func unpivot_fields extra_keys extra_value resources.

(** ** Reference definitions *)

(** What the second loop yields for one table once [fields_to_keep] is
    bound. *)
Definition table_item (m : matcher) (ufs : list value) (kept : list string)
    (extra_value : value) (resource : resource_wrapper) : item :=
  if matcher_match m (res_name resource) then
    ItemRows (unpivot_rows (res_rows resource) ufs kept extra_value)
  else ItemResource resource.

Definition is_package_item (it : item) : bool :=
  match it with
  | ItemPackage _ => true
  | _ => false
  end.

End unpivot.

(** ** Example data: the packages of the scenarios, over the descriptors
    of the schema resolver's examples *)

Definition ex_other_row : value := VDict [("country", VStr "fr"); ("q1", VInt 7)].

Definition ex_package (tables : list value) (rows : list (string * list value)) :
    package_wrapper :=
  {| pkg_descriptor := ex_descriptor tables;
     pkg_resources :=
       map (fun nr => {| res_name := nr.1; res_rows := gen_of_list nr.2 |}) rows |}.

(** The long form of the rows. *)
Definition ex_long (region_key region quarter : string) (amount : value) : value :=
  VDict [("quarter", VStr quarter); (region_key, VStr region); ("amount", amount)].

(** The locals of [func] after the schema pass on the [sales] table. *)
Definition ex_state : resolver_state :=
  {| unpivot_fields_without_regex :=
       [ex_pivoted "q1" "1"; ex_pivoted "q2" "2"; ex_pivoted "q3" "3"];
     fields_to_keep := Some ["region"] |}.

Definition ex_sales_long : list value :=
  [ex_long "region" "east" "1" (VInt 10); ex_long "region" "east" "2" (VInt 20);
   ex_long "region" "east" "3" (VInt 30)].

Section unpivot_facts.
Context `{E : RegexEngine}.

(** ** The second loop *)

Lemma row_pass_no_package m st ev rs :
  Forall (fun it => is_package_item it = false) (gen_items (row_pass m st ev rs)).
Proof.
  induction rs as [|r rs IH]; simpl; [constructor|].
  destruct (matcher_match m (res_name r)); simpl.
  - destruct (fields_to_keep st); simpl; by constructor.
  - by constructor.
Qed.

(** Once [fields_to_keep] is bound, the second loop yields
    exactly one item per table, in the order of the package: the table
    itself when it is not selected, and otherwise the generator
    [unpivot_rows] over its rows with the pivot fields and the kept fields
    the schema pass left, the same for every table. *)
Theorem row_pass_bound m st ev rs kept :
  fields_to_keep st = Some kept ->
  row_pass m st ev rs =
  gen_of_list (map (table_item m (unpivot_fields_without_regex st) kept ev) rs).
Proof.
  intros Hk. induction rs as [|r rs IH]; simpl; [done|].
  unfold table_item at 1. rewrite Hk.
  destruct (matcher_match m (res_name r)); simpl; by rewrite IH.
Qed.

(** C32: pass-through law.  Tables that are not selected are yielded
    as they are, with their own row source, in order, whatever the
    configuration and whatever the schema pass recorded. *)
Theorem row_pass_passthrough m st ev rs :
  Forall (fun r => matcher_match m (res_name r) = false) rs ->
  row_pass m st ev rs = gen_of_list (map ItemResource rs).
Proof.
  induction 1 as [|r rs Hr _ IH]; simpl; [done|]. by rewrite Hr, IH.
Qed.

(** When no selected table had a schema, [fields_to_keep] was
    never assigned: the second loop yields the unselected tables that come
    first and raises [UnboundLocalError] at the first selected table,
    instead of passing it through. *)
Theorem row_pass_unbound m st ev pre r post :
  fields_to_keep st = None ->
  Forall (fun r => matcher_match m (res_name r) = false) pre ->
  matcher_match m (res_name r) = true ->
  row_pass m st ev (pre ++ r :: post) =
  gen_close (map ItemResource pre) (Some (UnboundLocalError "fields_to_keep")).
Proof.
  intros Hk Hpre Hr. induction Hpre as [|r0 pre Hr0 _ IH]; simpl.
  - by rewrite Hr, Hk.
  - by rewrite Hr0, IH.
Qed.

(** ** The generator *)

(** The descriptor comes first.  [func] either raises before it
    yields anything (the matcher or the schema pass raised), or yields the
    package descriptor, once, and only then the tables: no descriptor is
    yielded after the first item. *)
Theorem func_descriptor_first specs eks ev sel pkg :
  (exists e, func specs eks ev sel pkg = Raise e) \/
  (exists d rest, func specs eks ev sel pkg = Yield (ItemPackage d) rest /\
     Forall (fun it => is_package_item it = false) (gen_items rest)).
Proof.
  unfold func. destruct (rbind _ _) as [[m [d st]]|e]; [right | eauto].
  eexists _, _. split; [done | apply row_pass_no_package].
Qed.

(** An invalid configuration is reported before anything is
    yielded: when the pattern of the resource selector or the schema pass
    raises, the trace of [func] is that exception alone. *)
Theorem func_schema_error specs eks ev sel pkg m e :
  ResourceMatcher sel (pkg_descriptor pkg) = Ok m ->
  schema_pass m specs eks ev (pkg_descriptor pkg) = Err e ->
  func specs eks ev sel pkg = Raise e.
Proof. intros Hm He. unfold func. by rewrite Hm; simpl; rewrite He. Qed.

(** C2: one selected table, end to end.  For a package with one
    table that is selected and has a schema whose fields all have a name,
    specifications that can be applied and rows that carry every kept
    field, [func] yields the descriptor with the rewritten schema (kept
    fields, extra keys, extra value) and then one row source that yields
    the reference expansion of the rows and ends as the table's row source
    ends. *)
Theorem func_single_table specs res eks ev vn sel m dd rd name sd fields rows :
  ResourceMatcher sel (VDict dd) = Ok m -> matcher_match m name = true ->
  dict_get "resources" dd = Some (VList [VDict rd]) ->
  dict_get "name" rd = Some (VStr name) ->
  dict_get "schema" rd = Some (VDict sd) ->
  default (VList []) (dict_get "fields" sd) = VList fields ->
  Forall (fun f => is_field f = true) fields ->
  Forall (fun u => spec_okb fields u = true) specs ->
  mapM compile_spec specs = Ok res ->
  getitem ev "name" = Ok (VStr vn) ->
  Forall (row_ok (field_names (kept_fields res fields))) (gen_items rows) ->
  exists pivoted,
    func specs eks ev sel
      {| pkg_descriptor := VDict dd;
         pkg_resources := [{| res_name := name; res_rows := rows |}] |} =
    Yield (ItemPackage
             (VDict (dict_set "resources"
                (VList [VDict (dict_set "schema"
                   (VDict (dict_set "fields"
                      (VList (kept_fields res fields ++ eks ++ [ev])) sd)) rd)])
                dd)))
      (Yield (ItemRows
                (gen_close (expand_spec pivoted (field_names (kept_fields res fields))
                              vn (gen_items rows))
                           (gen_end rows)))
             Stop) /\
    map field_name pivoted = pivot_names res fields /\
    length (expand_spec pivoted (field_names (kept_fields res fields)) vn
              (gen_items rows)) =
      length (gen_items rows) * length (pivot_names res fields).
Proof.
  intros Hm Hsel Hd Hn Hs Hfs Hf Hspecs Hres Hev Hrows.
  destruct (resolve_resource_selected m specs res eks ev initial_state rd name sd
              fields) as (pivoted & Heq & Hnames & Hok); try done.
  exists pivoted. split; [|split; [done|]].
  - unfold func, schema_pass. cbn [pkg_descriptor pkg_resources].
    rewrite Hm. simpl. rewrite Hd. simpl. rewrite Heq. simpl. rewrite Hsel. simpl.
    by rewrite (unpivot_rows_expand _ vn).
  - by rewrite expand_spec_length, <- Hnames, length_map.
Qed.

End unpivot_facts.

(** ** Scenarios

    Runs of [func] with the literal engine on the packages above: the
    [sales] scenario of the specification with one specification per
    quarter column, and the packages that show what the shared locals of
    the first loop do. *)

(** The [sales] scenario.  The table with the columns [region],
    [q1], [q2], [q3] and the row (east, 10, 20, 30) becomes a table whose
    schema is [region], [quarter], [amount], with the three rows
    (1, east, 10), (2, east, 20), (3, east, 30), in that order. *)
Theorem func_sales_scenario :
  func ex_specs [ex_quarter] ex_amount SelAll
       (ex_package [ex_sales] [("sales", [ex_row])]) =
  Yield (ItemPackage (ex_descriptor [ex_long_schema "sales" "region"]))
        (Yield (ItemRows (gen_of_list ex_sales_long)) Stop).
Proof. vm_compute. reflexivity. Qed.




(** A name selector.  With the selector naming [sales] only, the
    table [raw] is yielded as it is, after the expanded rows of [sales]. *)
Theorem func_selector_names :
  func ex_specs [ex_quarter] ex_amount (SelNames ["sales"])
       (ex_package [ex_sales; ex_raw] [("sales", [ex_row]); ("raw", [ex_row])]) =
  Yield (ItemPackage (ex_descriptor [ex_long_schema "sales" "region"; ex_raw]))
    (Yield (ItemRows (gen_of_list ex_sales_long))
       (Yield (ItemResource {| res_name := "raw"; res_rows := gen_of_list [ex_row] |})
          Stop)).
Proof. vm_compute. reflexivity. Qed.

(** ** The theorems at the packages of the scenarios *)

Lemma row_pass_bound_witness :
  row_pass (MatchNames ["sales"]) ex_state ex_amount
           (pkg_resources (ex_package [] [("sales", [ex_row]); ("raw", [ex_row])])) =
  gen_of_list
    (map (table_item (MatchNames ["sales"]) (unpivot_fields_without_regex ex_state)
            ["region"] ex_amount)
         (pkg_resources (ex_package [] [("sales", [ex_row]); ("raw", [ex_row])]))).
Proof.
  apply (row_pass_bound (MatchNames ["sales"]) ex_state ex_amount _ ["region"]).
  reflexivity.
Defined.

Lemma row_pass_passthrough_witness :
  row_pass (MatchNames ["sales"]) initial_state ex_amount
           (pkg_resources (ex_package [] [("raw", [ex_row]); ("other", [ex_other_row])])) =
  gen_of_list
    (map ItemResource
         (pkg_resources (ex_package [] [("raw", [ex_row]); ("other", [ex_other_row])]))).
Proof.
  apply (row_pass_passthrough (MatchNames ["sales"]) initial_state ex_amount).
  repeat constructor.
Defined.

Lemma row_pass_unbound_witness :
  row_pass (MatchNames ["raw"]) initial_state ex_amount
    (pkg_resources (ex_package [] [("sales", [ex_row])]) ++
     {| res_name := "raw"; res_rows := gen_of_list [ex_row] |} ::
     pkg_resources (ex_package [] [("other", [ex_other_row])])) =
  gen_close (map ItemResource (pkg_resources (ex_package [] [("sales", [ex_row])])))
            (Some (UnboundLocalError "fields_to_keep")).
Proof.
  apply (row_pass_unbound (MatchNames ["raw"]) initial_state ex_amount).
  - reflexivity.
  - repeat constructor.
  - reflexivity.
Defined.

Lemma func_schema_error_witness :
  func [VDict [("name", VStr "q("); ("keys", VDict [("quarter", VStr "1")])]]
       [ex_quarter] ex_amount SelAll (ex_package [ex_sales] [("sales", [ex_row])]) =
  Raise ReError.
Proof.
  apply (func_schema_error _ _ _ SelAll _ MatchAll ReError).
  - reflexivity.
  - reflexivity.
Defined.

Lemma func_single_table_witness :
  exists pivoted,
    func ex_specs [ex_quarter] ex_amount SelAll
      {| pkg_descriptor :=
           VDict [("name", VStr "pkg");
                  ("resources",
                   VList [VDict (ex_table_dict "sales" ["region"; "q1"; "q2"; "q3"])])];
         pkg_resources :=
           [{| res_name := "sales"; res_rows := gen_of_list [ex_row; ex_row_west] |}] |} =
    Yield (ItemPackage
             (VDict (dict_set "resources"
                (VList [VDict (dict_set "schema"
                   (VDict (dict_set "fields"
                      (VList (kept_fields ex_res (ex_fields ["region"; "q1"; "q2"; "q3"])
                              ++ [ex_quarter] ++ [ex_amount]))
                      (ex_schema ["region"; "q1"; "q2"; "q3"])))
                   (ex_table_dict "sales" ["region"; "q1"; "q2"; "q3"]))])
                [("name", VStr "pkg");
                 ("resources",
                  VList [VDict (ex_table_dict "sales" ["region"; "q1"; "q2"; "q3"])])])))
      (Yield (ItemRows
                (gen_close
                   (expand_spec pivoted
                      (field_names
                         (kept_fields ex_res (ex_fields ["region"; "q1"; "q2"; "q3"])))
                      "amount" (gen_items (gen_of_list [ex_row; ex_row_west])))
                   (gen_end (gen_of_list [ex_row; ex_row_west]))))
             Stop) /\
    map field_name pivoted = pivot_names ex_res (ex_fields ["region"; "q1"; "q2"; "q3"]) /\
    length (expand_spec pivoted
              (field_names (kept_fields ex_res (ex_fields ["region"; "q1"; "q2"; "q3"])))
              "amount" (gen_items (gen_of_list [ex_row; ex_row_west]))) =
      length (gen_items (gen_of_list [ex_row; ex_row_west])) *
      length (pivot_names ex_res (ex_fields ["region"; "q1"; "q2"; "q3"])).
Proof.
  apply (func_single_table ex_specs ex_res [ex_quarter] ex_amount "amount" SelAll
           MatchAll _ _ "sales").
  - reflexivity.
  - reflexivity.
  - reflexivity.
  - reflexivity.
  - reflexivity.
  - reflexivity.
  - by_compute.
  - by_compute.
  - reflexivity.
  - reflexivity.
  - by_compute.
Defined.
