(* ===== verification/HeapUnpivot.v ===== *)
(** * The processor on the object store

    [Unpivot.func] composes the two loops of [func] (lines 25-75 of
    [unpivot.py]) on values.  Here they are composed on the store of
    [Heap]: the first loop is [HeapSchema.schema_pass_h], which assigns
    to the objects of the package descriptor, the second calls
    [HeapSchema.selected_rows_h] for every selected table, which reads
    the field objects the first loop changed and creates the rows.  A
    package is a reference to its descriptor and, per table, the name
    and the rows of the source as references.

    As in [Unpivot], a generator is its trace; on the store the trace
    comes with the store that is left when the consumer has taken the
    rows of every table before it asks for the next table.  The row
    expander writes to no object that existed ([Heap.make_row_h_fresh]),
    so a consumer that takes the rows in another order gets the same
    rows ([Heap.make_row_h_later], [HeapLazy]).

    The theorem of this file says that the items [func_h] yields read,
    in the final store, as the items [Unpivot.func] yields. *)

From stdpp Require Import base list strings.
From S2P Require Import Prelude Dict Values Regex Matcher Rows Schema Heap.
From S2P Require Import HeapSchema Unpivot.

(** A table of the package: its name and the rows of the source. *)
Record resource_wrapper_h : Type := {
  res_name_h : string;
  res_rows_h : gen ref
}.

Record package_wrapper_h : Type := {
  pkg_descriptor_h : ref;
  pkg_resources_h : list resource_wrapper_h
}.

(** What [func] yields. *)
Inductive item_h : Type :=
| ItemPackage_h (descriptor : ref)
| ItemResource_h (resource : resource_wrapper_h)
| ItemRows_h (rows : gen ref).

Section func_h.
Context `{E : RegexEngine}.

(** Line 27.  The matcher is built from the selector; the package is not
    read. *)
Definition ResourceMatcher_h (resources : selector) (pkg : ref) : heapM matcher :=
  hlift (match resources with
         | SelAll => Ok MatchAll
         | SelPattern p => (re <- re_compile p ;; Ok (MatchRe re))%result
         | SelNames names => Ok (MatchNames names)
         end).

(** Lines 68-75: the loop over the tables. *)
Fixpoint row_pass_h (depth : nat) (m : matcher) (st : resolver_state_h)
    (extra_value : ref) (resources : list resource_wrapper_h) (h : heap) :
    gen item_h * heap :=
  match resources with
  | [] => (Stop, h)
  | resource :: resources' =>
      if negb (matcher_match m (res_name_h resource)) then
        let out := row_pass_h depth m st extra_value resources' h in
        (Yield (ItemResource_h resource) out.1, out.2)
      else
        match selected_rows_h depth st extra_value (res_rows_h resource) h with
        | (Err e, h') => (Raise e, h')
        | (Ok rows, h') =>
            let out := row_pass_h depth m st extra_value resources' h' in
            (Yield (ItemRows_h rows) out.1, out.2)
        end
  end.

(** Lines 25-75. *)
Definition func_h (depth : nat) (unpivot_fields extra_keys : list ref)
    (extra_value : ref) (resources : selector) (package : package_wrapper_h)
    (h : heap) : gen item_h * heap :=
  match
    (m <- ResourceMatcher_h resources (pkg_descriptor_h package) ;;
     st <- schema_pass_h m unpivot_fields extra_keys extra_value
             (pkg_descriptor_h package) ;;
     hret (m, st)) h
  with
  | (Err e, h') => (Raise e, h')
  | (Ok (m, st), h') =>
      let out := row_pass_h depth m st extra_value (pkg_resources_h package) h' in
      (Yield (ItemPackage_h (pkg_descriptor_h package)) out.1, out.2)
  end.

(** Lines 23-77. *)
Definition unpivot_h (depth : nat) (unpivot_fields extra_keys : list ref)
    (extra_value : ref) (resources : selector) :
    package_wrapper_h -> heap -> gen item_h * heap :=
  func_h depth unpivot_fields extra_keys extra_value resources.

End func_h.

(** ** Reference definitions *)

(** A table on the store stands for a table on values. *)
Definition resource_rel (R : ref -> value -> Prop) (r : resource_wrapper_h)
    (vr : resource_wrapper) : Prop :=
  res_name_h r = res_name vr /\ gen_rel R (res_rows_h r) (res_rows vr).

Definition item_rel (R : ref -> value -> Prop) (i : item_h) (vi : item) : Prop :=
  match i, vi with
  | ItemPackage_h d, ItemPackage vd => R d vd
  | ItemResource_h r, ItemResource vr => resource_rel R r vr
  | ItemRows_h g, ItemRows vg => gen_rel R g vg
  | _, _ => False
  end.

(** A package on the store: the descriptor is a tree, and the rows of
    the sources lie in the region [C]. *)
Definition package_in (C : nat -> Prop) (n : nat) (h : heap)
    (package : package_wrapper_h) (vpackage : package_wrapper) : Prop :=
  tree n h (pkg_descriptor_h package) (pkg_descriptor vpackage) /\
  Forall2 (resource_rel (within C n h)) (pkg_resources_h package)
          (pkg_resources vpackage).

(** ** Example data: the [sales] package with a row *)

(** The store of [HeapSchema.ex_store] with a row of [sales] at address
    18. *)
Definition ex_store_pkg : heap :=
  ex_store ++
  [ODict [("region", RStr "east"); ("q1", RInt 10); ("q2", RInt 20);
          ("q3", RInt 30)]].

Definition ex_package_h : package_wrapper_h :=
  {| pkg_descriptor_h := ex_pkg;
     pkg_resources_h :=
       [ {| res_name_h := "sales"; res_rows_h := gen_of_list [RObj 18] |};
         {| res_name_h := "raw"; res_rows_h := Stop |} ] |}.

(** The region of the configuration and of the rows. *)
Definition ex_region (a : nat) : Prop := a ∈ 18 :: seq 0 8.

(** ** Relations *)

Lemma resource_rel_impl (R R' : ref -> value -> Prop) r vr :
  resource_rel R r vr -> (forall x v, R x v -> R' x v) -> resource_rel R' r vr.
Proof. intros [? ?] HR. split; [done | by eapply gen_rel_impl]. Qed.

Lemma item_rel_impl (R R' : ref -> value -> Prop) i vi :
  item_rel R i vi -> (forall x v, R x v -> R' x v) -> item_rel R' i vi.
Proof.
  destruct i, vi; simpl; try done; intros Hi HR;
    [by apply HR | by eapply resource_rel_impl | by eapply gen_rel_impl].
Qed.

Lemma state_rel_impl (R R' : ref -> value -> Prop) st vst :
  state_rel R st vst -> (forall x v, R x v -> R' x v) -> state_rel R' st vst.
Proof. intros [? ?] HR. split; [by eapply Forall2_impl | done]. Qed.

Section func_h_facts.
Context `{E : RegexEngine}.

Lemma ResourceMatcher_h_eq resources pkg vpkg :
  ResourceMatcher_h resources pkg = hlift (ResourceMatcher resources vpkg).
Proof. by destruct resources. Qed.

(** ** The second loop *)

Section row_pass.
Context (n depth : nat) (Hd : n <= depth).
Context (m : matcher) (st : resolver_state_h) (vst : resolver_state).
Context (ev : ref) (vev : value).

(** What is known of the locals in a store stays true when the store
    grows. *)
Lemma locals_grow h h' :
  h `prefix_of` h' ->
  state_rel (repr (S n) h) st vst /\ repr (S n) h ev vev ->
  state_rel (repr (S n) h') st vst /\ repr (S n) h' ev vev.
Proof.
  intros Hp [Hst Hev]. split; [|by eapply repr_mono].
  eapply state_rel_impl; [done|]. intros; by eapply repr_mono.
Qed.

Lemma row_pass_h_sim resources : forall vresources h,
  closed h -> state_rel (repr (S n) h) st vst -> repr (S n) h ev vev ->
  Forall2 (resource_rel (repr (S n) h)) resources vresources ->
  closed (row_pass_h depth m st ev resources h).2 /\
  h `prefix_of` (row_pass_h depth m st ev resources h).2 /\
  gen_rel (item_rel (repr (S n) (row_pass_h depth m st ev resources h).2))
          (row_pass_h depth m st ev resources h).1
          (row_pass m vst vev vresources).
Proof.
  induction resources as [|r resources IH]; intros vresources h Hc Hst Hev Hl.
  { apply Forall2_nil_inv_l in Hl as ->. by split_and!; [..|split]. }
  apply Forall2_cons_inv_l in Hl as (vr & vl & [Hname Hrows] & Hl & ->).
  cbn [row_pass_h row_pass]. rewrite <- Hname.
  destruct (negb (matcher_match m (res_name_h r))).
  { destruct (IH vl h Hc Hst Hev Hl) as (Hc' & Hp & Hg). split_and!; [done..|].
    apply gen_rel_Yield; [|done]. split; [done|].
    eapply gen_rel_impl; [done|]. intros; by eapply repr_mono. }
  destruct (selected_rows_h_sim n depth st vst ev vev (res_rows_h r) (res_rows vr) h)
    as (Hc1 & Hp1 & Hs); try done.
  unfold selected_rows in Hs.
  destruct (selected_rows_h depth st ev (res_rows_h r) h) as [[g|e] h1];
    destruct (fields_to_keep vst) as [kept|]; simpl in *; try done;
    [|subst e; by split_and!; [..|split]].
  destruct Hs as [Hg _].
  destruct (locals_grow h h1 Hp1 (conj Hst Hev)) as [Hst1 Hev1].
  destruct (IH vl h1 Hc1 Hst1 Hev1) as (Hc2 & Hp2 & Hg2).
  { eapply Forall2_impl; [done|]. intros ?? Hr. eapply resource_rel_impl; [done|].
    intros; by eapply repr_mono. }
  split_and!; [done | by etrans |]. apply gen_rel_Yield; [|done].
  eapply gen_rel_impl; [done|]. intros; by eapply repr_mono.
Qed.

End row_pass.

(** ** The two loops *)

(** What lies in a region that the pass does not write to reads the same
    after the pass, to any greater depth and in any later store. *)
Lemma within_after P C n k h h1 h2 r v :
  within C n h r v -> pres P h h1 -> (forall a, C a -> ~ P a) ->
  n <= k -> h1 `prefix_of` h2 -> repr k h2 r v.
Proof.
  intros Hr Hp HC Hk Hpre.
  eapply repr_mono; [eapply within_repr, within_pres; done | done..].
Qed.

Lemma resources_after P C n k h h1 h2 l vl :
  Forall2 (resource_rel (within C n h)) l vl -> pres P h h1 ->
  (forall a, C a -> ~ P a) -> n <= k -> h1 `prefix_of` h2 ->
  Forall2 (resource_rel (repr k h2)) l vl.
Proof.
  intros Hl Hp HC Hk Hpre. eapply Forall2_impl; [done|]. intros r vr Hr.
  eapply resource_rel_impl; [done|]. intros; by eapply within_after.
Qed.

(** C3: the processor on the object store implements the processor on
    values.  In a closed store where the package descriptor is a tree
    and the configuration and the rows of the sources lie in a region
    that the descriptor does not reach, [func], run with enough recursion
    depth for the key mappings, ends the way [Unpivot.func] ends, and
    what it yields reads, in the store it leaves, as what [Unpivot.func]
    yields: the descriptor it changed in place as the rewritten
    descriptor, the rows it made as the expanded rows, the tables it
    passed on as they were.  The store is closed, and outside the
    descriptor no object that existed was written to. *)
Theorem func_h_refines C n depth h ufs eks ev vufs veks vev resources
    package vpackage :
  closed h -> package_in C n h package vpackage ->
  config_in C n h ufs eks ev vufs veks vev ->
  (forall a, C a -> a < length h /\ a ∉ reach n h (pkg_descriptor_h package)) ->
  S n <= depth ->
  closed (func_h depth ufs eks ev resources package h).2 /\
  gen_rel (item_rel (repr (5 + n) (func_h depth ufs eks ev resources package h).2))
          (func_h depth ufs eks ev resources package h).1
          (func vufs veks vev resources vpackage) /\
  (forall a, a < length h -> a ∉ reach n h (pkg_descriptor_h package) ->
             (func_h depth ufs eks ev resources package h).2 !! a = h !! a).
Proof.
  intros Hc [Ht Hres] (Hufs & Heks & Hev) HC Hd. unfold func_h, func.
  rewrite (ResourceMatcher_h_eq resources _ (pkg_descriptor vpackage)).
  destruct (ResourceMatcher resources (pkg_descriptor vpackage)) as [m|e];
    [|by split_and!; [|split|]].
  assert (HCP : forall a, C a -> a ∉ reach n h (pkg_descriptor_h package))
    by (intros a Ha; by apply HC).
  destruct (schema_pass_h_sim m C n ufs eks ev vufs veks vev _ _ h Hc Ht
              (conj Hufs (conj Heks Hev)) HC) as [Hp Hs].
  cbn [hlift hbind rbind]. unfold hbind.
  destruct (schema_pass_h m ufs eks ev (pkg_descriptor_h package) h) as [[st|e] h1];
    destruct (schema_pass m vufs veks vev (pkg_descriptor vpackage))
      as [[vd' vst]|e']; simpl in Hp, Hs |- *; try done;
    [|subst e'; split_and!; [apply Hp | by split | apply Hp]].
  destruct Hs as (Hst & Hdesc & _).
  destruct (row_pass_h_sim (S n) depth Hd m st vst ev vev (pkg_resources_h package)
              (pkg_resources vpackage) h1) as (Hc2 & Hp2 & Hg).
  - apply Hp.
  - eapply state_rel_impl; [done|]. intros; by eapply within_repr.
  - eapply within_after; [done.. | lia | done].
  - eapply resources_after; [done.. | lia | done].
  - split_and!; [done | apply gen_rel_Yield |].
    + eapply repr_mono; [by eapply within_repr | done..].
    + eapply gen_rel_impl; [done|]. intros i vi Hi. eapply item_rel_impl; [done|].
      intros; eapply repr_mono; [done | lia | done].
    + intros a Hlt Ha. destruct Hp as (_ & Hl & Hf). rewrite <- (Hf a) by done.
      symmetry. apply prefix_lookup_lt; [lia | done].
Qed.

End func_h_facts.

(** ** The theorem at the [sales] package *)

Lemma ex_package_in :
  package_in ex_region 8 ex_store_pkg ex_package_h
    (ex_package [ex_sales; ex_raw] [("sales", [ex_row]); ("raw", [])]).
Proof.
  split; [split; [reflexivity | by_compute]|].
  repeat constructor; by_compute.
Qed.

Lemma ex_region_config :
  config_in ex_region 8 ex_store_pkg ex_ufs ex_eks ex_ev ex_specs [ex_quarter]
            ex_amount.
Proof. repeat split; repeat constructor; by_compute. Qed.

Lemma ex_region_apart a :
  ex_region a -> a < length ex_store_pkg /\ a ∉ reach 8 ex_store_pkg ex_pkg.
Proof. revert a. apply Forall_forall. by_compute. Qed.

(** What [func] yields for the package: the descriptor, the three rows
    made from the row of [sales], which are new objects and read as the
    long rows, and the table [raw] as it is. *)
Lemma func_h_sales :
  let out := func_h (E:=literal_engine) 9 ex_ufs ex_eks ex_ev (SelNames ["sales"])
                    ex_package_h ex_store_pkg in
  out.1 = Yield (ItemPackage_h ex_pkg)
            (Yield (ItemRows_h (gen_of_list [RObj 26; RObj 27; RObj 28]))
               (Yield (ItemResource_h {| res_name_h := "raw"; res_rows_h := Stop |})
                      Stop)) /\
  reify 2 out.2 <$> [RObj 26; RObj 27; RObj 28] = Some <$> ex_sales_long.
Proof. split; vm_compute; reflexivity. Qed.

Lemma func_h_refines_witness :
  closed (func_h (E:=literal_engine) 9 ex_ufs ex_eks ex_ev (SelNames ["sales"])
                 ex_package_h ex_store_pkg).2 /\
  gen_rel (item_rel (repr 13 (func_h (E:=literal_engine) 9 ex_ufs ex_eks ex_ev
                                (SelNames ["sales"]) ex_package_h ex_store_pkg).2))
          (func_h (E:=literal_engine) 9 ex_ufs ex_eks ex_ev (SelNames ["sales"])
                  ex_package_h ex_store_pkg).1
          (func (E:=literal_engine) ex_specs [ex_quarter] ex_amount
                (SelNames ["sales"])
                (ex_package [ex_sales; ex_raw] [("sales", [ex_row]); ("raw", [])])) /\
  (forall a, a < length ex_store_pkg -> a ∉ reach 8 ex_store_pkg ex_pkg ->
             (func_h (E:=literal_engine) 9 ex_ufs ex_eks ex_ev (SelNames ["sales"])
                     ex_package_h ex_store_pkg).2 !! a = ex_store_pkg !! a).
Proof.
  apply (func_h_refines (E:=literal_engine) ex_region 8 9 ex_store_pkg ex_ufs
           ex_eks ex_ev ex_specs [ex_quarter] ex_amount (SelNames ["sales"])
           ex_package_h
           (ex_package [ex_sales; ex_raw] [("sales", [ex_row]); ("raw", [])]));
    [by_compute | apply ex_package_in | apply ex_region_config
    | apply ex_region_apart | lia].
Defined.
