(* ===== verification/Machine.v ===== *)
(** * The running processor: generator objects driven by a consumer

    [Unpivot.func] gives the trace of the generator [func(package)] of
    lines 25-75 of [unpivot.py], with the trace of every row generator it
    yields nested in it.  At run time these are objects: the consumer calls
    [next] on the generator of [func] to get the descriptor and then one
    item per table, and calls [next] on the row generators it was given, in
    any order it likes and as often as it likes.

    This file models that system.  [func_next] is one resumption of the
    frame of [func]; a [rowgen] is a row generator object with the arguments
    it was created with on line 72; a [machine] holds the frame of [func],
    the row generators handed out so far and the history of what the
    consumer has observed; [step] is the next-state relation, one rule per
    kind of pull.  The theorems are invariants of the reachable states (what
    was observed, followed by what the objects have still to deliver, is the
    trace of [Unpivot.func], whatever the interleaving), the order of the
    descriptor and the rows, the independence of pulls on different tables,
    and termination and liveness of the pulls. *)

From stdpp Require Import base list strings relations.
From S2P Require Import Prelude Dict Values Regex Matcher Rows Lazy Schema Unpivot.

(** A row generator object: the frame of [unpivot_rows] with the arguments
    of the call on line 72. *)
Record rowgen : Type := {
  g_fields : list value;
  g_keep : list string;
  g_extra : value;
  g_frame : gstate
}.

(** What [func] yields to its consumer. *)
Inductive yielded : Type :=
| YPackage (descriptor : value)
| YResource (resource : resource_wrapper)
| YRows (g : rowgen).

Section processor.
Context `{E : RegexEngine}.

(** The frame of [func(package)]: created and not yet run; suspended at the
    [yield] of line 66, 71 or 72 with the locals [matcher],
    [unpivot_fields_without_regex], [fields_to_keep] and the tables the loop
    of line 68 has still to visit; or finished. *)
Inductive fstate : Type :=
| Created (package : package_wrapper)
| Tables (m : matcher) (st : resolver_state) (tables : list resource_wrapper)
| Finished.

(** What the consumer observes: an item of [func], a row of the row
    generator number [i], the end of a generator ([who = None] for [func])
    or an exception raised by it. *)
Inductive event : Type :=
| Yielded (y : yielded)
| Row (i : nat) (row : value)
| Ended (who : option nat)
| Raised (who : option nat) (e : error).

(** The system: the frame of [func], the row generators it has yielded, in
    order, and the history of the observations, oldest first. *)
Record machine : Type := {
  proc : fstate;
  gens : list rowgen;
  log : list event
}.

(** [next(g)] on a row generator object. *)
Definition rowgen_next (g : rowgen) : response value * rowgen :=
  let r := next (g_fields g) (g_keep g) (g_extra g) (g_frame g) in
  (r.1, {| g_fields := g_fields g; g_keep := g_keep g; g_extra := g_extra g;
           g_frame := r.2 |}).

Definition is_closed (g : rowgen) : bool :=
  match g_frame g with
  | Closed => true
  | Suspended _ => false
  end.

(** The configuration: the arguments of [unpivot]. *)
Variables (unpivot_fields extra_keys : list value) (extra_value : value)
          (resources : selector).

(** Line 72: the call [unpivot_rows(resource, unpivot_fields_without_regex,
    fields_to_keep, extra_value)] evaluates its arguments and creates the
    generator object; nothing of its body runs. *)
Definition new_rowgen (st : resolver_state) (resource : resource_wrapper) :
    result rowgen :=
  kept <- of_option (UnboundLocalError "fields_to_keep") (fields_to_keep st) ;;
  Ok {| g_fields := unpivot_fields_without_regex st; g_keep := kept;
        g_extra := extra_value; g_frame := start (res_rows resource) |}.

(** Lines 27-66: the first resumption builds the matcher, runs the schema
    pass and yields the descriptor. *)
Definition func_first (package : package_wrapper) : response yielded * fstate :=
  match
    (m <- ResourceMatcher resources (pkg_descriptor package) ;;
     p <- schema_pass m unpivot_fields extra_keys extra_value
            (pkg_descriptor package) ;;
     Ok (m, p))
  with
  | Err e => (Exception e, Finished)
  | Ok (m, (descriptor, st)) =>
      (Item (YPackage descriptor), Tables m st (pkg_resources package))
  end.

(** Lines 68-75: a later resumption takes the next table of the package. *)
Definition func_table (m : matcher) (st : resolver_state)
    (tables : list resource_wrapper) : response yielded * fstate :=
  match tables with
  | [] => (StopIteration, Finished)
  | resource :: tables' =>
      if negb (matcher_match m (res_name resource)) then
        (Item (YResource resource), Tables m st tables')
      else
        match new_rowgen st resource with
        | Ok g => (Item (YRows g), Tables m st tables')
        | Err e => (Exception e, Finished)
        end
  end.

(** [next] on the generator of [func]. *)
Definition func_next (f : fstate) : response yielded * fstate :=
  match f with
  | Created package => func_first package
  | Tables m st tables => func_table m st tables
  | Finished => (StopIteration, Finished)
  end.

Definition finished (f : fstate) : bool :=
  match f with
  | Finished => true
  | _ => false
  end.

(** ** The consumer's pulls *)

Definition init (package : package_wrapper) : machine :=
  {| proc := Created package; gens := []; log := [] |}.

(** What a pull adds to the history. *)
Definition observe {A} (item : A -> event) (who : option nat) (r : response A) :
    event :=
  match r with
  | Item x => item x
  | StopIteration => Ended who
  | Exception e => Raised who e
  end.

(** The items and the exception of an answer. *)
Definition items {A} (r : response A) : list A :=
  match r with
  | Item x => [x]
  | _ => []
  end.

Definition failure {A} (r : response A) : option error :=
  match r with
  | Exception e => Some e
  | _ => None
  end.

(** The row generators among the items [func] yielded. *)
Definition rowgens (ys : list yielded) : list rowgen :=
  omap (fun y => match y with YRows g => Some g | _ => None end) ys.

(** The consumer calls [next] on the generator of [func]. *)
Definition pull_func (s : machine) : machine :=
  let r := func_next (proc s) in
  {| proc := r.2; gens := gens s ++ rowgens (items r.1);
     log := log s ++ [observe Yielded None r.1] |}.

(** The consumer calls [next] on the row generator number [i]. *)
Definition pull_rows (i : nat) (s : machine) : machine :=
  match gens s !! i with
  | Some g =>
      let r := rowgen_next g in
      {| proc := proc s; gens := <[i := r.2]> (gens s);
         log := log s ++ [observe (Row i) (Some i) r.1] |}
  | None => s
  end.

(** The next-state relation: the consumer pulls on a generator that has not
    finished. *)
Inductive step : machine -> machine -> Prop :=
| step_func s : finished (proc s) = false -> step s (pull_func s)
| step_rows s i g :
    gens s !! i = Some g -> is_closed g = false -> step s (pull_rows i s).

(** A consumer following a schedule: [None] is a pull on [func], [Some i] a
    pull on the row generator [i]. *)
Definition pull (s : machine) (who : option nat) : machine :=
  match who with
  | None => pull_func s
  | Some i => pull_rows i s
  end.

Definition run (schedule : list (option nat)) (s : machine) : machine :=
  foldl pull s schedule.

(** The pulls [step] allows: on a generator that exists and has not
    finished; and the schedules made of such pulls only. *)
Definition enabled (s : machine) (who : option nat) : bool :=
  match who with
  | None => negb (finished (proc s))
  | Some i =>
      match gens s !! i with
      | Some g => negb (is_closed g)
      | None => false
      end
  end.

Fixpoint valid (schedule : list (option nat)) (s : machine) : bool :=
  match schedule with
  | [] => true
  | who :: schedule' => enabled s who && valid schedule' (pull s who)
  end.

(** ** Reference definitions *)

(** What a row generator has still to deliver. *)
Definition rowgen_trace (g : rowgen) : gen value :=
  trace (g_fields g) (g_keep g) (g_extra g) (g_frame g).

(** The item of the trace of [Unpivot.func] an object stands for. *)
Definition item_of (y : yielded) : item :=
  match y with
  | YPackage descriptor => ItemPackage descriptor
  | YResource resource => ItemResource resource
  | YRows g => ItemRows (rowgen_trace g)
  end.

(** What the generator of [func] has still to deliver. *)
Definition func_trace (f : fstate) : gen item :=
  match f with
  | Created package => func unpivot_fields extra_keys extra_value resources package
  | Tables m st tables => row_pass m st extra_value tables
  | Finished => Stop
  end.

(** The projections of a history: the items [func] yielded, the rows the
    generator [i] delivered, and the exception a generator raised. *)
Definition yields (l : list event) : list yielded :=
  omap (fun ev => match ev with Yielded y => Some y | _ => None end) l.

Definition rows_of (i : nat) (l : list event) : list value :=
  omap (fun ev => match ev with
                  | Row j row => if decide (j = i) then Some row else None
                  | _ => None
                  end) l.

Definition raised (who : option nat) (l : list event) : option error :=
  head (omap (fun ev => match ev with
                        | Raised w e => if decide (w = who) then Some e else None
                        | _ => None
                        end) l).

(** The trace that starts with the observations [xs], ends with the
    exception [o] when one was observed, and goes on with [future]
    otherwise. *)
Definition history {A} (xs : list A) (o : option error) (future : gen A) : gen A :=
  gen_app (gen_of_list xs)
          match o with
          | Some e => Raise e
          | None => future
          end.

(** The row traces among the items of a trace of [func]. *)
Definition row_traces (its : list item) : list (gen value) :=
  omap (fun it => match it with ItemRows t => Some t | _ => None end) its.

(** The number of pulls a generator can still answer. *)
Definition weight_rowgen (g : rowgen) : nat :=
  if is_closed g then 0 else S (length (gen_items (rowgen_trace g))).

Fixpoint weight_tables (m : matcher) (st : resolver_state)
    (tables : list resource_wrapper) : nat :=
  match tables with
  | [] => 1
  | resource :: tables' =>
      S (sum_list_with weight_rowgen (rowgens (items (func_table m st [resource]).1)) +
         weight_tables m st tables')
  end.

Definition weight_func (f : fstate) : nat :=
  match f with
  | Created package =>
      S (match func_first package with
         | (_, Tables m st tables) => weight_tables m st tables
         | _ => 0
         end)
  | Tables m st tables => weight_tables m st tables
  | Finished => 0
  end.

Definition weight (s : machine) : nat :=
  weight_func (proc s) + sum_list_with weight_rowgen (gens s).

(** One answer [r] of [next], in a state that had [t] to deliver: the item
    is the first of [t] and the new state delivers the rest, or [t] ends the
    way the answer says and the new state delivers nothing more. *)
Definition delivers {A B S} (f : A -> B) (tr : S -> gen B) (t : gen B)
    (r : response A * S) : Prop :=
  match r.1 with
  | Item x => t = Yield (f x) (tr r.2)
  | StopIteration => t = Stop /\ tr r.2 = Stop
  | Exception e => t = Raise e /\ tr r.2 = Stop
  end.

(** The observations [xs] and [o] of a generator that has [future] to
    deliver account for the reference trace [t]. *)
Definition explains {A} (xs : list A) (o : option error) (future t : gen A) : Prop :=
  history xs o future = t /\ (o <> None -> future = Stop).

(** The invariant of the reachable states.  The first observation is the
    answer of the first resumption of [func]; what was observed of every
    generator, followed by what it has still to deliver, is its reference
    trace; the row generators are those [func] yielded, in order; and
    nothing was observed of a generator that does not exist yet. *)
Record inv (package : package_wrapper) (s : machine) : Prop := {
  inv_start :
    match log s with
    | [] => s = init package
    | ev0 :: _ => ev0 = observe Yielded None (func_first package).1
    end;
  inv_func :
    explains (map item_of (yields (log s))) (raised None (log s))
             (func_trace (proc s))
             (func unpivot_fields extra_keys extra_value resources package);
  inv_gens : length (gens s) = length (rowgens (yields (log s)));
  inv_rows : forall i g, gens s !! i = Some g ->
    exists g0, rowgens (yields (log s)) !! i = Some g0 /\
      explains (rows_of i (log s)) (raised (Some i) (log s))
               (rowgen_trace g) (rowgen_trace g0);
  inv_fresh : forall i, length (gens s) <= i ->
    rows_of i (log s) = [] /\ raised (Some i) (log s) = None
}.

(** A state in which every generator has finished. *)
Definition quiescent (s : machine) : Prop :=
  finished (proc s) = true /\ Forall (fun g => is_closed g = true) (gens s).

(** A history that holds the whole trace of [func]: every item, every row
    of every row generator, and the exceptions they ended with. *)
Definition complete (package : package_wrapper) (l : list event) : Prop :=
  let t := func unpivot_fields extra_keys extra_value resources package in
  t = gen_close (map item_of (yields l)) (raised None l) /\
  forall i ti, row_traces (gen_items t) !! i = Some ti ->
    ti = gen_close (rows_of i l) (raised (Some i) l).

(** Two states with the same objects in which every consumer has observed
    the same: the histories hold the same observations and agree on every
    generator, but may interleave the generators differently. *)
Definition same_view (s1 s2 : machine) : Prop :=
  proc s1 = proc s2 /\ gens s1 = gens s2 /\ log s1 ≡ₚ log s2 /\
  yields (log s1) = yields (log s2) /\
  (forall i, rows_of i (log s1) = rows_of i (log s2)) /\
  (forall who, raised who (log s1) = raised who (log s2)).

(** The number of pulls that can be answered for a package: two for the
    generator of [func] (the descriptor and the end), and for every table
    one for its item, one for the end of its rows and one for every pair of
    a row and a pivot field. *)
Definition table_bound (st : resolver_state) (r : resource_wrapper) : nat :=
  2 + length (gen_items (res_rows r)) * length (unpivot_fields_without_regex st).

Definition pull_bound (package : package_wrapper) : nat :=
  2 + match func_first package with
      | (_, Tables m st tables) => sum_list_with (table_bound st) tables
      | _ => 0
      end.

End processor.

(** ** Example data: the [sales] table and a selected table without a
    schema, pulled in a given order *)

Definition ex_two : package_wrapper :=
  ex_package [ex_sales; ex_raw] [("sales", [ex_row]); ("raw", [ex_row_west])].

Definition ex_step : relation (machine (E := literal_engine)) :=
  step ex_specs [ex_quarter] ex_amount SelAll.

Definition ex_pulled (schedule : list (option nat)) : machine :=
  run (E := literal_engine) ex_specs [ex_quarter] ex_amount SelAll schedule
      (init ex_two).

(** The consumer has the descriptor and both row generators, and pulls on
    the second, the first and the second again. *)
Definition ex_interleaved : list (option nat) :=
  [None; None; None; Some 1; Some 0; Some 1].

(** It goes on until everything has finished: twelve pulls. *)
Definition ex_drained : list (option nat) :=
  ex_interleaved ++ [Some 0; Some 0; Some 0; Some 1; Some 1; None].

Arguments items {A} !r /.
Arguments failure {A} !r /.
Arguments table_bound : simpl never.
Arguments inv_start {E _ _ _ _ _ _}.
Arguments inv_func {E _ _ _ _ _ _}.
Arguments inv_gens {E _ _ _ _ _ _}.
Arguments inv_rows {E _ _ _ _ _ _}.
Arguments inv_fresh {E _ _ _ _ _ _}.

(** ** Histories *)

Lemma explains_init {A} (t : gen A) : explains [] None t t.
Proof. by split. Qed.

Lemma explains_step {A B S} (f : A -> B) (tr : S -> gen B) t r xs o ref :
  delivers f tr t r -> explains xs o t ref ->
  explains (xs ++ map f (items r.1)) (o ∪ failure r.1) (tr r.2) ref.
Proof.
  unfold delivers, explains, history. intros Hr [<- Ho].
  destruct o as [e|].
  - rewrite Ho in Hr by done. destruct r as [[x| |e'] s']; simpl in *;
      [done | | by destruct Hr]. destruct Hr as [_ ->]. by rewrite app_nil_r.
  - destruct r as [[x| |e] s']; simpl in *.
    + subst t. split; [|done]. by rewrite <- gen_app_of_list, gen_app_assoc.
    + destruct Hr as [-> ->]. by rewrite app_nil_r.
    + destruct Hr as [-> ->]. by rewrite app_nil_r.
Qed.

Lemma gen_items_history {A} (xs : list A) o future :
  gen_items (history xs o future) =
  xs ++ match o with Some _ => [] | None => gen_items future end.
Proof.
  unfold history. rewrite gen_items_app, gen_items_of_list, gen_end_of_list.
  by destruct o.
Qed.

Lemma yields_app l1 l2 : yields (l1 ++ l2) = yields l1 ++ yields l2.
Proof. apply omap_app. Qed.

Lemma rows_of_app i l1 l2 : rows_of i (l1 ++ l2) = rows_of i l1 ++ rows_of i l2.
Proof. apply omap_app. Qed.

Lemma raised_app who l1 l2 : raised who (l1 ++ l2) = raised who l1 ∪ raised who l2.
Proof.
  unfold raised. rewrite omap_app.
  destruct (omap _ l1) as [|e l]; simpl; by destruct (head _).
Qed.

Lemma raised_None_r (o : option error) : o ∪ None = o.
Proof. by destruct o. Qed.

Lemma rowgens_app ys1 ys2 : rowgens (ys1 ++ ys2) = rowgens ys1 ++ rowgens ys2.
Proof. apply omap_app. Qed.

Lemma row_traces_item_of ys : row_traces (map item_of ys) = map rowgen_trace (rowgens ys).
Proof.
  induction ys as [|[d|r|g] ys IH]; simpl; [done | done | done |]. by f_equal.
Qed.

(** What an observation of [func] and of a row generator adds to the
    projections. *)
Lemma yields_observe_func r : yields [observe Yielded None r] = items r.
Proof. by destruct r. Qed.

Lemma yields_observe_rows j r : yields [observe (Row j) (Some j) r] = [].
Proof. by destruct r. Qed.

Lemma rows_of_observe_func i r : rows_of i [observe Yielded None r] = [].
Proof. by destruct r. Qed.

Lemma rows_of_observe_rows i j r :
  rows_of i [observe (Row j) (Some j) r] = if decide (j = i) then items r else [].
Proof. destruct r; simpl; by case_decide. Qed.

Lemma raised_observe_func who r :
  raised who [observe Yielded None r] = if decide (who = None) then failure r else None.
Proof. destruct r; simpl; unfold raised; simpl; repeat case_decide; by simplify_eq. Qed.

Lemma raised_observe_rows who j r :
  raised who [observe (Row j) (Some j) r] =
  if decide (who = Some j) then failure r else None.
Proof. destruct r; simpl; unfold raised; simpl; repeat case_decide; by simplify_eq. Qed.

Create Rewrite HintDb machine.
#[export] Hint Rewrite yields_app rows_of_app raised_app rowgens_app
  yields_observe_func yields_observe_rows rows_of_observe_func
  raised_None_r @map_app @length_app @app_nil_r : machine.

Section processor_facts.
Context `{E : RegexEngine}.
Context (specs eks : list value) (ev : value) (sel : selector).

(** ** One resumption *)

Lemma rowgen_next_delivers g :
  delivers id rowgen_trace (rowgen_trace g) (rowgen_next g).
Proof.
  pose proof (next_answers (g_fields g) (g_keep g) (g_extra g) (g_frame g)) as H.
  unfold delivers, answers, rowgen_next, rowgen_trace in *. simpl.
  destruct (next _ _ _ _) as [[row| |e] g']; simpl in *; [done | |];
    by destruct H as [-> ->].
Qed.

Lemma func_next_delivers f :
  delivers item_of (func_trace specs eks ev sel) (func_trace specs eks ev sel f)
           (func_next specs eks ev sel f).
Proof.
  destruct f as [pkg|m st [|r tables]|]; simpl; [| done | | done].
  - unfold func_first, func, delivers.
    by destruct (rbind _ _) as [[m [d st]]|e].
  - unfold delivers, new_rowgen. destruct (matcher_match m (res_name r)); simpl; [|done].
    by destruct (fields_to_keep st).
Qed.

(** ** The projections of the history after a pull *)

Lemma raised_pull_func who s :
  raised who (log (pull_func specs eks ev sel s)) =
  raised who (log s) ∪
  (if decide (who = None) then failure (func_next specs eks ev sel (proc s)).1 else None).
Proof. simpl. by rewrite raised_app, raised_observe_func. Qed.

Lemma raised_pull_rows who j g s :
  gens s !! j = Some g ->
  raised who (log (pull_rows j s)) =
  raised who (log s) ∪
  (if decide (who = Some j) then failure (rowgen_next g).1 else None).
Proof.
  intros Hj. unfold pull_rows. rewrite Hj. simpl.
  by rewrite raised_app, raised_observe_rows.
Qed.

Lemma rows_of_pull_rows i j g s :
  gens s !! j = Some g ->
  rows_of i (log (pull_rows j s)) =
  rows_of i (log s) ++ (if decide (j = i) then items (rowgen_next g).1 else []).
Proof.
  intros Hj. unfold pull_rows. rewrite Hj. simpl.
  by rewrite rows_of_app, rows_of_observe_rows.
Qed.

Lemma yields_pull_rows j s : yields (log (pull_rows j s)) = yields (log s).
Proof.
  unfold pull_rows. destruct (gens s !! j); simpl; [|done].
  by autorewrite with machine.
Qed.

(** ** The invariant of the reachable states *)

Lemma inv_init pkg : inv specs eks ev sel pkg (init pkg).
Proof.
  split; simpl; [done | apply explains_init | done | done | done].
Qed.

Lemma inv_pull_func_rows pkg s i g :
  inv specs eks ev sel pkg s -> gens (pull_func specs eks ev sel s) !! i = Some g ->
  exists g0, rowgens (yields (log (pull_func specs eks ev sel s))) !! i = Some g0 /\
    explains (rows_of i (log (pull_func specs eks ev sel s)))
             (raised (Some i) (log (pull_func specs eks ev sel s)))
             (rowgen_trace g) (rowgen_trace g0).
Proof.
  intros [_ _ Hgens Hrows Hfresh]. rewrite raised_pull_func. simpl.
  autorewrite with machine.
  intros [Hi | [Hlen Hi]]%lookup_app_Some.
  - destruct (Hrows i g Hi) as (g0 & H0 & Hex). exists g0.
    split; [by apply lookup_app_l_Some | done].
  - destruct (Hfresh i Hlen) as [-> ->]. exists g. split; [|apply explains_init].
    rewrite lookup_app_r by lia. by rewrite <- Hgens.
Qed.

Lemma inv_pull_func pkg s : inv specs eks ev sel pkg s -> inv specs eks ev sel pkg (pull_func specs eks ev sel s).
Proof.
  intros Hinv. split; [| | | intros i g; by apply (inv_pull_func_rows pkg) |].
  - pose proof (inv_start Hinv) as Hstart. simpl.
    destruct (log s); simpl; [by rewrite Hstart | done].
  - rewrite raised_pull_func. simpl. autorewrite with machine.
    apply (explains_step item_of (func_trace specs eks ev sel)
             (func_trace specs eks ev sel (proc s)));
      [apply func_next_delivers | apply Hinv].
  - simpl. autorewrite with machine. by rewrite (inv_gens Hinv).
  - intros i. rewrite raised_pull_func. simpl. autorewrite with machine.
    intros Hi. destruct (inv_fresh Hinv i) as [-> ->]; [lia | done].
Qed.

Lemma inv_pull_rows_rows pkg s j gj i g :
  inv specs eks ev sel pkg s -> gens s !! j = Some gj ->
  <[j := (rowgen_next gj).2]> (gens s) !! i = Some g ->
  exists g0, rowgens (yields (log s)) !! i = Some g0 /\
    explains (rows_of i (log s) ++ (if decide (j = i) then items (rowgen_next gj).1 else []))
             (raised (Some i) (log s) ∪
              (if decide (Some i = Some j) then failure (rowgen_next gj).1 else None))
             (rowgen_trace g) (rowgen_trace g0).
Proof.
  intros Hinv Hj Hi. destruct (decide (j = i)) as [->|Hne].
  - rewrite list_lookup_insert_eq in Hi by (by eapply lookup_lt_Some).
    simplify_eq. destruct (inv_rows Hinv i gj Hj) as (g0 & H0 & Hex).
    exists g0. split; [done|]. rewrite decide_True by done.
    rewrite <- (map_id (items _)).
    by apply (explains_step id rowgen_trace (rowgen_trace gj) (rowgen_next gj));
      [apply rowgen_next_delivers|].
  - rewrite list_lookup_insert_ne in Hi by done.
    destruct (inv_rows Hinv i g Hi) as (g0 & H0 & Hex). exists g0.
    rewrite decide_False by congruence. by rewrite app_nil_r, raised_None_r.
Qed.

Lemma inv_pull_rows pkg j s : inv specs eks ev sel pkg s -> inv specs eks ev sel pkg (pull_rows j s).
Proof.
  intros Hinv. destruct (gens s !! j) as [gj|] eqn:Hj;
    [|by unfold pull_rows; rewrite Hj].
  assert (Hlog : log (pull_rows j s) = log s ++ [observe (Row j) (Some j) (rowgen_next gj).1])
    by (by unfold pull_rows; rewrite Hj).
  assert (Hgens : gens (pull_rows j s) = <[j := (rowgen_next gj).2]> (gens s))
    by (by unfold pull_rows; rewrite Hj).
  assert (Hproc : proc (pull_rows j s) = proc s) by (by unfold pull_rows; rewrite Hj).
  pose proof (lookup_lt_Some _ _ _ Hj) as Hlt.
  split; rewrite ?yields_pull_rows, ?Hproc, ?Hgens, ?length_insert.
  - pose proof (inv_start Hinv) as Hstart. rewrite Hlog.
    destruct (log s); simpl; [by rewrite Hstart in Hj | done].
  - rewrite (raised_pull_rows _ j gj) by done. rewrite decide_False by done.
    rewrite raised_None_r. apply Hinv.
  - apply Hinv.
  - intros i g Hi. rewrite (rows_of_pull_rows _ j gj), (raised_pull_rows _ j gj) by done.
    by apply (inv_pull_rows_rows pkg).
  - intros i Hi. rewrite (rows_of_pull_rows _ j gj), (raised_pull_rows _ j gj) by done.
    rewrite !decide_False by (try intros [= ?]; lia).
    rewrite app_nil_r, raised_None_r. by apply Hinv.
Qed.

Lemma inv_step pkg s s' : step specs eks ev sel s s' -> inv specs eks ev sel pkg s -> inv specs eks ev sel pkg s'.
Proof. destruct 1; [apply inv_pull_func | apply inv_pull_rows]. Qed.

Lemma inv_reachable pkg s : rtc (step specs eks ev sel) (init pkg) s -> inv specs eks ev sel pkg s.
Proof.
  revert s. apply rtc_ind_r; [apply inv_init|].
  intros s s' _ Hstep Hinv. by eapply inv_step.
Qed.

Lemma inv_run pkg schedule s :
  inv specs eks ev sel pkg s -> inv specs eks ev sel pkg (run specs eks ev sel schedule s).
Proof.
  revert s. induction schedule as [|[i|] sch IH]; intros s Hinv; simpl; [done | |];
    apply IH; [by apply inv_pull_rows | by apply inv_pull_func].
Qed.

(** ** Prefixes of a history *)

Lemma step_log s s' :
  step specs eks ev sel s s' -> exists ev0, log s' = log s ++ [ev0].
Proof.
  destruct 1 as [s _|s i g Hi _]; [by eexists|].
  unfold pull_rows. rewrite Hi. by eexists.
Qed.

(** Every prefix of the history of a reachable state is the history of a
    reachable state. *)
Lemma reachable_prefix pkg s l1 l2 :
  rtc (step specs eks ev sel) (init pkg) s -> log s = l1 ++ l2 ->
  exists s1, rtc (step specs eks ev sel) (init pkg) s1 /\ log s1 = l1.
Proof.
  intros Hs. revert s Hs l2. apply (rtc_ind_r (fun s => forall l2, log s = _ -> _)).
  { intros l2 [-> _]%eq_sym%app_eq_nil. by exists (init pkg). }
  intros s s' Hs Hstep IH l2 Hlog. destruct (step_log _ _ Hstep) as [ev0 Hev0].
  rewrite Hlog in Hev0. symmetry in Hev0.
  apply app_snoc_inv in Hev0 as [[-> _]|(l2' & _ & Hl)].
  - exists s'. split; [by eapply rtc_r | by rewrite Hlog, app_nil_r].
  - by apply (IH l2').
Qed.

(** ** The first observation *)

Lemma func_first_cases pkg :
  (exists m d st,
     ResourceMatcher sel (pkg_descriptor pkg) = Ok m /\
     schema_pass m specs eks ev (pkg_descriptor pkg) = Ok (d, st) /\
     func_first specs eks ev sel pkg =
       (Item (YPackage d), Tables m st (pkg_resources pkg))) \/
  (exists e, func_first specs eks ev sel pkg = (Exception e, Finished) /\
     func specs eks ev sel pkg = Raise e).
Proof.
  unfold func_first, func.
  destruct (ResourceMatcher sel (pkg_descriptor pkg)) as [m|e]; simpl; [|eauto].
  destruct (schema_pass m specs eks ev (pkg_descriptor pkg)) as [[d st]|e] eqn:Hp;
    simpl; [left | eauto].
  exists m, d, st. auto.
Qed.

(** After a failure of the first resumption nothing is ever yielded. *)
Lemma inv_failed pkg s e :
  inv specs eks ev sel pkg s -> func specs eks ev sel pkg = Raise e -> yields (log s) = [].
Proof.
  intros Hinv He. destruct (inv_func Hinv) as [Hh _]. rewrite He in Hh.
  apply (f_equal gen_items) in Hh. rewrite gen_items_history in Hh. simpl in Hh.
  apply app_eq_nil in Hh as [Hh _]. by apply map_eq_nil in Hh.
Qed.

(** ** The weight of a state decreases with every pull *)

Lemma weight_rowgen_le g : weight_rowgen g <= S (length (gen_items (rowgen_trace g))).
Proof. unfold weight_rowgen. destruct (is_closed g); lia. Qed.

Lemma weight_rowgen_next g :
  is_closed g = false -> weight_rowgen (rowgen_next g).2 < weight_rowgen g.
Proof.
  intros Hg.
  pose proof (next_answers (g_fields g) (g_keep g) (g_extra g) (g_frame g)) as H.
  pose proof (weight_rowgen_le (rowgen_next g).2) as Hle.
  unfold weight_rowgen at 2. rewrite Hg.
  unfold answers, rowgen_next, rowgen_trace in *.
  destruct (next _ _ _ _) as [[row| |e] g']; simpl in *.
  - rewrite H. simpl. lia.
  - destruct H as [_ ->]. unfold weight_rowgen. simpl. lia.
  - destruct H as [_ ->]. unfold weight_rowgen. simpl. lia.
Qed.

Lemma weight_func_next f :
  finished f = false ->
  weight_func specs eks ev sel (func_next specs eks ev sel f).2 +
  sum_list_with weight_rowgen (rowgens (items (func_next specs eks ev sel f).1)) <
  weight_func specs eks ev sel f.
Proof.
  destruct f as [pkg|m st [|r tables]|]; simpl; [| lia | | done]; intros _.
  - destruct (func_first_cases pkg) as [(m & d & st & _ & _ & ->)|(e & -> & _)];
      simpl; lia.
  - destruct (negb (matcher_match m (res_name r))); simpl; [lia|].
    destruct (new_rowgen ev st r); simpl; lia.
Qed.

Lemma step_weight s s' :
  step specs eks ev sel s s' -> weight specs eks ev sel s' < weight specs eks ev sel s.
Proof.
  destruct 1 as [s Hf|s i g Hi Hg]; unfold weight.
  - simpl. rewrite sum_list_with_app.
    pose proof (weight_func_next (proc s) Hf). lia.
  - unfold pull_rows. rewrite Hi. cbn [gens proc].
    pose proof (sum_list_insert weight_rowgen (gens s) i g (rowgen_next g).2 Hi).
    pose proof (weight_rowgen_next g Hg). lia.
Qed.

Lemma nsteps_weight n s s' :
  nsteps (step specs eks ev sel) n s s' ->
  n + weight specs eks ev sel s' <= weight specs eks ev sel s /\
  length (log s') = length (log s) + n.
Proof.
  induction 1 as [|n s s1 s' Hstep _ [IHw IHl]]; [lia|].
  destruct (step_log _ _ Hstep) as [ev0 Hev0]. apply step_weight in Hstep.
  rewrite IHl, Hev0, length_app. simpl. lia.
Qed.

(** ** Progress *)

#[export] Instance quiescent_dec s : Decision (quiescent s).
Proof. unfold quiescent. apply _. Defined.

Lemma quiescent_nf s : quiescent s <-> nf (step specs eks ev sel) s.
Proof.
  split.
  - intros [Hf Hg] [s' Hstep].
    inversion Hstep as [? Hopen|? i g Hi Hopen]; subst; [congruence|].
    apply (Forall_lookup_1 _ _ _ _ Hg) in Hi. congruence.
  - intros Hnf. split.
    + destruct (finished (proc s)) eqn:Hf; [done|].
      destruct Hnf. eexists. by apply step_func.
    + apply Forall_lookup_2. intros i g Hi.
      destruct (is_closed g) eqn:Hg; [done|].
      destruct Hnf. eexists. by eapply step_rows.
Qed.

Lemma not_quiescent_red s : ~ quiescent s -> red (step specs eks ev sel) s.
Proof.
  intros Hq. destruct (finished (proc s)) eqn:Hf;
    [|eexists; by apply step_func].
  destruct (decide (Forall (fun g => is_closed g = true) (gens s))) as [Hg|Hg];
    [by destruct Hq|].
  apply not_Forall_Exists in Hg; [|apply _].
  apply Exists_exists in Hg as (g & [i Hi]%list_elem_of_lookup & Hg).
  eexists. eapply step_rows; [done | by apply not_true_is_false].
Qed.

Lemma reach_quiescent s :
  exists s', rtc (step specs eks ev sel) s s' /\ quiescent s'.
Proof.
  induction s as [s IH] using (induction_ltof1 _ (weight specs eks ev sel)).
  destruct (decide (quiescent s)) as [Hq|Hq]; [by exists s|].
  destruct (not_quiescent_red s Hq) as [s1 Hstep].
  destruct (IH s1) as (s' & Hs' & Hq'); [by apply step_weight|].
  exists s'. split; [by eapply rtc_l | done].
Qed.

(** ** A quiescent state has delivered everything *)

Lemma explains_closed {A} (xs : list A) o future t :
  explains xs o future t -> future = Stop -> t = gen_close xs o.
Proof.
  intros [<- _] ->. unfold history.
  induction xs as [|x xs IH]; simpl; [by destruct o | by rewrite IH].
Qed.

Lemma inv_row_traces pkg s :
  inv specs eks ev sel pkg s -> finished (proc s) = true ->
  row_traces (gen_items (func specs eks ev sel pkg)) =
  map rowgen_trace (rowgens (yields (log s))).
Proof.
  intros Hinv Hf. destruct (inv_func Hinv) as [<- _].
  destruct (proc s); try done. rewrite gen_items_history. simpl.
  destruct (raised None (log s)); by rewrite app_nil_r, row_traces_item_of.
Qed.

Lemma inv_complete pkg s :
  inv specs eks ev sel pkg s -> quiescent s -> complete specs eks ev sel pkg (log s).
Proof.
  intros Hinv [Hf Hg]. split.
  - apply (explains_closed _ _ _ _ (inv_func Hinv)). by destruct (proc s).
  - intros i ti. rewrite (inv_row_traces _ _ Hinv Hf), list_lookup_fmap.
    destruct (rowgens (yields (log s)) !! i) as [g0|] eqn:H0; [|done].
    intros ?; simplify_eq/=.
    destruct (lookup_lt_is_Some_2 (gens s) i) as [g Hi];
      [rewrite (inv_gens Hinv); by eapply lookup_lt_Some|].
    destruct (inv_rows Hinv i g Hi) as (g0' & H0' & Hex). simplify_eq.
    apply (explains_closed _ _ _ _ Hex).
    apply (Forall_lookup_1 _ _ _ _ Hg) in Hi.
    unfold rowgen_trace, is_closed in *. by destruct (g_frame g).
Qed.

(** A row in the history: the descriptor was observed first, and the
    generator of the row had been yielded. *)
Lemma inv_row_created pkg s l1 i row :
  inv specs eks ev sel pkg s -> log s = l1 ++ [Row i row] ->
  exists m d st g0 l1',
    ResourceMatcher sel (pkg_descriptor pkg) = Ok m /\
    schema_pass m specs eks ev (pkg_descriptor pkg) = Ok (d, st) /\
    l1 = Yielded (YPackage d) :: l1' /\
    rowgens (yields l1') !! i = Some g0.
Proof.
  intros Hinv Hlog.
  assert (Hy : yields (log s) = yields l1)
    by (rewrite Hlog, yields_app; apply app_nil_r).
  destruct (decide (i < length (gens s))) as [Hlt|Hge].
  2: { destruct (inv_fresh Hinv i) as [Hr _]; [lia|].
       rewrite Hlog, rows_of_app in Hr. simpl in Hr.
       rewrite decide_True in Hr by done. by destruct (rows_of i l1). }
  rewrite (inv_gens Hinv), Hy in Hlt.
  apply lookup_lt_is_Some_2 in Hlt as [g0 H0].
  pose proof (inv_start Hinv) as Hstart. rewrite Hlog in Hstart.
  destruct l1 as [|ev0 l1']; simpl in Hstart; [done|]. subst ev0.
  destruct (func_first_cases pkg) as [(m & d & st & Hm & Hp & Hf)|(e & _ & He)].
  - rewrite Hf in *. by exists m, d, st, g0, l1'.
  - apply (inv_failed _ _ _ Hinv) in He. rewrite Hy in He. by rewrite He in H0.
Qed.

Lemma inv_row_trace pkg s i g0 :
  inv specs eks ev sel pkg s -> rowgens (yields (log s)) !! i = Some g0 ->
  row_traces (gen_items (func specs eks ev sel pkg)) !! i = Some (rowgen_trace g0).
Proof.
  intros Hinv H0. destruct (inv_func Hinv) as [<- _].
  rewrite gen_items_history. unfold row_traces. rewrite omap_app.
  apply lookup_app_l_Some. fold (row_traces (map item_of (yields (log s)))).
  by rewrite row_traces_item_of, list_lookup_fmap, H0.
Qed.

(** What was observed is in the trace of [func]. *)
Lemma explains_elem {A} (xs : list A) o future t x :
  explains xs o future t -> x ∈ xs -> x ∈ gen_items t.
Proof.
  intros [<- _] Hx. rewrite gen_items_history. apply elem_of_app. by left.
Qed.

Lemma inv_yielded pkg s y :
  inv specs eks ev sel pkg s -> y ∈ yields (log s) ->
  item_of y ∈ gen_items (func specs eks ev sel pkg).
Proof.
  intros Hinv Hy. apply (explains_elem _ _ _ _ _ (inv_func Hinv)).
  by apply list_elem_of_fmap_2.
Qed.

Lemma inv_row pkg s i row :
  inv specs eks ev sel pkg s -> row ∈ rows_of i (log s) ->
  exists t, t ∈ row_traces (gen_items (func specs eks ev sel pkg)) /\
    row ∈ gen_items t.
Proof.
  intros Hinv Hrow. destruct (decide (i < length (gens s))) as [Hlt|Hge].
  2: { destruct (inv_fresh Hinv i) as [Hr _]; [lia|]. rewrite Hr in Hrow.
       by apply elem_of_nil in Hrow. }
  apply lookup_lt_is_Some_2 in Hlt as [g Hi].
  destruct (inv_rows Hinv i g Hi) as (g0 & H0 & Hex).
  exists (rowgen_trace g0). split; [|by eapply explains_elem].
  eapply list_elem_of_lookup_2. by eapply inv_row_trace.
Qed.

(** ** The bound on the pulls *)

Lemma weight_tables_le m st tables :
  weight_tables ev m st tables <= 1 + sum_list_with (table_bound st) tables.
Proof.
  unfold table_bound. induction tables as [|r tables IH]; simpl in *; [lia|].
  destruct (negb (matcher_match m (res_name r))); simpl; [lia|].
  unfold new_rowgen. destruct (fields_to_keep st) as [kept|]; simpl; [|lia].
  pose proof (unpivot_rows_length_le (res_rows r) (unpivot_fields_without_regex st)
                kept ev).
  unfold weight_rowgen, rowgen_trace. simpl. lia.
Qed.

Lemma weight_init_le pkg :
  weight specs eks ev sel (init pkg) <= pull_bound specs eks ev sel pkg.
Proof.
  unfold weight, pull_bound. simpl.
  destruct (func_first specs eks ev sel pkg) as [r [?|m st tables|]]; try lia.
  pose proof (weight_tables_le m st tables). lia.
Qed.

(** ** Schedules and steps *)

Lemma enabled_step s who :
  enabled s who = true -> step specs eks ev sel s (pull specs eks ev sel s who).
Proof.
  destruct who as [i|]; simpl.
  - destruct (gens s !! i) as [g|] eqn:Hi; [|done].
    intros Hg%negb_true_iff. by eapply step_rows.
  - intros Hf%negb_true_iff. by apply step_func.
Qed.

Lemma step_enabled s s' :
  step specs eks ev sel s s' ->
  exists who, enabled s who = true /\ s' = pull specs eks ev sel s who.
Proof.
  destruct 1 as [s Hf|s i g Hi Hg].
  - exists None. simpl. by rewrite Hf.
  - exists (Some i). simpl. by rewrite Hi, Hg.
Qed.

Lemma run_nsteps schedule s :
  valid specs eks ev sel schedule s = true ->
  nsteps (step specs eks ev sel) (length schedule) s (run specs eks ev sel schedule s).
Proof.
  revert s. induction schedule as [|who sch IH]; intros s; simpl; [constructor|].
  intros [Hwho Hsch]%andb_prop. econstructor; [by apply enabled_step | by apply IH].
Qed.

Lemma nsteps_run n s s' :
  nsteps (step specs eks ev sel) n s s' ->
  exists schedule, length schedule = n /\ valid specs eks ev sel schedule s = true /\
    s' = run specs eks ev sel schedule s.
Proof.
  induction 1 as [s|n s s1 s' Hstep _ (sch & Hlen & Hv & ->)]; [by exists []|].
  apply step_enabled in Hstep as (who & Hwho & ->). exists (who :: sch).
  simpl. by rewrite Hlen, Hwho, Hv.
Qed.

(** ** Pulls on different generators commute *)

#[export] Instance same_view_equiv : Equivalence same_view.
Proof.
  unfold same_view. split.
  - by intros s.
  - intros s1 s2 (Hp & Hg & Hl & Hy & Hr & He).
    split_and!; [congruence | congruence | by symmetry | congruence | |];
      intros; by rewrite ?Hr, ?He.
  - intros s1 s2 s3 (Hp & Hg & Hl & Hy & Hr & He) (Hp' & Hg' & Hl' & Hy' & Hr' & He').
    split_and!; [congruence | congruence | by etrans | congruence | |];
      intros; by rewrite ?Hr, ?He.
Qed.

Lemma same_view_swap f gs l a b :
  yields [a] = [] \/ yields [b] = [] ->
  (forall i, rows_of i [a] = [] \/ rows_of i [b] = []) ->
  (forall who, raised who [a] = None \/ raised who [b] = None) ->
  same_view {| proc := f; gens := gs; log := (l ++ [a]) ++ [b] |}
            {| proc := f; gens := gs; log := (l ++ [b]) ++ [a] |}.
Proof.
  intros Hy Hr He. repeat split; simpl.
  - rewrite <- !app_assoc. apply Permutation_app_head, perm_swap.
  - rewrite !yields_app. destruct Hy as [-> | ->]; by rewrite ?app_nil_r.
  - intros i. rewrite !rows_of_app. destruct (Hr i) as [-> | ->]; by rewrite ?app_nil_r.
  - intros who. rewrite !raised_app.
    destruct (He who) as [-> | ->]; by destruct (raised who l), (raised who [_]).
Qed.

Lemma pull_rows_Some i g s :
  gens s !! i = Some g ->
  pull_rows i s =
  {| proc := proc s; gens := <[i := (rowgen_next g).2]> (gens s);
     log := log s ++ [observe (Row i) (Some i) (rowgen_next g).1] |}.
Proof. intros Hi. unfold pull_rows. by rewrite Hi. Qed.

Lemma observe_rows_apart i j (r1 r2 : response value) :
  i <> j ->
  (forall k, rows_of k [observe (Row i) (Some i) r1] = [] \/
             rows_of k [observe (Row j) (Some j) r2] = []) /\
  (forall who, raised who [observe (Row i) (Some i) r1] = None \/
               raised who [observe (Row j) (Some j) r2] = None).
Proof.
  intros Hne. split; intros k.
  - rewrite !rows_of_observe_rows. repeat case_decide; simplify_eq; auto.
  - rewrite !raised_observe_rows. repeat case_decide; simplify_eq; auto.
Qed.

Lemma pull_rows_commute i j gi gj s :
  i <> j -> gens s !! i = Some gi -> gens s !! j = Some gj ->
  same_view (pull_rows j (pull_rows i s)) (pull_rows i (pull_rows j s)).
Proof.
  intros Hne Hi Hj. rewrite (pull_rows_Some i gi s), (pull_rows_Some j gj s) by done.
  rewrite (pull_rows_Some j gj), (pull_rows_Some i gi)
    by (simpl; by rewrite list_lookup_insert_ne).
  cbn [proc gens log]. rewrite list_insert_insert_ne by done.
  destruct (observe_rows_apart i j (rowgen_next gi).1 (rowgen_next gj).1 Hne).
  apply same_view_swap; [left; apply yields_observe_rows | done | done].
Qed.

Lemma pull_func_rows_commute i g s :
  gens s !! i = Some g ->
  same_view (pull_rows i (pull_func specs eks ev sel s))
            (pull_func specs eks ev sel (pull_rows i s)).
Proof.
  intros Hi. rewrite (pull_rows_Some i g s) by done.
  rewrite (pull_rows_Some i g (pull_func specs eks ev sel s))
    by (by apply lookup_app_l_Some).
  unfold pull_func. cbn [proc gens log].
  rewrite insert_app_l by (by eapply lookup_lt_Some).
  apply same_view_swap; [right; apply yields_observe_rows | |].
  - intros k. left. apply rows_of_observe_func.
  - intros who. rewrite raised_observe_func, raised_observe_rows.
    repeat case_decide; simplify_eq; auto.
Qed.

Lemma pull_commute s who1 who2 :
  who1 <> who2 ->
  (forall i, who1 = Some i \/ who2 = Some i -> i < length (gens s)) ->
  same_view (pull specs eks ev sel (pull specs eks ev sel s who1) who2)
            (pull specs eks ev sel (pull specs eks ev sel s who2) who1).
Proof.
  intros Hne Hlt.
  assert (Hex : forall i, who1 = Some i \/ who2 = Some i -> is_Some (gens s !! i))
    by (intros i Hi; by apply lookup_lt_is_Some_2, Hlt).
  destruct who1 as [i|], who2 as [j|]; simpl; [| | |done].
  - destruct (Hex i) as [gi Hi], (Hex j) as [gj Hj]; auto.
    apply (pull_rows_commute i j gi gj); congruence.
  - destruct (Hex i) as [gi Hi]; auto. symmetry. by eapply pull_func_rows_commute.
  - destruct (Hex j) as [gj Hj]; auto. by eapply pull_func_rows_commute.
Qed.

#[export] Instance pull_proper :
  Proper (same_view ==> eq ==> same_view) (pull specs eks ev sel).
Proof.
  intros [f1 gs1 l1] [f2 gs2 l2] (Hp & Hg & Hl & Hy & Hr & He) who ? <-.
  simpl in *. subst f2 gs2.
  assert (Hsnoc : forall f gs a,
    same_view {| proc := f; gens := gs; log := l1 ++ [a] |}
              {| proc := f; gens := gs; log := l2 ++ [a] |}).
  { intros. unfold same_view. simpl. split_and!; try done; intros;
      rewrite ?yields_app, ?rows_of_app, ?raised_app; by rewrite ?Hl, ?Hy, ?Hr, ?He. }
  destruct who as [i|]; simpl; unfold pull_rows, pull_func; simpl;
    [destruct (gs1 !! i) as [g|]; simpl|]; try apply Hsnoc.
  by unfold same_view.
Qed.

#[export] Instance run_proper schedule :
  Proper (same_view ==> same_view) (run specs eks ev sel schedule).
Proof.
  induction schedule as [|who sch IH]; intros s1 s2 Hs; simpl; [done|].
  apply IH. by rewrite Hs.
Qed.

(** ** The theorems *)

(** C4: the running system implements the trace of [func].  In every
    state the consumer can reach, whatever the order of its pulls: the items
    it got from [func], followed by what the frame of [func] has still to
    deliver, are the trace of [Unpivot.func] on the package; and for every
    row generator it holds, the rows it got from it, followed by what the
    generator has still to deliver, are the row trace at the same position
    of the trace of [Unpivot.func]. *)
Theorem machine_refines pkg s :
  rtc (step specs eks ev sel) (init pkg) s ->
  history (map item_of (yields (log s))) (raised None (log s))
          (func_trace specs eks ev sel (proc s)) = func specs eks ev sel pkg /\
  forall i g, gens s !! i = Some g ->
    exists t, row_traces (gen_items (func specs eks ev sel pkg)) !! i = Some t /\
      history (rows_of i (log s)) (raised (Some i) (log s)) (rowgen_trace g) = t.
Proof.
  intros Hinv%inv_reachable. split; [apply (inv_func Hinv)|].
  intros i g Hi. destruct (inv_rows Hinv i g Hi) as (g0 & H0 & Hex & _).
  exists (rowgen_trace g0). split; [by eapply inv_row_trace | done].
Qed.

(** C10: the descriptor comes before every row.  Whatever the order
    of the pulls, when the consumer gets a row from a row generator, the
    first thing it observed was the descriptor that the schema pass made
    of the package descriptor, and the row generator was yielded by [func]
    after that and before the row: the schema pass is complete and visible
    before any row of any table is produced. *)
Theorem descriptor_before_rows pkg s l1 i row l2 :
  rtc (step specs eks ev sel) (init pkg) s -> log s = l1 ++ Row i row :: l2 ->
  exists m d st g0 l1',
    ResourceMatcher sel (pkg_descriptor pkg) = Ok m /\
    schema_pass m specs eks ev (pkg_descriptor pkg) = Ok (d, st) /\
    l1 = Yielded (YPackage d) :: l1' /\
    rowgens (yields l1') !! i = Some g0.
Proof.
  intros Hs Hlog.
  destruct (reachable_prefix pkg s (l1 ++ [Row i row]) l2 Hs) as (s1 & Hs1 & Hlog1);
    [by rewrite <- app_assoc|].
  by eapply inv_row_created; [apply inv_reachable|].
Qed.

(** C28: the pulls terminate.  A consumer that pulls only on
    generators that have not finished makes at most [pull_bound] pulls: two
    on [func] plus, for every table, two and one for every pair of a row and
    a pivot field; and every such pull adds one observation to the
    history. *)
Theorem pulls_terminate pkg n s :
  nsteps (step specs eks ev sel) n (init pkg) s ->
  n <= pull_bound specs eks ev sel pkg /\ length (log s) = n.
Proof.
  intros [Hw Hl]%nsteps_weight. pose proof (weight_init_le pkg).
  simpl in Hl. split; lia.
Qed.

(** C19: everything is delivered in the end.  From every state the
    consumer can reach it can go on pulling until no generator is left that
    has not finished, and however it does that, its history then holds the
    whole trace of [Unpivot.func]: every item, every row of every row
    trace, and the exceptions they ended with. *)
Theorem everything_delivered pkg s :
  rtc (step specs eks ev sel) (init pkg) s ->
  (exists s', rtc (step specs eks ev sel) s s' /\ nf (step specs eks ev sel) s') /\
  (forall s', rtc (step specs eks ev sel) s s' -> nf (step specs eks ev sel) s' ->
     complete specs eks ev sel pkg (log s')).
Proof.
  intros Hs. split.
  - destruct (reach_quiescent s) as (s' & Hs' & Hq). exists s'.
    split; [done | by apply quiescent_nf].
  - intros s' Hs' Hnf. apply inv_complete; [|by apply quiescent_nf].
    apply inv_reachable. by etrans.
Qed.


(** The relation and the consumer's loop agree.  The states
    reached by [n] steps are the states a consumer following a schedule of
    [n] allowed pulls reaches. *)
Theorem step_run n s s' :
  nsteps (step specs eks ev sel) n s s' <->
  exists schedule, length schedule = n /\ valid specs eks ev sel schedule s = true /\
    s' = run specs eks ev sel schedule s.
Proof.
  split; [apply nsteps_run|]. intros (sch & <- & Hv & ->). by apply run_nsteps.
Qed.

End processor_facts.

(** ** The theorems at the package of two tables *)

Lemma ex_reachable schedule :
  valid (E := literal_engine) ex_specs [ex_quarter] ex_amount SelAll schedule
        (init ex_two) = true ->
  rtc ex_step (init ex_two) (ex_pulled schedule).
Proof. intros Hv. eapply rtc_nsteps_2. by apply run_nsteps. Defined.

Lemma machine_refines_witness :
  history (map item_of (yields (log (ex_pulled ex_interleaved))))
          (raised None (log (ex_pulled ex_interleaved)))
          (func_trace (E := literal_engine) ex_specs [ex_quarter] ex_amount SelAll
             (proc (ex_pulled ex_interleaved))) =
    func (E := literal_engine) ex_specs [ex_quarter] ex_amount SelAll ex_two /\
  forall i g, gens (ex_pulled ex_interleaved) !! i = Some g ->
    exists t,
      row_traces (gen_items (func (E := literal_engine) ex_specs [ex_quarter]
                               ex_amount SelAll ex_two)) !! i = Some t /\
      history (rows_of i (log (ex_pulled ex_interleaved)))
              (raised (Some i) (log (ex_pulled ex_interleaved))) (rowgen_trace g) = t.
Proof.
  apply (machine_refines (E := literal_engine) ex_specs [ex_quarter] ex_amount SelAll
           ex_two (ex_pulled ex_interleaved)).
  apply ex_reachable. vm_compute. reflexivity.
Defined.

Lemma descriptor_before_rows_witness :
  exists m d st g0 l1',
    ResourceMatcher (E := literal_engine) SelAll (pkg_descriptor ex_two) = Ok m /\
    schema_pass m ex_specs [ex_quarter] ex_amount (pkg_descriptor ex_two) = Ok (d, st) /\
    take 3 (log (ex_pulled ex_interleaved)) = Yielded (YPackage d) :: l1' /\
    rowgens (yields l1') !! 1 = Some g0.
Proof.
  apply (descriptor_before_rows (E := literal_engine) ex_specs [ex_quarter] ex_amount
           SelAll ex_two (ex_pulled ex_interleaved)
           (take 3 (log (ex_pulled ex_interleaved))) 1
           (ex_long "region" "west" "1" (VInt 1))
           (drop 4 (log (ex_pulled ex_interleaved)))).
  - apply ex_reachable. vm_compute. reflexivity.
  - vm_compute. reflexivity.
Defined.

Lemma pulls_terminate_witness :
  12 <= pull_bound (E := literal_engine) ex_specs [ex_quarter] ex_amount SelAll ex_two /\
  length (log (ex_pulled ex_drained)) = 12.
Proof.
  apply (pulls_terminate (E := literal_engine) ex_specs [ex_quarter] ex_amount SelAll
           ex_two 12 (ex_pulled ex_drained)).
  apply (run_nsteps (E := literal_engine) ex_specs [ex_quarter] ex_amount SelAll
           ex_drained (init ex_two)).
  vm_compute. reflexivity.
Defined.

Lemma everything_delivered_witness :
  (exists s', rtc ex_step (ex_pulled ex_interleaved) s' /\ nf ex_step s') /\
  (forall s', rtc ex_step (ex_pulled ex_interleaved) s' -> nf ex_step s' ->
     complete (E := literal_engine) ex_specs [ex_quarter] ex_amount SelAll ex_two
              (log s')).
Proof.
  apply (everything_delivered (E := literal_engine) ex_specs [ex_quarter] ex_amount
           SelAll ex_two (ex_pulled ex_interleaved)).
  apply ex_reachable. vm_compute. reflexivity.
Defined.

