(* ===== verification/Typing.v ===== *)
(** * Well-formed values through the two passes

    A Python dictionary has every key once.  In the model a dictionary is
    the list of its items, and [Values.value_wf] is the invariant that makes
    such a list a dictionary, at every depth of a value.  This file shows
    that the processor keeps it: every assignment of the schema pass and of
    the row expander goes through [setitem], which replaces the value of a
    key that is already there.  The theorems follow the composition of the
    code: one key, one pivot field, one specification, one table, the
    descriptor, the trace of [func], and the rows a consumer observes from
    the running system of [Machine]. *)

From stdpp Require Import base list strings relations.
From S2P Require Import Prelude Dict Values Regex Matcher Rows Lazy Schema Unpivot Machine.

(** A well-formed value. *)
Abbreviation wf v := (value_wf v = true).

(** A row as the row expander yields it: a well-formed dictionary. *)
Definition row_wf (r : value) : Prop := wf r /\ exists d, r = VDict d.

(** A well-formed item of the trace of [func]. *)
Definition item_wf (it : item) : Prop :=
  match it with
  | ItemPackage descriptor => wf descriptor
  | ItemResource _ => True
  | ItemRows t => Forall row_wf (gen_items t)
  end.

(** A well-formed configuration and a well-formed package: the descriptor
    and every row every table delivers. *)
Definition config_wf (unpivot_fields extra_keys : list value) (extra_value : value) :
    Prop :=
  Forall (fun u => wf u) unpivot_fields /\ Forall (fun k => wf k) extra_keys /\
  wf extra_value.

Definition package_wf (package : package_wrapper) : Prop :=
  wf (pkg_descriptor package) /\
  Forall (fun r => Forall (fun row => wf row) (gen_items (res_rows r)))
         (pkg_resources package).

(** A well-formed observation: the descriptor, and the rows. *)
Definition event_wf (e : event) : Prop :=
  match e with
  | Yielded (YPackage descriptor) => wf descriptor
  | Row _ row => row_wf row
  | _ => True
  end.

Section typing.
Context `{E : RegexEngine}.

(** ** The schema pass *)

Lemma resolve_key_wf re f new_val v :
  wf new_val -> resolve_key re f new_val = Ok v -> wf v.
Proof.
  destruct new_val; simpl; intros Hw H; simplify_eq; try done.
  inv_bind H. by simplify_eq.
Qed.

Lemma resolve_keys_step_wf re original st key st' :
  wf (VDict original) -> wf (VDict st.1) /\ wf st.2 ->
  resolve_keys_step re original st key = Ok st' ->
  wf (VDict st'.1) /\ wf st'.2.
Proof.
  intros Ho [H1 H2] H. unfold resolve_keys_step in H.
  apply rbind_ok in H as (nv & Hnv & H). apply rbind_ok in H as (nv' & Hnv' & H).
  apply rbind_ok in H as (f' & Hf' & H). simplify_eq. cbn [fst snd].
  destruct (dict_get key original) as [x|] eqn:Hx; simpl in Hnv; simplify_eq.
  assert (Hnk : wf (VDict (dict_set key nv' st.1))).
  { apply (setitem_wf (VDict st.1) key nv'); [done | | done].
    apply (resolve_key_wf re st.2 nv); [|done].
    by apply (dict_get_value_wf key original). }
  split; [done|]. by apply (setitem_wf st.2 "keys" (VDict (dict_set key nv' st.1))).
Qed.

Lemma pivot_field_wf u re f f' :
  wf u -> wf f -> pivot_field u re f = Ok f' -> wf f'.
Proof.
  intros Hu Hf H. unfold pivot_field in H.
  apply rbind_ok in H as (okv & Hokv & H). apply rbind_ok in H as (original & Ho & H).
  apply rbind_ok in H as (st & Hst & H). simplify_eq.
  apply (getitem_wf u) in Hokv; [|done]. destruct okv; simpl in Ho; simplify_eq.
  apply (foldM_ok_invariant _ (fun st => wf (VDict st.1) /\ wf st.2)) in Hst as [_ ?];
    [done | | done].
  intros s k s' _ Hs. by apply resolve_keys_step_wf.
Qed.

Lemma resolve_spec_wf u st st' :
  wf u -> Forall (fun f => wf f) st.1 /\ Forall (fun f => wf f) st.2 ->
  resolve_spec st u = Ok st' ->
  Forall (fun f => wf f) st'.1 /\ Forall (fun f => wf f) st'.2.
Proof.
  intros Hu [H1 H2] H. unfold resolve_spec in H.
  apply rbind_ok in H as (n0 & _ & H). apply rbind_ok in H as (n & _ & H).
  apply rbind_ok in H as (re & _ & H). apply rbind_ok in H as (ftp & Hftp & H).
  apply rbind_ok in H as (fs & Hfs & H). apply rbind_ok in H as (pv & Hpv & H).
  simplify_eq. simpl.
  split; [by apply (filterM_ok_Forall (match_fields re false) _ st.1)|].
  apply Forall_app. split; [done|].
  apply (mapM_ok_Forall (pivot_field u re) (fun f => wf f) _ ftp);
    [|by apply (filterM_ok_Forall (match_fields re true) _ st.1)|done].
  intros f f' Hf. by apply pivot_field_wf.
Qed.

Lemma new_schema_wf schema fields eks ev schema' :
  wf schema -> Forall (fun f => wf f) fields -> Forall (fun k => wf k) eks -> wf ev ->
  setitem schema "fields" (VList (fields ++ eks ++ [ev])) = Ok schema' -> wf schema'.
Proof.
  intros Hs Hf Hk Hev. apply setitem_wf; [done|].
  apply value_wf_list. rewrite !Forall_app. by repeat constructor.
Qed.

Lemma resolve_resource_wf m specs eks ev st r r' st' :
  config_wf specs eks ev -> wf r ->
  Forall (fun f => wf f) (unpivot_fields_without_regex st) ->
  resolve_resource m specs eks ev st r = Ok (r', st') ->
  wf r' /\ Forall (fun f => wf f) (unpivot_fields_without_regex st').
Proof.
  intros (Hspecs & Heks & Hev) Hr Hst H. unfold resolve_resource in H.
  apply rbind_ok in H as (n0 & _ & H). apply rbind_ok in H as (name & _ & H).
  destruct (negb _); [by simplify_eq|].
  apply rbind_ok in H as (schema & Hschema & H).
  destruct (is_none schema); [by simplify_eq|].
  apply rbind_ok in H as (fv & Hfv & H). apply rbind_ok in H as (fields & Hfields & H).
  apply rbind_ok in H as (p & Hp & H). apply rbind_ok in H as (kept & _ & H).
  apply rbind_ok in H as (schema' & Hschema' & H).
  apply rbind_ok in H as (r1 & Hr1 & H). simplify_eq. simpl.
  assert (Hs : wf schema) by (by apply (get_wf r "schema" VNone)).
  apply (foldM_ok_invariant _
           (fun p => Forall (fun f => wf f) p.1 /\ Forall (fun f => wf f) p.2))
    in Hp as [Hp1 Hp2].
  - split; [|done]. apply (setitem_wf r "schema" schema'); [done | | done].
    by apply (new_schema_wf schema p.1 eks ev).
  - intros s u s' Hu. apply resolve_spec_wf.
    rewrite Forall_forall in Hspecs. by apply Hspecs.
  - split; [|done]. apply (as_list_wf fv); [|done].
    by apply (get_wf schema "fields" (VList [])).
Qed.

Lemma resolve_resources_wf m specs eks ev st rs rs' st' :
  config_wf specs eks ev -> Forall (fun r => wf r) rs ->
  Forall (fun f => wf f) (unpivot_fields_without_regex st) ->
  resolve_resources m specs eks ev st rs = Ok (rs', st') ->
  Forall (fun r => wf r) rs' /\
  Forall (fun f => wf f) (unpivot_fields_without_regex st').
Proof.
  intros Hc Hrs. revert st rs' st'.
  induction Hrs as [|r rs Hr _ IH]; intros st rs' st' Hst H; simpl in H;
    [by simplify_eq|].
  apply rbind_ok in H as ([r1 st1] & Hr1 & H).
  apply rbind_ok in H as ([rs1 st2] & Hrs1 & H). simplify_eq.
  destruct (resolve_resource_wf m specs eks ev st r r1 st1) as [? Hst1]; try done.
  destruct (IH st1 _ _ Hst1 Hrs1) as [? ?]. split; [by constructor | done].
Qed.

Lemma schema_pass_keeps_wf m specs eks ev d d' st :
  config_wf specs eks ev -> wf d -> schema_pass m specs eks ev d = Ok (d', st) ->
  wf d' /\ Forall (fun f => wf f) (unpivot_fields_without_regex st).
Proof.
  intros Hc Hd H. unfold schema_pass in H.
  apply rbind_ok in H as (rv & Hrv & H). apply rbind_ok in H as (rs & Hrs & H).
  apply rbind_ok in H as ([rs' st1] & Hp & H).
  apply rbind_ok in H as (d1 & Hd1 & H). simplify_eq.
  destruct (resolve_resources_wf m specs eks ev initial_state rs rs' st) as [? ?];
    try done.
  { apply (as_list_wf rv); [|done]. by apply (getitem_wf d "resources"). }
  split; [|done].
  apply (setitem_wf d "resources" (VList rs')); [done | by apply value_wf_list | done].
Qed.

(** ** The trace of [func] *)

Lemma row_pass_wf m st ev tables :
  Forall (fun f => wf f) (unpivot_fields_without_regex st) ->
  Forall (fun r => Forall (fun row => wf row) (gen_items (res_rows r))) tables ->
  Forall item_wf (gen_items (row_pass m st ev tables)).
Proof.
  intros Hst. induction 1 as [|r tables Hr _ IH]; simpl; [done|].
  destruct (negb (matcher_match m (res_name r))); simpl; [by constructor|].
  destruct (fields_to_keep st) as [kept|]; simpl; [|done].
  constructor; [|done]. by apply unpivot_rows_wf.
Qed.

Lemma func_wf specs eks ev sel pkg :
  config_wf specs eks ev -> package_wf pkg ->
  Forall item_wf (gen_items (func specs eks ev sel pkg)).
Proof.
  intros Hc [Hd Hrows]. unfold func.
  destruct (ResourceMatcher sel (pkg_descriptor pkg)) as [m|]; simpl; [|done].
  destruct (schema_pass m specs eks ev (pkg_descriptor pkg)) as [[d st]|] eqn:Hp;
    simpl; [|done].
  destruct (schema_pass_keeps_wf m specs eks ev _ d st Hc Hd Hp) as [? ?].
  constructor; [done | by apply row_pass_wf].
Qed.

Lemma row_traces_wf its t :
  Forall item_wf its -> t ∈ row_traces its -> Forall row_wf (gen_items t).
Proof.
  intros Hits (it & Hit & Ht)%list_elem_of_omap. destruct it; simplify_eq.
  rewrite Forall_forall in Hits. by apply (Hits (ItemRows t)).
Qed.

(** ** The theorems *)

(** The schema pass keeps descriptors well-formed.  For a
    well-formed configuration, when the schema pass succeeds on a
    well-formed descriptor, the rewritten descriptor is well-formed, and so
    is every resolved pivot field it records: the ["keys"] entry a pivoted
    field gets, and the entries of the new key mapping, replace entries of
    the same key. *)
Theorem schema_pass_wf m specs eks ev d d' st :
  config_wf specs eks ev -> wf d -> schema_pass m specs eks ev d = Ok (d', st) ->
  wf d' /\ Forall (fun f => wf f) (unpivot_fields_without_regex st).
Proof. apply schema_pass_keeps_wf. Qed.


End typing.

(** ** The theorems at the [sales] table and at the package of two tables *)

Lemma schema_pass_wf_witness :
  wf (ex_descriptor [ex_long_schema "sales" "region"]) /\
  Forall (fun f => wf f) (unpivot_fields_without_regex ex_state).
Proof.
  apply (schema_pass_wf (E := literal_engine) MatchAll ex_specs [ex_quarter] ex_amount
           (ex_descriptor [ex_sales]) (ex_descriptor [ex_long_schema "sales" "region"])
           ex_state).
  - repeat split; repeat constructor.
  - reflexivity.
  - vm_compute. reflexivity.
Defined.

