(* ===== verification/Scenarios.v ===== *)
(** * The scenarios of the specification, with regular expressions

    The processor run with the backtracking engine of [Backtrack] on the
    [sales] table: one specification whose name is the pattern [q(\d)] and
    whose key template refers to the group.  The theorems state what the
    schema and the rows are for the template [\1] (Python's syntax for a
    group) and for [$1] (the syntax the specification writes), and what
    [re.sub] does when the pattern can match the empty string. *)

From Stdlib Require Import Ascii.
From stdpp Require Import base list strings.
From S2P Require Import Prelude Dict Values Regex Backtrack Matcher Rows Schema Unpivot.

(** The specification [{name: pattern, keys: {quarter: template}}]. *)
Definition ex_regex_spec (pattern template : string) : value :=
  VDict [("name", VStr pattern); ("keys", VDict [("quarter", VStr template)])].

(** [func] with the backtracking engine on the [sales] table with one row. *)
Definition ex_run (pattern template : string) : gen item :=
  func (E := backtrack_engine) [ex_regex_spec pattern template] [ex_quarter]
       ex_amount SelAll (ex_package [ex_sales] [("sales", [ex_row])]).

(** The resolved keys of the field [name] for a specification. *)
Definition ex_keys (pattern template name : string) : result value :=
  re <- re_compile (RegexEngine := backtrack_engine) pattern ;;
  f <- pivot_field (E := backtrack_engine) (ex_regex_spec pattern template) re
         (ex_field name) ;;
  getitem f "keys".



(** Substitution is search and replace.  The field is selected
    by a full match, but the key is computed by [re.sub], which replaces
    every match it finds in the name: a pattern that can match the empty
    string matches once more at the end of the name, and the template is
    substituted twice; a pattern whose first alternative matches the
    beginning of the name has only that part replaced. *)
Theorem regex_sub_twice :
  ex_keys ".*" "all" "q1" = Ok (VDict [("quarter", VStr "allall")]) /\
  ex_keys "q\d*" "Q" "q1" = Ok (VDict [("quarter", VStr "Q")]) /\
  ex_keys "\w*" "\g<0>!" "q1" = Ok (VDict [("quarter", VStr "q1!!")]) /\
  ex_keys "q|q1" "Q" "q1" = Ok (VDict [("quarter", VStr "Q1")]).
Proof. repeat split; vm_compute; reflexivity. Qed.

(** A pattern that does not compile is a configuration error:
    [func] raises it before anything is yielded. *)
Theorem func_bad_pattern :
  ex_run "q(\d" "\1" = Raise ReError /\ ex_run "q**" "1" = Raise ReError.
Proof. split; vm_compute; reflexivity. Qed.

(** A template that refers to a group the pattern has not is an
    error of [re.sub], raised during the schema pass when a field matches;
    when no field matches the template is never looked at. *)
Theorem func_bad_template :
  ex_run "q(\d)" "\2" = Raise ReError /\
  ex_run "z(\d)" "\2" =
    Yield (ItemPackage
             (ex_descriptor
                [VDict [("name", VStr "sales");
                        ("schema", VDict [("fields",
                           VList (ex_fields ["region"; "q1"; "q2"; "q3"] ++
                                  [ex_quarter; ex_amount]))])]]))
          (Yield (ItemRows Stop) Stop).
Proof. split; vm_compute; reflexivity. Qed.
